(** * Archiveopteryx Sieve front-end: semantic analysis of productions

    A shallow embedding of [src/sieve/sieveproduction.cpp].  The C++
    objects live in a heap of productions addressed by pointers; every
    member function becomes a computation in a state-and-failure monad
    over that heap.  Failure stands for what has no defined outcome in
    the C++ program: following a null or dangling pointer, or walking a
    parent chain that never ends. *)

From Stdlib Require Import String Ascii NArith Bool Lia.
From stdpp Require Import gmap strings list fin_maps.

Local Open Scope string_scope.
Local Open Scope list_scope.

(** ** Strings

    [EString] (bytes) and [UString] (code points) are both modelled as
    [string]: a [UString] is represented by its UTF-8 form, so [utf8()]
    is the identity.  The characters [s[i]] of a [UString] and its
    [ascii()] form are given by [Collaborators] below. *)

Definition isEmpty (s : string) : bool :=
  match s with EmptyString => true | String _ _ => false end.

Definition lowerChar (c : ascii) : ascii :=
  let n := nat_of_ascii c in
  if (65 <=? n)%nat && (n <=? 90)%nat then ascii_of_nat (n + 32) else c.

Definition upperChar (c : ascii) : ascii :=
  let n := nat_of_ascii c in
  if (97 <=? n)%nat && (n <=? 122)%nat then ascii_of_nat (n - 32) else c.

Fixpoint mapString (f : ascii -> ascii) (s : string) : string :=
  match s with
  | EmptyString => EmptyString
  | String c r => String (f c) (mapString f r)
  end.

(** Modelled from the spec: [EString::lower()] is not under src/; the
    spec has identifiers "lower-cased", so every ASCII letter is mapped
    to lower case. *)
Definition lower (s : string) : string := mapString lowerChar s.

(** Modelled from the spec: [UString::titlecased()] is not under src/;
    the spec has the relational operator compared "after upper-casing",
    so every ASCII letter is mapped to upper case. *)
Definition titlecased (s : string) : string := mapString upperChar s.

Definition dquote : string := String (ascii_of_nat 34) EmptyString.

(** Modelled from the spec: [EString::quoted()] is not under src/; the
    diagnostics quoted in the spec (["INBOX.Junk" is Cyrus syntax]) show
    that it wraps the text in double quote marks. *)
Definition quoted (s : string) : string := dquote +:+ s +:+ dquote.

Fixpoint startsWith (s prefix : string) : bool :=
  match prefix, s with
  | EmptyString, _ => true
  | String c p, String d r => Ascii.eqb c d && startsWith r p
  | String _ _, EmptyString => false
  end.

(** [s.mid( n )]: the text from position [n] on. *)
Fixpoint mid (s : string) (n : nat) : string :=
  match n, s with
  | O, _ => s
  | S k, String _ r => mid r k
  | S _, EmptyString => EmptyString
  end.

(** [UStringList::split( c, s )]. *)
Fixpoint split (c : ascii) (s : string) : list string :=
  match s with
  | EmptyString => [EmptyString]
  | String d r =>
      if Ascii.eqb c d then EmptyString :: split c r
      else match split c r with
           | w :: ws => String d w :: ws
           | [] => [String d EmptyString]
           end
  end.

(** [l.join( sep )]. *)
Fixpoint join (sep : string) (l : list string) : string :=
  match l with
  | [] => EmptyString
  | [x] => x
  | x :: r => x +:+ sep +:+ join sep r
  end.

Fixpoint isAscii (s : string) : bool :=
  match s with
  | EmptyString => true
  | String c r => (nat_of_ascii c <? 128)%nat && isAscii r
  end.

(** [l.contains( s )] on a string list. *)
Definition contains (l : list string) (s : string) : bool :=
  existsb (String.eqb s) l.

(** [s[0]]; the index operator of [UString] is not under src/ and is
    taken to yield 0 past the end of the string. *)
Definition firstChar (s : string) : nat :=
  match s with EmptyString => 0 | String c _ => nat_of_ascii c end.

(** ** Data model *)

(** A pointer to a production. *)
Definition ptr : Type := nat.

(** [SieveProductionData].  [prod_parser] tells whether the pointer to
    the (single) [SieveParser] has been set. *)
Record SieveProductionData : Type := mkProduction {
  prod_parent : option ptr;
  prod_parser : bool;
  prod_start : N;
  prod_end : N;
  prod_name : string;
  prod_error : string;
  prod_ihaveFailed : bool;
  prod_addedExtensions : option (list string)
}.

(** [SieveArgumentData]; [arg_list] is the field [list]. *)
Record SieveArgumentData : Type := mkArgument {
  arg_tag : string;
  arg_number : N;
  arg_list : option (list string);
  arg_calls : nat;
  arg_parsed : bool
}.

(** [SieveArgumentListData]: the fields [a], [t] and [n]. *)
Record SieveArgumentListData : Type := mkArgumentList {
  args_a : list ptr;
  args_t : list ptr;
  args_n : list ptr
}.

(** [SieveCommandData]. *)
Record SieveCommandData : Type := mkCommand {
  cmd_identifier : string;
  cmd_arguments : option ptr;
  cmd_block : option ptr;
  cmd_require : bool
}.

Inductive MatchType : Type := Is | Contains | Matches | Value | Count.

(** [SieveTest::MatchOperator]; [NoOperator] is the enumerator [None]. *)
Inductive MatchOperator : Type := NoOperator | GT | GE | LT | LE | EQ | NE.

Inductive AddressPart : Type :=
  NoAddressPart | Localpart | Domain | User | Detail | All.

Inductive BodyMatchType : Type := Rfc822 | Text | SpecifiedTypes.

(** [SieveTestData].  A [UStringList *] is the pointer to the argument
    that owns the list, so that the lists stay shared with the
    arguments as they are in the source; the comparator is kept by
    name. *)
Record SieveTestData : Type := mkTest {
  test_identifier : string;
  test_arguments : option ptr;
  test_block : option ptr;
  test_matchType : MatchType;
  test_matchOperator : MatchOperator;
  test_addressPart : AddressPart;
  test_comparator : option string;
  test_bodyMatchType : BodyMatchType;
  test_headers : option ptr;
  test_envelopeParts : option ptr;
  test_keys : option ptr;
  test_contentTypes : option ptr;
  test_datePart : string;
  test_zone : string;
  test_sizeOver : bool;
  test_sizeLimit : N
}.

(** The classes derived from [SieveProduction]. *)
Inductive production : Type :=
| ScriptP
| ArgumentP (d : SieveArgumentData)
| ArgumentListP (d : SieveArgumentListData)
| BlockP (c : list ptr)
| CommandP (d : SieveCommandData)
| TestP (d : SieveTestData).

Record node : Type := mkNode {
  base : SieveProductionData;
  prod : production
}.

(** The heap of productions and the two registries of the parser.

    Modelled from the spec: [SieveParser] is not under src/; of it the
    analyser uses [rememberBadProduction] (the registry of nodes with an
    error) and [rememberNeededExtension] (the extensions registered with
    the capability resolver), both kept in the order of the calls. *)
Record state : Type := mkState {
  heap : gmap ptr node;
  bad : list ptr;
  extensions : list string
}.

(** ** The monad *)

Definition M (A : Type) : Type := state -> option (A * state).

Definition ret {A : Type} (a : A) : M A := fun s => Some (a, s).

Definition bind {A B : Type} (m : M A) (f : A -> M B) : M B :=
  fun s => match m s with Some (a, s') => f a s' | None => None end.

Definition fail {A : Type} : M A := fun _ => None.

Declare Scope M_scope.
Delimit Scope M_scope with M.
Bind Scope M_scope with M.

Notation "x ← y ; z" := (bind y (fun x => z))
  (at level 20, y at level 100, z at level 200, only parsing) : M_scope.
Notation "' x ← y ; z" := (bind y (fun x => z))
  (at level 20, x pattern, y at level 100, z at level 200, only parsing)
  : M_scope.
Notation "x ;; z" := (bind x (fun _ => z))
  (at level 100, z at level 200, only parsing, right associativity)
  : M_scope.

Local Open Scope M_scope.

Definition gets {A : Type} (f : state -> A) : M A := fun s => Some (f s, s).

(** Following a pointer that may be null. *)
Definition deref (p : option ptr) : M ptr :=
  match p with Some q => ret q | None => fail end.

Definition getNode (p : ptr) : M node :=
  fun s => match heap s !! p with Some nd => Some (nd, s) | None => None end.

Definition putNode (p : ptr) (nd : node) : M unit :=
  fun s => Some (tt, mkState (<[p := nd]> (heap s)) (bad s) (extensions s)).

Definition getBase (p : ptr) : M SieveProductionData :=
  nd ← getNode p; ret (base nd).

Definition modifyBase (p : ptr)
    (f : SieveProductionData -> SieveProductionData) : M unit :=
  nd ← getNode p; putNode p (mkNode (f (base nd)) (prod nd)).

Definition getArgument (p : ptr) : M SieveArgumentData :=
  nd ← getNode p;
  match prod nd with ArgumentP d => ret d | _ => fail end.

Definition modifyArgument (p : ptr)
    (f : SieveArgumentData -> SieveArgumentData) : M unit :=
  nd ← getNode p;
  match prod nd with
  | ArgumentP d => putNode p (mkNode (base nd) (ArgumentP (f d)))
  | _ => fail
  end.

Definition getArgumentList (p : ptr) : M SieveArgumentListData :=
  nd ← getNode p;
  match prod nd with ArgumentListP d => ret d | _ => fail end.

Definition modifyArgumentList (p : ptr)
    (f : SieveArgumentListData -> SieveArgumentListData) : M unit :=
  nd ← getNode p;
  match prod nd with
  | ArgumentListP d => putNode p (mkNode (base nd) (ArgumentListP (f d)))
  | _ => fail
  end.

Definition getBlock (p : ptr) : M (list ptr) :=
  nd ← getNode p;
  match prod nd with BlockP c => ret c | _ => fail end.

Definition getCommand (p : ptr) : M SieveCommandData :=
  nd ← getNode p;
  match prod nd with CommandP d => ret d | _ => fail end.

Definition modifyCommand (p : ptr)
    (f : SieveCommandData -> SieveCommandData) : M unit :=
  nd ← getNode p;
  match prod nd with
  | CommandP d => putNode p (mkNode (base nd) (CommandP (f d)))
  | _ => fail
  end.

Definition getTest (p : ptr) : M SieveTestData :=
  nd ← getNode p;
  match prod nd with TestP d => ret d | _ => fail end.

Definition modifyTest (p : ptr) (f : SieveTestData -> SieveTestData) : M unit :=
  nd ← getNode p;
  match prod nd with
  | TestP d => putNode p (mkNode (base nd) (TestP (f d)))
  | _ => fail
  end.

(** [while ( i ) { body; ++i; }] over a list. *)
Fixpoint forEach {A : Type} (l : list A) (body : A -> M unit) : M unit :=
  match l with
  | [] => ret tt
  | x :: r => body x;; forEach r body
  end.

(** The steps a walk up the parent chain may take: one more than there
    are productions.  It runs out only on a chain that is cyclic, where
    the C++ loop does not end. *)
Definition walkFuel : M nat := gets (fun s => S (size (heap s))).

(** ** The registries of [SieveParser] *)

Module SieveParser.

Definition rememberBadProduction (p : ptr) : M unit :=
  fun s => Some (tt, mkState (heap s) (bad s ++ [p]) (extensions s)).

Definition rememberNeededExtension (extension : string) : M unit :=
  fun s => Some (tt, mkState (heap s) (bad s) (extensions s ++ [extension])).

End SieveParser.

(** ** External collaborators

    The analyser calls into classes that are not under src/ (the spec
    lists them as external collaborators); they are taken as
    parameters.  [AddressParser_error s] is [error()] after
    [AddressParser( s ).assertSingleAddress()]; the [mime_] functions
    give, for the text handed to [Message::parseHeader] and
    [Bodypart::parseBodypart], the header's error, the names of its
    fields, the bodypart's error and whether the bodypart has neither
    children nor text.

    Modelled from the spec: [SieveNotifyMethod] is not under src/; the
    spec has it validate the URI.  Its constructor and its [setFrom]
    and [setMessage] are taken to report a diagnostic (the [notify_]
    functions, empty when there is none) through [setError] on the
    argument they are given, or on the owner when that is null.

    [UString_characters s] are the characters [s[0]], [s[1]], ... (code
    points) of the [UString] whose UTF-8 form is [s], and
    [UString_ascii s] is its [ascii()]. *)
Class Collaborators : Type := {
  Collation_supported : list string;
  Collation_create : string -> bool;
  Mailbox_validName : string -> bool;
  AddressParser_error : string -> string;
  mime_headerError : string -> string;
  mime_fields : string -> list string;
  mime_bodypartError : string -> string;
  mime_bodypartEmpty : string -> bool;
  HeaderField_fieldType : string -> nat;
  HeaderField_LastAddressField : nat;
  headerCased : string -> string;
  fn : nat -> string;
  UString_characters : string -> list nat;
  UString_ascii : string -> string;
  notify_error : string -> string;
  notify_fromError : string -> string;
  notify_messageError : string -> string
}.

(** ** SieveProduction *)

Module SieveProduction.

Definition withParent (p : option ptr) (d : SieveProductionData) :=
  mkProduction p (prod_parser d) (prod_start d) (prod_end d) (prod_name d)
    (prod_error d) (prod_ihaveFailed d) (prod_addedExtensions d).

Definition withParser (p : bool) (d : SieveProductionData) :=
  mkProduction (prod_parent d) p (prod_start d) (prod_end d) (prod_name d)
    (prod_error d) (prod_ihaveFailed d) (prod_addedExtensions d).

Definition withError (e : string) (d : SieveProductionData) :=
  mkProduction (prod_parent d) (prod_parser d) (prod_start d) (prod_end d)
    (prod_name d) e (prod_ihaveFailed d) (prod_addedExtensions d).

Definition withIhaveFailed (b : bool) (d : SieveProductionData) :=
  mkProduction (prod_parent d) (prod_parser d) (prod_start d) (prod_end d)
    (prod_name d) (prod_error d) b (prod_addedExtensions d).

Definition withAddedExtensions (l : option (list string))
    (d : SieveProductionData) :=
  mkProduction (prod_parent d) (prod_parser d) (prod_start d) (prod_end d)
    (prod_name d) (prod_error d) (prod_ihaveFailed d) l.

(** The constructor: [SieveProductionData( n )]. *)
Definition init (n : string) : SieveProductionData :=
  mkProduction None false 0 0 n "" false None.

Definition setParent (this : ptr) (parent : option ptr) : M unit :=
  modifyBase this (withParent parent).

Definition setParser (this : ptr) (p : bool) : M unit :=
  modifyBase this (withParser p);;
  d ← getBase this;
  if prod_parser d && negb (isEmpty (prod_error d))
  then SieveParser.rememberBadProduction this
  else ret tt.

(** [while ( p && !p->ihaveFailed() ) p = p->parent();] *)
Fixpoint findIhaveFailed (fuel : nat) (p : option ptr) : M (option ptr) :=
  match p with
  | None => ret None
  | Some q =>
      match fuel with
      | O => fail
      | S k =>
          d ← getBase q;
          if prod_ihaveFailed d then ret (Some q)
          else findIhaveFailed k (prod_parent d)
      end
  end.

Definition setError (this : ptr) (e : string) : M unit :=
  d ← getBase this;
  (if isEmpty e then
     modifyBase this (withError e)
   else if isEmpty (prod_error d) then
     fuel ← walkFuel;
     p ← findIhaveFailed fuel (Some this);
     match p with
     | None => modifyBase this (withError e)
     | Some _ => ret tt
     end
   else ret tt);;
  d' ← getBase this;
  if negb (isEmpty (prod_error d')) && prod_parser d'
  then SieveParser.rememberBadProduction this
  else ret tt.

(** The loop of [require]: [true] when an enclosing production has
    added the extension. *)
Fixpoint declared (fuel : nat) (p : option ptr) (extension : string)
    : M bool :=
  match p with
  | None => ret false
  | Some q =>
      match fuel with
      | O => fail
      | S k =>
          d ← getBase q;
          match prod_addedExtensions d with
          | Some l =>
              if contains l extension then ret true
              else declared k (prod_parent d) extension
          | None => declared k (prod_parent d) extension
          end
      end
  end.

Definition require (this : ptr) (extension : string) : M unit :=
  fuel ← walkFuel;
  found ← declared fuel (Some this) extension;
  if found then ret tt
  else
    d ← getBase this;
    if prod_parser d then SieveParser.rememberNeededExtension extension
    else ret tt.

Definition supportedExtensions `{Collaborators} : list string :=
  ["body"]
  ++ map (fun c => "comparator-" +:+ c) Collation_supported
  ++ ["copy"; "date"; "ereject"; "envelope"; "fileinto"; "ihave";
      "imap4flags"; "reject"; "relational"; "subaddress"; "vacation"].

Definition setIhaveFailed (this : ptr) : M unit :=
  modifyBase this (withIhaveFailed true).

(** The first loop of [addExtensions]: what this production and its
    ancestors have added. *)
Fixpoint already (fuel : nat) (p : option ptr) : M (list string) :=
  match p with
  | None => ret []
  | Some q =>
      match fuel with
      | O => fail
      | S k =>
          d ← getBase q;
          r ← already k (prod_parent d);
          ret (default [] (prod_addedExtensions d) ++ r)
      end
  end.

Definition addExtensions (this : ptr) (list : option (list string))
    : M unit :=
  match list with
  | None => ret tt
  | Some [] => ret tt
  | Some l =>
      fuel ← walkFuel;
      al ← already fuel (Some this);
      forEach l (fun i =>
        if negb (contains al i) then
          modifyBase this (fun d =>
            withAddedExtensions
              (Some (default [] (prod_addedExtensions d) ++ [i])) d)
        else ret tt)
  end.

End SieveProduction.

(** ** SieveArgument *)

Module SieveArgument.

Import SieveProduction.

Definition init : SieveArgumentData := mkArgument "" 0 None 0 false.

Definition setTag (this : ptr) (t : string) : M unit :=
  modifyArgument this (fun d =>
    mkArgument t (arg_number d) (arg_list d) (S (arg_calls d)) (arg_parsed d)).

Definition setNumber (this : ptr) (n : N) : M unit :=
  modifyArgument this (fun d =>
    mkArgument (arg_tag d) n (arg_list d) (S (arg_calls d)) (arg_parsed d)).

Definition setStringList (this : ptr) (s : option (list string)) : M unit :=
  match s with
  | None => ret tt
  | Some l =>
      modifyArgument this (fun d =>
        mkArgument (arg_tag d) (arg_number d) (Some l) (S (arg_calls d))
          (arg_parsed d))
  end.

Definition withList (l : option (list string)) (d : SieveArgumentData) :=
  mkArgument (arg_tag d) (arg_number d) l (arg_calls d) (arg_parsed d).

Definition setParsed (this : ptr) (p : bool) : M unit :=
  modifyArgument this (fun d =>
    mkArgument (arg_tag d) (arg_number d) (arg_list d) (arg_calls d) p).

(** [stringList()]: a [UStringList *] is returned as the pointer to the
    argument that owns the list, and null when the argument has no
    list. *)
Definition stringList (this : ptr) : M (option ptr) :=
  d ← getArgument this;
  ret (if bool_decide (is_Some (arg_list d)) then Some this else None).

Definition listIsEmpty (l : option (list string)) : bool :=
  match l with None | Some [] => true | Some (_ :: _) => false end.

Definition assertNumber (this : ptr) : M unit :=
  d ← getArgument this;
  if negb (isEmpty (arg_tag d)) then
    setError this "Expected a number here, not a tag"
  else if bool_decide (is_Some (arg_list d)) then
    setError this "Expected a number here, not a string or string list"
  else ret tt.

Definition assertString (this : ptr) : M unit :=
  d ← getArgument this;
  if negb (isEmpty (arg_tag d)) then
    setError this "Expected a string here, not a tag"
  else if negb (N.eqb (arg_number d) 0) then
    setError this "Expected a string here, not a number"
  else if listIsEmpty (arg_list d) then
    setError this "Expected a single string here"
  else if negb (Nat.eqb (length (default [] (arg_list d))) 1) then
    setError this "Expected a single string here, not a string list"
  else ret tt.

Definition assertStringList (this : ptr) : M unit :=
  d ← getArgument this;
  if negb (isEmpty (arg_tag d)) then
    setError this "Expected a string list here, not a tag"
  else if negb (N.eqb (arg_number d) 0) then
    setError this "Expected a string list here, not a number"
  else if listIsEmpty (arg_list d) then
    setError this "Expected a string list here"
  else ret tt.

Definition assertTag (this : ptr) : M unit :=
  d ← getArgument this;
  if negb (N.eqb (arg_number d) 0) then
    setError this "Expected a tag here, not a number"
  else if bool_decide (is_Some (arg_list d)) then
    setError this "Expected a tag here, not a string or string list"
  else ret tt.

End SieveArgument.

(** ** SieveArgumentList *)

Module SieveArgumentList.

Import SieveProduction.

Definition init : SieveArgumentListData := mkArgumentList [] [] [].

(** [append( SieveArgument * a )]. *)
Definition append (this : ptr) (a : option ptr) : M unit :=
  match a with
  | None => ret tt
  | Some q =>
      modifyArgumentList this (fun d =>
        mkArgumentList (args_a d ++ [q]) (args_t d) (args_n d));;
      setParent q (Some this)
  end.

(** [append( SieveTest * t )]. *)
Definition appendTest (this : ptr) (t : option ptr) : M unit :=
  match t with
  | None => ret tt
  | Some q =>
      modifyArgumentList this (fun d =>
        mkArgumentList (args_a d) (args_t d ++ [q]) (args_n d));;
      setParent q (Some this)
  end.

Definition arguments (this : ptr) : M (list ptr) :=
  d ← getArgumentList this; ret (args_a d).

Definition tests (this : ptr) : M (list ptr) :=
  d ← getArgumentList this; ret (args_t d).

(** The loop of [argumentFollowingTag]; [l] is what the iterator [i]
    has yet to visit. *)
Fixpoint argumentFollowingTagLoop (l : list ptr) (tag : string)
    (firstTag result : option ptr) : M (option ptr) :=
  match l with
  | [] => ret result
  | i :: rest =>
      a ← getArgument i;
      firstTag' ←
        (if (arg_tag a =? tag)%string then
           match firstTag with
           | Some f =>
               setError f ("Tag used twice: " +:+ tag);;
               setError i ("Tag used twice: " +:+ tag);;
               ret firstTag
           | None =>
               SieveArgument.setParsed i true;;
               ret (Some i)
           end
         else ret firstTag);
      result' ←
        match firstTag', result with
        | Some f, None =>
            match rest with
            | j :: _ =>
                SieveArgument.setParsed j true;;
                ret (Some j)
            | [] =>
                setError f ("Tag not followed by argument: " +:+ tag);;
                ret None
            end
        | _, _ => ret result
        end;
      argumentFollowingTagLoop rest tag firstTag' result'
  end.

Definition argumentFollowingTag (this : ptr) (tag : string)
    : M (option ptr) :=
  l ← arguments this;
  argumentFollowingTagLoop l tag None None.

(** The string a [UStringList *] starts with,
    [*a->stringList()->firstElement()]; there is none in an empty
    list. *)
Definition firstElement (l : list string) : M string :=
  match l with x :: _ => ret x | [] => fail end.

Definition takeTaggedString (this : ptr) (tag : string) : M string :=
  a ← argumentFollowingTag this tag;
  match a with
  | None => ret ""
  | Some q =>
      SieveArgument.assertString q;;
      d ← getArgument q;
      match arg_list d with
      | Some l => firstElement l
      | None => ret ""
      end
  end.

Definition takeTaggedStringList (this : ptr) (tag : string)
    : M (option ptr) :=
  a ← argumentFollowingTag this tag;
  match a with
  | None => ret None
  | Some q =>
      SieveArgument.assertStringList q;;
      SieveArgument.stringList q
  end.

Definition takeTaggedNumber (this : ptr) (tag : string) : M N :=
  a ← argumentFollowingTag this tag;
  match a with
  | None => ret 0%N
  | Some q =>
      SieveArgument.assertNumber q;;
      d ← getArgument q;
      ret (arg_number d)
  end.

(** [while ( a && a->tag() != tag ) ++a;] *)
Fixpoint findTagSeek (l : list ptr) (tag : string) : M (list ptr) :=
  match l with
  | [] => ret []
  | a :: rest =>
      d ← getArgument a;
      if negb (arg_tag d =? tag)%string then findTagSeek rest tag
      else ret l
  end.

Definition findTag (this : ptr) (tag : string) : M (option ptr) :=
  l ← arguments this;
  pos ← findTagSeek l tag;
  match pos with
  | [] => ret None
  | r :: rest =>
      forEach rest (fun a =>
        d ← getArgument a;
        if (arg_tag d =? tag)%string then
          setError r ("Tag occurs twice: " +:+ tag);;
          setError a ("Tag occurs twice: " +:+ tag)
        else ret tt);;
      SieveArgument.setParsed r true;;
      ret (Some r)
  end.

(** The first loop of [allowOneTag]; the tags [t1] to [t5] come as a
    list, those left out of the call being absent from it. *)
Fixpoint allowOneTagCollect (l : list ptr) (ts : list string)
    : M (list ptr) :=
  match l with
  | [] => ret []
  | a :: rest =>
      d ← getArgument a;
      r ← allowOneTagCollect rest ts;
      if negb (isEmpty (arg_tag d)) && contains ts (arg_tag d)
      then ret (a :: r)
      else ret r
  end.

Definition allowOneTag (this : ptr) (ts : list string) : M unit :=
  l ← arguments this;
  r ← allowOneTagCollect l ts;
  match r with
  | a :: ((_ :: _) as others) =>
      setError a "Mutually exclusive tags used";;
      d ← getArgument a;
      forEach others (fun b =>
        e ← getArgument b;
        setError b ("Tag " +:+ arg_tag d +:+ " conflicts with " +:+ arg_tag e))
  | _ => ret tt
  end.

(** The loop of [numberRemainingArguments]. *)
Fixpoint unparsed (l : list ptr) : M (list ptr) :=
  match l with
  | [] => ret []
  | i :: rest =>
      d ← getArgument i;
      r ← unparsed rest;
      if negb (arg_parsed d) then ret (i :: r) else ret r
  end.

Definition numberRemainingArguments (this : ptr) : M unit :=
  l ← arguments this;
  n ← unparsed l;
  modifyArgumentList this (fun d => mkArgumentList (args_a d) (args_t d) n).

Definition flagUnparsedAsBad (this : ptr) : M unit :=
  l ← arguments this;
  forEach l (fun i =>
    d ← getArgument i;
    if arg_parsed d then ret tt
    else if negb (N.eqb (arg_number d) 0) then
      setError i "Why is this number here?"
    else if bool_decide (is_Some (arg_list d)) then
      setError i "Why is this string/list here?"
    else if negb (isEmpty (arg_tag d)) then
      setError i ("Unknown tag: " +:+ arg_tag d)
    else
      setError i "What happened? I'm dazed and confused").

(** [while ( i && n > 1 ) { ++i; n--; }]: what is left of the list when
    the loop ends. *)
Fixpoint advance (l : list ptr) (n : nat) : list ptr :=
  match l with
  | [] => []
  | _ :: rest => if (1 <? n)%nat then advance rest (n - 1) else l
  end.

Definition takeStringList (this : ptr) (n : nat) : M (option ptr) :=
  d ← getArgumentList this;
  match advance (args_n d) n with
  | [] =>
      setError this "Missing string/list argument";;
      ret None
  | i :: _ =>
      SieveArgument.assertStringList i;;
      SieveArgument.setParsed i true;;
      SieveArgument.stringList i
  end.

Definition takeString (this : ptr) (n : nat) : M string :=
  d ← getArgumentList this;
  match advance (args_n d) n with
  | [] =>
      setError this "Missing string argument";;
      ret ""
  | i :: _ =>
      SieveArgument.assertString i;;
      SieveArgument.setParsed i true;;
      a ← getArgument i;
      match arg_list a with
      | Some l => firstElement l
      | None => ret ""
      end
  end.

Definition takeNumber (this : ptr) (n : nat) : M N :=
  d ← getArgumentList this;
  match advance (args_n d) n with
  | [] =>
      setError this "Missing numeric argument";;
      ret 0%N
  | i :: _ =>
      SieveArgument.assertNumber i;;
      SieveArgument.setParsed i true;;
      a ← getArgument i;
      ret (arg_number a)
  end.

(** [while ( i && n > 1 ) ++i;]: the loop of [takeArgument], which
    leaves [n] as it is. *)
Fixpoint advanceSame (l : list ptr) (n : nat) : list ptr :=
  match l with
  | [] => []
  | _ :: rest => if (1 <? n)%nat then advanceSame rest n else l
  end.

Definition takeArgument (this : ptr) (n : nat) : M (option ptr) :=
  d ← getArgumentList this;
  ret (head (advanceSame (args_n d) n)).

Definition tagError (this : ptr) (tag : string) (error : string) : M unit :=
  t ← argumentFollowingTag this tag;
  t' ← match t with
       | Some _ => ret t
       | None => findTag this tag
       end;
  match t' with
  | Some q => setError q error
  | None => setError this error
  end.

End SieveArgumentList.

(** ** SieveBlock *)

Module SieveBlock.

Definition append (this : ptr) (c : option ptr) : M unit :=
  match c with
  | None => ret tt
  | Some q =>
      nd ← getNode this;
      match prod nd with
      | BlockP l => putNode this (mkNode (base nd) (BlockP (l ++ [q])))
      | _ => fail
      end;;
      SieveProduction.setParent q (Some this)
  end.

Definition commands (this : ptr) : M (list ptr) := getBlock this.

End SieveBlock.

(** ** SieveNotifyMethod (external, see [Collaborators]) *)

Module SieveNotifyMethod.

Definition report (arg : option ptr) (owner : ptr) (e : string) : M unit :=
  if isEmpty e then ret tt
  else SieveProduction.setError (default owner arg) e.

(** [new SieveNotifyMethod( url, arg, owner )]; the result is
    [valid()]. *)
Definition new `{Collaborators} (url : string) (arg : option ptr)
    (owner : ptr) : M bool :=
  report arg owner (notify_error url);;
  ret (isEmpty (notify_error url)).

Definition setFrom `{Collaborators} (owner : ptr) (from : string)
    (arg : option ptr) : M unit :=
  report arg owner (notify_fromError from).

Definition setMessage `{Collaborators} (owner : ptr) (message : string)
    (arg : option ptr) : M unit :=
  report arg owner (notify_messageError message).

End SieveNotifyMethod.

(** ** SieveTest *)

Module SieveTest.

Import SieveProduction.

Definition init : SieveTestData :=
  mkTest "" None None Is NoOperator NoAddressPart None Text
    None None None None "" "" false 0.

Definition setIdentifier (this : ptr) (i : string) : M unit :=
  modifyTest this (fun d =>
    mkTest (lower i) (test_arguments d) (test_block d) (test_matchType d)
      (test_matchOperator d) (test_addressPart d) (test_comparator d)
      (test_bodyMatchType d) (test_headers d) (test_envelopeParts d)
      (test_keys d) (test_contentTypes d) (test_datePart d) (test_zone d)
      (test_sizeOver d) (test_sizeLimit d)).

Definition setArguments (this : ptr) (l : option ptr) : M unit :=
  match l with
  | None => ret tt
  | Some q =>
      modifyTest this (fun d =>
        mkTest (test_identifier d) (Some q) (test_block d) (test_matchType d)
          (test_matchOperator d) (test_addressPart d) (test_comparator d)
          (test_bodyMatchType d) (test_headers d) (test_envelopeParts d)
          (test_keys d) (test_contentTypes d) (test_datePart d) (test_zone d)
          (test_sizeOver d) (test_sizeLimit d));;
      setParent q (Some this)
  end.

Definition identifier (this : ptr) : M string :=
  d ← getTest this; ret (test_identifier d).

(** [arguments()], followed: the test's argument list, which the
    callers below use without a null check. *)
Definition arguments (this : ptr) : M ptr :=
  d ← getTest this; deref (test_arguments d).

Definition setMatchType (this : ptr) (m : MatchType) : M unit :=
  modifyTest this (fun d =>
    mkTest (test_identifier d) (test_arguments d) (test_block d) m
      (test_matchOperator d) (test_addressPart d) (test_comparator d)
      (test_bodyMatchType d) (test_headers d) (test_envelopeParts d)
      (test_keys d) (test_contentTypes d) (test_datePart d) (test_zone d)
      (test_sizeOver d) (test_sizeLimit d)).

Definition setMatchOperator (this : ptr) (m : MatchOperator) : M unit :=
  modifyTest this (fun d =>
    mkTest (test_identifier d) (test_arguments d) (test_block d)
      (test_matchType d) m (test_addressPart d) (test_comparator d)
      (test_bodyMatchType d) (test_headers d) (test_envelopeParts d)
      (test_keys d) (test_contentTypes d) (test_datePart d) (test_zone d)
      (test_sizeOver d) (test_sizeLimit d)).

Definition setAddressPart (this : ptr) (a : AddressPart) : M unit :=
  modifyTest this (fun d =>
    mkTest (test_identifier d) (test_arguments d) (test_block d)
      (test_matchType d) (test_matchOperator d) a (test_comparator d)
      (test_bodyMatchType d) (test_headers d) (test_envelopeParts d)
      (test_keys d) (test_contentTypes d) (test_datePart d) (test_zone d)
      (test_sizeOver d) (test_sizeLimit d)).

Definition setComparator (this : ptr) (c : option string) : M unit :=
  modifyTest this (fun d =>
    mkTest (test_identifier d) (test_arguments d) (test_block d)
      (test_matchType d) (test_matchOperator d) (test_addressPart d) c
      (test_bodyMatchType d) (test_headers d) (test_envelopeParts d)
      (test_keys d) (test_contentTypes d) (test_datePart d) (test_zone d)
      (test_sizeOver d) (test_sizeLimit d)).

Definition setBodyMatchType (this : ptr) (b : BodyMatchType) : M unit :=
  modifyTest this (fun d =>
    mkTest (test_identifier d) (test_arguments d) (test_block d)
      (test_matchType d) (test_matchOperator d) (test_addressPart d)
      (test_comparator d) b (test_headers d) (test_envelopeParts d)
      (test_keys d) (test_contentTypes d) (test_datePart d) (test_zone d)
      (test_sizeOver d) (test_sizeLimit d)).

Definition setHeaders (this : ptr) (h : option ptr) : M unit :=
  modifyTest this (fun d =>
    mkTest (test_identifier d) (test_arguments d) (test_block d)
      (test_matchType d) (test_matchOperator d) (test_addressPart d)
      (test_comparator d) (test_bodyMatchType d) h (test_envelopeParts d)
      (test_keys d) (test_contentTypes d) (test_datePart d) (test_zone d)
      (test_sizeOver d) (test_sizeLimit d)).

Definition setEnvelopeParts (this : ptr) (e : option ptr) : M unit :=
  modifyTest this (fun d =>
    mkTest (test_identifier d) (test_arguments d) (test_block d)
      (test_matchType d) (test_matchOperator d) (test_addressPart d)
      (test_comparator d) (test_bodyMatchType d) (test_headers d) e
      (test_keys d) (test_contentTypes d) (test_datePart d) (test_zone d)
      (test_sizeOver d) (test_sizeLimit d)).

Definition setKeys (this : ptr) (k : option ptr) : M unit :=
  modifyTest this (fun d =>
    mkTest (test_identifier d) (test_arguments d) (test_block d)
      (test_matchType d) (test_matchOperator d) (test_addressPart d)
      (test_comparator d) (test_bodyMatchType d) (test_headers d)
      (test_envelopeParts d) k (test_contentTypes d) (test_datePart d)
      (test_zone d) (test_sizeOver d) (test_sizeLimit d)).

Definition setContentTypes (this : ptr) (c : option ptr) : M unit :=
  modifyTest this (fun d =>
    mkTest (test_identifier d) (test_arguments d) (test_block d)
      (test_matchType d) (test_matchOperator d) (test_addressPart d)
      (test_comparator d) (test_bodyMatchType d) (test_headers d)
      (test_envelopeParts d) (test_keys d) c (test_datePart d)
      (test_zone d) (test_sizeOver d) (test_sizeLimit d)).

Definition setDatePart (this : ptr) (p : string) : M unit :=
  modifyTest this (fun d =>
    mkTest (test_identifier d) (test_arguments d) (test_block d)
      (test_matchType d) (test_matchOperator d) (test_addressPart d)
      (test_comparator d) (test_bodyMatchType d) (test_headers d)
      (test_envelopeParts d) (test_keys d) (test_contentTypes d) p
      (test_zone d) (test_sizeOver d) (test_sizeLimit d)).

Definition setZone (this : ptr) (z : string) : M unit :=
  modifyTest this (fun d =>
    mkTest (test_identifier d) (test_arguments d) (test_block d)
      (test_matchType d) (test_matchOperator d) (test_addressPart d)
      (test_comparator d) (test_bodyMatchType d) (test_headers d)
      (test_envelopeParts d) (test_keys d) (test_contentTypes d)
      (test_datePart d) z (test_sizeOver d) (test_sizeLimit d)).

Definition setSize (this : ptr) (over : bool) (limit : N) : M unit :=
  modifyTest this (fun d =>
    mkTest (test_identifier d) (test_arguments d) (test_block d)
      (test_matchType d) (test_matchOperator d) (test_addressPart d)
      (test_comparator d) (test_bodyMatchType d) (test_headers d)
      (test_envelopeParts d) (test_keys d) (test_contentTypes d)
      (test_datePart d) (test_zone d) over limit).

Definition findComparator `{Collaborators} (this : ptr) : M unit :=
  al ← arguments this;
  a ← SieveArgumentList.takeTaggedString al ":comparator";
  if isEmpty a then require this "comparator-i;ascii-casemap"
  else
    setComparator this (if Collation_create a then Some a else None);;
    if negb (Collation_create a) then
      SieveArgumentList.tagError al ":comparator"
        ("Unknown comparator: " +:+ a)
    else require this ("comparator-" +:+ a).

(** The chain of comparisons at the end of [findMatchType]. *)
Definition relationalOperator (s : string) : option MatchOperator :=
  if (s =? "GT")%string then Some GT
  else if (s =? "GE")%string then Some GE
  else if (s =? "LT")%string then Some LT
  else if (s =? "LE")%string then Some LE
  else if (s =? "EQ")%string then Some EQ
  else if (s =? "NE")%string then Some NE
  else None.

Definition isRelational (m : MatchType) : bool :=
  match m with Value | Count => true | _ => false end.

Definition findMatchType (this : ptr) : M unit :=
  al ← arguments this;
  SieveArgumentList.allowOneTag al
    [":is"; ":matches"; ":contains"; ":value"; ":count"];;
  is_ ← SieveArgumentList.findTag al ":is";
  (if bool_decide (is_Some is_) then setMatchType this Is
   else
     matches ← SieveArgumentList.findTag al ":matches";
     if bool_decide (is_Some matches) then setMatchType this Matches
     else
       contains ← SieveArgumentList.findTag al ":contains";
       if bool_decide (is_Some contains) then setMatchType this Contains
       else
         value ← SieveArgumentList.findTag al ":value";
         if bool_decide (is_Some value) then setMatchType this Value
         else
           count ← SieveArgumentList.findTag al ":count";
           if bool_decide (is_Some count) then setMatchType this Count
           else ret tt);;
  d ← getTest this;
  if isRelational (test_matchType d) then
    require this "relational";;
    let t := match test_matchType d with Count => ":count" | _ => ":value" end in
    r ← SieveArgumentList.takeTaggedString al t;
    let s := titlecased r in
    match relationalOperator s with
    | Some op => setMatchOperator this op
    | None =>
        SieveArgumentList.tagError al t
          ("Unknown relational operator: " +:+ s)
    end
  else ret tt.

Definition isSubaddress (a : AddressPart) : bool :=
  match a with Detail | User => true | _ => false end.

Definition findAddressPart (this : ptr) : M unit :=
  al ← arguments this;
  SieveArgumentList.allowOneTag al
    [":localpart"; ":domain"; ":user"; ":detail"; ":all"];;
  localpart ← SieveArgumentList.findTag al ":localpart";
  (if bool_decide (is_Some localpart) then setAddressPart this Localpart
   else
     domain ← SieveArgumentList.findTag al ":domain";
     if bool_decide (is_Some domain) then setAddressPart this Domain
     else
       user ← SieveArgumentList.findTag al ":user";
       if bool_decide (is_Some user) then setAddressPart this User
       else
         detail ← SieveArgumentList.findTag al ":detail";
         if bool_decide (is_Some detail) then setAddressPart this Detail
         else
           all ← SieveArgumentList.findTag al ":all";
           if bool_decide (is_Some all) then setAddressPart this All
           else ret tt);;
  d ← getTest this;
  if isSubaddress (test_addressPart d) then require this "subaddress"
  else ret tt.

(** The body of the loop of [takeHeaderFieldList] for the string at
    position [k] of the list of argument [a]: the loop over the
    characters [s[i]], the address check on [s.ascii()], and the
    replacement of the string by [h->ascii().headerCased()] when that
    differs from it. *)
Definition headerField `{Collaborators} (this a : ptr) (k : nat) : M unit :=
  d ← getArgument a;
  match default [] (arg_list d) !! k with
  | None => ret tt
  | Some s =>
      (if isEmpty s then
         setError a "Empty header field names are not allowed"
       else ret tt);;
      forEach (UString_characters s) (fun n =>
        if (n <? 33)%nat || (n =? 58)%nat || (126 <? n)%nat then
          setError a ("Illegal character (ASCII " +:+ fn n +:+ ") "
                      +:+ "seen in header field name: " +:+ s)
        else ret tt);;
      i ← identifier this;
      (if (i =? "address")%string then
         let t := HeaderField_fieldType (UString_ascii s) in
         if (t =? 0)%nat || (HeaderField_LastAddressField <? t)%nat then
           setError a ("Not an address field: " +:+ UString_ascii s)
         else ret tt
       else ret tt);;
      if negb (headerCased (UString_ascii s) =? s)%string then
        modifyArgument a (fun d' =>
          SieveArgument.withList
            (Some (<[k := headerCased (UString_ascii s)]>
                     (default [] (arg_list d')))) d')
      else ret tt
  end.

Definition takeHeaderFieldList `{Collaborators} (this : ptr) (n : nat)
    : M (option ptr) :=
  al ← arguments this;
  a ← SieveArgumentList.takeArgument al n;
  match a with
  | None =>
      setError this "Missing header field list";;
      ret None
  | Some q =>
      SieveArgument.setParsed q true;;
      SieveArgument.assertStringList q;;
      d ← getArgument q;
      forEach (seq 0 (length (default [] (arg_list d)))) (headerField this q);;
      SieveArgument.stringList q
  end.

(** The loop of the [envelope] branch over the envelope parts held by
    argument [a]. *)
Definition envelopePart (this a : ptr) (k : nat) : M unit :=
  d ← getArgument a;
  match default [] (arg_list d) !! k with
  | None => ret tt
  | Some i =>
      let s := lower i in
      if (s =? "from")%string || (s =? "to")%string then
        modifyArgument a (fun d' =>
          SieveArgument.withList
            (Some (<[k := s]> (default [] (arg_list d')))) d')
      else setError this ("Unsupported envelope part: " +:+ i)
  end.

(** The strings of a [UStringList *]; none behind a null pointer. *)
Definition strings (l : option ptr) : M (list string) :=
  match l with
  | None => ret []
  | Some q => d ← getArgument q; ret (default [] (arg_list d))
  end.

(** The loop at the end of [parse]:
    [while ( i && supportedExtensions()->contains( i->ascii() ) )]. *)
Fixpoint supportedPrefix `{Collaborators} (l : list string)
    : list string * list string :=
  match l with
  | [] => ([], [])
  | i :: rest =>
      if contains supportedExtensions (UString_ascii i) then
        let '(x, rest') := supportedPrefix rest in
        (UString_ascii i :: x, rest')
      else ([], l)
  end.

(** [SieveTest::parse()]; [fuel] bounds the depth of nested tests. *)
Fixpoint parse `{Collaborators} (fuel : nat) (this : ptr) : M unit :=
  match fuel with
  | O => fail
  | S fuel' =>
      i ← identifier this;
      (if (i =? "address")%string then
         findComparator this;;
         findMatchType this;;
         findAddressPart this;;
         al ← arguments this;
         SieveArgumentList.numberRemainingArguments al;;
         h ← takeHeaderFieldList this 1;
         setHeaders this h;;
         k ← SieveArgumentList.takeStringList al 2;
         setKeys this k
       else if (i =? "allof")%string || (i =? "anyof")%string then
         al ← arguments this;
         a ← SieveArgumentList.arguments al;
         (if negb (bool_decide (a = [])) then
            setError this ("Test '" +:+ i +:+
                           "' does not accept arguments, only a list of tests")
          else ret tt);;
         ts ← SieveArgumentList.tests al;
         forEach ts (fun t =>
           parse fuel' t;;
           b ← getBase t;
           (if prod_ihaveFailed b then setIhaveFailed this else ret tt);;
           addExtensions this (prod_addedExtensions b));;
         if bool_decide (ts = []) then
           setError this "Need at least one subsidiary test"
         else ret tt
       else if (i =? "envelope")%string then
         require this "envelope";;
         findComparator this;;
         findMatchType this;;
         findAddressPart this;;
         al ← arguments this;
         SieveArgumentList.numberRemainingArguments al;;
         e ← SieveArgumentList.takeStringList al 1;
         setEnvelopeParts this e;;
         k ← SieveArgumentList.takeStringList al 2;
         setKeys this k;;
         match e with
         | None => ret tt
         | Some q =>
             l ← strings e;
             forEach (seq 0 (length l)) (envelopePart this q)
         end
       else if (i =? "exists")%string then
         al ← arguments this;
         SieveArgumentList.numberRemainingArguments al;;
         h ← takeHeaderFieldList this 1;
         setHeaders this h
       else if (i =? "false")%string then
         ret tt
       else if (i =? "header")%string then
         findComparator this;;
         findMatchType this;;
         al ← arguments this;
         SieveArgumentList.numberRemainingArguments al;;
         h ← takeHeaderFieldList this 1;
         setHeaders this h;;
         k ← SieveArgumentList.takeStringList al 2;
         setKeys this k
       else if (i =? "date")%string || (i =? "currentdate")%string then
         require this "date";;
         findComparator this;;
         findMatchType this;;
         al ← arguments this;
         z ← SieveArgumentList.takeTaggedString al ":zone";
         setZone this z;;
         (if isEmpty z then
            o ← SieveArgumentList.findTag al ":originalzone";
            if bool_decide (is_Some o) then setZone this "-0000" else ret tt
          else ret tt);;
         SieveArgumentList.numberRemainingArguments al;;
         n ← (if (i =? "date")%string then
                h ← takeHeaderFieldList this 1;
                setHeaders this h;;
                l ← strings h;
                (if bool_decide (is_Some h) && negb (length l =? 1)%nat then
                   setError this "Only one date field may be specified"
                 else ret tt);;
                ret 2%nat
              else ret 1%nat);
         p ← SieveArgumentList.takeString al n;
         setDatePart this p;;
         k ← SieveArgumentList.takeStringList al (S n);
         setKeys this k
       else if (i =? "not")%string then
         al ← arguments this;
         a ← SieveArgumentList.arguments al;
         (if negb (bool_decide (a = [])) then
            setError this "Test 'not' does not accept arguments, only a test"
          else ret tt);;
         ts ← SieveArgumentList.tests al;
         match ts with
         | [t] => parse fuel' t
         | _ => setError this "Test 'not' needs exactly one subsidiary test"
         end
       else if (i =? "size")%string then
         al ← arguments this;
         SieveArgumentList.allowOneTag al [":over"; ":under"];;
         over ← SieveArgumentList.findTag al ":over";
         if bool_decide (is_Some over) then
           limit ← SieveArgumentList.takeTaggedNumber al ":over";
           setSize this true limit
         else
           under ← SieveArgumentList.findTag al ":under";
           if bool_decide (is_Some under) then
             limit ← SieveArgumentList.takeTaggedNumber al ":under";
             setSize this false limit
           else ret tt
       else if (i =? "true")%string then
         ret tt
       else if (i =? "body")%string then
         require this "body";;
         findComparator this;;
         findMatchType this;;
         al ← arguments this;
         SieveArgumentList.allowOneTag al [":raw"; ":text"; ":content"];;
         raw ← SieveArgumentList.findTag al ":raw";
         (if bool_decide (is_Some raw) then setBodyMatchType this Rfc822
          else
            text ← SieveArgumentList.findTag al ":text";
            if bool_decide (is_Some text) then setBodyMatchType this Text
            else
              content ← SieveArgumentList.findTag al ":content";
              if bool_decide (is_Some content) then
                setBodyMatchType this SpecifiedTypes;;
                c ← SieveArgumentList.takeTaggedStringList al ":content";
                setContentTypes this c
              else ret tt);;
         SieveArgumentList.numberRemainingArguments al;;
         k ← SieveArgumentList.takeStringList al 1;
         setKeys this k
       else if (i =? "ihave")%string then
         require this "ihave";;
         al ← arguments this;
         SieveArgumentList.numberRemainingArguments al;;
         SieveArgumentList.takeStringList al 1;;
         ret tt
       else if (i =? "valid_notify_method")%string then
         require this "enotify";;
         al ← arguments this;
         SieveArgumentList.numberRemainingArguments al;;
         urls ← SieveArgumentList.takeStringList al 1;
         l ← strings urls;
         if bool_decide (l = []) then setError this "No URLs" else ret tt
       else if (i =? "notify_method_capability")%string then
         require this "enotify";;
         findComparator this;;
         findMatchType this;;
         al ← arguments this;
         SieveArgumentList.numberRemainingArguments al;;
         url ← SieveArgumentList.takeString al 1;
         arg ← SieveArgumentList.takeArgument al 1;
         SieveNotifyMethod.new url arg this;;
         SieveArgumentList.takeString al 2;;
         k ← SieveArgumentList.takeStringList al 3;
         setKeys this k
       else
         setError this ("Unknown test: " +:+ i));;
      d ← getTest this;
      match test_arguments d with
      | Some al => SieveArgumentList.flagUnparsedAsBad al
      | None => ret tt
      end;;
      b ← getBase this;
      if (i =? "ihave")%string && isEmpty (prod_error b) then
        al ← arguments this;
        l ← SieveArgumentList.takeStringList al 1;
        names ← strings l;
        let '(x, rest) := supportedPrefix names in
        match rest with
        | _ :: _ => setIhaveFailed this
        | [] => addExtensions this (Some x)
        end
      else ret tt
  end.

End SieveTest.

(** ** SieveCommand *)

Module SieveCommand.

Import SieveProduction.

Definition init : SieveCommandData := mkCommand "" None None false.

Definition setIdentifier (this : ptr) (i : string) : M unit :=
  modifyCommand this (fun d =>
    mkCommand (lower i) (cmd_arguments d) (cmd_block d) (cmd_require d)).

Definition identifier (this : ptr) : M string :=
  d ← getCommand this; ret (cmd_identifier d).

Definition setArguments (this : ptr) (l : option ptr) : M unit :=
  match l with
  | None => ret tt
  | Some q =>
      modifyCommand this (fun d =>
        mkCommand (cmd_identifier d) (Some q) (cmd_block d) (cmd_require d));;
      setParent q (Some this)
  end.

(** [arguments()], followed: the branches of [parse] use the argument
    list without a null check. *)
Definition arguments (this : ptr) : M ptr :=
  d ← getCommand this; deref (cmd_arguments d).

Definition setBlock (this : ptr) (b : option ptr) : M unit :=
  match b with
  | None => ret tt
  | Some q =>
      modifyCommand this (fun d =>
        mkCommand (cmd_identifier d) (cmd_arguments d) (Some q)
          (cmd_require d));;
      setParent q (Some this)
  end.

Definition setRequirePermitted (this : ptr) (p : bool) : M unit :=
  modifyCommand this (fun d =>
    mkCommand (cmd_identifier d) (cmd_arguments d) (cmd_block d) p).

Definition parseAsAddress `{Collaborators} (this : ptr) (s : string)
    (t : string) : M unit :=
  if negb (isEmpty (AddressParser_error s)) then
    al ← arguments this;
    SieveArgumentList.tagError al t (AddressParser_error s)
  else ret tt.

(** The loop of the [require] branch: the quoted names
    ([i->ascii().quoted()]) that are supported ([a]) and those that are
    not ([e]). *)
Fixpoint requireNames `{Collaborators} (l : list string)
    : list string * list string :=
  match l with
  | [] => ([], [])
  | i :: rest =>
      let '(a, e) := requireNames rest in
      if contains supportedExtensions (UString_ascii i)
      then (quoted (UString_ascii i) :: a, e)
      else (a, quoted (UString_ascii i) :: e)
  end.

(** The [vacation] branch after [require( "vacation" )]. *)
Definition parseVacation `{Collaborators} (this : ptr) : M unit :=
  al ← arguments this;
  tDays ← SieveArgumentList.findTag al ":days";
  days ← (if bool_decide (is_Some tDays)
          then SieveArgumentList.takeTaggedNumber al ":days"
          else ret 7%N);
  (if (days <? 1)%N || (365 <? days)%N then
     SieveArgumentList.tagError al ":days" "Number must be 1..365"
   else ret tt);;
  SieveArgumentList.takeTaggedString al ":subject";;
  tFrom ← SieveArgumentList.findTag al ":from";
  (if bool_decide (is_Some tFrom) then
     from ← SieveArgumentList.takeTaggedString al ":from";
     parseAsAddress this from ":from"
   else ret tt);;
  tAddresses ← SieveArgumentList.findTag al ":addresses";
  (if bool_decide (is_Some tAddresses) then
     addresses ← SieveArgumentList.takeTaggedStringList al ":addresses";
     l ← SieveTest.strings addresses;
     forEach l (fun i => parseAsAddress this i ":addresses")
   else ret tt);;
  tMime ← SieveArgumentList.findTag al ":mime";
  SieveArgumentList.takeTaggedString al ":handle";;
  SieveArgumentList.numberRemainingArguments al;;
  reason ← SieveArgumentList.takeString al 1;
  if bool_decide (is_Some tMime) then
    (if negb (isAscii reason) then
       setError this (":mime bodies must be all-ASCII, "
                      +:+ "8-bit text is not permitted")
     else ret tt);;
    (if negb (isEmpty (mime_headerError reason)) then
       setError this ("While parsing MIME header: "
                      +:+ mime_headerError reason)
     else if negb (isEmpty (mime_bodypartError reason)) then
       setError this ("While parsing MIME bodypart: "
                      +:+ mime_bodypartError reason)
     else ret tt);;
    forEach (mime_fields reason) (fun f =>
      if negb (startsWith f "Content-") then
        setError this ("Header field not permitted: " +:+ f)
      else ret tt);;
    if mime_bodypartEmpty reason then
      setError this "Vacation reply does not contain any text"
    else ret tt
  else
    if isEmpty reason then
      setError this "Empty vacation text does not make sense"
    else ret tt.

(** The [notify] branch after [require( "enotify" )]. *)
Definition parseNotify `{Collaborators} (this : ptr) : M unit :=
  al ← arguments this;
  tFrom ← SieveArgumentList.findTag al ":from";
  from ← (if bool_decide (is_Some tFrom)
          then SieveArgumentList.takeTaggedString al ":from"
          else ret "");
  tImportance ← SieveArgumentList.findTag al ":importance";
  importance ← (if bool_decide (is_Some tImportance)
                then SieveArgumentList.takeTaggedString al ":from"
                else ret "2");
  (let c := firstChar importance in
   if (c <? 49)%nat || (51 <? c)%nat then
     SieveArgumentList.tagError al ":importance"
       "Importance must be 1, 2 or 3"
   else ret tt);;
  tOptions ← SieveArgumentList.findTag al ":options";
  (if bool_decide (is_Some tOptions) then
     SieveArgumentList.takeTaggedStringList al ":options";; ret tt
   else ret tt);;
  tMessage ← SieveArgumentList.findTag al ":message";
  message ← (if bool_decide (is_Some tMessage)
             then SieveArgumentList.takeTaggedString al ":message"
             else ret "");
  SieveArgumentList.numberRemainingArguments al;;
  method ← SieveArgumentList.takeString al 1;
  arg ← SieveArgumentList.takeArgument al 1;
  valid ← SieveNotifyMethod.new method arg this;
  if valid then
    f ← SieveArgumentList.findTag al ":from";
    (if bool_decide (is_Some f) then
       f' ← SieveArgumentList.findTag al ":from";
       SieveNotifyMethod.setFrom this from f'
     else ret tt);;
    m ← SieveArgumentList.findTag al ":message";
    if bool_decide (is_Some m) then
      m' ← SieveArgumentList.findTag al ":message";
      SieveNotifyMethod.setMessage this message m'
    else ret tt
  else ret tt.

(** The [fileinto] branch. *)
Definition parseFileinto `{Collaborators} (this : ptr) : M unit :=
  require this "fileinto";;
  al ← arguments this;
  tCopy ← SieveArgumentList.findTag al ":copy";
  (if bool_decide (is_Some tCopy) then require this "copy" else ret tt);;
  tFlags ← SieveArgumentList.findTag al ":flags";
  (if bool_decide (is_Some tFlags) then
     require this "imap4flags";;
     SieveArgumentList.takeTaggedStringList al ":copy";;
     ret tt
   else ret tt);;
  SieveArgumentList.numberRemainingArguments al;;
  mailbox ← SieveArgumentList.takeString al 1;
  let p := "/" +:+ mailbox in
  if negb (Mailbox_validName mailbox) && negb (Mailbox_validName p) then
    setError this ("Expected mailbox name, but got: " +:+ mailbox)
  else if startsWith mailbox "INBOX." then
    let aox := join "/" (split "."%char (mid mailbox 6)) in
    setError this (quoted mailbox +:+ " is Cyrus syntax. Archiveopteryx uses "
                   +:+ quoted aox)
  else ret tt.

(** The [require] branch. *)
Definition parseRequire `{Collaborators} (this : ptr) : M unit :=
  al ← arguments this;
  SieveArgumentList.numberRemainingArguments al;;
  l ← SieveArgumentList.takeStringList al 1;
  names ← SieveTest.strings l;
  let '(a, e) := requireNames names in
  (if negb (bool_decide (e = [])) then
     setError this ("Each string must be a supported "
                    +:+ "sieve extension. "
                    +:+ "These are not: " +:+ join ", " e)
   else ret tt);;
  d ← getCommand this;
  if negb (cmd_require d) then
    setError this "require is only permitted as the first command."
  else
    b ← getBase this;
    match prod_parent b with
    | Some parent => addExtensions parent (Some a)
    | None => ret tt
    end.

(** The loop over the commands of a block:
    [i->parse( prev ); prev = i->identifier();] *)
Fixpoint parseEach (parse : ptr -> string -> M unit) (l : list ptr)
    (prev : string) : M unit :=
  match l with
  | [] => ret tt
  | x :: rest =>
      parse x prev;;
      p ← identifier x;
      parseEach parse rest p
  end.

(** [SieveCommand::parse( previous )]; [fuel] bounds the depth of
    nested blocks and tests. *)
Fixpoint parse `{Collaborators} (fuel : nat) (this : ptr)
    (previous : string) : M unit :=
  match fuel with
  | O => fail
  | S fuel' =>
      i ← identifier this;
      (if isEmpty i then setError this "Command name is empty" else ret tt);;
      '(test, blk) ←
        (if (i =? "if")%string || (i =? "elsif")%string then
           (if (i =? "elsif")%string && negb (previous =? "if")%string
               && negb (previous =? "elsif")%string then
              setError this "elsif is only permitted after if/elsif"
            else ret tt);;
           ret (true, true)
         else if (i =? "else")%string then
           (if negb (previous =? "if")%string
               && negb (previous =? "elsif")%string then
              setError this "else is only permitted after if/elsif"
            else ret tt);;
           ret (false, true)
         else
           (if (i =? "require")%string then
              parseRequire this
            else if (i =? "stop")%string then
              ret tt
            else if (i =? "reject")%string then
              require this "reject";;
              al ← arguments this;
              a ← SieveArgumentList.arguments al;
              if bool_decide (a = []) then ret tt
              else
                SieveArgumentList.numberRemainingArguments al;;
                SieveArgumentList.takeString al 1;;
                ret tt
            else if (i =? "ereject")%string then
              require this "reject";;
              al ← arguments this;
              SieveArgumentList.numberRemainingArguments al;;
              SieveArgumentList.takeString al 1;;
              ret tt
            else if (i =? "fileinto")%string then
              parseFileinto this
            else if (i =? "redirect")%string then
              al ← arguments this;
              SieveArgumentList.findTag al ":copy";;
              SieveArgumentList.numberRemainingArguments al;;
              s ← SieveArgumentList.takeString al 1;
              if negb (isEmpty (AddressParser_error s)) then
                setError this
                  ("Expected one normal address (local@domain), but got: "
                   +:+ s)
              else ret tt
            else if (i =? "keep")%string then
              ret tt
            else if (i =? "discard")%string then
              ret tt
            else if (i =? "vacation")%string then
              require this "vacation";;
              parseVacation this
            else if (i =? "setflag")%string || (i =? "addflag")%string
                    || (i =? "removeflag")%string then
              al ← arguments this;
              SieveArgumentList.numberRemainingArguments al;;
              SieveArgumentList.takeStringList al 1;;
              ret tt
            else if (i =? "notify")%string then
              require this "enotify";;
              parseNotify this
            else
              setError this ("Command unknown: " +:+ i));;
           ret (false, false));
      al ← arguments this;
      SieveArgumentList.flagUnparsedAsBad al;;
      d ← getCommand this;
      ts ← SieveArgumentList.tests al;
      (if test then
         (if negb (length ts =? 1)%nat then
            setError this ("Command " +:+ i +:+ " requires one test")
          else ret tt);;
         forEach ts (fun t =>
           SieveTest.parse fuel' t;;
           match cmd_block d with
           | Some block =>
               if blk then
                 b ← getBase t;
                 if prod_ihaveFailed b then setIhaveFailed block
                 else addExtensions block (prod_addedExtensions b)
               else ret tt
           | None => ret tt
           end)
       else
         if bool_decide (ts = []) then
           forEach ts (fun t =>
             setError t ("Command " +:+ i +:+ " does not use tests"))
         else ret tt);;
      if blk then
        match cmd_block d with
        | None =>
            setError this
              ("Command " +:+ i +:+ " requires a subsidiary {..} block")
        | Some block =>
            c ← SieveBlock.commands block;
            parseEach (parse fuel') c ""
        end
      else
        match cmd_block d with
        | Some block =>
            setError block
              ("Command " +:+ i +:+
               " does not use a subsidiary command block")
        | None => ret tt
        end
  end.

(** The commands of the script, analysed in order.

    Modelled from the spec: [SieveScript::parse] is not under src/; the
    spec has the analyser walk the commands of the script with the
    previous sibling's identifier, empty at the start, as the block
    loop of [parse] does. *)
Definition parseCommands `{Collaborators} (fuel : nat) (l : list ptr)
    (prev : string) : M unit :=
  parseEach (parse fuel) l prev.

End SieveCommand.

(** ** The tree handed over by the generic parser

    Modelled from the spec: the generic parser ([SieveParser]) is not
    under src/.  The spec gives its grammar,

      command = identifier arguments ( ';' | block ),
      arguments = argument* [ test | test-list ],
      test = identifier arguments,
      argument = string-list | number | tag,

    and has it create one production for each, linked into the tree.
    [Build] creates these productions with the constructors and setters
    of the classes above; every production is given the parser. *)

Set Warnings "-register-all".

Inductive argument : Type :=
| ATag (t : string)
| ANumber (n : N)
| AStrings (l : list string).

Inductive test : Type :=
| ATest (identifier : string) (arguments : list argument) (tests : list test).

Inductive command : Type :=
| ACommand (identifier : string) (arguments : list argument)
    (tests : list test) (block : option (list command)).

Module Build.

(** [new]: the production is placed at the first unused address. *)
Definition alloc (name : string) (p : production) : M ptr :=
  fun s =>
    let q := size (heap s) in
    Some (q, mkState (<[q := mkNode (SieveProduction.init name) p]> (heap s))
               (bad s) (extensions s)).

Definition newArgument (a : argument) : M ptr :=
  q ← alloc "argument" (ArgumentP SieveArgument.init);
  SieveProduction.setParser q true;;
  match a with
  | ATag t => SieveArgument.setTag q t
  | ANumber n => SieveArgument.setNumber q n
  | AStrings l => SieveArgument.setStringList q (Some l)
  end;;
  ret q.

Fixpoint newTest (t : test) : M ptr :=
  match t with
  | ATest identifier arguments tests =>
      q ← alloc "test" (TestP SieveTest.init);
      SieveProduction.setParser q true;;
      SieveTest.setIdentifier q identifier;;
      al ← alloc "arguments" (ArgumentListP SieveArgumentList.init);
      SieveProduction.setParser al true;;
      forEach arguments (fun a =>
        x ← newArgument a;
        SieveArgumentList.append al (Some x));;
      (fix sub (l : list test) : M unit :=
         match l with
         | [] => ret tt
         | t' :: rest =>
             x ← newTest t';
             SieveArgumentList.appendTest al (Some x);;
             sub rest
         end) tests;;
      SieveTest.setArguments q (Some al);;
      ret q
  end.

Fixpoint newCommand (c : command) : M ptr :=
  match c with
  | ACommand identifier arguments tests block =>
      q ← alloc "command" (CommandP SieveCommand.init);
      SieveProduction.setParser q true;;
      SieveCommand.setIdentifier q identifier;;
      al ← alloc "arguments" (ArgumentListP SieveArgumentList.init);
      SieveProduction.setParser al true;;
      forEach arguments (fun a =>
        x ← newArgument a;
        SieveArgumentList.append al (Some x));;
      forEach tests (fun t =>
        x ← newTest t;
        SieveArgumentList.appendTest al (Some x));;
      SieveCommand.setArguments q (Some al);;
      match block with
      | None => ret tt
      | Some cs =>
          b ← alloc "block" (BlockP []);
          SieveProduction.setParser b true;;
          (fix sub (l : list command) : M unit :=
             match l with
             | [] => ret tt
             | c' :: rest =>
                 x ← newCommand c';
                 SieveBlock.append b (Some x);;
                 sub rest
             end) cs;;
          SieveCommand.setBlock q (Some b)
      end;;
      ret q
  end.

Fixpoint newCommands (l : list command) : M (list ptr) :=
  match l with
  | [] => ret []
  | c :: rest =>
      x ← newCommand c;
      r ← newCommands rest;
      ret (x :: r)
  end.

End Build.

(** ** SieveScript

    Modelled from the spec: [SieveScript] is not under src/.  The
    script is the root production and the parent of its commands;
    [require] is permitted as the very first command only; semantic
    analysis then runs [SieveCommand::parse] over the commands in
    order. *)

Module SieveScript.

Definition empty : state := mkState ∅ [] [].

(** The productions of a script as the generic parser leaves them: the
    script and its commands. *)
Definition build (l : list command) : M (ptr * list ptr) :=
  script ← Build.alloc "script" ScriptP;
  SieveProduction.setParser script true;;
  cs ← Build.newCommands l;
  forEach cs (fun c => SieveProduction.setParent c (Some script));;
  match cs with
  | first :: _ =>
      i ← SieveCommand.identifier first;
      if (i =? "require")%string
      then SieveCommand.setRequirePermitted first true
      else ret tt
  | [] => ret tt
  end;;
  ret (script, cs).

Definition analyse `{Collaborators} (fuel : nat) (cs : list ptr) : M unit :=
  SieveCommand.parseCommands fuel cs "".

Definition parse `{Collaborators} (fuel : nat) (l : list command)
    : M (ptr * list ptr) :=
  '(script, cs) ← build l;
  analyse fuel cs;;
  ret (script, cs).

End SieveScript.

(** ** Observations on a state *)

Definition errorOf (s : state) (p : ptr) : string :=
  match heap s !! p with
  | Some nd => prod_error (base nd)
  | None => ""
  end.

(** The (node, error message) pairs of a state. *)
Definition errors (s : state) : list (ptr * string) :=
  omap (fun '(p, nd) =>
          if isEmpty (prod_error (base nd)) then None
          else Some (p, prod_error (base nd)))
       (map_to_list (heap s)).

(** A server to run the analyser on: it knows the collations [i;octet]
    and [i;ascii-casemap], takes every non-empty mailbox name, address,
    MIME text and notification URI, and regards every header field as
    an address field.  It is run on scripts in printable ASCII: the
    characters of a string are its bytes, and its [ascii()] form is the
    string itself. *)
Definition server : Collaborators := {|
  Collation_supported := ["i;octet"; "i;ascii-casemap"];
  Collation_create := fun a => contains ["i;octet"; "i;ascii-casemap"] a;
  Mailbox_validName := fun s => negb (isEmpty s);
  AddressParser_error := fun _ => "";
  mime_headerError := fun _ => "";
  mime_fields := fun _ => [];
  mime_bodypartError := fun _ => "";
  mime_bodypartEmpty := fun _ => false;
  HeaderField_fieldType := fun _ => 1;
  HeaderField_LastAddressField := 10;
  headerCased := fun s => s;
  fn := fun _ => "?";
  UString_characters := fun s => map nat_of_ascii (list_ascii_of_string s);
  UString_ascii := fun s => s;
  notify_error := fun _ => "";
  notify_fromError := fun _ => "";
  notify_messageError := fun _ => ""
|}.

(** ** Further observations on a state *)

(** The declared extensions of a production: what [require] or [ihave]
    added to it. *)
Definition declaredAt (s : state) (p : ptr) : list string :=
  match heap s !! p with
  | Some nd => default [] (prod_addedExtensions (base nd))
  | None => []
  end.

(** The argument data behind a pointer, if it points to an argument. *)
Definition argumentAt (h : gmap ptr node) (x : ptr)
    : option SieveArgumentData :=
  match h !! x with
  | Some nd => match prod nd with ArgumentP d => Some d | _ => None end
  | None => None
  end.

(** The test data behind a pointer, if it points to a test. *)
Definition testAt (h : gmap ptr node) (x : ptr) : option SieveTestData :=
  match h !! x with
  | Some nd => match prod nd with TestP d => Some d | _ => None end
  | None => None
  end.

Definition parsedAt (s : state) (p : ptr) : bool :=
  match argumentAt (heap s) p with
  | Some d => arg_parsed d
  | None => false
  end.

Definition nodeAt (s : state) (p : ptr) : node :=
  default (mkNode (SieveProduction.init "") ScriptP) (heap s !! p).

Definition stateOf {A : Type} (r : option (A * state)) : state :=
  match r with Some (_, s) => s | None => SieveScript.empty end.

(** The state after semantic analysis of a script, starting from the
    empty heap. *)
Definition analysed `{Collaborators} (fuel : nat) (l : list command)
    : option state :=
  match SieveScript.parse fuel l SieveScript.empty with
  | Some (_, s) => Some s
  | None => None
  end.

(** What the spec claims of an ihave-failed scope: no production for
    which the walk of [setError] finds a failed ihave holds an error. *)
Definition ihaveFailedScopeClean (s : state) : Prop :=
  forall p q,
    SieveProduction.findIhaveFailed (S (size (heap s))) (Some p) s
    = Some (Some q, s) ->
    errorOf s p = "".

(** ** Scripts *)

(** [ereject "<reason>";] *)
Definition erejectScript (reason : string) : list command :=
  [ACommand "ereject" [AStrings [reason]] [] None].

(** [notify :from "joe@example.org" :importance "1"
    "mailto:joe@example.org";] *)
Definition notifyScript : list command :=
  [ACommand "notify"
     [ATag ":from"; AStrings ["joe@example.org"];
      ATag ":importance"; AStrings ["1"];
      AStrings ["mailto:joe@example.org"]] [] None].

(** [fileinto :flags ["\Seen", "\Flagged"] "Junk";] *)
Definition fileintoScript : list command :=
  [ACommand "fileinto"
     [ATag ":flags"; AStrings ["\Seen"; "\Flagged"]; AStrings ["Junk"]]
     [] None].



(** [if ihave ["nosuchext"] "extra" { }] *)
Definition ihaveScript : list command :=
  [ACommand "if" []
     [ATest "ihave" [AStrings ["nosuchext"]; AStrings ["extra"]] []]
     (Some [])].

(** [keep "x"; ereject "no";] *)
Definition keepErejectScript : list command :=
  [ACommand "keep" [AStrings ["x"]] [] None;
   ACommand "ereject" [AStrings ["no"]] [] None].

(** Scenario 2 of the spec: [if anyof (header :is "x" "y") { keep; }] *)
Definition scenario2 : list command :=
  [ACommand "if" []
     [ATest "anyof" []
        [ATest "header" [ATag ":is"; AStrings ["x"]; AStrings ["y"]] []]]
     (Some [ACommand "keep" [] [] None])].

(** Scenario 4 of the spec:
    [require ["fileinto"]; fileinto "INBOX.Junk";] *)
Definition scenario4 : list command :=
  [ACommand "require" [AStrings ["fileinto"]] [] None;
   ACommand "fileinto" [AStrings ["INBOX.Junk"]] [] None].

(** Scenario 7 of the spec:
    [require ["ihave"];
    if ihave ["nosuchext"] { weirdcommand; } else { keep; }] *)
Definition scenario7 : list command :=
  [ACommand "require" [AStrings ["ihave"]] [] None;
   ACommand "if" [] [ATest "ihave" [AStrings ["nosuchext"]] []]
     (Some [ACommand "weirdcommand" [] [] None]);
   ACommand "else" [] [] (Some [ACommand "keep" [] [] None])].

(** Scenario 8 of the spec: [else { keep; }] *)
Definition scenario8 : list command :=
  [ACommand "else" [] [] (Some [ACommand "keep" [] [] None])].

(** ** States *)

(** [keep "x"; ereject "no";] as built (the script is [0], the commands
    [1] and [4]), after one analysis, and after two. *)
Definition keepEreject0 : state :=
  Eval vm_compute in
    stateOf (SieveScript.build keepErejectScript SieveScript.empty).

Definition keepEreject1 : state :=
  Eval vm_compute in
    stateOf (SieveScript.analyse (H := server) 2 [1; 4] keepEreject0).

Definition keepEreject2 : state :=
  Eval vm_compute in
    stateOf (SieveScript.analyse (H := server) 2 [1; 4] keepEreject1).

(** An argument [1] that already holds an error and is itself marked
    ihave-failed, inside an argument list [0] that is marked too. *)
Definition failedArgument : node :=
  mkNode (mkProduction (Some 0) true 0 0 "argument" "Unknown tag: :x" true None)
    (ArgumentP (mkArgument ":x" 0 None 1 false)).

Definition failedScope : state :=
  mkState
    (<[1 := failedArgument]>
       (<[0 := mkNode (mkProduction None true 0 0 "arguments" "" true None)
                 (ArgumentListP (mkArgumentList [1] [] []))]> ∅))
    [1] [].

(** The argument [1] without an error: under an argument list [0]
    marked ihave-failed, and under one that is not. *)
Definition plainArgument : node :=
  mkNode (mkProduction (Some 0) true 0 0 "argument" "" false None)
    (ArgumentP (mkArgument ":x" 0 None 1 false)).

Definition suppressedScope : state :=
  mkState
    (<[1 := plainArgument]>
       (<[0 := mkNode (mkProduction None true 0 0 "arguments" "" true None)
                 (ArgumentListP (mkArgumentList [1] [] []))]> ∅))
    [] [].

Definition openScope : state :=
  mkState
    (<[1 := plainArgument]>
       (<[0 := mkNode (mkProduction None true 0 0 "arguments" "" false None)
                 (ArgumentListP (mkArgumentList [1] [] []))]> ∅))
    [] [].

(** An argument list [0] with three numbered arguments. *)
Definition plainString (l : list string) : node :=
  mkNode (mkProduction (Some 0) true 0 0 "argument" "" false None)
    (ArgumentP (mkArgument "" 0 (Some l) 1 false)).

Definition threeNumbered : node :=
  mkNode (mkProduction None true 0 0 "arguments" "" false None)
    (ArgumentListP (mkArgumentList [1; 2; 3] [] [1; 2; 3])).

Definition threeArguments : state :=
  mkState
    (<[3 := plainString ["c"]]>
       (<[2 := plainString ["b"]]>
          (<[1 := plainString ["a"]]> (<[0 := threeNumbered]> ∅))))
    [] [].

(** The test [header :comparator "i;octet" :value "gt" "subject" "3"]
    as the generic parser leaves it: the test is [0], its argument list
    [1], the arguments [2] to [7]. *)
Definition valueTest : state :=
  Eval vm_compute in
    stateOf (Build.newTest
               (ATest "header"
                  [ATag ":comparator"; AStrings ["i;octet"];
                   ATag ":value"; AStrings ["gt"];
                   AStrings ["subject"]; AStrings ["3"]] [])
               SieveScript.empty).

Definition valueTestTest : SieveTestData :=
  Eval vm_compute in default SieveTest.init (testAt (heap valueTest) 0).

Definition valueTestArguments : SieveArgumentListData :=
  Eval vm_compute in
    match prod (nodeAt valueTest 1) with
    | ArgumentListP d => d
    | _ => SieveArgumentList.init
    end.

Definition valueTestTag : SieveArgumentData :=
  Eval vm_compute in
    default SieveArgument.init (argumentAt (heap valueTest) 4).

Definition valueTestOperator : SieveArgumentData :=
  Eval vm_compute in
    default SieveArgument.init (argumentAt (heap valueTest) 5).

(** The test [header :value "xx" :is "subject" "3"] as the generic
    parser leaves it: the test is [0], its argument list [1], the
    arguments [2] to [6]. *)
Definition valueIsTest : state :=
  Eval vm_compute in
    stateOf (Build.newTest
               (ATest "header"
                  [ATag ":value"; AStrings ["xx"]; ATag ":is";
                   AStrings ["subject"]; AStrings ["3"]] [])
               SieveScript.empty).

(** ** Relations between states *)

(** No step of the analysis removes or replaces an error that a
    production already holds: [keeps s s'] relates a state to a later
    one, [Keeps m] says that the computation [m] only leads to later
    states. *)
Definition keeps (s s' : state) : Prop :=
  forall p nd, heap s !! p = Some nd ->
    exists nd', heap s' !! p = Some nd'
      /\ (isEmpty (prod_error (base nd)) = false ->
          prod_error (base nd') = prod_error (base nd)).

Definition Keeps {A : Type} (m : M A) : Prop :=
  forall s a s', m s = Some (a, s') -> keeps s s'.

(** A production with the parsed flag of an argument dropped. *)
Definition unparse (nd : node) : node :=
  match prod nd with
  | ArgumentP d =>
      mkNode (base nd)
        (ArgumentP (mkArgument (arg_tag d) (arg_number d) (arg_list d)
                      (arg_calls d) false))
  | _ => nd
  end.

(** Two states that differ in the parsed flags of arguments only. *)
Definition sim (s s' : state) : Prop :=
  bad s' = bad s /\ extensions s' = extensions s
  /\ forall p, unparse <$> heap s' !! p = unparse <$> heap s !! p.

(** Two heaps whose productions have the same base data. *)
Definition sameBase (h h' : gmap ptr node) : Prop :=
  forall p, base <$> h' !! p = base <$> h !! p.

(** No argument of [l] carries the tag. *)
Definition lacks (h : gmap ptr node) (tag : string) (l : list ptr) : Prop :=
  Forall (fun x => exists d, argumentAt h x = Some d
                             /\ (arg_tag d =? tag)%string = false) l.

(** The tags of [findMatchType]. *)
Definition matchTypeTags : list string :=
  [":is"; ":matches"; ":contains"; ":value"; ":count"].

(** No argument of [l] carries a match-type tag. *)
Definition plain (h : gmap ptr node) (l : list ptr) : Prop :=
  Forall (fun x => exists d, argumentAt h x = Some d
                             /\ contains matchTypeTags (arg_tag d) = false) l.

(** [p] lies in no ihave-failed scope: the walk of [setError] from [p]
    reaches the root without meeting a production whose ihave has
    failed. *)
Definition unsuppressed (s : state) (p : ptr) : Prop :=
  SieveProduction.findIhaveFailed (S (size (heap s))) (Some p) s
  = Some (None, s).

(** [encloses h q p]: [q] is [p] or one of its ancestors. *)
Inductive encloses (h : gmap ptr node) : ptr -> ptr -> Prop :=
| encloses_self (p : ptr) (nd : node) :
    h !! p = Some nd -> encloses h p p
| encloses_parent (q p r : ptr) (nd : node) :
    h !! p = Some nd -> prod_parent (base nd) = Some r ->
    encloses h q r -> encloses h q p.

(** Two heaps whose productions have the same parents and the same
    ihave-failed marks. *)
Definition sameLinks (h h' : gmap ptr node) : Prop :=
  forall p,
    (fun nd => (prod_parent (base nd), prod_ihaveFailed (base nd))) <$> h' !! p
    = (fun nd => (prod_parent (base nd), prod_ihaveFailed (base nd))) <$> h !! p.

(** ** More states *)

(** A script [0] that has added [fileinto], with a command [1] in
    it. *)
Definition declaringScript : state :=
  mkState
    (<[1 := mkNode (mkProduction (Some 0) true 0 0 "command" "" false None)
              (CommandP (mkCommand "fileinto" None None false))]>
       (<[0 := mkNode (mkProduction None true 0 0 "script" "" false
                         (Some ["fileinto"])) ScriptP]> ∅))
    [] [].

(** The same after [addExtensions] of [copy] on the command. *)
Definition declaringCommand : state :=
  Eval vm_compute in
    stateOf (SieveProduction.addExtensions 1 (Some ["copy"]) declaringScript).

(** [openScope] after a first error on the argument [1]. *)
Definition openScopeFlagged : state :=
  Eval vm_compute in
    stateOf (SieveProduction.setError 1 "Unknown tag: :y" openScope).

(** The tests [size :under], [header :is "a" :is "b"] and
    [size :over 1 :under 2] as the generic parser leaves them: the test
    is [0], its argument list [1], the arguments follow from [2]. *)
Definition tagLast : state :=
  Eval vm_compute in
    stateOf (Build.newTest (ATest "size" [ATag ":under"] [])
               SieveScript.empty).

Definition repeatedTag : state :=
  Eval vm_compute in
    stateOf (Build.newTest
               (ATest "header"
                  [ATag ":is"; AStrings ["a"]; ATag ":is"; AStrings ["b"]] [])
               SieveScript.empty).

Definition twoTags : state :=
  Eval vm_compute in
    stateOf (Build.newTest
               (ATest "size"
                  [ATag ":over"; ANumber 1; ATag ":under"; ANumber 2] [])
               SieveScript.empty).

(** The production data behind a pointer. *)
Definition argumentOf (s : state) (x : ptr) : SieveArgumentData :=
  default SieveArgument.init (argumentAt (heap s) x).

Definition argumentsOf (s : state) (al : ptr) : SieveArgumentListData :=
  match prod (nodeAt s al) with
  | ArgumentListP d => d
  | _ => SieveArgumentList.init
  end.

Definition commandOf (s : state) (p : ptr) : SieveCommandData :=
  match prod (nodeAt s p) with
  | CommandP d => d
  | _ => SieveCommand.init
  end.

Definition testOf (s : state) (p : ptr) : SieveTestData :=
  default SieveTest.init (testAt (heap s) p).

(** [else { keep; }] (scenario 8), [weirdcommand;] and
    [keep (true);] as built: the script is [0], the command [1]; and
    the test [weirdtest] and [envelope "From" "x"] as built: the test is
    [0]. *)
Definition elseAlone : state :=
  Eval vm_compute in stateOf (SieveScript.build scenario8 SieveScript.empty).

Definition unknownCommand : state :=
  Eval vm_compute in
    stateOf (SieveScript.build [ACommand "weirdcommand" [] [] None]
               SieveScript.empty).

Definition keepWithTest : state :=
  Eval vm_compute in
    stateOf (SieveScript.build
               [ACommand "keep" [] [ATest "true" [] []] None]
               SieveScript.empty).

Definition unknownTest : state :=
  Eval vm_compute in
    stateOf (Build.newTest (ATest "weirdtest" [] []) SieveScript.empty).

Definition envelopeTest : state :=
  Eval vm_compute in
    stateOf (Build.newTest
               (ATest "envelope" [AStrings ["From"]; AStrings ["x"]] [])
               SieveScript.empty).

(** No argument of [l] carries one of the tags [ts]. *)
Definition outside (h : gmap ptr node) (ts : list string) (l : list ptr)
    : Prop :=
  Forall (fun x => exists d, argumentAt h x = Some d
                             /\ contains ts (arg_tag d) = false) l.

(** [elseAlone], [unknownCommand] and [unknownTest], analysed. *)
Definition elseAloneAnalysed : state :=
  Eval vm_compute in
    stateOf (SieveCommand.parse (H := server) 3 1 "" elseAlone).

Definition unknownCommandAnalysed : state :=
  Eval vm_compute in
    stateOf (SieveCommand.parse (H := server) 2 1 "" unknownCommand).

Definition unknownTestAnalysed : state :=
  Eval vm_compute in
    stateOf (SieveTest.parse (H := server) 1 0 unknownTest).

(** ** Relations that the analysis maintains *)

(** [Along R m]: every run of [m] leads from a state to one that [R]
    relates to it. *)
Definition Along (R : state -> state -> Prop) {A : Type} (m : M A) : Prop :=
  forall s a s', m s = Some (a, s') -> R s s'.

(** The annotations that [SieveTest::parse] writes into a test leave
    its identifier, its argument list and its block alone. *)
Definition annotation (f : SieveTestData -> SieveTestData) : Prop :=
  forall d, test_identifier (f d) = test_identifier d
            /\ test_arguments (f d) = test_arguments d
            /\ test_block (f d) = test_block d.

(** What the generic parser fixes of a production: its parent, parser,
    position and name; the tag, the number and the number of strings of
    an argument; the arguments and tests of an argument list; the
    commands of a block; a command; the identifier, argument list and
    block of a test.  The rest (error, ihave mark, added extensions,
    parsed mark, the strings themselves, the numbering, the annotations
    of a test) is blanked. *)
Definition outline (nd : node) : node :=
  mkNode
    (mkProduction (prod_parent (base nd)) (prod_parser (base nd))
       (prod_start (base nd)) (prod_end (base nd)) (prod_name (base nd))
       "" false None)
    (match prod nd with
     | ArgumentP d =>
         ArgumentP
           (mkArgument (arg_tag d) (arg_number d)
              (Some (map (fun _ => "") (default [] (arg_list d))))
              (arg_calls d) false)
     | ArgumentListP d =>
         ArgumentListP (mkArgumentList (args_a d) (args_t d) [])
     | TestP d =>
         TestP
           (mkTest (test_identifier d) (test_arguments d) (test_block d)
              Is NoOperator NoAddressPart None Text None None None None
              "" "" false 0)
     | p => p
     end).

(** Two states with the same productions in outline. *)
Definition sameOutline (s s' : state) : Prop :=
  forall p, outline <$> heap s' !! p = outline <$> heap s !! p.

(** [grows s s']: what [s] has registered and marked is still there in
    [s']: the two registries of the parser have at most got longer, and
    every production is still there, marked ihave-failed if it was,
    with the added extensions it had (and maybe more), and parsed if it
    was. *)
Definition grows (s s' : state) : Prop :=
  bad s `prefix_of` bad s'
  /\ extensions s `prefix_of` extensions s'
  /\ forall p nd, heap s !! p = Some nd ->
       exists nd',
         heap s' !! p = Some nd'
         /\ (prod_ihaveFailed (base nd) = true ->
             prod_ihaveFailed (base nd') = true)
         /\ default [] (prod_addedExtensions (base nd))
              `prefix_of` default [] (prod_addedExtensions (base nd'))
         /\ forall d, prod nd = ArgumentP d ->
              exists d', prod nd' = ArgumentP d'
                         /\ (arg_parsed d = true -> arg_parsed d' = true).

(** Every production that has the parser and holds an error is in the
    parser's list of bad productions. *)
Definition registered (s : state) : Prop :=
  forall p nd, heap s !! p = Some nd ->
    prod_parser (base nd) = true -> prod_error (base nd) <> "" ->
    p ∈ bad s.

(** ** Well-formed trees *)

(** The classes derived from [SieveProduction]. *)
Inductive kind : Type :=
  KScript | KArgument | KArgumentList | KBlock | KCommand | KTest.

Definition kindOf (nd : node) : kind :=
  match prod nd with
  | ScriptP => KScript
  | ArgumentP _ => KArgument
  | ArgumentListP _ => KArgumentList
  | BlockP _ => KBlock
  | CommandP _ => KCommand
  | TestP _ => KTest
  end.

(** [p] points to a production of class [k]. *)
Definition hasKind (h : gmap ptr node) (k : kind) (p : ptr) : Prop :=
  kindOf <$> h !! p = Some k.

(** What the generic parser guarantees of the production [nd] at
    [p]: pointers are not dangling and point to productions of the
    right class; a parent comes before its children (productions are
    created top-down); every command and test has its argument list;
    no string list is empty. *)
Definition wfNode (h : gmap ptr node) (p : ptr) (nd : node) : Prop :=
  (forall q, prod_parent (base nd) = Some q ->
     (q < p)%nat /\ exists k, hasKind h k q)
  /\ match prod nd with
     | ScriptP => True
     | ArgumentP d => arg_list d <> Some []
     | ArgumentListP d =>
         Forall (fun x => hasKind h KArgument x) (args_a d)
         /\ Forall (fun t => hasKind h KTest t /\ (p < t)%nat) (args_t d)
         /\ Forall (fun x => hasKind h KArgument x) (args_n d)
     | BlockP c => Forall (fun x => hasKind h KCommand x /\ (p < x)%nat) c
     | CommandP d =>
         (exists al, cmd_arguments d = Some al
                     /\ hasKind h KArgumentList al /\ (p < al)%nat)
         /\ (forall b, cmd_block d = Some b ->
               hasKind h KBlock b /\ (p < b)%nat)
     | TestP d =>
         exists al, test_arguments d = Some al
                    /\ hasKind h KArgumentList al /\ (p < al)%nat
     end.

(** A well-formed state: the productions are numbered from 0 and each
    is well-formed. *)
Definition wf (s : state) : Prop :=
  forall p nd, heap s !! p = Some nd ->
    (p < size (heap s))%nat /\ wfNode (heap s) p nd.

(** The states that the analysis of the well-formed state [s0] goes
    through. *)
Definition Inv (s0 s : state) : Prop := wf s /\ sameOutline s0 s.

(** [Total s0 m Q]: from every state that the analysis of [s0] goes
    through, [m] returns, with a result that satisfies [Q], in a state
    of the same kind. *)
Definition Total (s0 : state) {A : Type} (m : M A) (Q : A -> Prop) : Prop :=
  forall s, Inv s0 s ->
    exists a s', m s = Some (a, s') /\ Inv s0 s' /\ Q a.

(** The marks that the analysis puts on a production leave its
    parent, parser, position and name alone. *)
Definition marking (f : SieveProductionData -> SieveProductionData) : Prop :=
  forall d, prod_parent (f d) = prod_parent d
            /\ prod_parser (f d) = prod_parser d
            /\ prod_start (f d) = prod_start d
            /\ prod_end (f d) = prod_end d
            /\ prod_name (f d) = prod_name d.

Definition kind_eqb (a b : kind) : bool :=
  match a, b with
  | KScript, KScript | KArgument, KArgument
  | KArgumentList, KArgumentList | KBlock, KBlock
  | KCommand, KCommand | KTest, KTest => true
  | _, _ => false
  end.

(** [wf], decided. *)
Definition kindIs (h : gmap ptr node) (k : kind) (p : ptr) : bool :=
  match h !! p with
  | Some nd => kind_eqb (kindOf nd) k
  | None => false
  end.

Definition wfNodeb (h : gmap ptr node) (p : ptr) (nd : node) : bool :=
  match prod_parent (base nd) with
  | Some q => (q <? p)%nat && bool_decide (is_Some (h !! q))
  | None => true
  end
  && match prod nd with
     | ScriptP => true
     | ArgumentP d => negb (bool_decide (arg_list d = Some []))
     | ArgumentListP d =>
         forallb (kindIs h KArgument) (args_a d)
         && forallb (fun t => kindIs h KTest t && (p <? t)%nat) (args_t d)
         && forallb (kindIs h KArgument) (args_n d)
     | BlockP c => forallb (fun x => kindIs h KCommand x && (p <? x)%nat) c
     | CommandP d =>
         match cmd_arguments d with
         | Some al => kindIs h KArgumentList al && (p <? al)%nat
         | None => false
         end
         && match cmd_block d with
            | Some b => kindIs h KBlock b && (p <? b)%nat
            | None => true
            end
     | TestP d =>
         match test_arguments d with
         | Some al => kindIs h KArgumentList al && (p <? al)%nat
         | None => false
         end
     end.

Definition wfb (s : state) : bool :=
  forallb (fun x => (x.1 <? size (heap s))%nat && wfNodeb (heap s) x.1 x.2)
    (map_to_list (heap s)).

(** The number of strings of the argument [a]. *)
Definition stringsOf (h : gmap ptr node) (a : ptr) : nat :=
  match argumentAt h a with
  | Some d => length (default [] (arg_list d))
  | None => 0
  end.

(** The characters that [takeHeaderFieldList] rejects in a header field
    name: [s[i] < 33 || s[i] == 58 || s[i] > 126]. *)
Definition illegal (n : nat) : bool :=
  (n <? 33)%nat || (n =? 58)%nat || (126 <? n)%nat.

(** The test [exists "a:b"] as built: the test is [0], its argument
    list [1], the header field list [2]. *)
Definition existsColon : state :=
  Eval vm_compute in
    stateOf (Build.newTest (ATest "exists" [AStrings ["a:b"]] [])
               SieveScript.empty).

(** * Properties *)

(** ** Running the primitives *)

Lemma bind_Some {A B : Type} (m : M A) (f : A -> M B) (s s' : state) (b : B) :
  bind m f s = Some (b, s') <->
  exists a s1, m s = Some (a, s1) /\ f a s1 = Some (b, s').
Proof.
  unfold bind. split.
  - destruct (m s) as [[a s1]|]; [eauto | discriminate].
  - intros (a & s1 & -> & Hf). exact Hf.
Qed.

Lemma bind_run {A B : Type} (m : M A) (f : A -> M B) (s s1 : state) (a : A) :
  m s = Some (a, s1) -> bind m f s = f a s1.
Proof. intros Hm. unfold bind. now rewrite Hm. Qed.

Lemma getNode_run (s : state) (p : ptr) (nd : node) :
  heap s !! p = Some nd -> getNode p s = Some (nd, s).
Proof. intros Hp. unfold getNode. now rewrite Hp. Qed.

Lemma getNode_Some (s s' : state) (p : ptr) (nd : node) :
  getNode p s = Some (nd, s') -> s' = s /\ heap s !! p = Some nd.
Proof.
  unfold getNode. destruct (heap s !! p); [|discriminate].
  intros [= -> ->]. auto.
Qed.

Lemma getBase_run (s : state) (p : ptr) (nd : node) :
  heap s !! p = Some nd -> getBase p s = Some (base nd, s).
Proof.
  intros Hp. unfold getBase. now rewrite (bind_run _ _ _ _ _ (getNode_run _ _ _ Hp)).
Qed.

Lemma getBase_Some (s s' : state) (p : ptr) (d : SieveProductionData) :
  getBase p s = Some (d, s') ->
  s' = s /\ exists nd, heap s !! p = Some nd /\ base nd = d.
Proof.
  unfold getBase. intros (nd & s1 & Hg & Hr)%bind_Some.
  apply getNode_Some in Hg as [-> Hp]. injection Hr as <- <-. eauto.
Qed.

Lemma modifyBase_run (s : state) (p : ptr) (nd : node)
    (f : SieveProductionData -> SieveProductionData) :
  heap s !! p = Some nd ->
  modifyBase p f s =
  Some (tt, mkState (<[p := mkNode (f (base nd)) (prod nd)]> (heap s))
              (bad s) (extensions s)).
Proof.
  intros Hp. unfold modifyBase.
  now rewrite (bind_run _ _ _ _ _ (getNode_run _ _ _ Hp)).
Qed.

Lemma errorOf_lookup (s : state) (p : ptr) (nd : node) :
  heap s !! p = Some nd -> errorOf s p = prod_error (base nd).
Proof. intros Hp. unfold errorOf. now rewrite Hp. Qed.

Lemma findIhaveFailed_state (fuel : nat) (p r : option ptr) (s s' : state) :
  SieveProduction.findIhaveFailed fuel p s = Some (r, s') -> s' = s.
Proof.
  revert p. induction fuel as [|k IH]; intros [q|]; simpl;
    try discriminate; try (intros [= _ ->]; reflexivity).
  intros (d & s1 & Hg & Hr)%bind_Some.
  apply getBase_Some in Hg as [-> _].
  destruct (prod_ihaveFailed d).
  - now injection Hr as _ ->.
  - eauto.
Qed.

Lemma bind_assoc {A B C : Type} (m : M A) (f : A -> M B) (g : B -> M C)
    (s : state) :
  bind (bind m f) g s = bind m (fun a => bind (f a) g) s.
Proof. unfold bind. now destruct (m s) as [[a s1]|]. Qed.

Lemma walkFuel_run (s : state) : walkFuel s = Some (S (size (heap s)), s).
Proof. reflexivity. Qed.

Lemma ret_run {A : Type} (s : state) (a : A) : ret a s = Some (a, s).
Proof. reflexivity. Qed.

(** [run H]: take the step [H : m s = Some (a, s1)] at the head of the
    computation. *)
Ltac run H :=
  cbn beta iota; rewrite ?bind_assoc;
  rewrite (bind_run _ _ _ _ _ H); cbn beta iota.

(** ** setError, case by case *)

Lemma setError_kept (s : state) (this : ptr) (nd : node) (e : string) :
  heap s !! this = Some nd -> isEmpty e = false ->
  isEmpty (prod_error (base nd)) = false ->
  exists s', SieveProduction.setError this e s = Some (tt, s')
             /\ heap s' = heap s.
Proof.
  intros Hp He Herr. unfold SieveProduction.setError.
  run (getBase_run _ _ _ Hp). rewrite He, Herr. run (ret_run s tt).
  run (getBase_run _ _ _ Hp). rewrite Herr. simpl.
  destruct (prod_parser (base nd)); eexists; split; reflexivity.
Qed.

Lemma setError_suppressed (s : state) (this q : ptr) (nd : node)
    (e : string) :
  heap s !! this = Some nd -> isEmpty e = false ->
  isEmpty (prod_error (base nd)) = true ->
  SieveProduction.findIhaveFailed (S (size (heap s))) (Some this) s
  = Some (Some q, s) ->
  SieveProduction.setError this e s = Some (tt, s).
Proof.
  intros Hp He Herr Hwalk. unfold SieveProduction.setError.
  run (getBase_run _ _ _ Hp). rewrite He, Herr.
  run (walkFuel_run s). run Hwalk. run (ret_run s tt).
  run (getBase_run _ _ _ Hp). now rewrite Herr.
Qed.

Lemma setError_stored (s : state) (this : ptr) (nd : node) (e : string) :
  heap s !! this = Some nd -> isEmpty e = false ->
  isEmpty (prod_error (base nd)) = true ->
  SieveProduction.findIhaveFailed (S (size (heap s))) (Some this) s
  = Some (None, s) ->
  exists s', SieveProduction.setError this e s = Some (tt, s')
             /\ heap s'
                = <[this := mkNode (SieveProduction.withError e (base nd))
                              (prod nd)]> (heap s)
             /\ extensions s' = extensions s.
Proof.
  intros Hp He Herr Hwalk. unfold SieveProduction.setError.
  run (getBase_run _ _ _ Hp). rewrite He, Herr.
  run (walkFuel_run s). run Hwalk.
  run (modifyBase_run _ _ _ (SieveProduction.withError e) Hp).
  erewrite bind_run; [|apply getBase_run; simpl; apply lookup_insert_eq].
  simpl. rewrite He. simpl.
  destruct (prod_parser (base nd)); eexists; split; reflexivity || auto.
Qed.

(** ** setError *)

(** C10: [setError] with the empty string stores the empty string as
    the production's error, whatever error was stored before and
    whether or not the production or an ancestor is in an ihave-failed
    scope; nothing else in the heap changes and nothing is
    registered. *)
Theorem setError_empty_always_clears (s : state) (this : ptr) (nd : node) :
  heap s !! this = Some nd ->
  exists s',
    SieveProduction.setError this "" s = Some (tt, s')
    /\ errorOf s' this = ""
    /\ s' = mkState
              (<[this := mkNode (SieveProduction.withError "" (base nd))
                           (prod nd)]> (heap s))
              (bad s) (extensions s).
Proof.
  intros Hp. eexists. split; [|split; [|reflexivity]].
  - unfold SieveProduction.setError.
    run (getBase_run _ _ _ Hp). cbn [isEmpty].
    run (modifyBase_run _ _ _ (SieveProduction.withError "") Hp).
    erewrite bind_run; [|apply getBase_run; simpl; apply lookup_insert_eq].
    reflexivity.
  - unfold errorOf. simpl. now rewrite lookup_insert_eq.
Qed.

Lemma setError_empty_always_clears_witness :
  heap failedScope !! 1 = Some failedArgument
  /\ exists s',
       SieveProduction.setError 1 "" failedScope = Some (tt, s')
       /\ errorOf s' 1 = ""
       /\ s' = mkState
                 (<[1 := mkNode
                           (SieveProduction.withError "" (base failedArgument))
                           (prod failedArgument)]>
                    (heap failedScope))
                 (bad failedScope) (extensions failedScope).
Proof.
  split; [reflexivity|].
  apply (setError_empty_always_clears failedScope 1 failedArgument).
  reflexivity.
Defined.

(** C6, as the code has it: a production that holds a non-empty error
    keeps it when [setError] is called with another non-empty message,
    also inside an ihave-failed scope (nothing is cleared); a
    production without an error, for which the walk up the parents
    finds a production whose ihave has failed, stays without an error;
    and without such a production the message is stored. *)
Theorem setError_first_wins_or_suppressed (s : state) (this : ptr)
    (nd : node) (e : string) :
  heap s !! this = Some nd ->
  isEmpty e = false ->
  (isEmpty (prod_error (base nd)) = false ->
   exists s', SieveProduction.setError this e s = Some (tt, s')
              /\ heap s' = heap s
              /\ errorOf s' this = prod_error (base nd))
  /\ (forall q,
        isEmpty (prod_error (base nd)) = true ->
        SieveProduction.findIhaveFailed (S (size (heap s))) (Some this) s
        = Some (Some q, s) ->
        exists s', SieveProduction.setError this e s = Some (tt, s')
                   /\ heap s' = heap s
                   /\ errorOf s' this = "")
  /\ (isEmpty (prod_error (base nd)) = true ->
      SieveProduction.findIhaveFailed (S (size (heap s))) (Some this) s
      = Some (None, s) ->
      exists s', SieveProduction.setError this e s = Some (tt, s')
                 /\ errorOf s' this = e).
Proof.
  intros Hp He. split; [|split].
  - intros Herr.
    destruct (setError_kept s this nd e Hp He Herr) as (s' & Hrun & Hh).
    exists s'. split; [exact Hrun|]. split; [exact Hh|].
    unfold errorOf. now rewrite Hh, Hp.
  - intros q Herr Hwalk. exists s.
    split; [now apply setError_suppressed with q nd|].
    split; [reflexivity|]. rewrite (errorOf_lookup _ _ _ Hp).
    now destruct (prod_error (base nd)).
  - intros Herr Hwalk.
    destruct (setError_stored s this nd e Hp He Herr Hwalk)
      as (s' & Hrun & Hh & _).
    exists s'. split; [exact Hrun|].
    unfold errorOf. now rewrite Hh, lookup_insert_eq.
Qed.

Lemma setError_first_wins_or_suppressed_witness :
  (exists s',
     SieveProduction.setError 1 "Unknown tag: :y" failedScope = Some (tt, s')
     /\ heap s' = heap failedScope
     /\ errorOf s' 1 = "Unknown tag: :x")
  /\ (exists s',
        SieveProduction.setError 1 "Unknown tag: :y" suppressedScope
        = Some (tt, s')
        /\ heap s' = heap suppressedScope
        /\ errorOf s' 1 = "")
  /\ (exists s',
        SieveProduction.setError 1 "Unknown tag: :y" openScope = Some (tt, s')
        /\ errorOf s' 1 = "Unknown tag: :y").
Proof.
  split; [|split].
  - destruct (setError_first_wins_or_suppressed failedScope 1 failedArgument
                "Unknown tag: :y" eq_refl eq_refl) as (H1 & _ & _).
    exact (H1 eq_refl).
  - destruct (setError_first_wins_or_suppressed suppressedScope 1
                plainArgument "Unknown tag: :y" eq_refl eq_refl)
      as (_ & H2 & _).
    exact (H2 0 eq_refl eq_refl).
  - destruct (setError_first_wins_or_suppressed openScope 1 plainArgument
                "Unknown tag: :y" eq_refl eq_refl) as (_ & _ & H3).
    exact (H3 eq_refl eq_refl).
Defined.

(** ** takeArgument *)

Lemma advanceSame_ge_2 (l : list ptr) (n : nat) :
  2 <= n -> SieveArgumentList.advanceSame l n = [].
Proof.
  intros Hn. induction l as [|x l IH]; simpl; [reflexivity|].
  destruct (Nat.ltb_spec 1 n); [exact IH | lia].
Qed.

Lemma getArgumentList_run (s : state) (p : ptr) (nd : node)
    (d : SieveArgumentListData) :
  heap s !! p = Some nd -> prod nd = ArgumentListP d ->
  getArgumentList p s = Some (d, s).
Proof.
  intros Hp Hd. unfold getArgumentList.
  run (getNode_run _ _ _ Hp). now rewrite Hd.
Qed.

(** C9, the claim refuted: [takeArgument( 0 )] returns an argument, the
    first of the three numbered ones: with [n = 0] the loop
    [while ( i && n > 1 )] is not entered. *)
Lemma takeArgument_zero_returns_first :
  SieveArgumentList.takeArgument 0 0 threeArguments
  = Some (Some 1, threeArguments).
Proof. vm_compute. reflexivity. Qed.

(** C9, as the code has it: on every argument list, [takeArgument( n )]
    returns a null pointer for every [n >= 2], however many numbered
    arguments there are, because the loop never decrements [n];
    [takeArgument( 1 )] and [takeArgument( 0 )] both return the first
    numbered argument, if any. *)
Theorem takeArgument_only_first (s : state) (this : ptr) (nd : node)
    (d : SieveArgumentListData) :
  heap s !! this = Some nd ->
  prod nd = ArgumentListP d ->
  (forall n, 2 <= n ->
     SieveArgumentList.takeArgument this n s = Some (None, s))
  /\ (forall n, n <= 1 ->
      SieveArgumentList.takeArgument this n s = Some (head (args_n d), s)).
Proof.
  intros Hp Hd. split.
  - intros n Hn. unfold SieveArgumentList.takeArgument.
    run (getArgumentList_run _ _ _ _ Hp Hd).
    now rewrite (advanceSame_ge_2 _ _ Hn).
  - intros n Hn. unfold SieveArgumentList.takeArgument.
    run (getArgumentList_run _ _ _ _ Hp Hd).
    destruct (args_n d) as [|x r]; [reflexivity|]. simpl.
    destruct (Nat.ltb_spec 1 n); [lia | reflexivity].
Qed.

Lemma takeArgument_only_first_witness :
  (2 <= 2
   /\ SieveArgumentList.takeArgument 0 2 threeArguments
      = Some (None, threeArguments))
  /\ SieveArgumentList.takeArgument 0 3 threeArguments
     = Some (None, threeArguments)
  /\ SieveArgumentList.takeArgument 0 1 threeArguments
     = Some (Some 1, threeArguments)
  /\ SieveArgumentList.takeArgument 0 0 threeArguments
     = Some (Some 1, threeArguments).
Proof.
  destruct (takeArgument_only_first threeArguments 0 threeNumbered
              (mkArgumentList [1; 2; 3] [] [1; 2; 3]) eq_refl eq_refl)
    as [H2 H1].
  split; [split; [lia | apply H2; lia]|].
  split; [apply H2; lia|].
  split; apply H1; lia.
Defined.

(** ** Errors are kept *)

Lemma keeps_refl (s : state) : keeps s s.
Proof. intros p nd Hp. eauto. Qed.

Lemma keeps_trans (s1 s2 s3 : state) : keeps s1 s2 -> keeps s2 s3 -> keeps s1 s3.
Proof.
  intros H12 H23 p nd Hp.
  destruct (H12 p nd Hp) as (nd2 & Hp2 & He2).
  destruct (H23 p nd2 Hp2) as (nd3 & Hp3 & He3).
  exists nd3. split; [exact Hp3|]. intros He.
  rewrite <- (He2 He). apply He3. now rewrite (He2 He).
Qed.

Lemma keeps_heap (s s' : state) : heap s' = heap s -> keeps s s'.
Proof. intros Hh p nd Hp. rewrite Hh. eauto. Qed.

Lemma keeps_insert (s : state) (p : ptr) (nd nd' : node) (b : list ptr)
    (x : list string) :
  heap s !! p = Some nd ->
  (isEmpty (prod_error (base nd)) = false ->
   prod_error (base nd') = prod_error (base nd)) ->
  keeps s (mkState (<[p := nd']> (heap s)) b x).
Proof.
  intros Hp He q ndq Hq. simpl. destruct (decide (p = q)) as [<-|Hne].
  - rewrite lookup_insert_eq. exists nd'. split; [reflexivity|].
    rewrite Hp in Hq. injection Hq as <-. exact He.
  - rewrite lookup_insert_ne by exact Hne. eauto.
Qed.

Lemma Keeps_ret {A : Type} (a : A) : Keeps (ret a).
Proof. intros s b s' [= _ <-]. apply keeps_refl. Qed.

Lemma Keeps_fail {A : Type} : Keeps (@fail A).
Proof. intros s b s' [=]. Qed.

Lemma Keeps_bind {A B : Type} (m : M A) (f : A -> M B) :
  Keeps m -> (forall a, Keeps (f a)) -> Keeps (bind m f).
Proof.
  intros Hm Hf s b s' (a & s1 & H1 & H2)%bind_Some.
  eapply keeps_trans; [eapply Hm | eapply Hf]; eassumption.
Qed.

Lemma Keeps_gets {A : Type} (f : state -> A) : Keeps (gets f).
Proof. intros s b s' [= _ <-]. apply keeps_refl. Qed.

Lemma Keeps_deref (p : option ptr) : Keeps (deref p).
Proof. destruct p; [apply Keeps_ret | apply Keeps_fail]. Qed.

Lemma Keeps_getNode (p : ptr) : Keeps (getNode p).
Proof. intros s nd s' [-> _]%getNode_Some. apply keeps_refl. Qed.

Create HintDb keeps.

#[local] Hint Resolve Keeps_ret Keeps_fail Keeps_gets Keeps_deref
  Keeps_getNode : keeps.

(** One step through a computation, for goals of the form [Keeps m]. *)
Ltac keeps_step :=
  lazymatch goal with
  | |- Keeps (bind _ _) => apply Keeps_bind; [|intros]
  | |- Keeps (ret _) => apply Keeps_ret
  | |- Keeps fail => apply Keeps_fail
  | |- Keeps (if ?b then _ else _) => destruct b eqn:?
  | |- Keeps (match ?x with _ => _ end) => destruct x eqn:?
  | |- Keeps _ => solve [eauto with keeps]
  end.

Ltac keeps_auto := repeat keeps_step.

Lemma Keeps_getBase (p : ptr) : Keeps (getBase p).
Proof. unfold getBase. keeps_auto. Qed.

Lemma Keeps_modifyBase (p : ptr)
    (f : SieveProductionData -> SieveProductionData) :
  (forall d, prod_error (f d) = prod_error d) -> Keeps (modifyBase p f).
Proof.
  intros Hf s a s' (n & s1 & [-> Hp]%getNode_Some & Hput)%bind_Some.
  injection Hput as _ <-. eapply keeps_insert; [exact Hp|].
  intros _. apply Hf.
Qed.

Lemma Keeps_getArgument (p : ptr) : Keeps (getArgument p).
Proof. unfold getArgument. keeps_auto. Qed.

Lemma Keeps_getArgumentList (p : ptr) : Keeps (getArgumentList p).
Proof. unfold getArgumentList. keeps_auto. Qed.

Lemma Keeps_getBlock (p : ptr) : Keeps (getBlock p).
Proof. unfold getBlock. keeps_auto. Qed.

Lemma Keeps_getCommand (p : ptr) : Keeps (getCommand p).
Proof. unfold getCommand. keeps_auto. Qed.

Lemma Keeps_getTest (p : ptr) : Keeps (getTest p).
Proof. unfold getTest. keeps_auto. Qed.

Lemma Keeps_modifyArgument (p : ptr)
    (f : SieveArgumentData -> SieveArgumentData) :
  Keeps (modifyArgument p f).
Proof.
  intros s a s' (n & s1 & [-> Hp]%getNode_Some & Hput)%bind_Some.
  destruct (prod n); try discriminate.
  injection Hput as _ <-. eapply keeps_insert; [exact Hp|]. reflexivity.
Qed.

Lemma Keeps_modifyArgumentList (p : ptr)
    (f : SieveArgumentListData -> SieveArgumentListData) :
  Keeps (modifyArgumentList p f).
Proof.
  intros s a s' (n & s1 & [-> Hp]%getNode_Some & Hput)%bind_Some.
  destruct (prod n); try discriminate.
  injection Hput as _ <-. eapply keeps_insert; [exact Hp|]. reflexivity.
Qed.

Lemma Keeps_modifyCommand (p : ptr)
    (f : SieveCommandData -> SieveCommandData) :
  Keeps (modifyCommand p f).
Proof.
  intros s a s' (n & s1 & [-> Hp]%getNode_Some & Hput)%bind_Some.
  destruct (prod n); try discriminate.
  injection Hput as _ <-. eapply keeps_insert; [exact Hp|]. reflexivity.
Qed.

Lemma Keeps_modifyTest (p : ptr) (f : SieveTestData -> SieveTestData) :
  Keeps (modifyTest p f).
Proof.
  intros s a s' (n & s1 & [-> Hp]%getNode_Some & Hput)%bind_Some.
  destruct (prod n); try discriminate.
  injection Hput as _ <-. eapply keeps_insert; [exact Hp|]. reflexivity.
Qed.

Lemma Keeps_forEach {A : Type} (l : list A) (body : A -> M unit) :
  (forall x, Keeps (body x)) -> Keeps (forEach l body).
Proof.
  intros Hb. induction l as [|x l IH]; simpl; keeps_auto; auto.
Qed.

Lemma Keeps_rememberBadProduction (p : ptr) :
  Keeps (SieveParser.rememberBadProduction p).
Proof. intros s a s' [= _ <-]. now apply keeps_heap. Qed.

Lemma Keeps_rememberNeededExtension (e : string) :
  Keeps (SieveParser.rememberNeededExtension e).
Proof. intros s a s' [= _ <-]. now apply keeps_heap. Qed.

Lemma Keeps_walkFuel : Keeps walkFuel.
Proof. apply Keeps_gets. Qed.

#[local] Hint Resolve Keeps_getBase Keeps_getArgument Keeps_getArgumentList
  Keeps_getBlock Keeps_getCommand Keeps_getTest Keeps_modifyArgument
  Keeps_modifyArgumentList Keeps_modifyCommand Keeps_modifyTest
  Keeps_rememberBadProduction Keeps_rememberNeededExtension Keeps_walkFuel
  : keeps.

Lemma Keeps_findIhaveFailed (fuel : nat) (p : option ptr) :
  Keeps (SieveProduction.findIhaveFailed fuel p).
Proof.
  revert p. induction fuel as [|k IH]; intros [q|]; simpl; keeps_auto.
Qed.

Lemma Keeps_declared (fuel : nat) (p : option ptr) (x : string) :
  Keeps (SieveProduction.declared fuel p x).
Proof.
  revert p. induction fuel as [|k IH]; intros [q|]; simpl; keeps_auto.
Qed.

Lemma Keeps_already (fuel : nat) (p : option ptr) :
  Keeps (SieveProduction.already fuel p).
Proof.
  revert p. induction fuel as [|k IH]; intros [q|]; simpl; keeps_auto.
Qed.

#[local] Hint Resolve Keeps_findIhaveFailed Keeps_declared Keeps_already
  : keeps.

Lemma Keeps_setError (this : ptr) (e : string) :
  isEmpty e = false -> Keeps (SieveProduction.setError this e).
Proof.
  intros He. unfold SieveProduction.setError. rewrite He.
  intros s a s' (d & s1 & [-> (nd & Hp & <-)]%getBase_Some & H)%bind_Some.
  apply bind_Some in H as (u & s2 & Hmid & Htail).
  apply keeps_trans with s2.
  - destruct (isEmpty (prod_error (base nd))) eqn:Herr.
    + apply bind_Some in Hmid as (fuel & s3 & [= _ <-] & Hmid).
      apply bind_Some in Hmid as (r & s4 & Hw & Hmid).
      apply findIhaveFailed_state in Hw as ->.
      destruct r.
      * injection Hmid as _ <-. apply keeps_refl.
      * rewrite (modifyBase_run _ _ _ _ Hp) in Hmid. injection Hmid as _ <-.
        eapply keeps_insert; [exact Hp|]. intros Hne. congruence.
    + injection Hmid as _ <-. apply keeps_refl.
  - enough (K : Keeps (bind (getBase this) (fun d' =>
                if negb (isEmpty (prod_error d')) && prod_parser d'
                then SieveParser.rememberBadProduction this else ret tt)))
      by exact (K _ _ _ Htail).
    keeps_auto.
Qed.

Lemma Keeps_setParsed (p : ptr) (b : bool) : Keeps (SieveArgument.setParsed p b).
Proof. apply Keeps_modifyArgument. Qed.

Lemma Keeps_setIhaveFailed (p : ptr) : Keeps (SieveProduction.setIhaveFailed p).
Proof. now apply Keeps_modifyBase. Qed.

Lemma Keeps_require (this : ptr) (x : string) :
  Keeps (SieveProduction.require this x).
Proof. unfold SieveProduction.require. keeps_auto. Qed.

Lemma Keeps_addExtensions (this : ptr) (l : option (list string)) :
  Keeps (SieveProduction.addExtensions this l).
Proof.
  unfold SieveProduction.addExtensions. keeps_auto.
  apply Keeps_forEach. intros x. keeps_auto. now apply Keeps_modifyBase.
Qed.

#[local] Hint Resolve Keeps_setParsed Keeps_setIhaveFailed Keeps_require
  Keeps_addExtensions : keeps.

(** [setError] with a message that is visibly not empty. *)
#[local] Hint Extern 1 (Keeps (SieveProduction.setError _ _)) =>
  apply Keeps_setError;
  first [ reflexivity | assumption | apply negb_true_iff; assumption ]
  : keeps.

Ltac keeps_more :=
  repeat first
    [ keeps_step
    | lazymatch goal with
      | |- Keeps (forEach _ _) => apply Keeps_forEach; intros
      end ].

Lemma Keeps_assertNumber (p : ptr) : Keeps (SieveArgument.assertNumber p).
Proof. unfold SieveArgument.assertNumber. keeps_more. Qed.

Lemma Keeps_assertString (p : ptr) : Keeps (SieveArgument.assertString p).
Proof. unfold SieveArgument.assertString. keeps_more. Qed.

Lemma Keeps_assertStringList (p : ptr) :
  Keeps (SieveArgument.assertStringList p).
Proof. unfold SieveArgument.assertStringList. keeps_more. Qed.

#[local] Hint Resolve Keeps_assertNumber Keeps_assertString
  Keeps_assertStringList : keeps.

Lemma Keeps_arguments (this : ptr) : Keeps (SieveArgumentList.arguments this).
Proof. unfold SieveArgumentList.arguments. keeps_more. Qed.

Lemma Keeps_tests (this : ptr) : Keeps (SieveArgumentList.tests this).
Proof. unfold SieveArgumentList.tests. keeps_more. Qed.

#[local] Hint Resolve Keeps_arguments Keeps_tests : keeps.

Lemma Keeps_argumentFollowingTagLoop (l : list ptr) (tag : string)
    (firstTag result : option ptr) :
  Keeps (SieveArgumentList.argumentFollowingTagLoop l tag firstTag result).
Proof.
  revert firstTag result. induction l as [|i rest IH]; intros; simpl;
    keeps_more.
Qed.

#[local] Hint Resolve Keeps_argumentFollowingTagLoop : keeps.

Lemma Keeps_argumentFollowingTag (this : ptr) (tag : string) :
  Keeps (SieveArgumentList.argumentFollowingTag this tag).
Proof. unfold SieveArgumentList.argumentFollowingTag. keeps_more. Qed.

#[local] Hint Resolve Keeps_argumentFollowingTag : keeps.

Lemma Keeps_firstElement (l : list string) :
  Keeps (SieveArgumentList.firstElement l).
Proof. unfold SieveArgumentList.firstElement. keeps_more. Qed.

Lemma Keeps_stringList (q : ptr) : Keeps (SieveArgument.stringList q).
Proof. unfold SieveArgument.stringList. keeps_more. Qed.

#[local] Hint Resolve Keeps_firstElement Keeps_stringList : keeps.

Lemma Keeps_takeTaggedString (this : ptr) (tag : string) :
  Keeps (SieveArgumentList.takeTaggedString this tag).
Proof. unfold SieveArgumentList.takeTaggedString. keeps_more. Qed.

Lemma Keeps_takeTaggedStringList (this : ptr) (tag : string) :
  Keeps (SieveArgumentList.takeTaggedStringList this tag).
Proof. unfold SieveArgumentList.takeTaggedStringList. keeps_more. Qed.

Lemma Keeps_takeTaggedNumber (this : ptr) (tag : string) :
  Keeps (SieveArgumentList.takeTaggedNumber this tag).
Proof. unfold SieveArgumentList.takeTaggedNumber. keeps_more. Qed.

Lemma Keeps_findTagSeek (l : list ptr) (tag : string) :
  Keeps (SieveArgumentList.findTagSeek l tag).
Proof. induction l as [|a rest IH]; simpl; keeps_more. Qed.

#[local] Hint Resolve Keeps_findTagSeek : keeps.

Lemma Keeps_findTag (this : ptr) (tag : string) :
  Keeps (SieveArgumentList.findTag this tag).
Proof. unfold SieveArgumentList.findTag. keeps_more. Qed.

Lemma Keeps_allowOneTagCollect (l : list ptr) (ts : list string) :
  Keeps (SieveArgumentList.allowOneTagCollect l ts).
Proof. induction l as [|a rest IH]; simpl; keeps_more. Qed.

#[local] Hint Resolve Keeps_allowOneTagCollect : keeps.

Lemma Keeps_allowOneTag (this : ptr) (ts : list string) :
  Keeps (SieveArgumentList.allowOneTag this ts).
Proof. unfold SieveArgumentList.allowOneTag. keeps_more. Qed.

Lemma Keeps_unparsed (l : list ptr) : Keeps (SieveArgumentList.unparsed l).
Proof. induction l as [|a rest IH]; simpl; keeps_more. Qed.

#[local] Hint Resolve Keeps_unparsed : keeps.

Lemma Keeps_numberRemainingArguments (this : ptr) :
  Keeps (SieveArgumentList.numberRemainingArguments this).
Proof. unfold SieveArgumentList.numberRemainingArguments. keeps_more. Qed.

Lemma Keeps_flagUnparsedAsBad (this : ptr) :
  Keeps (SieveArgumentList.flagUnparsedAsBad this).
Proof. unfold SieveArgumentList.flagUnparsedAsBad. keeps_more. Qed.

Lemma Keeps_takeStringList (this : ptr) (n : nat) :
  Keeps (SieveArgumentList.takeStringList this n).
Proof. unfold SieveArgumentList.takeStringList. keeps_more. Qed.

Lemma Keeps_takeString (this : ptr) (n : nat) :
  Keeps (SieveArgumentList.takeString this n).
Proof. unfold SieveArgumentList.takeString. keeps_more. Qed.

Lemma Keeps_takeNumber (this : ptr) (n : nat) :
  Keeps (SieveArgumentList.takeNumber this n).
Proof. unfold SieveArgumentList.takeNumber. keeps_more. Qed.

Lemma Keeps_takeArgument (this : ptr) (n : nat) :
  Keeps (SieveArgumentList.takeArgument this n).
Proof. unfold SieveArgumentList.takeArgument. keeps_more. Qed.

#[local] Hint Resolve Keeps_takeTaggedString Keeps_takeTaggedStringList
  Keeps_takeTaggedNumber Keeps_findTag Keeps_allowOneTag
  Keeps_numberRemainingArguments Keeps_flagUnparsedAsBad Keeps_takeStringList
  Keeps_takeString Keeps_takeNumber Keeps_takeArgument : keeps.

Lemma Keeps_tagError (this : ptr) (tag e : string) :
  isEmpty e = false -> Keeps (SieveArgumentList.tagError this tag e).
Proof. intros He. unfold SieveArgumentList.tagError. keeps_more. Qed.

#[local] Hint Extern 1 (Keeps (SieveArgumentList.tagError _ _ _)) =>
  apply Keeps_tagError;
  first [ reflexivity | assumption | apply negb_true_iff; assumption ]
  : keeps.

Lemma Keeps_report (arg : option ptr) (owner : ptr) (e : string) :
  Keeps (SieveNotifyMethod.report arg owner e).
Proof. unfold SieveNotifyMethod.report. keeps_more. Qed.

#[local] Hint Resolve Keeps_report : keeps.

Section KeepsAnalysis.

Context `{Collaborators}.

Lemma Keeps_new (url : string) (arg : option ptr) (owner : ptr) :
  Keeps (SieveNotifyMethod.new url arg owner).
Proof. unfold SieveNotifyMethod.new. keeps_more. Qed.

Lemma Keeps_setFrom (owner : ptr) (from : string) (arg : option ptr) :
  Keeps (SieveNotifyMethod.setFrom owner from arg).
Proof. unfold SieveNotifyMethod.setFrom. keeps_more. Qed.

Lemma Keeps_setMessage (owner : ptr) (m : string) (arg : option ptr) :
  Keeps (SieveNotifyMethod.setMessage owner m arg).
Proof. unfold SieveNotifyMethod.setMessage. keeps_more. Qed.

Lemma Keeps_test_identifier (this : ptr) : Keeps (SieveTest.identifier this).
Proof. unfold SieveTest.identifier. keeps_more. Qed.

Lemma Keeps_test_arguments (this : ptr) : Keeps (SieveTest.arguments this).
Proof. unfold SieveTest.arguments. keeps_more. Qed.

Lemma Keeps_strings (l : option ptr) : Keeps (SieveTest.strings l).
Proof. unfold SieveTest.strings. keeps_more. Qed.

Hint Resolve Keeps_new Keeps_setFrom Keeps_setMessage Keeps_test_identifier
  Keeps_test_arguments Keeps_strings : keeps.

Hint Extern 1 (Keeps (SieveTest.setMatchType _ _)) =>
  apply Keeps_modifyTest : keeps.
Hint Extern 1 (Keeps (SieveTest.setMatchOperator _ _)) =>
  apply Keeps_modifyTest : keeps.
Hint Extern 1 (Keeps (SieveTest.setAddressPart _ _)) =>
  apply Keeps_modifyTest : keeps.
Hint Extern 1 (Keeps (SieveTest.setComparator _ _)) =>
  apply Keeps_modifyTest : keeps.
Hint Extern 1 (Keeps (SieveTest.setBodyMatchType _ _)) =>
  apply Keeps_modifyTest : keeps.
Hint Extern 1 (Keeps (SieveTest.setHeaders _ _)) =>
  apply Keeps_modifyTest : keeps.
Hint Extern 1 (Keeps (SieveTest.setEnvelopeParts _ _)) =>
  apply Keeps_modifyTest : keeps.
Hint Extern 1 (Keeps (SieveTest.setKeys _ _)) =>
  apply Keeps_modifyTest : keeps.
Hint Extern 1 (Keeps (SieveTest.setContentTypes _ _)) =>
  apply Keeps_modifyTest : keeps.
Hint Extern 1 (Keeps (SieveTest.setDatePart _ _)) =>
  apply Keeps_modifyTest : keeps.
Hint Extern 1 (Keeps (SieveTest.setZone _ _)) =>
  apply Keeps_modifyTest : keeps.
Hint Extern 1 (Keeps (SieveTest.setSize _ _ _)) =>
  apply Keeps_modifyTest : keeps.

Lemma Keeps_findComparator (this : ptr) : Keeps (SieveTest.findComparator this).
Proof. unfold SieveTest.findComparator. keeps_more. Qed.

Lemma Keeps_findMatchType (this : ptr) : Keeps (SieveTest.findMatchType this).
Proof. unfold SieveTest.findMatchType. keeps_more. Qed.

Lemma Keeps_findAddressPart (this : ptr) :
  Keeps (SieveTest.findAddressPart this).
Proof. unfold SieveTest.findAddressPart. keeps_more. Qed.

Lemma Keeps_headerField (this a : ptr) (k : nat) :
  Keeps (SieveTest.headerField this a k).
Proof. unfold SieveTest.headerField. keeps_more. Qed.

Hint Resolve Keeps_findComparator Keeps_findMatchType Keeps_findAddressPart
  Keeps_headerField : keeps.

Lemma Keeps_takeHeaderFieldList (this : ptr) (n : nat) :
  Keeps (SieveTest.takeHeaderFieldList this n).
Proof. unfold SieveTest.takeHeaderFieldList. keeps_more. Qed.

Lemma Keeps_envelopePart (this a : ptr) (k : nat) :
  Keeps (SieveTest.envelopePart this a k).
Proof. unfold SieveTest.envelopePart. keeps_more. Qed.

Hint Resolve Keeps_takeHeaderFieldList Keeps_envelopePart : keeps.

Lemma Keeps_test_parse (fuel : nat) (this : ptr) :
  Keeps (SieveTest.parse fuel this).
Proof.
  revert this. induction fuel as [|k IH]; intros this;
    cbn [SieveTest.parse]; keeps_more.
Qed.

Hint Resolve Keeps_test_parse : keeps.

Lemma Keeps_command_identifier (this : ptr) :
  Keeps (SieveCommand.identifier this).
Proof. unfold SieveCommand.identifier. keeps_more. Qed.

Lemma Keeps_command_arguments (this : ptr) :
  Keeps (SieveCommand.arguments this).
Proof. unfold SieveCommand.arguments. keeps_more. Qed.

Hint Resolve Keeps_command_identifier Keeps_command_arguments : keeps.

Lemma Keeps_parseAsAddress (this : ptr) (s t : string) :
  Keeps (SieveCommand.parseAsAddress this s t).
Proof. unfold SieveCommand.parseAsAddress. keeps_more. Qed.

Hint Resolve Keeps_parseAsAddress : keeps.

Lemma Keeps_parseVacation (this : ptr) : Keeps (SieveCommand.parseVacation this).
Proof. unfold SieveCommand.parseVacation. keeps_more. Qed.

Lemma Keeps_parseNotify (this : ptr) : Keeps (SieveCommand.parseNotify this).
Proof. unfold SieveCommand.parseNotify. keeps_more. Qed.

Lemma Keeps_parseFileinto (this : ptr) : Keeps (SieveCommand.parseFileinto this).
Proof. unfold SieveCommand.parseFileinto. keeps_more. Qed.

Lemma Keeps_parseRequire (this : ptr) : Keeps (SieveCommand.parseRequire this).
Proof. unfold SieveCommand.parseRequire. keeps_more. Qed.

Hint Resolve Keeps_parseVacation Keeps_parseNotify Keeps_parseFileinto
  Keeps_parseRequire : keeps.

Lemma Keeps_parseEach (f : ptr -> string -> M unit) (l : list ptr)
    (prev : string) :
  (forall x p, Keeps (f x p)) -> Keeps (SieveCommand.parseEach f l prev).
Proof.
  intros Hf. revert prev. induction l as [|x rest IH]; intros; simpl;
    keeps_more.
Qed.

Lemma Keeps_command_parse (fuel : nat) (this : ptr) (previous : string) :
  Keeps (SieveCommand.parse fuel this previous).
Proof.
  revert this previous. induction fuel as [|k IH]; intros this previous;
    cbn [SieveCommand.parse]; keeps_more.
  all: now apply Keeps_parseEach.
Qed.

Lemma Keeps_parseCommands (fuel : nat) (l : list ptr) (prev : string) :
  Keeps (SieveCommand.parseCommands fuel l prev).
Proof. apply Keeps_parseEach. apply Keeps_command_parse. Qed.

End KeepsAnalysis.

Lemma elem_of_errors (s : state) (p : ptr) (e : string) :
  (p, e) ∈ errors s <->
  exists nd, heap s !! p = Some nd /\ prod_error (base nd) = e
             /\ isEmpty e = false.
Proof.
  unfold errors. rewrite list_elem_of_omap. split.
  - intros ([q nd] & Hin & Hf). apply elem_of_map_to_list in Hin.
    destruct (isEmpty (prod_error (base nd))) eqn:He; [discriminate|].
    injection Hf as <- <-. eauto.
  - intros (nd & Hp & <- & He). exists (p, nd). split.
    + now apply elem_of_map_to_list.
    + now rewrite He.
Qed.

(** ** Scenarios of the spec

    The analysis of four of the spec's scripts, on [server]: the model
    gives the outcomes the spec lists. *)

Example scenario2_no_error :
  option_map errors (analysed (H := server) 4 scenario2) = Some [].
Proof. vm_compute. reflexivity. Qed.

Example scenario4_cyrus_syntax :
  option_map errors (analysed (H := server) 4 scenario4)
  = Some [(4, quoted "INBOX.Junk"
               +:+ " is Cyrus syntax. Archiveopteryx uses " +:+ quoted "Junk")].
Proof. vm_compute. reflexivity. Qed.

Example scenario7_ihave_failed :
  option_map errors (analysed (H := server) 4 scenario7) = Some [].
Proof. vm_compute. reflexivity. Qed.

Example scenario8_else_alone :
  option_map errors (analysed (H := server) 4 scenario8)
  = Some [(1, "else is only permitted after if/elsif")].
Proof. vm_compute. reflexivity. Qed.

(** ** The commands *)

(** C1, at the code: for [ereject "<reason>";] the analysis consumes
    the one string argument without an error, but the extension it
    registers as needed is [reject]; [ereject] is not registered. *)
Theorem ereject_registers_reject `{Collaborators} (reason : string) :
  exists s,
    analysed 2 (erejectScript reason) = Some s
    /\ extensions s = ["reject"]
    /\ ("ereject" ∉ extensions s)
    /\ parsedAt s 3 = true
    /\ errors s = [].
Proof.
  eexists. split; [vm_compute; reflexivity|].
  split; [reflexivity|]. split; [|split; reflexivity].
  cbn. intros Hin. apply list_elem_of_In in Hin. simpl in Hin.
  destruct Hin as [[=]|[]].
Qed.

(** C2, at the code: for
    [notify :from "joe@example.org" :importance "1" "mailto:...";] the
    analysis reads the string following [:from] where it should read
    the one following [:importance], and records an importance error
    on the argument ["1"]. *)
Theorem notify_importance_reads_from :
  exists s,
    analysed (H := server) 2 notifyScript = Some s
    /\ errorOf s 6 = "Importance must be 1, 2 or 3"
    /\ errors s = [(6, "Importance must be 1, 2 or 3")].
Proof.
  eexists. split; [vm_compute; reflexivity|]. split; reflexivity.
Qed.

(** C3, at the code: for [fileinto :flags ["\Seen", "\Flagged"] "Junk";]
    the analysis registers [imap4flags] but looks for the string list
    after [:copy]; the list following [:flags] is then taken for the
    mailbox name and gets an error, and the mailbox argument is left
    unparsed. *)
Theorem fileinto_flags_list_not_consumed :
  exists s,
    analysed (H := server) 2 fileintoScript = Some s
    /\ extensions s = ["fileinto"; "imap4flags"]
    /\ errorOf s 4 = "Expected a single string here, not a string list"
    /\ errorOf s 5 = "Why is this string/list here?".
Proof.
  eexists. split; [vm_compute; reflexivity|]. repeat split; reflexivity.
Qed.





(** C6, the claim refuted: after the analysis of
    [if ihave ["nosuchext"] "extra" { }] the test [3] is marked
    ihave-failed and its argument [6] still holds an error. *)
Lemma ihaveFailed_scope_holds_error :
  exists s,
    analysed (H := server) 3 ihaveScript = Some s
    /\ SieveProduction.findIhaveFailed (S (size (heap s))) (Some 6) s
       = Some (Some 3, s)
    /\ errorOf s 6 = "Why is this string/list here?"
    /\ (~ ihaveFailedScopeClean s).
Proof.
  eexists. split; [vm_compute; reflexivity|].
  split; [vm_compute; reflexivity|]. split; [reflexivity|].
  intros Hclean. specialize (Hclean 6 3). discriminate Hclean.
  vm_compute. reflexivity.
Qed.

(** C8, the claim refuted: a second analysis of [ereject "no";] records
    an error that the first did not. *)
Lemma second_analysis_adds_error :
  exists cs s1 s2,
    SieveScript.parse (H := server) 2 (erejectScript "no") SieveScript.empty
    = Some ((0, cs), s1)
    /\ SieveScript.analyse (H := server) 2 cs s1 = Some (tt, s2)
    /\ errors s1 = []
    /\ errors s2 = [(2, "Missing string argument")]
    /\ ~ (forall x, x ∈ errors s2 -> x ∈ errors s1).
Proof.
  eexists _, _, _. split; [vm_compute; reflexivity|].
  split; [vm_compute; reflexivity|].
  split; [reflexivity|]. split; [reflexivity|].
  intros Hsub. specialize (Hsub (2, "Missing string argument")).
  apply list_elem_of_In in Hsub; [destruct Hsub|].
  apply list_elem_of_In. vm_compute. auto.
Qed.

(** C8, as the code has it: a second analysis keeps every (node, error
    message) pair of the first; it may add pairs. *)
Theorem second_analysis_keeps_errors `{Collaborators} (fuel1 fuel2 : nat)
    (cs : list ptr) (s s1 s2 : state) :
  SieveScript.analyse fuel1 cs s = Some (tt, s1) ->
  SieveScript.analyse fuel2 cs s1 = Some (tt, s2) ->
  forall x, x ∈ errors s1 -> x ∈ errors s2.
Proof.
  intros _ H2 [p e] (nd & Hp & He & Hne)%elem_of_errors.
  apply elem_of_errors.
  destruct (Keeps_parseCommands _ _ _ _ _ _ H2 p nd Hp) as (nd' & Hp' & Hk).
  exists nd'. split; [exact Hp'|]. split; [|exact Hne].
  rewrite <- He. apply Hk. now rewrite He.
Qed.

Lemma second_analysis_keeps_errors_witness :
  SieveScript.analyse (H := server) 2 [1; 4] keepEreject0
  = Some (tt, keepEreject1)
  /\ SieveScript.analyse (H := server) 2 [1; 4] keepEreject1
     = Some (tt, keepEreject2)
  /\ errors keepEreject1 = [(3, "Why is this string/list here?")]
  /\ errors keepEreject2 = [(5, "Missing string argument");
                            (3, "Why is this string/list here?")]
  /\ forall x, x ∈ errors keepEreject1 -> x ∈ errors keepEreject2.
Proof.
  assert (H1 : SieveScript.analyse (H := server) 2 [1; 4] keepEreject0
               = Some (tt, keepEreject1)) by (vm_compute; reflexivity).
  assert (H2 : SieveScript.analyse (H := server) 2 [1; 4] keepEreject1
               = Some (tt, keepEreject2)) by (vm_compute; reflexivity).
  split; [exact H1|]. split; [exact H2|].
  split; [vm_compute; reflexivity|]. split; [vm_compute; reflexivity|].
  exact (second_analysis_keeps_errors (H := server) 2 2 [1; 4]
           keepEreject0 keepEreject1 keepEreject2 H1 H2).
Defined.

(** ** Argument lists: reading the tags *)

Lemma argumentAt_lookup (s : state) (x : ptr) (d : SieveArgumentData) :
  argumentAt (heap s) x = Some d <->
  exists nd, heap s !! x = Some nd /\ prod nd = ArgumentP d.
Proof.
  unfold argumentAt. split.
  - destruct (heap s !! x) as [nd|]; [|discriminate].
    destruct (prod nd) eqn:Hp; try discriminate. intros [= ->]. eauto.
  - intros (nd & -> & ->). reflexivity.
Qed.

Lemma getArgument_run (s : state) (x : ptr) (d : SieveArgumentData) :
  argumentAt (heap s) x = Some d -> getArgument x s = Some (d, s).
Proof.
  intros (nd & Hx & Hd)%argumentAt_lookup. unfold getArgument.
  run (getNode_run _ _ _ Hx). now rewrite Hd.
Qed.

Lemma sim_refl (s : state) : sim s s.
Proof. repeat split. Qed.

Lemma sim_trans (s1 s2 s3 : state) : sim s1 s2 -> sim s2 s3 -> sim s1 s3.
Proof.
  intros (Hb1 & He1 & Hh1) (Hb2 & He2 & Hh2).
  repeat split; [congruence | congruence |].
  intros p. now rewrite Hh2, Hh1.
Qed.

Lemma sim_sym (s1 s2 : state) : sim s1 s2 -> sim s2 s1.
Proof. intros (Hb & He & Hh). repeat split; auto. Qed.

Lemma unparse_base (nd : node) : base (unparse nd) = base nd.
Proof. unfold unparse. now destruct (prod nd). Qed.

Lemma sim_sameBase (s s' : state) : sim s s' -> sameBase (heap s) (heap s').
Proof.
  intros (_ & _ & Hh) p. specialize (Hh p).
  destruct (heap s' !! p) as [n'|], (heap s !! p) as [n|]; simpl in *;
    try discriminate; [|reflexivity].
  injection Hh as Hh. f_equal.
  now rewrite <- (unparse_base n'), Hh, unparse_base.
Qed.

Lemma sim_argumentAt (s s' : state) (x : ptr) (d : SieveArgumentData) :
  sim s s' -> argumentAt (heap s) x = Some d ->
  exists d', argumentAt (heap s') x = Some d'
             /\ arg_tag d' = arg_tag d /\ arg_number d' = arg_number d
             /\ arg_list d' = arg_list d.
Proof.
  intros (_ & _ & Hh) (nd & Hx & Hd)%argumentAt_lookup. specialize (Hh x).
  rewrite Hx in Hh. destruct (heap s' !! x) as [n'|] eqn:Hx'; [|discriminate].
  simpl in Hh. injection Hh as Hh. unfold unparse in Hh. rewrite Hd in Hh.
  destruct (prod n') as [|d'| | | |] eqn:Hd';
    try (rewrite Hh in Hd'; simpl in Hd'; discriminate).
  injection Hh as _ Ht Hn Hl _. exists d'. split; [|auto].
  apply argumentAt_lookup. eauto.
Qed.

Lemma sim_other (s s' : state) (p : ptr) (nd : node) :
  sim s s' -> heap s !! p = Some nd ->
  (forall d, prod nd <> ArgumentP d) -> heap s' !! p = Some nd.
Proof.
  intros (_ & _ & Hh) Hp Hna. specialize (Hh p). rewrite Hp in Hh.
  destruct (heap s' !! p) as [n'|]; [|discriminate].
  simpl in Hh. injection Hh as Hh. f_equal.
  assert (Hnd : unparse nd = nd).
  { unfold unparse. destruct (prod nd) eqn:Hd; try reflexivity.
    now exfalso; eapply Hna. }
  rewrite Hnd in Hh. unfold unparse in Hh.
  destruct (prod n') eqn:Hd'; try exact Hh.
  exfalso. apply (Hna (mkArgument (arg_tag d) (arg_number d) (arg_list d)
                         (arg_calls d) false)).
  now rewrite <- Hh.
Qed.

Lemma sim_errorOf (s s' : state) (p : ptr) :
  sim s s' -> errorOf s' p = errorOf s p.
Proof.
  intros Hs. apply sim_sameBase in Hs. specialize (Hs p). unfold errorOf.
  destruct (heap s' !! p), (heap s !! p); simpl in Hs; try discriminate;
    [|reflexivity].
  now injection Hs as ->.
Qed.

Lemma sim_lacks (s s' : state) (tag : string) (l : list ptr) :
  sim s s' -> lacks (heap s) tag l -> lacks (heap s') tag l.
Proof.
  intros Hs Hl. unfold lacks. eapply Forall_impl; [exact Hl|].
  intros x (d & Hx & Ht).
  destruct (sim_argumentAt _ _ _ _ Hs Hx) as (d' & Hx' & Ht' & _).
  exists d'. split; [exact Hx'|]. now rewrite Ht'.
Qed.

Lemma setParsed_run (s : state) (x : ptr) (d : SieveArgumentData) (b : bool) :
  argumentAt (heap s) x = Some d ->
  exists s', SieveArgument.setParsed x b s = Some (tt, s') /\ sim s s'.
Proof.
  intros (nd & Hx & Hd)%argumentAt_lookup.
  unfold SieveArgument.setParsed, modifyArgument.
  run (getNode_run _ _ _ Hx). rewrite Hd.
  eexists. split; [reflexivity|]. repeat split. intros p. simpl.
  destruct (decide (x = p)) as [<-|Hne].
  - rewrite lookup_insert_eq, Hx. simpl. f_equal. unfold unparse. simpl.
    now rewrite Hd.
  - now rewrite lookup_insert_ne.
Qed.

Lemma findTagSeek_lacks (s : state) (tag : string) (l : list ptr) :
  lacks (heap s) tag l -> SieveArgumentList.findTagSeek l tag s = Some ([], s).
Proof.
  induction 1 as [|x l (d & Hx & Ht) _ IH]; simpl; [reflexivity|].
  run (getArgument_run _ _ _ Hx). rewrite Ht. exact IH.
Qed.

Lemma findTagSeek_found (s : state) (tag : string) (pre rest : list ptr)
    (y : ptr) (d : SieveArgumentData) :
  lacks (heap s) tag pre -> argumentAt (heap s) y = Some d ->
  (arg_tag d =? tag)%string = true ->
  SieveArgumentList.findTagSeek (pre ++ y :: rest) tag s
  = Some (y :: rest, s).
Proof.
  intros Hpre Hy Ht.
  induction Hpre as [|x l (dx & Hx & Htx) _ IH]; simpl.
  - run (getArgument_run _ _ _ Hy). now rewrite Ht.
  - run (getArgument_run _ _ _ Hx). rewrite Htx. exact IH.
Qed.

Lemma duplicates_lacks (s : state) (tag : string) (r : ptr) (l : list ptr) :
  lacks (heap s) tag l ->
  forEach l (fun a =>
    d ← getArgument a;
    if (arg_tag d =? tag)%string then
      SieveProduction.setError r ("Tag occurs twice: " +:+ tag);;
      SieveProduction.setError a ("Tag occurs twice: " +:+ tag)
    else ret tt) s = Some (tt, s).
Proof.
  induction 1 as [|x l (d & Hx & Ht) _ IH]; simpl; [reflexivity|].
  run (getArgument_run _ _ _ Hx). rewrite Ht. run (ret_run s tt). exact IH.
Qed.

Lemma arguments_run (s : state) (al : ptr) (nd : node)
    (d : SieveArgumentListData) :
  heap s !! al = Some nd -> prod nd = ArgumentListP d ->
  SieveArgumentList.arguments al s = Some (args_a d, s).
Proof.
  intros Hal Hd. unfold SieveArgumentList.arguments.
  now run (getArgumentList_run _ _ _ _ Hal Hd).
Qed.

Lemma findTag_absent (s : state) (al : ptr) (nd : node)
    (d : SieveArgumentListData) (tag : string) :
  heap s !! al = Some nd -> prod nd = ArgumentListP d ->
  lacks (heap s) tag (args_a d) ->
  SieveArgumentList.findTag al tag s = Some (None, s).
Proof.
  intros Hal Hd Hl. unfold SieveArgumentList.findTag.
  run (arguments_run _ _ _ _ Hal Hd).
  now run (findTagSeek_lacks _ _ _ Hl).
Qed.

Lemma findTag_present (s : state) (al : ptr) (nd : node)
    (d : SieveArgumentListData) (tag : string) (pre rest : list ptr)
    (y : ptr) (dy : SieveArgumentData) :
  heap s !! al = Some nd -> prod nd = ArgumentListP d ->
  args_a d = pre ++ y :: rest ->
  lacks (heap s) tag pre -> lacks (heap s) tag rest ->
  argumentAt (heap s) y = Some dy -> (arg_tag dy =? tag)%string = true ->
  exists s', SieveArgumentList.findTag al tag s = Some (Some y, s')
             /\ sim s s'.
Proof.
  intros Hal Hd Ha Hpre Hrest Hy Ht. unfold SieveArgumentList.findTag.
  run (arguments_run _ _ _ _ Hal Hd). rewrite Ha.
  run (findTagSeek_found _ _ _ rest _ _ Hpre Hy Ht).
  run (duplicates_lacks _ _ y _ Hrest).
  destruct (setParsed_run s y dy true Hy) as (s' & Hrun & Hsim).
  run Hrun. eauto.
Qed.

Lemma argumentFollowingTagLoop_lacks (s : state) (tag : string)
    (l : list ptr) (firstTag result : option ptr) :
  lacks (heap s) tag l ->
  firstTag = None \/ is_Some result ->
  SieveArgumentList.argumentFollowingTagLoop l tag firstTag result s
  = Some (result, s).
Proof.
  intros Hl Hfr.
  induction Hl as [|x l (d & Hx & Ht) _ IH]; simpl; [reflexivity|].
  run (getArgument_run _ _ _ Hx). rewrite Ht. run (ret_run s firstTag).
  destruct Hfr as [->|[r ->]].
  - run (ret_run s result). exact IH.
  - destruct firstTag; run (ret_run s (Some r)); exact IH.
Qed.

Lemma argumentFollowingTag_present (s : state) (al : ptr) (nd : node)
    (d : SieveArgumentListData) (tag : string) (pre rest : list ptr)
    (y z : ptr) (dy dz : SieveArgumentData) :
  heap s !! al = Some nd -> prod nd = ArgumentListP d ->
  args_a d = pre ++ y :: z :: rest ->
  lacks (heap s) tag pre -> lacks (heap s) tag (z :: rest) ->
  argumentAt (heap s) y = Some dy -> (arg_tag dy =? tag)%string = true ->
  exists s', SieveArgumentList.argumentFollowingTag al tag s
             = Some (Some z, s')
             /\ sim s s'.
Proof.
  intros Hal Hd Ha Hpre Hrest Hy Ht.
  unfold SieveArgumentList.argumentFollowingTag.
  run (arguments_run _ _ _ _ Hal Hd). rewrite Ha. clear Ha.
  remember (z :: rest) as zr eqn:Hzr.
  induction Hpre as [|x l (dx & Hx & Htx) _ IH]; simpl.
  - run (getArgument_run _ _ _ Hy). rewrite Ht. subst zr.
    destruct (setParsed_run s y dy true Hy) as (s1 & Hrun1 & Hsim1).
    run Hrun1. run (ret_run s1 (Some y)).
    assert (Hz1 : exists d1, argumentAt (heap s1) z = Some d1).
    { apply (sim_lacks _ _ _ _ Hsim1) in Hrest.
      inversion Hrest as [|? ? (d1 & Hz & _) _]. eauto. }
    destruct Hz1 as (d1 & Hz1).
    destruct (setParsed_run s1 z d1 true Hz1) as (s2 & Hrun2 & Hsim2).
    run Hrun2. run (ret_run s2 (Some z)).
    exists s2. split; [|eapply sim_trans; eassumption].
    apply argumentFollowingTagLoop_lacks; [|right; eauto].
    eapply sim_lacks; [|exact Hrest]. eapply sim_trans; eassumption.
  - run (getArgument_run _ _ _ Hx). rewrite Htx. run (ret_run s (@None ptr)).
    exact IH.
Qed.

Lemma plain_lacks (h : gmap ptr node) (tag : string) (l : list ptr) :
  tag ∈ matchTypeTags -> plain h l -> lacks h tag l.
Proof.
  intros Hin Hl. eapply Forall_impl; [exact Hl|].
  intros x (d & Hx & Hc). exists d. split; [exact Hx|].
  unfold contains, matchTypeTags in Hc. simpl in Hc.
  repeat (apply orb_false_iff in Hc as [? Hc]).
  unfold matchTypeTags in Hin.
  repeat (apply elem_of_cons in Hin as [->|Hin]; [assumption|]).
  now apply elem_of_nil in Hin.
Qed.

Lemma allowOneTagCollect_plain (s : state) (l : list ptr) :
  plain (heap s) l ->
  SieveArgumentList.allowOneTagCollect l matchTypeTags s = Some ([], s).
Proof.
  induction 1 as [|x l (d & Hx & Hc) _ IH];
    cbn [SieveArgumentList.allowOneTagCollect]; [reflexivity|].
  run (getArgument_run _ _ _ Hx). run IH.
  rewrite Hc, andb_false_r. reflexivity.
Qed.

Lemma allowOneTagCollect_one (s : state) (pre rest : list ptr) (y : ptr)
    (d : SieveArgumentData) :
  plain (heap s) pre -> plain (heap s) rest ->
  argumentAt (heap s) y = Some d ->
  exists r, SieveArgumentList.allowOneTagCollect (pre ++ y :: rest)
              matchTypeTags s = Some (r, s)
            /\ (length r <= 1)%nat.
Proof.
  intros Hpre Hrest Hy.
  induction Hpre as [|x l (dx & Hx & Hc) _ (r & IH & Hr)];
    cbn [SieveArgumentList.allowOneTagCollect app].
  - run (getArgument_run _ _ _ Hy).
    run (allowOneTagCollect_plain _ _ Hrest).
    destruct (_ && _); eexists; (split; [reflexivity|]); simpl; lia.
  - run (getArgument_run _ _ _ Hx). run IH.
    rewrite Hc, andb_false_r. eauto.
Qed.

Lemma allowOneTag_one (s : state) (al : ptr) (nd : node)
    (d : SieveArgumentListData) (pre rest : list ptr) (y : ptr)
    (dy : SieveArgumentData) :
  heap s !! al = Some nd -> prod nd = ArgumentListP d ->
  args_a d = pre ++ y :: rest ->
  plain (heap s) pre -> plain (heap s) rest ->
  argumentAt (heap s) y = Some dy ->
  SieveArgumentList.allowOneTag al matchTypeTags s = Some (tt, s).
Proof.
  intros Hal Hd Ha Hpre Hrest Hy. unfold SieveArgumentList.allowOneTag.
  run (arguments_run _ _ _ _ Hal Hd). rewrite Ha.
  destruct (allowOneTagCollect_one _ _ _ _ _ Hpre Hrest Hy) as (r & Hr & Hlen).
  run Hr. destruct r as [|a [|b r]]; try reflexivity. simpl in Hlen. lia.
Qed.

(** ** Walks up the parents read the base data only *)

Lemma sameBase_lookup (h h' : gmap ptr node) (p : ptr) (nd : node) :
  sameBase h h' -> h !! p = Some nd ->
  exists nd', h' !! p = Some nd' /\ base nd' = base nd.
Proof.
  intros Hb Hp. specialize (Hb p). rewrite Hp in Hb.
  destruct (h' !! p) as [nd'|]; [|discriminate].
  injection Hb as Hb. eauto.
Qed.

Lemma sameBase_size (h h' : gmap ptr node) :
  sameBase h h' -> size h' = size h.
Proof.
  intros Hb. rewrite <- !size_dom. f_equal. apply set_eq. intros p.
  rewrite !elem_of_dom. specialize (Hb p).
  destruct (h' !! p), (h !! p); simpl in Hb; try discriminate;
    split; intros [? ?]; eauto; discriminate.
Qed.

Lemma sameBase_refl (h : gmap ptr node) : sameBase h h.
Proof. intros p. reflexivity. Qed.

Lemma sameBase_trans (h1 h2 h3 : gmap ptr node) :
  sameBase h1 h2 -> sameBase h2 h3 -> sameBase h1 h3.
Proof. intros H12 H23 p. now rewrite H23, H12. Qed.

Lemma sameBase_insert (h : gmap ptr node) (p : ptr) (nd nd' : node) :
  h !! p = Some nd -> base nd' = base nd -> sameBase h (<[p := nd']> h).
Proof.
  intros Hp Hb q. destruct (decide (p = q)) as [<-|Hne].
  - rewrite lookup_insert_eq, Hp. simpl. now rewrite Hb.
  - now rewrite lookup_insert_ne.
Qed.

Lemma getBase_sameBase (s s' : state) (p : ptr) (d : SieveProductionData) :
  sameBase (heap s) (heap s') -> getBase p s = Some (d, s) ->
  getBase p s' = Some (d, s').
Proof.
  intros Hb (_ & nd & Hp & <-)%getBase_Some.
  destruct (sameBase_lookup _ _ _ _ Hb Hp) as (nd' & Hp' & <-).
  now apply getBase_run.
Qed.

Lemma declared_state (fuel : nat) (p : option ptr) (x : string) (b : bool)
    (s s' : state) :
  SieveProduction.declared fuel p x s = Some (b, s') -> s' = s.
Proof.
  revert p. induction fuel as [|k IH]; intros [q|]; simpl;
    try discriminate; try (intros [= _ ->]; reflexivity).
  intros (d & s1 & Hg & Hr)%bind_Some.
  apply getBase_Some in Hg as [-> _].
  destruct (prod_addedExtensions d) as [l|]; [destruct (contains l x)|].
  - now injection Hr as _ ->.
  - eauto.
  - eauto.
Qed.

Lemma declared_sameBase (fuel : nat) (p : option ptr) (x : string) (b : bool)
    (s s' : state) :
  sameBase (heap s) (heap s') ->
  SieveProduction.declared fuel p x s = Some (b, s) ->
  SieveProduction.declared fuel p x s' = Some (b, s').
Proof.
  intros Hb. revert p. induction fuel as [|k IH]; intros [q|]; simpl;
    try discriminate; try (intros [= <-]; reflexivity).
  intros (d & s1 & Hg & Hr)%bind_Some.
  pose proof (getBase_Some _ _ _ _ Hg) as [-> _].
  run (getBase_sameBase _ _ _ _ Hb Hg).
  destruct (prod_addedExtensions d) as [l|]; [destruct (contains l x)|].
  - now injection Hr as <-.
  - now apply IH.
  - now apply IH.
Qed.

Lemma findIhaveFailed_sameBase (fuel : nat) (p r : option ptr)
    (s s' : state) :
  sameBase (heap s) (heap s') ->
  SieveProduction.findIhaveFailed fuel p s = Some (r, s) ->
  SieveProduction.findIhaveFailed fuel p s' = Some (r, s').
Proof.
  intros Hb. revert p. induction fuel as [|k IH]; intros [q|]; simpl;
    try discriminate; try (intros [= <-]; reflexivity).
  intros (d & s1 & Hg & Hr)%bind_Some.
  pose proof (getBase_Some _ _ _ _ Hg) as [-> _].
  run (getBase_sameBase _ _ _ _ Hb Hg).
  destruct (prod_ihaveFailed d).
  - now injection Hr as <-.
  - now apply IH.
Qed.

Lemma require_run (s : state) (this : ptr) (nd : node) (x : string)
    (found : bool) :
  heap s !! this = Some nd ->
  SieveProduction.declared (S (size (heap s))) (Some this) x s
  = Some (found, s) ->
  SieveProduction.require this x s
  = Some (tt, if found || negb (prod_parser (base nd)) then s
              else mkState (heap s) (bad s) (extensions s ++ [x])).
Proof.
  intros Hthis Hw. unfold SieveProduction.require.
  run (walkFuel_run s). run Hw. destruct found; [reflexivity|].
  run (getBase_run _ _ _ Hthis). now destruct (prod_parser (base nd)).
Qed.

(** ** The steps of findMatchType *)

Lemma is_Some_None_false {A : Type} : bool_decide (is_Some (@None A)) = false.
Proof. reflexivity. Qed.

Lemma is_Some_Some_true {A : Type} (a : A) :
  bool_decide (is_Some (Some a)) = true.
Proof. reflexivity. Qed.

Lemma testAt_lookup (h : gmap ptr node) (x : ptr) (d : SieveTestData) :
  testAt h x = Some d <-> exists nd, h !! x = Some nd /\ prod nd = TestP d.
Proof.
  unfold testAt. split.
  - destruct (h !! x) as [nd|]; [|discriminate].
    destruct (prod nd) eqn:Hp; try discriminate. intros [= ->]. eauto.
  - intros (nd & -> & ->). reflexivity.
Qed.

Lemma getTest_run (s : state) (x : ptr) (d : SieveTestData) :
  testAt (heap s) x = Some d -> getTest x s = Some (d, s).
Proof.
  intros (nd & Hx & Hd)%testAt_lookup. unfold getTest.
  run (getNode_run _ _ _ Hx). now rewrite Hd.
Qed.

Lemma test_arguments_run (s : state) (x al : ptr) (d : SieveTestData) :
  testAt (heap s) x = Some d -> test_arguments d = Some al ->
  SieveTest.arguments x s = Some (al, s).
Proof.
  intros Hx Ha. unfold SieveTest.arguments.
  run (getTest_run _ _ _ Hx). now rewrite Ha.
Qed.

(** A state in which the data of the test [this] has been replaced. *)
Lemma modifyTest_run (s : state) (this : ptr) (nd : node) (d : SieveTestData)
    (f : SieveTestData -> SieveTestData) :
  heap s !! this = Some nd -> prod nd = TestP d ->
  exists s',
    modifyTest this f s = Some (tt, s')
    /\ bad s' = bad s /\ extensions s' = extensions s
    /\ heap s' !! this = Some (mkNode (base nd) (TestP (f d)))
    /\ (forall p, p <> this -> heap s' !! p = heap s !! p)
    /\ (forall x, argumentAt (heap s') x = argumentAt (heap s) x)
    /\ sameBase (heap s) (heap s').
Proof.
  intros Hthis Hd. unfold modifyTest. run (getNode_run _ _ _ Hthis).
  rewrite Hd. eexists. split; [reflexivity|]. simpl.
  split; [reflexivity|]. split; [reflexivity|].
  split; [apply lookup_insert_eq|].
  split; [intros p Hne; now apply lookup_insert_ne|].
  split; [|eapply sameBase_insert; [exact Hthis | reflexivity]].
  intros x. unfold argumentAt. destruct (decide (this = x)) as [<-|Hne].
  - rewrite lookup_insert_eq, Hthis. simpl. now rewrite Hd.
  - now rewrite lookup_insert_ne.
Qed.

Lemma assertString_single (s : state) (x : ptr) (d : SieveArgumentData)
    (r : string) :
  argumentAt (heap s) x = Some d ->
  arg_tag d = "" -> arg_number d = 0%N -> arg_list d = Some [r] ->
  SieveArgument.assertString x s = Some (tt, s).
Proof.
  intros Hx Ht Hn Hl. unfold SieveArgument.assertString.
  run (getArgument_run _ _ _ Hx). now rewrite Ht, Hn, Hl.
Qed.

Lemma takeTaggedString_present (s : state) (al : ptr) (nd : node)
    (d : SieveArgumentListData) (tag : string) (pre rest : list ptr)
    (y z : ptr) (dy dz : SieveArgumentData) (r : string) :
  heap s !! al = Some nd -> prod nd = ArgumentListP d ->
  args_a d = pre ++ y :: z :: rest ->
  lacks (heap s) tag pre -> lacks (heap s) tag (z :: rest) ->
  argumentAt (heap s) y = Some dy -> (arg_tag dy =? tag)%string = true ->
  argumentAt (heap s) z = Some dz ->
  arg_tag dz = "" -> arg_number dz = 0%N -> arg_list dz = Some [r] ->
  exists s', SieveArgumentList.takeTaggedString al tag s = Some (r, s')
             /\ sim s s'.
Proof.
  intros Hal Hd Ha Hpre Hrest Hy Ht Hz Htz Hnz Hlz.
  unfold SieveArgumentList.takeTaggedString.
  destruct (argumentFollowingTag_present _ _ _ _ _ _ _ _ _ _ dz Hal Hd Ha
              Hpre Hrest Hy Ht) as (s' & Hrun & Hsim).
  run Hrun.
  destruct (sim_argumentAt _ _ _ _ Hsim Hz) as (dz' & Hz' & Et & En & El).
  rewrite Htz in Et. rewrite Hnz in En. rewrite Hlz in El.
  run (assertString_single _ _ _ _ Hz' Et En El).
  run (getArgument_run _ _ _ Hz'). rewrite El. eauto.
Qed.

Lemma sim_lookup_list (s s' : state) (al : ptr) (nd : node)
    (d : SieveArgumentListData) :
  sim s s' -> heap s !! al = Some nd -> prod nd = ArgumentListP d ->
  heap s' !! al = Some nd.
Proof.
  intros Hs Hal Hd. eapply sim_other; [exact Hs | exact Hal |].
  intros d'. rewrite Hd. discriminate.
Qed.

Lemma sim_lookup_test (s s' : state) (this : ptr) (nd : node)
    (d : SieveTestData) :
  sim s s' -> heap s !! this = Some nd -> prod nd = TestP d ->
  heap s' !! this = Some nd.
Proof.
  intros Hs Hal Hd. eapply sim_other; [exact Hs | exact Hal |].
  intros d'. rewrite Hd. discriminate.
Qed.

Lemma lacks_ext (h h' : gmap ptr node) (tag : string) (l : list ptr) :
  (forall x, argumentAt h' x = argumentAt h x) -> lacks h tag l ->
  lacks h' tag l.
Proof.
  intros Heq Hl. eapply Forall_impl; [exact Hl|].
  intros x (d & Hx & Ht). exists d. now rewrite Heq.
Qed.

Lemma lacks_around (h : gmap ptr node) (tag : string) (pre rest : list ptr)
    (y : ptr) (d : SieveArgumentData) :
  lacks h tag pre -> lacks h tag rest -> argumentAt h y = Some d ->
  (arg_tag d =? tag)%string = false ->
  lacks h tag (pre ++ y :: rest).
Proof.
  intros Hpre Hrest Hy Ht. apply Forall_app. split; [exact Hpre|].
  constructor; [eauto | exact Hrest].
Qed.

Lemma sameBase_errorOf (s s' : state) (p : ptr) :
  sameBase (heap s) (heap s') -> errorOf s' p = errorOf s p.
Proof.
  intros Hs. specialize (Hs p). unfold errorOf.
  destruct (heap s' !! p), (heap s !! p); simpl in Hs; try discriminate;
    [|reflexivity].
  now injection Hs as ->.
Qed.

Lemma relationalOperator_accepts (x : string) :
  is_Some (SieveTest.relationalOperator x) <->
  x ∈ ["GT"; "GE"; "LT"; "LE"; "EQ"; "NE"].
Proof.
  rewrite list_elem_of_In. unfold SieveTest.relationalOperator. simpl.
  destruct (String.eqb_spec x "GT") as [->|?]; [split; eauto|].
  destruct (String.eqb_spec x "GE") as [->|?]; [split; eauto|].
  destruct (String.eqb_spec x "LT") as [->|?]; [split; eauto 6|].
  destruct (String.eqb_spec x "LE") as [->|?]; [split; eauto 7|].
  destruct (String.eqb_spec x "EQ") as [->|?]; [split; eauto 8|].
  destruct (String.eqb_spec x "NE") as [->|?]; [split; eauto 9|].
  split; [intros [? [=]]|]. intros [|[|[|[|[|[|[]]]]]]]; congruence.
Qed.

(** ** findMatchType on a test that carries [:value] or [:count] *)

(** C5, the claim refuted: the test [header :value "xx" :is "subject"
    "3"] carries [:value] with an operator that is none of the six, and
    [:is] as well.  [findMatchType] settles on [:is]: it registers
    nothing, sets no match operator and never looks at the operator;
    the only errors are those of [allowOneTag] on the two tags.  After
    the analysis of the whole test [relational] is still not needed and
    no error is about the operator. *)
Lemma value_beside_is_not_relational :
  (exists s d,
     SieveTest.findMatchType 0 valueIsTest = Some (tt, s)
     /\ testAt (heap s) 0 = Some d
     /\ test_matchType d = Is /\ test_matchOperator d = NoOperator
     /\ extensions s = []
     /\ errors s = [(4, "Tag :value conflicts with :is");
                    (2, "Mutually exclusive tags used")])
  /\ (exists s,
        SieveTest.parse (H := server) 1 0 valueIsTest = Some (tt, s)
        /\ extensions s = ["comparator-i;ascii-casemap"]
        /\ errors s = [(6, "Why is this string/list here?");
                       (4, "Tag :value conflicts with :is");
                       (2, "Mutually exclusive tags used");
                       (5, "Why is this string/list here?")]).
Proof.
  split.
  - eexists _, _. split; [vm_compute; reflexivity|].
    split; [vm_compute; reflexivity|]. repeat split; reflexivity.
  - eexists. split; [vm_compute; reflexivity|]. split; reflexivity.
Qed.

(** C5, as the code has it: a test whose arguments hold one match-type
    tag, [:value] or [:count], followed by a single string [r].  [findMatchType] sets
    the match type accordingly and registers [relational] as needed
    (unless an enclosing production has added it, or the test has no
    parser).  The operator is accepted exactly when [r], upper-cased,
    is one of GT, GE, LT, LE, EQ, NE: then the match operator is set
    and neither argument gets an error; otherwise the match operator
    stays as it was and the operator argument gets the error
    "Unknown relational operator" (unless it lies in an ihave-failed
    scope). *)
Theorem findMatchType_relational (s : state) (this al tg op : ptr)
    (pre post : list ptr) (ndT ndA : node) (dT : SieveTestData)
    (dA : SieveArgumentListData) (dtg dop : SieveArgumentData)
    (r : string) (count found : bool) (scope : option ptr) :
  heap s !! this = Some ndT -> prod ndT = TestP dT ->
  test_arguments dT = Some al ->
  heap s !! al = Some ndA -> prod ndA = ArgumentListP dA ->
  args_a dA = pre ++ tg :: op :: post ->
  plain (heap s) pre -> plain (heap s) post ->
  argumentAt (heap s) tg = Some dtg ->
  arg_tag dtg = (if count then ":count" else ":value") ->
  argumentAt (heap s) op = Some dop ->
  arg_tag dop = "" -> arg_number dop = 0%N -> arg_list dop = Some [r] ->
  errorOf s tg = "" -> errorOf s op = "" ->
  SieveProduction.declared (S (size (heap s))) (Some this) "relational" s
  = Some (found, s) ->
  SieveProduction.findIhaveFailed (S (size (heap s))) (Some op) s
  = Some (scope, s) ->
  exists s' d',
    SieveTest.findMatchType this s = Some (tt, s')
    /\ testAt (heap s') this = Some d'
    /\ test_matchType d' = (if count then Count else Value)
    /\ extensions s'
       = (if found || negb (prod_parser (base ndT)) then extensions s
          else extensions s ++ ["relational"])
    /\ (is_Some (SieveTest.relationalOperator (titlecased r)) <->
        titlecased r ∈ ["GT"; "GE"; "LT"; "LE"; "EQ"; "NE"])
    /\ match SieveTest.relationalOperator (titlecased r) with
       | Some o =>
           test_matchOperator d' = o
           /\ errorOf s' tg = "" /\ errorOf s' op = ""
       | None =>
           test_matchOperator d' = test_matchOperator dT
           /\ errorOf s' op
              = match scope with
                | Some _ => ""
                | None => "Unknown relational operator: " +:+ titlecased r
                end
       end.
Proof.
  intros Hthis HdT HaT Hal HdA Ha Hpre Hpost Htg Httg Hop Htop Hnop Hlop
    Hetg Heop Hdecl Hwalk.
  assert (HT : testAt (heap s) this = Some dT) by (apply testAt_lookup; eauto).
  assert (Hrest : plain (heap s) (op :: post)).
  { constructor; [|exact Hpost]. exists dop. split; [exact Hop|].
    now rewrite Htop. }
  assert (Habs : forall tag, tag ∈ matchTypeTags ->
            (arg_tag dtg =? tag)%string = false ->
            SieveArgumentList.findTag al tag s = Some (None, s)).
  { intros tag Hin Hne. eapply findTag_absent; [exact Hal | exact HdA |].
    rewrite Ha.
    eapply lacks_around;
      [eapply plain_lacks; eauto | eapply plain_lacks; eauto
      | exact Htg | exact Hne]. }
  assert (Hin : arg_tag dtg ∈ matchTypeTags).
  { rewrite Httg. apply list_elem_of_In. destruct count; simpl; tauto. }
  destruct (findTag_present s al ndA dA (arg_tag dtg) pre (op :: post) tg dtg
              Hal HdA Ha (plain_lacks _ _ _ Hin Hpre)
              (plain_lacks _ _ _ Hin Hrest) Htg (String.eqb_refl _))
    as (s1 & Hf1 & Hsim1).
  unfold SieveTest.findMatchType.
  run (test_arguments_run _ _ _ _ HT HaT).
  pose proof (allowOneTag_one _ _ _ _ _ _ _ _ Hal HdA Ha Hpre Hrest Htg) as H1.
  unfold matchTypeTags in H1. run H1. clear H1.
  rewrite Httg in Habs, Hf1.
  destruct count.
  all: run (Habs ":is" ltac:(apply list_elem_of_In; simpl; tauto) eq_refl);
    rewrite is_Some_None_false;
    run (Habs ":matches" ltac:(apply list_elem_of_In; simpl; tauto) eq_refl);
    rewrite is_Some_None_false;
    run (Habs ":contains" ltac:(apply list_elem_of_In; simpl; tauto) eq_refl);
    rewrite is_Some_None_false.
  1: run (Habs ":value" ltac:(apply list_elem_of_In; simpl; tauto) eq_refl);
    rewrite is_Some_None_false.
  all: run Hf1; rewrite is_Some_Some_true.
  all: pose proof (sim_lookup_test _ _ _ _ _ Hsim1 Hthis HdT) as Hthis1.
  all: (assert (Hne : al <> this);
         [intros Heq; rewrite Heq, Hthis in Hal; congruence|]).
  all: pose proof (sim_lookup_list _ _ _ _ _ Hsim1 Hal HdA) as Hal1.
  all: unfold SieveTest.setMatchType.
  all: match goal with
       | |- context [modifyTest _ ?f] =>
           destruct (modifyTest_run s1 this ndT dT f Hthis1 HdT)
             as (s2 & Hrun2 & Hb2 & He2 & Hthis2 & Hne2 & Harg2 & Hsb2)
       end.
  all: run Hrun2.
  all: run (getTest_run s2 this _ (proj2 (testAt_lookup _ _ _)
              (ex_intro _ _ (conj Hthis2 eq_refl)))).
  all: cbn [SieveTest.isRelational test_matchType].
  all: pose proof (sameBase_trans _ _ _ (sim_sameBase _ _ Hsim1) Hsb2) as Hsb.
  all: (assert (Hdecl2 : SieveProduction.declared (S (size (heap s2)))
                           (Some this) "relational" s2 = Some (found, s2));
         [rewrite (sameBase_size _ _ Hsb); now apply declared_sameBase with s
         |]).
  all: pose proof (require_run s2 this _ "relational" found Hthis2 Hdecl2)
         as Hreq; cbn [base] in Hreq.
  all: set (s3 := if found || negb (prod_parser (base ndT)) then s2
                  else mkState (heap s2) (bad s2)
                         (extensions s2 ++ ["relational"])) in Hreq.
  all: (assert (Hh3 : heap s3 = heap s2);
         [subst s3; now destruct (found || _)|]).
  all: (assert (He3 : extensions s3
                      = if found || negb (prod_parser (base ndT))
                        then extensions s
                        else extensions s ++ ["relational"]);
         [subst s3; destruct Hsim1 as (_ & <- & _);
          rewrite <- He2; now destruct (found || _)|]).
  all: run Hreq.
  all: (assert (Hal3 : heap s3 !! al = Some ndA);
         [rewrite Hh3, (Hne2 al Hne); exact Hal1|]).
  all: pose proof Hthis2 as Hthis3; rewrite <- Hh3 in Hthis3.
  all: rewrite <- Hh3 in Hsb, Harg2.
  all: (assert (Hlacks3 : forall tag l, tag ∈ matchTypeTags ->
                  plain (heap s) l -> lacks (heap s3) tag l);
         [intros tag l Hm Hl; eapply lacks_ext; [exact Harg2|];
          eapply sim_lacks; [exact Hsim1|]; now eapply plain_lacks|]).
  all: destruct (sim_argumentAt _ _ _ _ Hsim1 Htg) as (dtg3 & Htg3 & Ett & _).
  all: destruct (sim_argumentAt _ _ _ _ Hsim1 Hop)
         as (dop3 & Hop3 & Eto & Eno & Elo).
  all: rewrite <- Harg2 in Htg3, Hop3.
  all: rewrite Httg in Ett; rewrite Htop in Eto; rewrite Hnop in Eno;
    rewrite Hlop in Elo.
  all: match goal with
       | |- context [SieveArgumentList.takeTaggedString _ ?t] =>
           destruct (takeTaggedString_present s3 al ndA dA t pre post tg op
                       dtg3 dop3 r Hal3 HdA Ha
                       (Hlacks3 t pre ltac:(apply list_elem_of_In; simpl; tauto)
                          Hpre)
                       (Hlacks3 t (op :: post)
                          ltac:(apply list_elem_of_In; simpl; tauto) Hrest)
                       Htg3 ltac:(rewrite Ett; reflexivity) Hop3 Eto Eno Elo)
             as (s4 & Hrun4 & Hsim4)
       end.
  all: run Hrun4.
  all: pose proof (sameBase_trans _ _ _ Hsb (sim_sameBase _ _ Hsim4)) as Hsb4.
  all: pose proof (sim_lookup_test _ _ _ _ _ Hsim4 Hthis3 eq_refl) as Hthis4.
  all: (assert (He4 : extensions s4
                      = if found || negb (prod_parser (base ndT))
                        then extensions s
                        else extensions s ++ ["relational"]);
         [destruct Hsim4 as (_ & -> & _); exact He3|]).
  all: destruct (SieveTest.relationalOperator (titlecased r)) as [o|] eqn:Hrel.
  all: cbn beta iota.
  1,3: unfold SieveTest.setMatchOperator.
  1-2: match goal with
       | |- context [modifyTest _ ?f] =>
           pose proof (modifyTest_run s4 this _ _ f Hthis4 eq_refl) as Hm
       end.
  1-2: destruct Hm as (s5 & Hrun5 & Hb5 & He5 & Hthis5 & Hne5 & Harg5 & Hsb5).
  1-2: pose proof (sameBase_trans _ _ _ Hsb4 Hsb5) as Hsb05.
  1-2: exists s5; eexists; split; [exact Hrun5|];
    (split; [apply testAt_lookup; eexists; split; [exact Hthis5|reflexivity]|]);
    (split; [reflexivity|]); (split; [rewrite He5; exact He4|]);
    (split; [rewrite <- Hrel; apply relationalOperator_accepts|]);
    (split; [reflexivity|]);
    rewrite !(sameBase_errorOf s s5) by exact Hsb05; auto.
  all: unfold SieveArgumentList.tagError.
  all: pose proof (sim_lookup_list _ _ _ _ _ Hsim4 Hal3 HdA) as Hal4.
  all: destruct (sim_argumentAt _ _ _ _ Hsim4 Htg3) as (dtg4 & Htg4 & Ett4 & _).
  all: rewrite Ett in Ett4.
  all: match goal with
       | |- context [SieveArgumentList.argumentFollowingTag _ ?t] =>
           destruct (argumentFollowingTag_present s4 al ndA dA t pre post
                       tg op dtg4 dop Hal4 HdA Ha
                       (sim_lacks _ _ _ _ Hsim4
                          (Hlacks3 t pre
                             ltac:(apply list_elem_of_In; simpl; tauto) Hpre))
                       (sim_lacks _ _ _ _ Hsim4
                          (Hlacks3 t (op :: post)
                             ltac:(apply list_elem_of_In; simpl; tauto) Hrest))
                       Htg4 ltac:(rewrite Ett4; reflexivity))
             as (s5 & Hrun5 & Hsim5)
       end.
  all: run Hrun5; run (ret_run s5 (Some op)).
  all: pose proof (sameBase_trans _ _ _ Hsb4 (sim_sameBase _ _ Hsim5)) as Hsb5.
  all: destruct (sim_argumentAt _ _ _ _ (sim_trans _ _ _ Hsim4 Hsim5) Hop3)
         as (dop5 & (ndop5 & Hop5 & Hdop5)%argumentAt_lookup & _).
  all: (assert (Herr5 : isEmpty (prod_error (base ndop5)) = true);
         [rewrite <- (errorOf_lookup _ _ _ Hop5), (sameBase_errorOf s s5)
            by exact Hsb5; now rewrite Heop|]).
  all: (assert (Hwalk5 : SieveProduction.findIhaveFailed
                           (S (size (heap s5))) (Some op) s5
                         = Some (scope, s5));
         [rewrite (sameBase_size _ _ Hsb5);
          now apply findIhaveFailed_sameBase with s|]).
  all: pose proof (sim_lookup_test _ _ _ _ _ Hsim5 Hthis4 eq_refl) as Hthis5.
  all: (assert (He5 : extensions s5 = extensions s4);
         [now destruct Hsim5 as (_ & -> & _)|]).
  all: destruct scope as [q|].
  1,3: rewrite (setError_suppressed s5 op q ndop5
                  ("Unknown relational operator: " +:+ titlecased r)
                  Hop5 eq_refl Herr5 Hwalk5);
    exists s5; eexists;
    (split; [reflexivity|]);
    (split; [apply testAt_lookup; eexists; split; [exact Hthis5|reflexivity]|]);
    (split; [reflexivity|]); (split; [rewrite He5; exact He4|]);
    (split; [rewrite <- Hrel; apply relationalOperator_accepts|]);
    (split; [reflexivity|]);
    rewrite (errorOf_lookup _ _ _ Hop5);
    now destruct (prod_error (base ndop5)).
  all: destruct (setError_stored s5 op ndop5
                   ("Unknown relational operator: " +:+ titlecased r)
                   Hop5 eq_refl Herr5 Hwalk5)
         as (s6 & Hrun6 & Hh6 & He6).
  all: (assert (Hneq : op <> this);
         [intros Heq; rewrite Heq, Hthis5 in Hop5; injection Hop5 as <-;
          discriminate Hdop5|]).
  all: exists s6; eexists; (split; [exact Hrun6|]);
    (split; [apply testAt_lookup; eexists; split;
             [rewrite Hh6, lookup_insert_ne by exact Hneq; exact Hthis5
             |reflexivity]|]);
    (split; [reflexivity|]); (split; [rewrite He6, He5; exact He4|]);
    (split; [rewrite <- Hrel; apply relationalOperator_accepts|]);
    (split; [reflexivity|]);
    unfold errorOf; rewrite Hh6, lookup_insert_eq; reflexivity.
Qed.

Lemma findMatchType_relational_witness :
  exists s' d',
    SieveTest.findMatchType 0 valueTest = Some (tt, s')
    /\ testAt (heap s') 0 = Some d'
    /\ test_matchType d' = Value
    /\ extensions s' = ["relational"]
    /\ test_matchOperator d' = GT
    /\ errorOf s' 4 = "" /\ errorOf s' 5 = "".
Proof.
  assert (Hpre : plain (heap valueTest) [2; 3]).
  { repeat constructor; eexists; split; vm_compute; reflexivity. }
  assert (Hpost : plain (heap valueTest) [6; 7]).
  { repeat constructor; eexists; split; vm_compute; reflexivity. }
  destruct (findMatchType_relational valueTest 0 1 4 5 [2; 3] [6; 7]
              (nodeAt valueTest 0) (nodeAt valueTest 1)
              valueTestTest valueTestArguments valueTestTag
              valueTestOperator "gt" false false None
              eq_refl eq_refl eq_refl eq_refl eq_refl eq_refl Hpre Hpost
              eq_refl eq_refl eq_refl eq_refl eq_refl eq_refl eq_refl eq_refl
              eq_refl eq_refl)
    as (s' & d' & Hrun & Ht & Hm & He & _ & Ho & Htg & Hop).
  exists s', d'. repeat split; assumption.
Defined.

(** [run_in E H]: take the step [E : m s = Some (a, s1)] at the head of
    the computation in hypothesis [H]. *)
Ltac run_in E H :=
  cbn beta iota in H; rewrite ?bind_assoc in H;
  rewrite (bind_run _ _ _ _ _ E) in H; cbn beta iota in H.

Lemma withError_same (d : SieveProductionData) :
  SieveProduction.withError (prod_error d) d = d.
Proof. now destruct d. Qed.

Lemma node_eta (nd : node) : mkNode (base nd) (prod nd) = nd.
Proof. now destruct nd. Qed.

(** What a call of [setError] does to the state. *)
Lemma setError_effect (s s' : state) (this : ptr) (e : string) :
  SieveProduction.setError this e s = Some (tt, s') ->
  exists nd,
    heap s !! this = Some nd
    /\ heap s'
       = <[this := mkNode (SieveProduction.withError (errorOf s' this)
                             (base nd)) (prod nd)]> (heap s)
    /\ extensions s' = extensions s
    /\ bad s' = (if negb (isEmpty (errorOf s' this)) && prod_parser (base nd)
                 then bad s ++ [this] else bad s).
Proof.
  intros H. unfold SieveProduction.setError in H.
  pose proof H as H0.
  apply bind_Some in H0 as (d & s1 & (-> & nd & Hp & <-)%getBase_Some & _).
  exists nd. split; [exact Hp|].
  run_in (getBase_run _ _ _ Hp) H.
  assert (Hsame : heap s = <[this := mkNode (SieveProduction.withError
                     (prod_error (base nd)) (base nd)) (prod nd)]> (heap s)).
  { rewrite withError_same, node_eta. symmetry. now apply insert_id. }
  destruct (isEmpty e) eqn:He.
  - run_in (modifyBase_run _ _ _ (SieveProduction.withError e) Hp) H.
    erewrite bind_run in H;
      [|apply getBase_run; simpl; apply lookup_insert_eq].
    simpl in H. rewrite He in H. simpl in H. injection H as <-.
    unfold errorOf. simpl. rewrite lookup_insert_eq. simpl. rewrite He.
    auto.
  - destruct (isEmpty (prod_error (base nd))) eqn:Herr.
    + run_in (walkFuel_run s) H. rewrite ?bind_assoc in H.
      apply bind_Some in H as (r & s2 & Hw & H).
      pose proof (findIhaveFailed_state _ _ _ _ _ Hw) as ->.
      destruct r as [q|].
      * run_in (ret_run s tt) H. run_in (getBase_run _ _ _ Hp) H.
        rewrite Herr in H. simpl in H. injection H as <-.
        rewrite (errorOf_lookup _ _ _ Hp), Herr. simpl. auto.
      * run_in (modifyBase_run _ _ _ (SieveProduction.withError e) Hp) H.
        erewrite bind_run in H;
          [|apply getBase_run; simpl; apply lookup_insert_eq].
        simpl in H. rewrite He in H. simpl in H.
        unfold errorOf.
        destruct (prod_parser (base nd)); injection H as <-; simpl;
          rewrite lookup_insert_eq; simpl; rewrite He; auto.
    + run_in (ret_run s tt) H. run_in (getBase_run _ _ _ Hp) H.
      rewrite Herr in H. simpl in H.
      destruct (prod_parser (base nd)); injection H as <-; simpl;
        unfold errorOf; simpl; rewrite Hp, Herr; simpl; auto.
Qed.

(** X1: [setError] changes only the error of its own production: whenever it
    returns, every other production, the other fields of this one and
    the needed extensions are as before, and the production has been
    appended to the bad productions exactly when it now holds an error
    and has the parser. *)
Theorem setError_changes_only_error (s s' : state) (this : ptr) (e : string) :
  SieveProduction.setError this e s = Some (tt, s') ->
  extensions s' = extensions s
  /\ (forall p, p <> this -> heap s' !! p = heap s !! p)
  /\ exists nd,
       heap s !! this = Some nd
       /\ heap s' !! this
          = Some (mkNode (SieveProduction.withError (errorOf s' this) (base nd))
                    (prod nd))
       /\ bad s' = (if negb (isEmpty (errorOf s' this))
                       && prod_parser (base nd)
                    then bad s ++ [this] else bad s).
Proof.
  intros (nd & Hp & Hh & Hx & Hb)%setError_effect.
  split; [exact Hx|]. split.
  - intros p Hne. rewrite Hh. now apply lookup_insert_ne.
  - exists nd. split; [exact Hp|]. split; [|exact Hb].
    rewrite Hh at 1. apply lookup_insert_eq.
Qed.

(** ** Walks up the parents *)

Lemma sameLinks_refl (h : gmap ptr node) : sameLinks h h.
Proof. intros p. reflexivity. Qed.

Lemma sameLinks_trans (h1 h2 h3 : gmap ptr node) :
  sameLinks h1 h2 -> sameLinks h2 h3 -> sameLinks h1 h3.
Proof. intros H12 H23 p. now rewrite H23, H12. Qed.

Lemma sameLinks_lookup (h h' : gmap ptr node) (p : ptr) (nd : node) :
  sameLinks h h' -> h !! p = Some nd ->
  exists nd', h' !! p = Some nd'
              /\ prod_parent (base nd') = prod_parent (base nd)
              /\ prod_ihaveFailed (base nd') = prod_ihaveFailed (base nd).
Proof.
  intros Hb Hp. specialize (Hb p). rewrite Hp in Hb.
  destruct (h' !! p) as [nd'|]; [|discriminate].
  injection Hb as Hb1 Hb2. eauto.
Qed.

Lemma sameLinks_sym (h h' : gmap ptr node) : sameLinks h h' -> sameLinks h' h.
Proof. intros Hb p. now rewrite Hb. Qed.

Lemma sameLinks_size (h h' : gmap ptr node) :
  sameLinks h h' -> size h' = size h.
Proof.
  intros Hb. rewrite <- !size_dom. f_equal. apply set_eq. intros p.
  rewrite !elem_of_dom. specialize (Hb p).
  destruct (h' !! p), (h !! p); simpl in Hb; try discriminate;
    split; intros [? ?]; eauto; discriminate.
Qed.

Lemma sameLinks_insert (h : gmap ptr node) (p : ptr) (nd nd' : node) :
  h !! p = Some nd ->
  prod_parent (base nd') = prod_parent (base nd) ->
  prod_ihaveFailed (base nd') = prod_ihaveFailed (base nd) ->
  sameLinks h (<[p := nd']> h).
Proof.
  intros Hp Hb1 Hb2 q. destruct (decide (p = q)) as [<-|Hne].
  - rewrite lookup_insert_eq, Hp. simpl. now rewrite Hb1, Hb2.
  - now rewrite lookup_insert_ne.
Qed.

Lemma sameBase_sameLinks (h h' : gmap ptr node) :
  sameBase h h' -> sameLinks h h'.
Proof.
  intros Hb p. specialize (Hb p).
  destruct (h' !! p), (h !! p); simpl in *; try discriminate; [|reflexivity].
  now injection Hb as ->.
Qed.

Lemma findIhaveFailed_sameLinks (fuel : nat) (p r : option ptr)
    (s s' : state) :
  sameLinks (heap s) (heap s') ->
  SieveProduction.findIhaveFailed fuel p s = Some (r, s) ->
  SieveProduction.findIhaveFailed fuel p s' = Some (r, s').
Proof.
  intros Hb. revert p. induction fuel as [|k IH]; intros [q|]; simpl;
    try discriminate; try (intros [= <-]; reflexivity).
  intros (d & s1 & (-> & nd & Hp & <-)%getBase_Some & Hr)%bind_Some.
  destruct (sameLinks_lookup _ _ _ _ Hb Hp) as (nd' & Hp' & Hpar & Hih).
  run (getBase_run _ _ _ Hp'). rewrite Hih, Hpar.
  destruct (prod_ihaveFailed (base nd)).
  - now injection Hr as <-.
  - now apply IH.
Qed.

Lemma unsuppressed_sameLinks (s s' : state) (p : ptr) :
  sameLinks (heap s) (heap s') -> unsuppressed s p -> unsuppressed s' p.
Proof.
  intros Hb Hu. unfold unsuppressed in *.
  rewrite (sameLinks_size _ _ Hb). now apply findIhaveFailed_sameLinks with s.
Qed.

Lemma setError_sameLinks (s s' : state) (this : ptr) (e : string) :
  SieveProduction.setError this e s = Some (tt, s') ->
  sameLinks (heap s) (heap s').
Proof.
  intros (nd & Hp & -> & _)%setError_effect.
  now apply sameLinks_insert with nd.
Qed.

Lemma contains_true_iff (l : list string) (x : string) :
  contains l x = true <-> x ∈ l.
Proof.
  unfold contains. rewrite existsb_exists, list_elem_of_In. split.
  - intros (y & Hin & ->%String.eqb_eq). exact Hin.
  - intros Hin. exists x. split; [exact Hin | apply String.eqb_refl].
Qed.

Lemma contains_false_iff (l : list string) (x : string) :
  contains l x = false <-> x ∉ l.
Proof.
  rewrite <- contains_true_iff. now destruct (contains l x).
Qed.

Lemma declaredAt_lookup (s : state) (p : ptr) (nd : node) :
  heap s !! p = Some nd ->
  declaredAt s p = default [] (prod_addedExtensions (base nd)).
Proof. intros Hp. unfold declaredAt. now rewrite Hp. Qed.

(** The loop of [require] finds an extension exactly when the
    production or one of its ancestors has added it. *)
Lemma declared_spec (fuel : nat) (p : option ptr) (x : string) (b : bool)
    (s s' : state) :
  SieveProduction.declared fuel p x s = Some (b, s') ->
  (b = true <->
   exists q r, p = Some r /\ encloses (heap s) q r /\ x ∈ declaredAt s q).
Proof.
  revert p. induction fuel as [|k IH]; intros [r|]; simpl; try discriminate;
    try (intros [= <- _]; split; [discriminate|]; intros (? & ? & [=] & _)).
  intros (d & s1 & (-> & nd & Hp & <-)%getBase_Some & Hr)%bind_Some.
assert (Hup : (exists q r', prod_parent (base nd) = Some r'
                 /\ encloses (heap s) q r' /\ x ∈ declaredAt s q)
              -> exists q r0, Some r = Some r0
                 /\ encloses (heap s) q r0 /\ x ∈ declaredAt s q).
{ intros (q & r' & Hpar & Henc & Hin). exists q, r.
  split; [reflexivity|]. split; [|exact Hin].
  now apply encloses_parent with r' nd. }
assert (Hdown : x ∉ declaredAt s r ->
                (exists q r0, Some r = Some r0
                   /\ encloses (heap s) q r0 /\ x ∈ declaredAt s q)
                -> exists q r', prod_parent (base nd) = Some r'
                   /\ encloses (heap s) q r' /\ x ∈ declaredAt s q).
{ intros Hnot (q & r0 & [= <-] & Henc & Hin).
  inversion Henc as [? nd0 Hp0|? ? r' nd0 Hp0 Hpar Henc']; subst.
  - contradiction.
  - rewrite Hp in Hp0. injection Hp0 as <-. eauto. }
destruct (prod_addedExtensions (base nd)) as [l|] eqn:Hl;
  [destruct (contains l x) eqn:Hc|].
+ injection Hr as <- _. split; [|reflexivity]. intros _.
  exists r, r. split; [reflexivity|].
  split; [now apply encloses_self with nd|].
  rewrite (declaredAt_lookup _ _ _ Hp), Hl. simpl.
  now apply contains_true_iff.
+ rewrite (IH _ Hr). split; [exact Hup|]. apply Hdown.
  rewrite (declaredAt_lookup _ _ _ Hp), Hl. simpl.
  now apply contains_false_iff.
+ rewrite (IH _ Hr). split; [exact Hup|]. apply Hdown.
  rewrite (declaredAt_lookup _ _ _ Hp), Hl. simpl. apply not_elem_of_nil.
Qed.

Lemma state_eta (s : state) : mkState (heap s) (bad s) (extensions s) = s.
Proof. now destruct s. Qed.

(** X2: the walk of [require] finds the extension exactly when the
    production or one of its ancestors has added it.  [require] then
    changes nothing, and otherwise it appends the extension to the needed
    extensions if the production has the parser; heap and bad
    productions stay as they are. *)
Theorem require_registers_unless_in_scope (s : state) (this : ptr)
    (nd : node) (x : string) (found : bool) :
  heap s !! this = Some nd ->
  SieveProduction.declared (S (size (heap s))) (Some this) x s
  = Some (found, s) ->
  (found = true <->
   exists q, encloses (heap s) q this /\ x ∈ declaredAt s q)
  /\ SieveProduction.require this x s
     = Some (tt, mkState (heap s) (bad s)
                   (if found || negb (prod_parser (base nd))
                    then extensions s else extensions s ++ [x])).
Proof.
  intros Hp Hw. split.
  - rewrite (declared_spec _ _ _ _ _ _ Hw). split.
    + intros (q & r & [= <-] & Henc & Hin). eauto.
    + intros (q & Henc & Hin). eauto.
  - rewrite (require_run _ _ _ _ _ Hp Hw).
    destruct (found || negb (prod_parser (base nd)));
      [now rewrite state_eta | reflexivity].
Qed.

(** ** addExtensions *)

Lemma already_spec (fuel : nat) (p : option ptr) (al : list string)
    (s s' : state) :
  SieveProduction.already fuel p s = Some (al, s') ->
  s' = s
  /\ forall x, x ∈ al <->
       exists q r, p = Some r /\ encloses (heap s) q r /\ x ∈ declaredAt s q.
Proof.
  revert p al. induction fuel as [|k IH]; intros [r|] al; simpl;
    try discriminate;
    try (intros [= <- <-]; split; [reflexivity|]; intros x; split;
         [intros []%elem_of_nil | intros (? & ? & [=] & _)]).
  intros (d & s1 & (-> & nd & Hp & <-)%getBase_Some & Hr)%bind_Some.
  apply bind_Some in Hr as (r0 & s2 & Hrec & [= <- <-]).
  destruct (IH _ _ Hrec) as [-> Hspec]. split; [reflexivity|].
  intros x. rewrite elem_of_app, Hspec, <- (declaredAt_lookup _ _ _ Hp).
  split.
  - intros [Hin|(q & r' & Hpar & Henc & Hin)].
    + exists r, r. split; [reflexivity|].
      split; [now apply encloses_self with nd | exact Hin].
    + exists q, r. split; [reflexivity|]. split; [|exact Hin].
      now apply encloses_parent with r' nd.
  - intros (q & r0' & [= <-] & Henc & Hin).
    inversion Henc as [? nd0 Hp0|? ? r' nd0 Hp0 Hpar Henc']; subst.
    + now left.
    + rewrite Hp in Hp0. injection Hp0 as <-. right. eauto.
Qed.

Lemma withAddedExtensions_twice (a b : option (list string))
    (d : SieveProductionData) :
  SieveProduction.withAddedExtensions a
    (SieveProduction.withAddedExtensions b d)
  = SieveProduction.withAddedExtensions a d.
Proof. reflexivity. Qed.

Lemma withAddedExtensions_same (d : SieveProductionData) :
  SieveProduction.withAddedExtensions (prod_addedExtensions d) d = d.
Proof. now destruct d. Qed.

(** The second loop of [addExtensions]. *)
Lemma addExtensions_loop (al l : list string) (this : ptr) (s : state)
    (nd : node) :
  heap s !! this = Some nd ->
  exists s' nd',
    forEach l (fun i =>
      if negb (contains al i) then
        modifyBase this (fun d =>
          SieveProduction.withAddedExtensions
            (Some (default [] (prod_addedExtensions d) ++ [i])) d)
      else ret tt) s = Some (tt, s')
    /\ bad s' = bad s /\ extensions s' = extensions s
    /\ heap s' = <[this := nd']> (heap s)
    /\ prod nd' = prod nd
    /\ base nd' = SieveProduction.withAddedExtensions
                    (prod_addedExtensions (base nd')) (base nd)
    /\ default [] (prod_addedExtensions (base nd'))
       = default [] (prod_addedExtensions (base nd))
         ++ List.filter (fun i => negb (contains al i)) l.
Proof.
  revert s nd. induction l as [|i l IH]; intros s nd Hp; simpl.
  - exists s, nd. split; [reflexivity|]. split; [reflexivity|].
    split; [reflexivity|]. split; [symmetry; now apply insert_id|].
    split; [reflexivity|].
    split; [symmetry; apply withAddedExtensions_same|].
    now rewrite app_nil_r.
  - destruct (negb (contains al i)) eqn:Hnew.
    + run (modifyBase_run _ _ _ (fun d =>
             SieveProduction.withAddedExtensions
               (Some (default [] (prod_addedExtensions d) ++ [i])) d) Hp).
      match goal with |- context [forEach l _ ?s1] =>
        destruct (IH s1 _ (lookup_insert_eq _ _ _))
          as (s' & nd' & Hrun & Hb & Hx & Hh & Hprod & Hbase & Hadd)
      end.
      exists s', nd'. split; [exact Hrun|]. simpl in *.
      split; [exact Hb|]. split; [exact Hx|].
      split; [now rewrite Hh, insert_insert_eq|].
      split; [exact Hprod|]. split; [exact Hbase|].
      rewrite Hadd. now rewrite <- app_assoc.
    + run (ret_run s tt).
      destruct (IH s nd Hp)
        as (s' & nd' & Hrun & Hb & Hx & Hh & Hprod & Hbase & Hadd).
      exists s', nd'. auto 10.
Qed.

Lemma addExtensions_effect (s : state) (this : ptr) (nd : node)
    (l al : list string) :
  heap s !! this = Some nd ->
  SieveProduction.already (S (size (heap s))) (Some this) s = Some (al, s) ->
  exists s' nd',
    SieveProduction.addExtensions this (Some l) s = Some (tt, s')
    /\ bad s' = bad s /\ extensions s' = extensions s
    /\ heap s' = <[this := nd']> (heap s)
    /\ prod nd' = prod nd
    /\ base nd' = SieveProduction.withAddedExtensions
                    (prod_addedExtensions (base nd')) (base nd)
    /\ declaredAt s' this
       = declaredAt s this ++ List.filter (fun i => negb (contains al i)) l.
Proof.
  intros Hp Hal.
  destruct (addExtensions_loop al l this s nd Hp)
    as (s' & nd' & Hrun & Hb & Hx & Hh & Hprod & Hbase & Hadd).
  exists s', nd'.
  assert (Hd : declaredAt s' this
               = declaredAt s this
                 ++ List.filter (fun i => negb (contains al i)) l).
  { unfold declaredAt. now rewrite Hh, lookup_insert_eq, Hp. }
  split; [|auto 10].
  unfold SieveProduction.addExtensions. destruct l as [|i l].
  - simpl in Hrun. exact Hrun.
  - run (walkFuel_run s). run Hal. exact Hrun.
Qed.

(** X3: [addExtensions] collects what the production and its ancestors
    have added, and appends to the production's own added extensions, in
    order, the names of the list that are not among them (a name given
    twice is appended twice).  Nothing else changes. *)
Theorem addExtensions_appends_undeclared (s : state) (this : ptr) (nd : node)
    (l al : list string) :
  heap s !! this = Some nd ->
  SieveProduction.already (S (size (heap s))) (Some this) s = Some (al, s) ->
  (forall x, x ∈ al <->
     exists q, encloses (heap s) q this /\ x ∈ declaredAt s q)
  /\ exists s' nd',
       SieveProduction.addExtensions this (Some l) s = Some (tt, s')
       /\ bad s' = bad s /\ extensions s' = extensions s
       /\ heap s' = <[this := nd']> (heap s)
       /\ prod nd' = prod nd
       /\ base nd' = SieveProduction.withAddedExtensions
                       (prod_addedExtensions (base nd')) (base nd)
       /\ declaredAt s' this
          = declaredAt s this
            ++ List.filter (fun i => negb (contains al i)) l.
Proof.
  intros Hp Hal. split.
  - intros x. destruct (already_spec _ _ _ _ _ Hal) as [_ Hspec].
    rewrite Hspec. split.
    + intros (q & r & [= <-] & Henc & Hin). eauto.
    + intros (q & Henc & Hin). eauto.
  - now apply addExtensions_effect.
Qed.

Lemma encloses_sameLinks (h h' : gmap ptr node) (q p : ptr) :
  sameLinks h h' -> encloses h q p -> encloses h' q p.
Proof.
  intros Hb. induction 1 as [p nd Hp|q p r nd Hp Hpar _ IH].
  - destruct (sameLinks_lookup _ _ _ _ Hb Hp) as (nd' & Hp' & _).
    now apply encloses_self with nd'.
  - destruct (sameLinks_lookup _ _ _ _ Hb Hp) as (nd' & Hp' & Hpar' & _).
    apply encloses_parent with r nd'; [exact Hp' | congruence | exact IH].
Qed.

(** The walk of [require] ends wherever the walk of [addExtensions]
    has ended, the parents being the same. *)
Lemma declared_total (fuel : nat) (p : option ptr) (x : string)
    (al : list string) (s s' : state) :
  sameLinks (heap s) (heap s') ->
  SieveProduction.already fuel p s = Some (al, s) ->
  exists b, SieveProduction.declared fuel p x s' = Some (b, s').
Proof.
  intros Hb. revert p al. induction fuel as [|k IH]; intros [r|] al; simpl;
    try discriminate; try (intros _; eexists; reflexivity).
  intros (d & s1 & (-> & nd & Hp & <-)%getBase_Some & Hr)%bind_Some.
  apply bind_Some in Hr as (r0 & s2 & Hrec & [= _ ->]).
  destruct (sameLinks_lookup _ _ _ _ Hb Hp) as (nd' & Hp' & Hpar & _).
  destruct (IH _ _ Hrec) as (b & Hdecl).
  exists (match prod_addedExtensions (base nd') with
          | Some l => if contains l x then true else b
          | None => b
          end).
  run (getBase_run _ _ _ Hp'). rewrite Hpar.
  destruct (prod_addedExtensions (base nd')) as [l0|];
    [destruct (contains l0 x)|]; (reflexivity || exact Hdecl).
Qed.

(** X4: what [addExtensions] was given is declared afterwards: a later
    [require] of one of these names on the production finds it and
    leaves the state as it is. *)
Theorem addExtensions_then_require (s s' : state) (this : ptr)
    (l : list string) (x : string) :
  SieveProduction.addExtensions this (Some l) s = Some (tt, s') ->
  x ∈ l ->
  (exists q, encloses (heap s') q this /\ x ∈ declaredAt s' q)
  /\ SieveProduction.declared (S (size (heap s'))) (Some this) x s'
     = Some (true, s')
  /\ SieveProduction.require this x s' = Some (tt, s').
Proof.
  intros Hrun Hin.
  destruct l as [|i l]; [now apply elem_of_nil in Hin|].
  pose proof Hrun as H0. unfold SieveProduction.addExtensions in H0.
  run_in (walkFuel_run s) H0.
  apply bind_Some in H0 as (al & s1 & Hal & _).
  pose proof (already_spec _ _ _ _ _ Hal) as [-> Hspec].
  assert (Hp : exists nd, heap s !! this = Some nd).
  { simpl in Hal.
    apply bind_Some in Hal as (d & s1 & (_ & nd & Hp & _)%getBase_Some & _).
    eauto. }
  destruct Hp as (nd & Hp).
  destruct (addExtensions_effect s this nd (i :: l) al Hp Hal)
    as (s2 & nd' & Hrun2 & Hb & Hx & Hh & Hprod & Hbase & Hadd).
  rewrite Hrun in Hrun2. injection Hrun2 as <-.
  assert (Hl : sameLinks (heap s) (heap s')).
  { rewrite Hh. apply sameLinks_insert with nd; [exact Hp| |];
      rewrite Hbase; reflexivity. }
  assert (Hscope : exists q, encloses (heap s') q this /\ x ∈ declaredAt s' q).
  { destruct (contains al x) eqn:Hc.
    - apply contains_true_iff, Hspec in Hc
        as (q & r & [= <-] & Henc & Hq).
      exists q. split; [now apply encloses_sameLinks with (heap s)|].
      destruct (decide (q = this)) as [->|Hne].
      + rewrite Hadd. apply elem_of_app. now left.
      + unfold declaredAt in *. now rewrite Hh, lookup_insert_ne.
    - exists this. split.
      + apply encloses_self with nd'. rewrite Hh. apply lookup_insert_eq.
      + rewrite Hadd. apply elem_of_app. right.
        apply list_elem_of_In, filter_In. split.
        * now apply list_elem_of_In.
        * now rewrite Hc. }
  split; [exact Hscope|].
  destruct (declared_total _ _ x _ _ _ Hl Hal) as (b & Hdecl).
  rewrite <- (sameLinks_size _ _ Hl) in Hdecl.
  assert (b = true) as ->.
  { apply (declared_spec _ _ _ _ _ _ Hdecl).
    destruct Hscope as (q & Henc & Hq). eauto. }
  split; [exact Hdecl|].
  assert (Hp' : heap s' !! this = Some nd')
    by (rewrite Hh; apply lookup_insert_eq).
  now rewrite (require_run _ _ _ _ _ Hp' Hdecl).
Qed.

(** ** The assert functions of SieveArgument *)

(** Two heaps whose productions have the same class data. *)
Lemma setError_prod (s s' : state) (this : ptr) (e : string) :
  SieveProduction.setError this e s = Some (tt, s') ->
  forall p, prod <$> heap s' !! p = prod <$> heap s !! p.
Proof.
  intros (nd & Hp & -> & _)%setError_effect p.
  destruct (decide (this = p)) as [<-|Hne].
  - now rewrite lookup_insert_eq, Hp.
  - now rewrite lookup_insert_ne.
Qed.

Lemma argumentAt_prod (h h' : gmap ptr node) (x : ptr) :
  prod <$> h' !! x = prod <$> h !! x -> argumentAt h' x = argumentAt h x.
Proof.
  unfold argumentAt. destruct (h' !! x), (h !! x); simpl; try discriminate;
    [|reflexivity].
  now intros [= ->].
Qed.

Lemma setError_argumentAt (s s' : state) (this : ptr) (e : string) :
  SieveProduction.setError this e s = Some (tt, s') ->
  forall x, argumentAt (heap s') x = argumentAt (heap s) x.
Proof.
  intros H x. apply argumentAt_prod. exact (setError_prod _ _ _ _ H x).
Qed.

Lemma errorOf_empty (s : state) (p : ptr) :
  errorOf s p = "" ->
  forall nd, heap s !! p = Some nd -> isEmpty (prod_error (base nd)) = true.
Proof.
  intros He nd Hp. rewrite (errorOf_lookup _ _ _ Hp) in He. now rewrite He.
Qed.

(** The first error of a production outside every ihave-failed
    scope. *)
Lemma setError_fresh (s : state) (this : ptr) (nd : node) (e : string) :
  isEmpty e = false -> heap s !! this = Some nd -> errorOf s this = "" ->
  unsuppressed s this ->
  exists s',
    SieveProduction.setError this e s = Some (tt, s')
    /\ errorOf s' this = e
    /\ heap s' = <[this := mkNode (SieveProduction.withError e (base nd))
                             (prod nd)]> (heap s)
    /\ (forall x, argumentAt (heap s') x = argumentAt (heap s) x)
    /\ sameLinks (heap s) (heap s').
Proof.
  intros He Hp Herr Hu.
  destruct (setError_stored s this nd e Hp He (errorOf_empty _ _ Herr _ Hp) Hu)
    as (s' & Hrun & Hh & _).
  exists s'. split; [exact Hrun|].
  split; [unfold errorOf; now rewrite Hh, lookup_insert_eq|].
  split; [exact Hh|].
  split; [exact (setError_argumentAt _ _ _ _ Hrun)|].
  exact (setError_sameLinks _ _ _ _ Hrun).
Qed.

(** [reject msg]: the assertion records [msg], which settles the
    equivalence. *)
Ltac reject Hp Herr Hu msg :=
  let s' := fresh "s'" in
  let Hrun := fresh "Hrun" in
  let He := fresh "He" in
  let Ha := fresh "Ha" in
  destruct (setError_fresh _ _ _ msg eq_refl Hp Herr Hu)
    as (s' & Hrun & He & _ & Ha & _);
  exists s'; split; [exact Hrun|]; split; [now rewrite Ha|];
  rewrite He; split; [discriminate|].

(** X5: on an argument without error outside any ihave-failed scope,
    [assertString] leaves no error exactly when the argument has no tag,
    number 0 and a list of one string, and [assertStringList] exactly
    when it has no tag, number 0 and a non-empty list.  The argument's
    data are not changed. *)
Theorem string_assertions_accept_exactly (s : state) (x : ptr)
    (d : SieveArgumentData) :
  argumentAt (heap s) x = Some d -> errorOf s x = "" -> unsuppressed s x ->
  (exists s',
     SieveArgument.assertString x s = Some (tt, s')
     /\ argumentAt (heap s') x = Some d
     /\ (errorOf s' x = "" <->
         arg_tag d = "" /\ arg_number d = 0%N
         /\ exists v, arg_list d = Some [v]))
  /\ (exists s',
        SieveArgument.assertStringList x s = Some (tt, s')
        /\ argumentAt (heap s') x = Some d
        /\ (errorOf s' x = "" <->
            arg_tag d = "" /\ arg_number d = 0%N
            /\ exists v l, arg_list d = Some (v :: l))).
Proof.
  intros Hx Herr Hu. pose proof Hx as (nd & Hp & Hd)%argumentAt_lookup.
  split.
  - unfold SieveArgument.assertString. run (getArgument_run _ _ _ Hx).
    destruct (arg_tag d) eqn:Ht; cbn [isEmpty negb];
      [|reject Hp Herr Hu "Expected a string here, not a tag";
        intros ([=] & _)].
    destruct (N.eqb_spec (arg_number d) 0) as [Hn|Hn]; cbn [negb];
      [|reject Hp Herr Hu "Expected a string here, not a number";
        intros (_ & ? & _); contradiction].
    destruct (arg_list d) as [[|v [|w l]]|] eqn:Hl; simpl.
    + reject Hp Herr Hu "Expected a single string here".
      intros (_ & _ & ? & [=]).
    + exists s. split; [reflexivity|]. split; [exact Hx|]. split; eauto.
    + reject Hp Herr Hu "Expected a single string here, not a string list".
      intros (_ & _ & ? & [=]).
    + reject Hp Herr Hu "Expected a single string here".
      intros (_ & _ & ? & [=]).
  - unfold SieveArgument.assertStringList. run (getArgument_run _ _ _ Hx).
    destruct (arg_tag d) eqn:Ht; cbn [isEmpty negb];
      [|reject Hp Herr Hu "Expected a string list here, not a tag";
        intros ([=] & _)].
    destruct (N.eqb_spec (arg_number d) 0) as [Hn|Hn]; cbn [negb];
      [|reject Hp Herr Hu "Expected a string list here, not a number";
        intros (_ & ? & _); contradiction].
    destruct (arg_list d) as [[|v l]|] eqn:Hl; simpl.
    + reject Hp Herr Hu "Expected a string list here".
      intros (_ & _ & ? & ? & [=]).
    + exists s. split; [reflexivity|]. split; [exact Hx|]. split; eauto.
    + reject Hp Herr Hu "Expected a string list here".
      intros (_ & _ & ? & ? & [=]).
Qed.

Lemma string_assertions_accept_exactly_witness :
  (exists s',
     SieveArgument.assertString 1 threeArguments = Some (tt, s')
     /\ argumentAt (heap s') 1 = Some (mkArgument "" 0 (Some ["a"]) 1 false)
     /\ (errorOf s' 1 = "" <->
         "" = "" /\ 0%N = 0%N
         /\ exists v, Some ["a"] = Some [v]))
  /\ (exists s',
        SieveArgument.assertStringList 1 threeArguments = Some (tt, s')
        /\ argumentAt (heap s') 1
           = Some (mkArgument "" 0 (Some ["a"]) 1 false)
        /\ (errorOf s' 1 = "" <->
            "" = "" /\ 0%N = 0%N
            /\ exists v l, Some ["a"] = Some (v :: l))).
Proof.
  apply (string_assertions_accept_exactly threeArguments 1
           (mkArgument "" 0 (Some ["a"]) 1 false)).
  - reflexivity.
  - reflexivity.
  - vm_compute. reflexivity.
Defined.

(** X6: on an argument without error outside any ihave-failed scope,
    [assertNumber] leaves no error exactly when the argument has no tag
    and no string list (the number is not looked at), and [assertTag]
    exactly when it has number 0 and no string list (the tag is not
    looked at). *)
Theorem number_and_tag_assertions_accept_exactly (s : state) (x : ptr)
    (d : SieveArgumentData) :
  argumentAt (heap s) x = Some d -> errorOf s x = "" -> unsuppressed s x ->
  (exists s',
     SieveArgument.assertNumber x s = Some (tt, s')
     /\ argumentAt (heap s') x = Some d
     /\ (errorOf s' x = "" <-> arg_tag d = "" /\ arg_list d = None))
  /\ (exists s',
        SieveArgument.assertTag x s = Some (tt, s')
        /\ argumentAt (heap s') x = Some d
        /\ (errorOf s' x = "" <-> arg_number d = 0%N /\ arg_list d = None)).
Proof.
  intros Hx Herr Hu. pose proof Hx as (nd & Hp & Hd)%argumentAt_lookup.
  split.
  - unfold SieveArgument.assertNumber. run (getArgument_run _ _ _ Hx).
    destruct (arg_tag d) eqn:Ht; cbn [isEmpty negb];
      [|reject Hp Herr Hu "Expected a number here, not a tag";
        intros ([=] & _)].
    destruct (arg_list d) as [l|] eqn:Hl; simpl.
    + reject Hp Herr Hu
        "Expected a number here, not a string or string list".
      intros (_ & [=]).
    + exists s. split; [reflexivity|]. split; [exact Hx|]. split; eauto.
  - unfold SieveArgument.assertTag. run (getArgument_run _ _ _ Hx).
    destruct (N.eqb_spec (arg_number d) 0) as [Hn|Hn]; cbn [negb];
      [|reject Hp Herr Hu "Expected a tag here, not a number";
        intros (? & _); contradiction].
    destruct (arg_list d) as [l|] eqn:Hl; simpl.
    + reject Hp Herr Hu "Expected a tag here, not a string or string list".
      intros (_ & [=]).
    + exists s. split; [reflexivity|]. split; [exact Hx|]. split; eauto.
Qed.

Lemma number_and_tag_assertions_accept_exactly_witness :
  (exists s',
     SieveArgument.assertNumber 1 openScope = Some (tt, s')
     /\ argumentAt (heap s') 1 = Some (mkArgument ":x" 0 None 1 false)
     /\ (errorOf s' 1 = "" <-> ":x" = "" /\ @None (list string) = None))
  /\ (exists s',
        SieveArgument.assertTag 1 openScope = Some (tt, s')
        /\ argumentAt (heap s') 1 = Some (mkArgument ":x" 0 None 1 false)
        /\ (errorOf s' 1 = "" <-> 0%N = 0%N /\ @None (list string) = None)).
Proof.
  apply (number_and_tag_assertions_accept_exactly openScope 1
           (mkArgument ":x" 0 None 1 false)).
  - reflexivity.
  - reflexivity.
  - vm_compute. reflexivity.
Defined.

Lemma setError_changes_only_error_witness :
  extensions openScopeFlagged = extensions openScope
  /\ (forall p, p <> 1 -> heap openScopeFlagged !! p = heap openScope !! p)
  /\ exists nd,
       heap openScope !! 1 = Some nd
       /\ heap openScopeFlagged !! 1
          = Some (mkNode (SieveProduction.withError
                            (errorOf openScopeFlagged 1) (base nd))
                    (prod nd))
       /\ bad openScopeFlagged
          = (if negb (isEmpty (errorOf openScopeFlagged 1))
                && prod_parser (base nd)
             then bad openScope ++ [1] else bad openScope).
Proof.
  apply (setError_changes_only_error openScope openScopeFlagged 1
           "Unknown tag: :y").
  vm_compute. reflexivity.
Defined.

Lemma require_registers_unless_in_scope_witness :
  (false = true <->
   exists q, encloses (heap declaringScript) q 1
             /\ "copy" ∈ declaredAt declaringScript q)
  /\ SieveProduction.require 1 "copy" declaringScript
     = Some (tt, mkState (heap declaringScript) (bad declaringScript)
                   (if false
                       || negb (prod_parser (base (nodeAt declaringScript 1)))
                    then extensions declaringScript
                    else extensions declaringScript ++ ["copy"])).
Proof.
  apply (require_registers_unless_in_scope declaringScript 1
           (nodeAt declaringScript 1) "copy" false).
  - vm_compute. reflexivity.
  - vm_compute. reflexivity.
Defined.

Lemma addExtensions_appends_undeclared_witness :
  (forall x, x ∈ ["fileinto"] <->
     exists q, encloses (heap declaringScript) q 1
               /\ x ∈ declaredAt declaringScript q)
  /\ exists s' nd',
       SieveProduction.addExtensions 1 (Some ["fileinto"; "copy"; "copy"])
         declaringScript = Some (tt, s')
       /\ bad s' = bad declaringScript
       /\ extensions s' = extensions declaringScript
       /\ heap s' = <[1 := nd']> (heap declaringScript)
       /\ prod nd' = prod (nodeAt declaringScript 1)
       /\ base nd' = SieveProduction.withAddedExtensions
                       (prod_addedExtensions (base nd'))
                       (base (nodeAt declaringScript 1))
       /\ declaredAt s' 1
          = declaredAt declaringScript 1
            ++ List.filter (fun i => negb (contains ["fileinto"] i))
                 ["fileinto"; "copy"; "copy"].
Proof.
  apply (addExtensions_appends_undeclared declaringScript 1
           (nodeAt declaringScript 1) ["fileinto"; "copy"; "copy"]
           ["fileinto"]).
  - vm_compute. reflexivity.
  - vm_compute. reflexivity.
Defined.

Lemma addExtensions_then_require_witness :
  (exists q, encloses (heap declaringCommand) q 1
             /\ "copy" ∈ declaredAt declaringCommand q)
  /\ SieveProduction.declared (S (size (heap declaringCommand))) (Some 1)
       "copy" declaringCommand
     = Some (true, declaringCommand)
  /\ SieveProduction.require 1 "copy" declaringCommand
     = Some (tt, declaringCommand).
Proof.
  apply (addExtensions_then_require declaringScript declaringCommand 1
           ["copy"] "copy").
  - vm_compute. reflexivity.
  - apply list_elem_of_singleton. reflexivity.
Defined.

(** ** Argument lists: building them *)

Lemma modifyArgumentList_run (s : state) (p : ptr) (nd : node)
    (d : SieveArgumentListData)
    (f : SieveArgumentListData -> SieveArgumentListData) :
  heap s !! p = Some nd -> prod nd = ArgumentListP d ->
  modifyArgumentList p f s
  = Some (tt, mkState (<[p := mkNode (base nd) (ArgumentListP (f d))]> (heap s))
                (bad s) (extensions s)).
Proof.
  intros Hp Hd. unfold modifyArgumentList. run (getNode_run _ _ _ Hp).
  now rewrite Hd.
Qed.

Lemma tests_run (s : state) (al : ptr) (nd : node)
    (d : SieveArgumentListData) :
  heap s !! al = Some nd -> prod nd = ArgumentListP d ->
  SieveArgumentList.tests al s = Some (args_t d, s).
Proof.
  intros Hal Hd. unfold SieveArgumentList.tests.
  now run (getArgumentList_run _ _ _ _ Hal Hd).
Qed.

(** X7: appending an argument (a test) to an argument list puts it last
    among the arguments (tests), leaves the tests (arguments) alone and
    makes the list its parent; appending null does nothing. *)
Theorem append_adds_last_and_adopts (s : state) (this q : ptr)
    (nd ndq : node) (d : SieveArgumentListData) :
  heap s !! this = Some nd -> prod nd = ArgumentListP d ->
  heap s !! q = Some ndq -> q <> this ->
  (exists s',
     SieveArgumentList.append this (Some q) s = Some (tt, s')
     /\ SieveArgumentList.arguments this s' = Some (args_a d ++ [q], s')
     /\ SieveArgumentList.tests this s' = Some (args_t d, s')
     /\ heap s' !! q
        = Some (mkNode (SieveProduction.withParent (Some this) (base ndq))
                  (prod ndq)))
  /\ (exists s',
        SieveArgumentList.appendTest this (Some q) s = Some (tt, s')
        /\ SieveArgumentList.arguments this s' = Some (args_a d, s')
        /\ SieveArgumentList.tests this s' = Some (args_t d ++ [q], s')
        /\ heap s' !! q
           = Some (mkNode (SieveProduction.withParent (Some this) (base ndq))
                     (prod ndq)))
  /\ SieveArgumentList.append this None s = Some (tt, s)
  /\ SieveArgumentList.appendTest this None s = Some (tt, s).
Proof.
  intros Hp Hd Hq Hne. split; [|split; [|split; reflexivity]].
  - unfold SieveArgumentList.append.
    run (modifyArgumentList_run _ _ _ _
           (fun d => mkArgumentList (args_a d ++ [q]) (args_t d) (args_n d))
           Hp Hd).
    unfold SieveProduction.setParent.
    erewrite modifyBase_run;
      [|simpl; rewrite lookup_insert_ne by congruence; exact Hq].
    eexists. split; [reflexivity|].
    assert (Hl : forall h : gmap ptr node,
               <[q := mkNode (SieveProduction.withParent (Some this)
                                (base ndq)) (prod ndq)]>
                 (<[this := mkNode (base nd)
                              (ArgumentListP
                                 (mkArgumentList (args_a d ++ [q]) (args_t d)
                                    (args_n d)))]> h) !! this
               = Some (mkNode (base nd)
                         (ArgumentListP
                            (mkArgumentList (args_a d ++ [q]) (args_t d)
                               (args_n d))))).
    { intros h. rewrite lookup_insert_ne by exact Hne.
      apply lookup_insert_eq. }
    split; [|split].
    + eapply (arguments_run _ _ _
                (mkArgumentList (args_a d ++ [q]) (args_t d) (args_n d)));
        [simpl; apply Hl | reflexivity].
    + eapply (tests_run _ _ _
                (mkArgumentList (args_a d ++ [q]) (args_t d) (args_n d)));
        [simpl; apply Hl | reflexivity].
    + simpl. apply lookup_insert_eq.
  - unfold SieveArgumentList.appendTest.
    run (modifyArgumentList_run _ _ _ _
           (fun d => mkArgumentList (args_a d) (args_t d ++ [q]) (args_n d))
           Hp Hd).
    unfold SieveProduction.setParent.
    erewrite modifyBase_run;
      [|simpl; rewrite lookup_insert_ne by congruence; exact Hq].
    eexists. split; [reflexivity|].
    assert (Hl : forall h : gmap ptr node,
               <[q := mkNode (SieveProduction.withParent (Some this)
                                (base ndq)) (prod ndq)]>
                 (<[this := mkNode (base nd)
                              (ArgumentListP
                                 (mkArgumentList (args_a d) (args_t d ++ [q])
                                    (args_n d)))]> h) !! this
               = Some (mkNode (base nd)
                         (ArgumentListP
                            (mkArgumentList (args_a d) (args_t d ++ [q])
                               (args_n d))))).
    { intros h. rewrite lookup_insert_ne by exact Hne.
      apply lookup_insert_eq. }
    split; [|split].
    + eapply (arguments_run _ _ _
                (mkArgumentList (args_a d) (args_t d ++ [q]) (args_n d)));
        [simpl; apply Hl | reflexivity].
    + eapply (tests_run _ _ _
                (mkArgumentList (args_a d) (args_t d ++ [q]) (args_n d)));
        [simpl; apply Hl | reflexivity].
    + simpl. apply lookup_insert_eq.
Qed.

Lemma append_adds_last_and_adopts_witness :
  (exists s',
     SieveArgumentList.append 0 (Some 1) threeArguments = Some (tt, s')
     /\ SieveArgumentList.arguments 0 s' = Some ([1; 2; 3] ++ [1], s')
     /\ SieveArgumentList.tests 0 s' = Some ([], s')
     /\ heap s' !! 1
        = Some (mkNode (SieveProduction.withParent (Some 0)
                          (base (plainString ["a"])))
                  (prod (plainString ["a"]))))
  /\ (exists s',
        SieveArgumentList.appendTest 0 (Some 1) threeArguments = Some (tt, s')
        /\ SieveArgumentList.arguments 0 s' = Some ([1; 2; 3], s')
        /\ SieveArgumentList.tests 0 s' = Some ([] ++ [1], s')
        /\ heap s' !! 1
           = Some (mkNode (SieveProduction.withParent (Some 0)
                             (base (plainString ["a"])))
                     (prod (plainString ["a"]))))
  /\ SieveArgumentList.append 0 None threeArguments
     = Some (tt, threeArguments)
  /\ SieveArgumentList.appendTest 0 None threeArguments
     = Some (tt, threeArguments).
Proof.
  apply (append_adds_last_and_adopts threeArguments 0 1 threeNumbered
           (plainString ["a"]) (mkArgumentList [1; 2; 3] [] [1; 2; 3])).
  - reflexivity.
  - reflexivity.
  - reflexivity.
  - discriminate.
Defined.

(** ** Argument lists: a tag that is absent *)

Lemma argumentFollowingTag_absent (s : state) (al : ptr) (nd : node)
    (d : SieveArgumentListData) (tag : string) :
  heap s !! al = Some nd -> prod nd = ArgumentListP d ->
  lacks (heap s) tag (args_a d) ->
  SieveArgumentList.argumentFollowingTag al tag s = Some (None, s).
Proof.
  intros Hal Hd Hl. unfold SieveArgumentList.argumentFollowingTag.
  run (arguments_run _ _ _ _ Hal Hd).
  apply argumentFollowingTagLoop_lacks; [exact Hl | now left].
Qed.

Lemma takeTaggedString_absent (s : state) (al : ptr) (nd : node)
    (d : SieveArgumentListData) (tag : string) :
  heap s !! al = Some nd -> prod nd = ArgumentListP d ->
  lacks (heap s) tag (args_a d) ->
  SieveArgumentList.takeTaggedString al tag s = Some ("", s).
Proof.
  intros Hal Hd Hl. unfold SieveArgumentList.takeTaggedString.
  now run (argumentFollowingTag_absent _ _ _ _ _ Hal Hd Hl).
Qed.

(** X8: when no argument carries the tag, [argumentFollowingTag] and
    [findTag] return null, [takeTaggedString] the empty string,
    [takeTaggedStringList] null and [takeTaggedNumber] 0, all without
    changing the state, and [tagError] puts its error on the argument
    list itself. *)
Theorem absent_tag_gives_defaults (s : state) (al : ptr) (nd : node)
    (d : SieveArgumentListData) (tag : string) :
  heap s !! al = Some nd -> prod nd = ArgumentListP d ->
  lacks (heap s) tag (args_a d) ->
  SieveArgumentList.argumentFollowingTag al tag s = Some (None, s)
  /\ SieveArgumentList.findTag al tag s = Some (None, s)
  /\ SieveArgumentList.takeTaggedString al tag s = Some ("", s)
  /\ SieveArgumentList.takeTaggedStringList al tag s = Some (None, s)
  /\ SieveArgumentList.takeTaggedNumber al tag s = Some (0%N, s)
  /\ (forall e, isEmpty e = false -> errorOf s al = "" ->
      unsuppressed s al ->
      exists s', SieveArgumentList.tagError al tag e s = Some (tt, s')
                 /\ errorOf s' al = e).
Proof.
  intros Hal Hd Hl.
  pose proof (argumentFollowingTag_absent _ _ _ _ _ Hal Hd Hl) as Hf.
  split; [exact Hf|]. split; [now apply findTag_absent with nd d|].
  unfold SieveArgumentList.takeTaggedString,
    SieveArgumentList.takeTaggedStringList,
    SieveArgumentList.takeTaggedNumber, SieveArgumentList.tagError.
  split; [now run Hf|]. split; [now run Hf|]. split; [now run Hf|].
  intros e He Herr Hu. run Hf.
  run (findTag_absent _ _ _ _ _ Hal Hd Hl).
  destruct (setError_fresh s al nd e He Hal Herr Hu) as (s' & Hrun & Hs & _).
  eauto.
Qed.

Lemma absent_tag_gives_defaults_witness :
  SieveArgumentList.argumentFollowingTag 0 ":days" threeArguments
  = Some (None, threeArguments)
  /\ SieveArgumentList.findTag 0 ":days" threeArguments
     = Some (None, threeArguments)
  /\ SieveArgumentList.takeTaggedString 0 ":days" threeArguments
     = Some ("", threeArguments)
  /\ SieveArgumentList.takeTaggedStringList 0 ":days" threeArguments
     = Some (None, threeArguments)
  /\ SieveArgumentList.takeTaggedNumber 0 ":days" threeArguments
     = Some (0%N, threeArguments)
  /\ (forall e, isEmpty e = false -> errorOf threeArguments 0 = "" ->
      unsuppressed threeArguments 0 ->
      exists s',
        SieveArgumentList.tagError 0 ":days" e threeArguments = Some (tt, s')
        /\ errorOf s' 0 = e).
Proof.
  apply (absent_tag_gives_defaults threeArguments 0 threeNumbered
           (mkArgumentList [1; 2; 3] [] [1; 2; 3]) ":days").
  - reflexivity.
  - reflexivity.
  - repeat constructor; eexists; (split; [reflexivity|reflexivity]).
Defined.

(** ** Argument lists: a tag that is present *)

Lemma setParsed_exact (s : state) (x : ptr) (nd : node)
    (d : SieveArgumentData) (b : bool) :
  heap s !! x = Some nd -> prod nd = ArgumentP d ->
  SieveArgument.setParsed x b s
  = Some (tt, mkState
                (<[x := mkNode (base nd)
                          (ArgumentP (mkArgument (arg_tag d) (arg_number d)
                                        (arg_list d) (arg_calls d) b))]>
                   (heap s))
                (bad s) (extensions s)).
Proof.
  intros Hx Hd. unfold SieveArgument.setParsed, modifyArgument.
  run (getNode_run _ _ _ Hx). now rewrite Hd.
Qed.

Lemma argumentFollowingTagLoop_skip (s : state) (tag : string)
    (pre rest : list ptr) :
  lacks (heap s) tag pre ->
  SieveArgumentList.argumentFollowingTagLoop (pre ++ rest) tag None None s
  = SieveArgumentList.argumentFollowingTagLoop rest tag None None s.
Proof.
  induction 1 as [|x l (d & Hx & Ht) _ IH]; [reflexivity|].
  cbn [app SieveArgumentList.argumentFollowingTagLoop].
  run (getArgument_run _ _ _ Hx). rewrite Ht. run (ret_run s (@None ptr)).
  run (ret_run s (@None ptr)). exact IH.
Qed.

Lemma parsedAt_insert (h : gmap ptr node) (b : list ptr) (e : list string)
    (x : ptr) (bs : SieveProductionData) (d : SieveArgumentData) :
  parsedAt (mkState (<[x := mkNode bs (ArgumentP d)]> h) b e) x
  = arg_parsed d.
Proof. unfold parsedAt, argumentAt. simpl. now rewrite lookup_insert_eq. Qed.

Lemma parsedAt_ext (s s' : state) (x : ptr) :
  argumentAt (heap s') x = argumentAt (heap s) x ->
  parsedAt s' x = parsedAt s x.
Proof. unfold parsedAt. now intros ->. Qed.

(** X9: when the tag occurs only as the last argument,
    [argumentFollowingTag] returns null, marks the tag as parsed and
    gives it the error 'Tag not followed by argument'; no other
    production changes. *)
Theorem tag_in_last_place_is_an_error (s : state) (al y : ptr)
    (nd ndy : node) (d : SieveArgumentListData) (dy : SieveArgumentData)
    (tag : string) (pre : list ptr) :
  heap s !! al = Some nd -> prod nd = ArgumentListP d ->
  args_a d = pre ++ [y] ->
  lacks (heap s) tag pre ->
  heap s !! y = Some ndy -> prod ndy = ArgumentP dy -> arg_tag dy = tag ->
  errorOf s y = "" -> unsuppressed s y ->
  exists s',
    SieveArgumentList.argumentFollowingTag al tag s = Some (None, s')
    /\ errorOf s' y = "Tag not followed by argument: " +:+ tag
    /\ parsedAt s' y = true
    /\ (forall p, p <> y -> heap s' !! p = heap s !! p).
Proof.
  intros Hal Hd Ha Hpre Hy Hdy Ht Herr Hu.
  unfold SieveArgumentList.argumentFollowingTag.
  run (arguments_run _ _ _ _ Hal Hd). rewrite Ha.
  rewrite (argumentFollowingTagLoop_skip _ _ _ _ Hpre).
  cbn [SieveArgumentList.argumentFollowingTagLoop].
  assert (Hay : argumentAt (heap s) y = Some dy)
    by (apply argumentAt_lookup; eauto).
  run (getArgument_run _ _ _ Hay). rewrite Ht, String.eqb_refl.
  run (setParsed_exact _ _ _ _ true Hy Hdy).
  set (s1 := mkState _ _ _).
  run (ret_run s1 (Some y)).
  assert (Hy1 : heap s1 !! y
                = Some (mkNode (base ndy)
                          (ArgumentP (mkArgument (arg_tag dy) (arg_number dy)
                                        (arg_list dy) (arg_calls dy) true))))
    by apply lookup_insert_eq.
  assert (Hl1 : sameLinks (heap s) (heap s1))
    by (now apply sameLinks_insert with ndy).
  destruct (setError_fresh s1 y _ ("Tag not followed by argument: " +:+ tag)
              eq_refl Hy1)
    as (s2 & Hrun & He & Hh & Harg & _).
  { rewrite (errorOf_lookup _ _ _ Hy1). simpl.
    now rewrite <- (errorOf_lookup _ _ _ Hy). }
  { now apply unsuppressed_sameLinks with s. }
  run Hrun.
  exists s2. split; [reflexivity|]. split; [exact He|]. split.
  - rewrite (parsedAt_ext _ _ _ (Harg y)). apply parsedAt_insert.
  - intros p Hne. rewrite Hh. rewrite lookup_insert_ne by congruence.
    subst s1. simpl. now rewrite lookup_insert_ne by congruence.
Qed.

Lemma forEach_app {A : Type} (l1 l2 : list A) (body : A -> M unit)
    (s : state) :
  forEach (l1 ++ l2) body s
  = bind (forEach l1 body) (fun _ => forEach l2 body) s.
Proof.
  revert s. induction l1 as [|x l1 IH]; intros s; simpl; [reflexivity|].
  unfold bind. destruct (body x s) as [[[] s1]|]; [|reflexivity].
  rewrite IH. reflexivity.
Qed.

Lemma forEach_app_bind {A B : Type} (l1 l2 : list A) (body : A -> M unit)
    (k : unit -> M B) (s : state) :
  bind (forEach (l1 ++ l2) body) k s
  = bind (forEach l1 body) (fun _ => bind (forEach l2 body) k) s.
Proof.
  unfold bind at 1. rewrite forEach_app. unfold bind.
  now destruct (forEach l1 body s) as [[[] s1]|].
Qed.

(** X10: when exactly one argument carries the tag, [findTag] returns it,
    and its only effect is to mark it as parsed. *)
Theorem findTag_returns_the_tag (s : state) (al y : ptr) (nd ndy : node)
    (d : SieveArgumentListData) (dy : SieveArgumentData) (tag : string)
    (pre rest : list ptr) :
  heap s !! al = Some nd -> prod nd = ArgumentListP d ->
  args_a d = pre ++ y :: rest ->
  lacks (heap s) tag pre -> lacks (heap s) tag rest ->
  heap s !! y = Some ndy -> prod ndy = ArgumentP dy -> arg_tag dy = tag ->
  SieveArgumentList.findTag al tag s
  = Some (Some y,
          mkState
            (<[y := mkNode (base ndy)
                      (ArgumentP (mkArgument (arg_tag dy) (arg_number dy)
                                    (arg_list dy) (arg_calls dy) true))]>
               (heap s))
            (bad s) (extensions s)).
Proof.
  intros Hal Hd Ha Hpre Hrest Hy Hdy Ht.
  assert (Hay : argumentAt (heap s) y = Some dy)
    by (apply argumentAt_lookup; eauto).
  unfold SieveArgumentList.findTag.
  run (arguments_run _ _ _ _ Hal Hd). rewrite Ha.
  erewrite bind_run;
    [|apply (findTagSeek_found _ _ _ rest _ _ Hpre Hay);
      rewrite Ht; apply String.eqb_refl].
  cbn beta iota.
  run (duplicates_lacks _ _ y _ Hrest).
  now run (setParsed_exact _ _ _ _ true Hy Hdy).
Qed.

Lemma findTag_returns_the_tag_witness :
  SieveArgumentList.findTag 1 ":value" valueTest
  = Some (Some 4,
          mkState
            (<[4 := mkNode (base (nodeAt valueTest 4))
                      (ArgumentP
                         (mkArgument (arg_tag valueTestTag)
                            (arg_number valueTestTag) (arg_list valueTestTag)
                            (arg_calls valueTestTag) true))]>
               (heap valueTest))
            (bad valueTest) (extensions valueTest)).
Proof.
  apply (findTag_returns_the_tag valueTest 1 4 (nodeAt valueTest 1)
           (nodeAt valueTest 4) valueTestArguments valueTestTag ":value"
           [2; 3] [5; 6; 7]).
  - reflexivity.
  - reflexivity.
  - reflexivity.
  - repeat constructor; eexists; (split; [reflexivity|reflexivity]).
  - repeat constructor; eexists; (split; [reflexivity|reflexivity]).
  - reflexivity.
  - reflexivity.
  - reflexivity.
Defined.

Lemma duplicates_skip (s : state) (tag : string) (r : ptr)
    (l rest : list ptr) :
  lacks (heap s) tag l ->
  forEach (l ++ rest) (fun a =>
    d ← getArgument a;
    if (arg_tag d =? tag)%string then
      SieveProduction.setError r ("Tag occurs twice: " +:+ tag);;
      SieveProduction.setError a ("Tag occurs twice: " +:+ tag)
    else ret tt) s
  = forEach rest (fun a =>
      d ← getArgument a;
      if (arg_tag d =? tag)%string then
        SieveProduction.setError r ("Tag occurs twice: " +:+ tag);;
        SieveProduction.setError a ("Tag occurs twice: " +:+ tag)
      else ret tt) s.
Proof.
  intros Hl. rewrite forEach_app. now run (duplicates_lacks _ _ r _ Hl).
Qed.

(** X11: when two arguments carry the tag, [findTag] returns the first,
    gives both the error 'Tag occurs twice' and marks only the first as
    parsed. *)
Theorem findTag_flags_a_repeated_tag (s : state) (al y z : ptr)
    (nd ndy ndz : node) (d : SieveArgumentListData)
    (dy dz : SieveArgumentData) (tag : string) (pre mid post : list ptr) :
  heap s !! al = Some nd -> prod nd = ArgumentListP d ->
  args_a d = pre ++ y :: mid ++ z :: post ->
  lacks (heap s) tag pre -> lacks (heap s) tag mid ->
  lacks (heap s) tag post ->
  heap s !! y = Some ndy -> prod ndy = ArgumentP dy -> arg_tag dy = tag ->
  heap s !! z = Some ndz -> prod ndz = ArgumentP dz -> arg_tag dz = tag ->
  y <> z ->
  errorOf s y = "" -> unsuppressed s y ->
  errorOf s z = "" -> unsuppressed s z ->
  exists s',
    SieveArgumentList.findTag al tag s = Some (Some y, s')
    /\ errorOf s' y = "Tag occurs twice: " +:+ tag
    /\ errorOf s' z = "Tag occurs twice: " +:+ tag
    /\ parsedAt s' y = true
    /\ parsedAt s' z = arg_parsed dz.
Proof.
  intros Hal Hd Ha Hpre Hmid Hpost Hy Hdy Hty Hz Hdz Htz Hne
    Hey Huy Hez Huz.
  assert (Hay : argumentAt (heap s) y = Some dy)
    by (apply argumentAt_lookup; eauto).
  assert (Haz : argumentAt (heap s) z = Some dz)
    by (apply argumentAt_lookup; eauto).
  unfold SieveArgumentList.findTag.
  run (arguments_run _ _ _ _ Hal Hd). rewrite Ha.
  erewrite bind_run;
    [|apply (findTagSeek_found _ _ _ (mid ++ z :: post) _ _ Hpre Hay);
      rewrite Hty; apply String.eqb_refl].
  lazy beta iota. rewrite forEach_app_bind.
  run (duplicates_lacks _ _ y _ Hmid). cbn [forEach].
  run (getArgument_run _ _ _ Haz). rewrite Htz, String.eqb_refl.
  destruct (setError_fresh s y ndy ("Tag occurs twice: " +:+ tag)
              eq_refl Hy Hey Huy)
    as (s1 & Hrun1 & He1 & Hh1 & Harg1 & Hl1).
  run Hrun1.
  assert (Hz1 : heap s1 !! z = Some ndz)
    by (rewrite Hh1, lookup_insert_ne by exact Hne; exact Hz).
  destruct (setError_fresh s1 z ndz ("Tag occurs twice: " +:+ tag)
              eq_refl Hz1)
    as (s2 & Hrun2 & He2 & Hh2 & Harg2 & Hl2).
  { now rewrite (errorOf_lookup _ _ _ Hz1), <- (errorOf_lookup _ _ _ Hz). }
  { now apply unsuppressed_sameLinks with s. }
  run Hrun2.
  assert (Hpost2 : lacks (heap s2) tag post).
  { apply lacks_ext with (heap s); [|exact Hpost].
    intros x. now rewrite Harg2, Harg1. }
  run (duplicates_lacks _ _ y _ Hpost2).
  assert (Hy2 : heap s2 !! y
                = Some (mkNode (SieveProduction.withError
                                  ("Tag occurs twice: " +:+ tag) (base ndy))
                          (prod ndy))).
  { rewrite Hh2, lookup_insert_ne by congruence.
    rewrite Hh1. apply lookup_insert_eq. }
  run (setParsed_exact _ _ _ _ true Hy2 Hdy).
  eexists. split; [reflexivity|].
  split; [unfold errorOf; simpl; now rewrite lookup_insert_eq|].
  split.
  { unfold errorOf. simpl. rewrite lookup_insert_ne by exact Hne.
    fold (errorOf s2 z). exact He2. }
  split; [apply parsedAt_insert|].
  unfold parsedAt, argumentAt. simpl.
  rewrite lookup_insert_ne by exact Hne.
  rewrite Hh2, lookup_insert_eq. simpl. now rewrite Hdz.
Qed.

Lemma tag_in_last_place_is_an_error_witness :
  exists s',
    SieveArgumentList.argumentFollowingTag 1 ":under" tagLast
    = Some (None, s')
    /\ errorOf s' 2 = "Tag not followed by argument: " +:+ ":under"
    /\ parsedAt s' 2 = true
    /\ (forall p, p <> 2 -> heap s' !! p = heap tagLast !! p).
Proof.
  apply (tag_in_last_place_is_an_error tagLast 1 2 (nodeAt tagLast 1)
           (nodeAt tagLast 2) (argumentsOf tagLast 1) (argumentOf tagLast 2)
           ":under" []).
  - vm_compute. reflexivity.
  - vm_compute. reflexivity.
  - vm_compute. reflexivity.
  - constructor.
  - vm_compute. reflexivity.
  - vm_compute. reflexivity.
  - vm_compute. reflexivity.
  - vm_compute. reflexivity.
  - vm_compute. reflexivity.
Defined.

Lemma findTag_flags_a_repeated_tag_witness :
  exists s',
    SieveArgumentList.findTag 1 ":is" repeatedTag = Some (Some 2, s')
    /\ errorOf s' 2 = "Tag occurs twice: " +:+ ":is"
    /\ errorOf s' 4 = "Tag occurs twice: " +:+ ":is"
    /\ parsedAt s' 2 = true
    /\ parsedAt s' 4 = arg_parsed (argumentOf repeatedTag 4).
Proof.
  apply (findTag_flags_a_repeated_tag repeatedTag 1 2 4
           (nodeAt repeatedTag 1) (nodeAt repeatedTag 2)
           (nodeAt repeatedTag 4) (argumentsOf repeatedTag 1)
           (argumentOf repeatedTag 2) (argumentOf repeatedTag 4) ":is"
           [] [3] [5]).
  - vm_compute. reflexivity.
  - vm_compute. reflexivity.
  - vm_compute. reflexivity.
  - constructor.
  - repeat constructor; eexists; (split; vm_compute; reflexivity).
  - repeat constructor; eexists; (split; vm_compute; reflexivity).
  - vm_compute. reflexivity.
  - vm_compute. reflexivity.
  - vm_compute. reflexivity.
  - vm_compute. reflexivity.
  - vm_compute. reflexivity.
  - vm_compute. reflexivity.
  - discriminate.
  - vm_compute. reflexivity.
  - vm_compute. reflexivity.
  - vm_compute. reflexivity.
  - vm_compute. reflexivity.
Defined.

(** ** allowOneTag *)

Lemma allowOneTagCollect_outside (s : state) (ts : list string)
    (l : list ptr) :
  outside (heap s) ts l ->
  SieveArgumentList.allowOneTagCollect l ts s = Some ([], s).
Proof.
  induction 1 as [|x l (d & Hx & Hc) _ IH];
    cbn [SieveArgumentList.allowOneTagCollect]; [reflexivity|].
  run (getArgument_run _ _ _ Hx). run IH.
  rewrite Hc, andb_false_r. reflexivity.
Qed.

Lemma allowOneTagCollect_state (ts : list string) (l r : list ptr)
    (s s' : state) :
  SieveArgumentList.allowOneTagCollect l ts s = Some (r, s') -> s' = s.
Proof.
  revert r s'. induction l as [|a l IH]; intros r s';
    cbn [SieveArgumentList.allowOneTagCollect].
  - now intros [= _ <-].
  - intros (d & s1 & (nd & s2 & [-> _]%getNode_Some & Hd)%bind_Some
            & H)%bind_Some.
    destruct (prod nd); try discriminate. injection Hd as _ <-.
    apply bind_Some in H as (r0 & s3 & Hrec & H).
    apply IH in Hrec as ->.
    destruct (_ && _); now injection H as _ <-.
Qed.

Lemma allowOneTagCollect_app (s : state) (ts : list string)
    (l1 l2 r1 r2 : list ptr) :
  SieveArgumentList.allowOneTagCollect l1 ts s = Some (r1, s) ->
  SieveArgumentList.allowOneTagCollect l2 ts s = Some (r2, s) ->
  SieveArgumentList.allowOneTagCollect (l1 ++ l2) ts s = Some (r1 ++ r2, s).
Proof.
  intros H1 H2. revert r1 H1. induction l1 as [|a l1 IH]; intros r1;
    cbn [SieveArgumentList.allowOneTagCollect app].
  - now intros [= <-].
  - intros (d & s1 & Hg & H)%bind_Some.
    assert (s1 = s) as ->.
    { apply bind_Some in Hg as (nd & s2 & [-> _]%getNode_Some & Hd).
      destruct (prod nd); try discriminate. now injection Hd as _ <-. }
    apply bind_Some in H as (r0 & s3 & Hrec & H).
    pose proof (allowOneTagCollect_state _ _ _ _ _ Hrec) as ->.
    run Hg. run (IH _ Hrec).
    destruct (_ && _); now injection H as <-.
Qed.

Lemma allowOneTagCollect_tagged (s : state) (ts : list string) (y : ptr)
    (d : SieveArgumentData) :
  argumentAt (heap s) y = Some d ->
  isEmpty (arg_tag d) = false -> contains ts (arg_tag d) = true ->
  SieveArgumentList.allowOneTagCollect [y] ts s = Some ([y], s).
Proof.
  intros Hy He Hc. cbn [SieveArgumentList.allowOneTagCollect].
  run (getArgument_run _ _ _ Hy). run (ret_run s (@nil ptr)).
  now rewrite He, Hc.
Qed.

(** X12: when exactly two arguments carry tags of the allowed set,
    [allowOneTag] gives the first the error 'Mutually exclusive tags
    used' and the second 'Tag .. conflicts with ..', and changes no other
    production. *)
Theorem allowOneTag_flags_both_tags (s : state) (al y z : ptr)
    (nd ndy ndz : node) (d : SieveArgumentListData)
    (dy dz : SieveArgumentData) (ts : list string)
    (pre mid post : list ptr) :
  heap s !! al = Some nd -> prod nd = ArgumentListP d ->
  args_a d = pre ++ y :: mid ++ z :: post ->
  outside (heap s) ts pre -> outside (heap s) ts mid ->
  outside (heap s) ts post ->
  heap s !! y = Some ndy -> prod ndy = ArgumentP dy ->
  isEmpty (arg_tag dy) = false -> contains ts (arg_tag dy) = true ->
  heap s !! z = Some ndz -> prod ndz = ArgumentP dz ->
  isEmpty (arg_tag dz) = false -> contains ts (arg_tag dz) = true ->
  y <> z ->
  errorOf s y = "" -> unsuppressed s y ->
  errorOf s z = "" -> unsuppressed s z ->
  exists s',
    SieveArgumentList.allowOneTag al ts s = Some (tt, s')
    /\ errorOf s' y = "Mutually exclusive tags used"
    /\ errorOf s' z
       = "Tag " +:+ arg_tag dy +:+ " conflicts with " +:+ arg_tag dz
    /\ (forall p, p <> y -> p <> z -> heap s' !! p = heap s !! p).
Proof.
  intros Hal Hd Ha Hpre Hmid Hpost Hy Hdy Hty Hcy Hz Hdz Htz Hcz Hne
    Hey Huy Hez Huz.
  assert (Hay : argumentAt (heap s) y = Some dy)
    by (apply argumentAt_lookup; eauto).
  assert (Haz : argumentAt (heap s) z = Some dz)
    by (apply argumentAt_lookup; eauto).
  assert (Hr : SieveArgumentList.allowOneTagCollect
                 (pre ++ y :: mid ++ z :: post) ts s = Some ([y; z], s)).
  { change [y; z] with ([] ++ [y] ++ [] ++ [z] ++ []).
    change (pre ++ y :: mid ++ z :: post)
      with (pre ++ [y] ++ mid ++ [z] ++ post).
    repeat apply allowOneTagCollect_app;
      first [ now apply allowOneTagCollect_outside
            | now apply allowOneTagCollect_tagged with dy
            | now apply allowOneTagCollect_tagged with dz ]. }
  unfold SieveArgumentList.allowOneTag.
  run (arguments_run _ _ _ _ Hal Hd). rewrite Ha. run Hr.
  destruct (setError_fresh s y ndy "Mutually exclusive tags used"
              eq_refl Hy Hey Huy)
    as (s1 & Hrun1 & He1 & Hh1 & Harg1 & Hl1).
  run Hrun1.
  assert (Hay1 : argumentAt (heap s1) y = Some dy) by now rewrite Harg1.
  assert (Haz1 : argumentAt (heap s1) z = Some dz) by now rewrite Harg1.
  run (getArgument_run _ _ _ Hay1). cbn [forEach].
  run (getArgument_run _ _ _ Haz1).
  assert (Hz1 : heap s1 !! z = Some ndz)
    by (rewrite Hh1, lookup_insert_ne by exact Hne; exact Hz).
  destruct (setError_fresh s1 z ndz
              ("Tag " +:+ arg_tag dy +:+ " conflicts with " +:+ arg_tag dz)
              eq_refl Hz1)
    as (s2 & Hrun2 & He2 & Hh2 & Harg2 & Hl2).
  { now rewrite (errorOf_lookup _ _ _ Hz1), <- (errorOf_lookup _ _ _ Hz). }
  { now apply unsuppressed_sameLinks with s. }
  run Hrun2. exists s2. split; [reflexivity|]. split; [|split].
  - unfold errorOf. rewrite Hh2, lookup_insert_ne by congruence.
    fold (errorOf s1 y). exact He1.
  - exact He2.
  - intros p Hpy Hpz. rewrite Hh2, lookup_insert_ne by congruence.
    rewrite Hh1. now rewrite lookup_insert_ne by congruence.
Qed.

(** ** Numbering the arguments *)

Lemma unparsed_run (s : state) (l : list ptr) :
  Forall (fun x => is_Some (argumentAt (heap s) x)) l ->
  SieveArgumentList.unparsed l s
  = Some (List.filter (fun x => negb (parsedAt s x)) l, s).
Proof.
  induction 1 as [|x l [d Hx] _ IH]; cbn [SieveArgumentList.unparsed];
    [reflexivity|].
  run (getArgument_run _ _ _ Hx). run IH. simpl.
  assert (Hpx : parsedAt s x = arg_parsed d)
    by (unfold parsedAt; now rewrite Hx).
  rewrite Hpx. now destruct (arg_parsed d).
Qed.

(** X13: [numberRemainingArguments] sets the numbered arguments to the
    arguments that are not yet parsed, in their order, and changes
    nothing else. *)
Theorem numberRemainingArguments_numbers_the_unparsed (s : state) (al : ptr)
    (nd : node) (d : SieveArgumentListData) :
  heap s !! al = Some nd -> prod nd = ArgumentListP d ->
  Forall (fun x => is_Some (argumentAt (heap s) x)) (args_a d) ->
  SieveArgumentList.numberRemainingArguments al s
  = Some (tt, mkState
                (<[al := mkNode (base nd)
                           (ArgumentListP
                              (mkArgumentList (args_a d) (args_t d)
                                 (List.filter
                                    (fun x => negb (parsedAt s x))
                                    (args_a d))))]> (heap s))
                (bad s) (extensions s)).
Proof.
  intros Hal Hd Hall. unfold SieveArgumentList.numberRemainingArguments.
  run (arguments_run _ _ _ _ Hal Hd). run (unparsed_run _ _ Hall).
  now rewrite (modifyArgumentList_run _ _ _ _ _ Hal Hd).
Qed.

(** ** Taking the numbered arguments *)

Lemma advance_drop (l : list ptr) (n : nat) :
  SieveArgumentList.advance l n = drop (n - 1) l.
Proof.
  revert n. induction l as [|x l IH]; intros n; simpl.
  - now rewrite drop_nil.
  - destruct (Nat.ltb_spec 1 n) as [Hn|Hn].
    + rewrite IH. destruct n as [|[|n]]; try lia. simpl.
      now rewrite Nat.sub_0_r.
    + replace (n - 1) with 0 by lia. reflexivity.
Qed.

Lemma advance_nil (l : list ptr) (n : nat) :
  length l <= n - 1 -> SieveArgumentList.advance l n = [].
Proof. intros Hn. rewrite advance_drop. now apply drop_ge. Qed.

Lemma advance_lookup (l : list ptr) (n : nat) (x : ptr) :
  l !! (n - 1) = Some x ->
  exists rest, SieveArgumentList.advance l n = x :: rest.
Proof.
  intros Hx. rewrite advance_drop. exists (drop (S (n - 1)) l).
  now apply drop_S.
Qed.

(** X14: when there are fewer than [n] numbered arguments,
    [takeStringList], [takeString] and [takeNumber] return null, the
    empty string and 0, and each puts its 'Missing .. argument' error on
    the argument list. *)
Theorem missing_numbered_argument (s : state) (al : ptr) (nd : node)
    (d : SieveArgumentListData) (n : nat) :
  heap s !! al = Some nd -> prod nd = ArgumentListP d ->
  length (args_n d) <= n - 1 ->
  errorOf s al = "" -> unsuppressed s al ->
  (exists s',
     SieveArgumentList.takeStringList al n s = Some (None, s')
     /\ errorOf s' al = "Missing string/list argument")
  /\ (exists s',
        SieveArgumentList.takeString al n s = Some ("", s')
        /\ errorOf s' al = "Missing string argument")
  /\ (exists s',
        SieveArgumentList.takeNumber al n s = Some (0%N, s')
        /\ errorOf s' al = "Missing numeric argument").
Proof.
  intros Hal Hd Hn Herr Hu.
  unfold SieveArgumentList.takeStringList, SieveArgumentList.takeString,
    SieveArgumentList.takeNumber.
  split; [|split].
  - destruct (setError_fresh s al nd "Missing string/list argument"
                eq_refl Hal Herr Hu) as (s' & Hrun & He & _).
    exists s'. run (getArgumentList_run _ _ _ _ Hal Hd).
    rewrite (advance_nil _ _ Hn). run Hrun. auto.
  - destruct (setError_fresh s al nd "Missing string argument"
                eq_refl Hal Herr Hu) as (s' & Hrun & He & _).
    exists s'. run (getArgumentList_run _ _ _ _ Hal Hd).
    rewrite (advance_nil _ _ Hn). run Hrun. auto.
  - destruct (setError_fresh s al nd "Missing numeric argument"
                eq_refl Hal Herr Hu) as (s' & Hrun & He & _).
    exists s'. run (getArgumentList_run _ _ _ _ Hal Hd).
    rewrite (advance_nil _ _ Hn). run Hrun. auto.
Qed.

(** X15: when the [n]-th numbered argument has the expected shape,
    [takeNumber], [takeString] and [takeStringList] return its number,
    its string and its list, and their only effect is to mark it as
    parsed.  ([n - 1] is 0 for [n = 0]: the first argument is taken.) *)
Theorem numbered_argument_is_taken (s : state) (al x : ptr)
    (nd ndx : node) (d : SieveArgumentListData) (dx : SieveArgumentData)
    (n : nat) :
  heap s !! al = Some nd -> prod nd = ArgumentListP d ->
  args_n d !! (n - 1) = Some x ->
  heap s !! x = Some ndx -> prod ndx = ArgumentP dx ->
  arg_tag dx = "" ->
  let taken :=
    mkState
      (<[x := mkNode (base ndx)
                (ArgumentP (mkArgument (arg_tag dx) (arg_number dx)
                              (arg_list dx) (arg_calls dx) true))]> (heap s))
      (bad s) (extensions s) in
  (arg_list dx = None ->
   SieveArgumentList.takeNumber al n s = Some (arg_number dx, taken))
  /\ (forall v, arg_number dx = 0%N -> arg_list dx = Some [v] ->
      SieveArgumentList.takeString al n s = Some (v, taken))
  /\ (forall v l, arg_number dx = 0%N -> arg_list dx = Some (v :: l) ->
      SieveArgumentList.takeStringList al n s = Some (Some x, taken)).
Proof.
  intros Hal Hd Hn Hx Hdx Ht taken.
  destruct (advance_lookup _ _ _ Hn) as (rest & Hadv).
  assert (Hax : argumentAt (heap s) x = Some dx)
    by (apply argumentAt_lookup; eauto).
  assert (Hax' : argumentAt (heap taken) x
                 = Some (mkArgument (arg_tag dx) (arg_number dx)
                           (arg_list dx) (arg_calls dx) true)).
  { unfold argumentAt, taken. simpl. now rewrite lookup_insert_eq. }
  split; [|split].
  - intros Hl. unfold SieveArgumentList.takeNumber.
    run (getArgumentList_run _ _ _ _ Hal Hd). rewrite Hadv.
    unfold SieveArgument.assertNumber.
    run (getArgument_run _ _ _ Hax). rewrite Ht, Hl. cbn [isEmpty negb].
    rewrite is_Some_None_false. run (ret_run s tt).
    run (setParsed_exact _ _ _ _ true Hx Hdx). fold taken.
    now run (getArgument_run _ _ _ Hax').
  - intros v Hnum Hl. unfold SieveArgumentList.takeString.
    run (getArgumentList_run _ _ _ _ Hal Hd). rewrite Hadv.
    run (assertString_single _ _ _ _ Hax Ht Hnum Hl).
    run (setParsed_exact _ _ _ _ true Hx Hdx). fold taken.
    run (getArgument_run _ _ _ Hax'). cbn [arg_list]. now rewrite Hl.
  - intros v l Hnum Hl. unfold SieveArgumentList.takeStringList.
    run (getArgumentList_run _ _ _ _ Hal Hd). rewrite Hadv.
    unfold SieveArgument.assertStringList.
    run (getArgument_run _ _ _ Hax). rewrite Ht, Hnum, Hl.
    cbn [isEmpty negb N.eqb SieveArgument.listIsEmpty]. run (ret_run s tt).
    run (setParsed_exact _ _ _ _ true Hx Hdx). fold taken.
    unfold SieveArgument.stringList.
    run (getArgument_run _ _ _ Hax'). cbn [arg_list]. now rewrite Hl.
Qed.

(** ** flagUnparsedAsBad *)

(** An error reported on a production outside every ihave-failed
    scope leaves the production with an error. *)
Lemma setError_reports (s : state) (this : ptr) (nd : node) (e : string) :
  isEmpty e = false -> heap s !! this = Some nd -> unsuppressed s this ->
  exists s',
    SieveProduction.setError this e s = Some (tt, s')
    /\ errorOf s' this <> ""
    /\ (forall x, argumentAt (heap s') x = argumentAt (heap s) x)
    /\ sameLinks (heap s) (heap s')
    /\ keeps s s'.
Proof.
  intros He Hp Hu.
  assert (Hex : exists s', SieveProduction.setError this e s = Some (tt, s')
                           /\ errorOf s' this <> "").
  { destruct (isEmpty (prod_error (base nd))) eqn:Herr.
    - destruct (setError_fresh s this nd e He Hp) as (s' & Hrun & Hs & _).
      + rewrite (errorOf_lookup _ _ _ Hp).
        now destruct (prod_error (base nd)).
      + exact Hu.
      + exists s'. split; [exact Hrun|]. rewrite Hs. now destruct e.
    - destruct (setError_kept s this nd e Hp He Herr) as (s' & Hrun & Hh).
      exists s'. split; [exact Hrun|]. unfold errorOf. rewrite Hh, Hp.
      now destruct (prod_error (base nd)). }
  destruct Hex as (s' & Hrun & Hne). exists s'.
  split; [exact Hrun|]. split; [exact Hne|].
  split; [exact (setError_argumentAt _ _ _ _ Hrun)|].
  split; [exact (setError_sameLinks _ _ _ _ Hrun)|].
  exact (Keeps_setError this e He _ _ _ Hrun).
Qed.

Lemma keeps_error (s s' : state) (p : ptr) :
  keeps s s' -> errorOf s p <> "" -> errorOf s' p <> "".
Proof.
  intros Hk Hne. unfold errorOf in *.
  destruct (heap s !! p) as [nd|] eqn:Hp; [|contradiction].
  destruct (Hk p nd Hp) as (nd' & -> & He). rewrite He; [exact Hne|].
  now destruct (prod_error (base nd)).
Qed.

Lemma flagUnparsed_loop (l : list ptr) (s : state) :
  Forall (fun x => is_Some (argumentAt (heap s) x) /\ unsuppressed s x) l ->
  exists s',
    forEach l (fun i =>
      d ← getArgument i;
      if arg_parsed d then ret tt
      else if negb (N.eqb (arg_number d) 0) then
        SieveProduction.setError i "Why is this number here?"
      else if bool_decide (is_Some (arg_list d)) then
        SieveProduction.setError i "Why is this string/list here?"
      else if negb (isEmpty (arg_tag d)) then
        SieveProduction.setError i ("Unknown tag: " +:+ arg_tag d)
      else
        SieveProduction.setError i "What happened? I'm dazed and confused") s
    = Some (tt, s')
    /\ (forall x, argumentAt (heap s') x = argumentAt (heap s) x)
    /\ sameLinks (heap s) (heap s')
    /\ keeps s s'
    /\ forall x, x ∈ l -> parsedAt s x = true \/ errorOf s' x <> "".
Proof.
  revert s. induction l as [|i l IH]; intros s Hall.
  - exists s. split; [reflexivity|]. split; [reflexivity|].
    split; [apply sameLinks_refl|]. split; [apply keeps_refl|].
    intros x []%elem_of_nil.
  - apply Forall_cons in Hall as [[[d Hi] Hu] Hall]. cbn [forEach].
    pose proof Hi as (nd & Hp & Hd)%argumentAt_lookup.
    assert (Hstep : exists s1,
               (if arg_parsed d then ret tt
                else if negb (N.eqb (arg_number d) 0) then
                  SieveProduction.setError i "Why is this number here?"
                else if bool_decide (is_Some (arg_list d)) then
                  SieveProduction.setError i "Why is this string/list here?"
                else if negb (isEmpty (arg_tag d)) then
                  SieveProduction.setError i ("Unknown tag: " +:+ arg_tag d)
                else
                  SieveProduction.setError i
                    "What happened? I'm dazed and confused") s
               = Some (tt, s1)
               /\ (forall x, argumentAt (heap s1) x = argumentAt (heap s) x)
               /\ sameLinks (heap s) (heap s1)
               /\ keeps s s1
               /\ (parsedAt s i = true \/ errorOf s1 i <> "")).
    { destruct (arg_parsed d) eqn:Hparsed.
      - exists s. split; [reflexivity|]. split; [reflexivity|].
        split; [apply sameLinks_refl|]. split; [apply keeps_refl|].
        left. unfold parsedAt. now rewrite Hi.
      - destruct (negb (N.eqb (arg_number d) 0));
          [|destruct (bool_decide (is_Some (arg_list d)));
            [|destruct (negb (isEmpty (arg_tag d)))]].
        all: match goal with
             | |- context [SieveProduction.setError _ ?m _] =>
                 destruct (setError_reports s i nd m eq_refl Hp Hu)
                   as (s1 & Hrun & Hne & Harg & Hl & Hk)
             end;
             exists s1; auto 10. }
    destruct Hstep as (s1 & Hrun & Harg1 & Hl1 & Hk1 & Hi1).
    run (getArgument_run _ _ _ Hi). run Hrun.
    destruct (IH s1) as (s' & Hrun' & Harg' & Hl' & Hk' & Hall').
    { eapply Forall_impl; [exact Hall|]. intros x [Hx Hux]. split.
      - now rewrite Harg1.
      - now apply unsuppressed_sameLinks with s. }
    exists s'. split; [exact Hrun'|].
    split; [intros x; now rewrite Harg', Harg1|].
    split; [now apply sameLinks_trans with (heap s1)|].
    split; [now apply keeps_trans with s1|].
    intros x [->|Hx]%elem_of_cons.
    + destruct Hi1 as [Hi1|Hi1]; [now left | right].
      now apply keeps_error with s1.
    + destruct (Hall' x Hx) as [Hp'|He']; [left | now right].
      now rewrite <- (parsedAt_ext _ _ _ (Harg1 x)).
Qed.

(** X16: after [flagUnparsedAsBad] every argument of the list that was not
    marked as parsed holds an error; the data of the arguments are as
    before and no earlier error is lost. *)
Theorem flagUnparsedAsBad_leaves_none_unnoticed (s : state) (al : ptr)
    (nd : node) (d : SieveArgumentListData) :
  heap s !! al = Some nd -> prod nd = ArgumentListP d ->
  Forall (fun x => is_Some (argumentAt (heap s) x) /\ unsuppressed s x)
    (args_a d) ->
  exists s',
    SieveArgumentList.flagUnparsedAsBad al s = Some (tt, s')
    /\ (forall x, x ∈ args_a d -> parsedAt s x = true \/ errorOf s' x <> "")
    /\ (forall x, argumentAt (heap s') x = argumentAt (heap s) x)
    /\ keeps s s'.
Proof.
  intros Hal Hd Hall.
  destruct (flagUnparsed_loop _ _ Hall)
    as (s' & Hrun & Harg & _ & Hk & Hdone).
  exists s'. split; [|auto].
  unfold SieveArgumentList.flagUnparsedAsBad.
  run (arguments_run _ _ _ _ Hal Hd). exact Hrun.
Qed.

(** ** tagError *)

(** X17: when the tag occurs once and another argument follows it,
    [tagError] puts the error on the argument that follows the tag, not
    on the tag and not on the argument list. *)
Theorem tagError_lands_on_the_value (s : state) (al y z : ptr)
    (nd ndz : node) (d : SieveArgumentListData)
    (dy dz : SieveArgumentData) (tag e : string) (pre rest : list ptr) :
  heap s !! al = Some nd -> prod nd = ArgumentListP d ->
  args_a d = pre ++ y :: z :: rest ->
  lacks (heap s) tag pre -> lacks (heap s) tag (z :: rest) ->
  argumentAt (heap s) y = Some dy -> arg_tag dy = tag ->
  heap s !! z = Some ndz -> prod ndz = ArgumentP dz ->
  isEmpty e = false -> errorOf s z = "" -> unsuppressed s z ->
  exists s',
    SieveArgumentList.tagError al tag e s = Some (tt, s')
    /\ errorOf s' z = e
    /\ errorOf s' y = errorOf s y
    /\ errorOf s' al = errorOf s al.
Proof.
  intros Hal Hd Ha Hpre Hrest Hy Ht Hz Hdz He Herr Hu.
  assert (Ht' : (arg_tag dy =? tag)%string = true)
    by (rewrite Ht; apply String.eqb_refl).
  assert (Haz : argumentAt (heap s) z = Some dz)
    by (apply argumentAt_lookup; eauto).
  assert (Hyz : y <> z).
  { intros ->. inversion Hrest as [|? ? (d0 & Hz0 & Hf) _]; subst.
    rewrite Hy in Hz0. injection Hz0 as <-. congruence. }
  assert (Hyal : y <> al /\ z <> al).
  { split; intros ->.
    - apply argumentAt_lookup in Hy as (? & Hy & Hy'). congruence.
    - congruence. }
  destruct Hyal as [Hyal Hzal].
  destruct (argumentFollowingTag_present _ _ _ _ _ _ _ _ _ _ dz Hal Hd Ha
              Hpre Hrest Hy Ht') as (s1 & Hrun1 & Hsim).
  unfold SieveArgumentList.tagError. run Hrun1. run (ret_run s1 (Some z)).
  destruct (sim_argumentAt _ _ _ _ Hsim Haz) as (dz' & Hz1 & _).
  apply argumentAt_lookup in Hz1 as (ndz' & Hz1 & Hdz').
  destruct (setError_fresh s1 z ndz' e He Hz1)
    as (s2 & Hrun2 & He2 & Hh2 & _).
  { now rewrite (sim_errorOf _ _ _ Hsim). }
  { apply unsuppressed_sameLinks with s; [|exact Hu].
    now apply sameBase_sameLinks, sim_sameBase. }
  exists s2. split; [exact Hrun2|]. split; [exact He2|].
  unfold errorOf at 1 3. rewrite Hh2, !lookup_insert_ne by congruence.
  fold (errorOf s1 y). fold (errorOf s1 al).
  now rewrite !(sim_errorOf _ _ _ Hsim).
Qed.

Lemma allowOneTag_flags_both_tags_witness :
  exists s',
    SieveArgumentList.allowOneTag 1 [":over"; ":under"] twoTags
    = Some (tt, s')
    /\ errorOf s' 2 = "Mutually exclusive tags used"
    /\ errorOf s' 4
       = "Tag " +:+ arg_tag (argumentOf twoTags 2) +:+ " conflicts with "
         +:+ arg_tag (argumentOf twoTags 4)
    /\ (forall p, p <> 2 -> p <> 4 -> heap s' !! p = heap twoTags !! p).
Proof.
  apply (allowOneTag_flags_both_tags twoTags 1 2 4 (nodeAt twoTags 1)
           (nodeAt twoTags 2) (nodeAt twoTags 4) (argumentsOf twoTags 1)
           (argumentOf twoTags 2) (argumentOf twoTags 4) [":over"; ":under"]
           [] [3] [5]).
  - vm_compute. reflexivity.
  - vm_compute. reflexivity.
  - vm_compute. reflexivity.
  - constructor.
  - repeat constructor; eexists; (split; vm_compute; reflexivity).
  - repeat constructor; eexists; (split; vm_compute; reflexivity).
  - vm_compute. reflexivity.
  - vm_compute. reflexivity.
  - vm_compute. reflexivity.
  - vm_compute. reflexivity.
  - vm_compute. reflexivity.
  - vm_compute. reflexivity.
  - vm_compute. reflexivity.
  - vm_compute. reflexivity.
  - discriminate.
  - vm_compute. reflexivity.
  - vm_compute. reflexivity.
  - vm_compute. reflexivity.
  - vm_compute. reflexivity.
Defined.

Lemma numberRemainingArguments_numbers_the_unparsed_witness :
  SieveArgumentList.numberRemainingArguments 1 valueTest
  = Some (tt, mkState
                (<[1 := mkNode (base (nodeAt valueTest 1))
                          (ArgumentListP
                             (mkArgumentList (args_a valueTestArguments)
                                (args_t valueTestArguments)
                                (List.filter
                                   (fun x => negb (parsedAt valueTest x))
                                   (args_a valueTestArguments))))]>
                   (heap valueTest))
                (bad valueTest) (extensions valueTest)).
Proof.
  apply (numberRemainingArguments_numbers_the_unparsed valueTest 1
           (nodeAt valueTest 1) valueTestArguments).
  - vm_compute. reflexivity.
  - vm_compute. reflexivity.
  - repeat constructor; eexists; vm_compute; reflexivity.
Defined.

Lemma missing_numbered_argument_witness :
  (exists s',
     SieveArgumentList.takeStringList 1 1 valueTest = Some (None, s')
     /\ errorOf s' 1 = "Missing string/list argument")
  /\ (exists s',
        SieveArgumentList.takeString 1 1 valueTest = Some ("", s')
        /\ errorOf s' 1 = "Missing string argument")
  /\ (exists s',
        SieveArgumentList.takeNumber 1 1 valueTest = Some (0%N, s')
        /\ errorOf s' 1 = "Missing numeric argument").
Proof.
  apply (missing_numbered_argument valueTest 1 (nodeAt valueTest 1)
           valueTestArguments 1).
  - vm_compute. reflexivity.
  - vm_compute. reflexivity.
  - vm_compute. lia.
  - vm_compute. reflexivity.
  - vm_compute. reflexivity.
Defined.

Lemma numbered_argument_is_taken_witness :
  let taken :=
    mkState
      (<[2 := mkNode (base (plainString ["b"]))
                (ArgumentP (mkArgument "" 0 (Some ["b"]) 1 true))]>
         (heap threeArguments))
      (bad threeArguments) (extensions threeArguments) in
  (Some ["b"] = None ->
   SieveArgumentList.takeNumber 0 2 threeArguments = Some (0%N, taken))
  /\ (forall v, 0%N = 0%N -> Some ["b"] = Some [v] ->
      SieveArgumentList.takeString 0 2 threeArguments = Some (v, taken))
  /\ (forall v l, 0%N = 0%N -> Some ["b"] = Some (v :: l) ->
      SieveArgumentList.takeStringList 0 2 threeArguments
      = Some (Some 2, taken)).
Proof.
  apply (numbered_argument_is_taken threeArguments 0 2 threeNumbered
           (plainString ["b"]) (mkArgumentList [1; 2; 3] [] [1; 2; 3])
           (mkArgument "" 0 (Some ["b"]) 1 false) 2).
  - vm_compute. reflexivity.
  - reflexivity.
  - reflexivity.
  - vm_compute. reflexivity.
  - reflexivity.
  - reflexivity.
Defined.

Lemma flagUnparsedAsBad_leaves_none_unnoticed_witness :
  exists s',
    SieveArgumentList.flagUnparsedAsBad 1 valueTest = Some (tt, s')
    /\ (forall x, x ∈ args_a valueTestArguments ->
        parsedAt valueTest x = true \/ errorOf s' x <> "")
    /\ (forall x, argumentAt (heap s') x = argumentAt (heap valueTest) x)
    /\ keeps valueTest s'.
Proof.
  apply (flagUnparsedAsBad_leaves_none_unnoticed valueTest 1
           (nodeAt valueTest 1) valueTestArguments).
  - vm_compute. reflexivity.
  - vm_compute. reflexivity.
  - repeat constructor; try (eexists; vm_compute; reflexivity);
      vm_compute; reflexivity.
Defined.

Lemma tagError_lands_on_the_value_witness :
  exists s',
    SieveArgumentList.tagError 1 ":value" "Unknown relational operator: XX"
      valueTest = Some (tt, s')
    /\ errorOf s' 5 = "Unknown relational operator: XX"
    /\ errorOf s' 4 = errorOf valueTest 4
    /\ errorOf s' 1 = errorOf valueTest 1.
Proof.
  apply (tagError_lands_on_the_value valueTest 1 4 5 (nodeAt valueTest 1)
           (nodeAt valueTest 5) valueTestArguments valueTestTag
           valueTestOperator ":value" "Unknown relational operator: XX"
           [2; 3] [6; 7]).
  - vm_compute. reflexivity.
  - vm_compute. reflexivity.
  - vm_compute. reflexivity.
  - repeat constructor; eexists; (split; vm_compute; reflexivity).
  - repeat constructor; eexists; (split; vm_compute; reflexivity).
  - vm_compute. reflexivity.
  - vm_compute. reflexivity.
  - vm_compute. reflexivity.
  - vm_compute. reflexivity.
  - reflexivity.
  - vm_compute. reflexivity.
  - vm_compute. reflexivity.
Defined.

(** ** Identifiers *)

Lemma lowerChar_idempotent (c : ascii) : lowerChar (lowerChar c) = lowerChar c.
Proof. destruct c as [[] [] [] [] [] [] [] []]; reflexivity. Qed.

Lemma lower_idempotent (i : string) : lower (lower i) = lower i.
Proof.
  unfold lower. induction i as [|c i IH]; simpl; [reflexivity|].
  now rewrite lowerChar_idempotent, IH.
Qed.

Lemma getCommand_run (s : state) (p : ptr) (nd : node) (d : SieveCommandData) :
  heap s !! p = Some nd -> prod nd = CommandP d ->
  getCommand p s = Some (d, s).
Proof.
  intros Hp Hd. unfold getCommand. run (getNode_run _ _ _ Hp).
  now rewrite Hd.
Qed.

Lemma getTest_run' (s : state) (p : ptr) (nd : node) (d : SieveTestData) :
  heap s !! p = Some nd -> prod nd = TestP d -> getTest p s = Some (d, s).
Proof. intros Hp Hd. apply getTest_run, testAt_lookup. eauto. Qed.

(** X18: [setIdentifier] of a command or test stores the identifier in
    lower case: [identifier] returns the lower-cased string afterwards,
    and setting an identifier or its lower-cased form is the same. *)
Theorem identifiers_are_lower_cased (s : state) (this : ptr) (i : string) :
  SieveCommand.setIdentifier this (lower i) s
  = SieveCommand.setIdentifier this i s
  /\ SieveTest.setIdentifier this (lower i) s
     = SieveTest.setIdentifier this i s
  /\ (forall s', SieveCommand.setIdentifier this i s = Some (tt, s') ->
      SieveCommand.identifier this s' = Some (lower i, s'))
  /\ (forall s', SieveTest.setIdentifier this i s = Some (tt, s') ->
      SieveTest.identifier this s' = Some (lower i, s')).
Proof.
  unfold SieveCommand.setIdentifier, SieveTest.setIdentifier.
  rewrite lower_idempotent. split; [reflexivity|]. split; [reflexivity|].
  split.
  - intros s' (nd & s1 & [-> Hp]%getNode_Some & H)%bind_Some.
    destruct (prod nd) eqn:Hd; try discriminate. injection H as <-.
    unfold SieveCommand.identifier.
    erewrite bind_run;
      [|eapply getCommand_run; [apply lookup_insert_eq | reflexivity]].
    reflexivity.
  - intros s' (nd & s1 & [-> Hp]%getNode_Some & H)%bind_Some.
    destruct (prod nd) eqn:Hd; try discriminate. injection H as <-.
    unfold SieveTest.identifier.
    erewrite bind_run;
      [|eapply getTest_run'; [apply lookup_insert_eq | reflexivity]].
    reflexivity.
Qed.

(** ** Commands that take no test *)

(** Comparisons of string literals, evaluated. *)
Ltac eval_eqb :=
  repeat match goal with
    | |- context [String.eqb ?a ?b] =>
        let v := eval vm_compute in (String.eqb a b) in
        match v with true => idtac | false => idtac end;
        change (String.eqb a b) with v
    end;
  cbn [orb andb negb isEmpty].

Lemma bind_ret {A B : Type} (a : A) (f : A -> M B) (s : state) :
  bind (ret a) f s = f a s.
Proof. reflexivity. Qed.

(** [rets]: take the steps that only return a value. *)
Ltac rets :=
  repeat (first [rewrite bind_ret | rewrite bind_assoc]; cbn beta iota).

Section Commands.

Context `{Collaborators}.

(** X19: a [stop], [keep] or [discard] without arguments and block is
    analysed without error or any other change, whatever tests it
    carries: the loop that flags the tests runs only when there are
    none. *)
Theorem commands_without_test_ignore_tests (s : state) (this al : ptr)
    (nd ndl : node) (d : SieveCommandData) (dl : SieveArgumentListData)
    (fuel : nat) (previous : string) :
  heap s !! this = Some nd -> prod nd = CommandP d ->
  cmd_identifier d ∈ ["stop"; "keep"; "discard"] ->
  cmd_arguments d = Some al -> cmd_block d = None ->
  heap s !! al = Some ndl -> prod ndl = ArgumentListP dl ->
  args_a dl = [] ->
  SieveCommand.parse (S fuel) this previous s = Some (tt, s).
Proof.
  intros Hp Hd Hi Ha Hb Hal Hdl Hargs.
  assert (Harguments : SieveCommand.arguments this s = Some (al, s)).
  { unfold SieveCommand.arguments. run (getCommand_run _ _ _ _ Hp Hd).
    now rewrite Ha. }
  assert (Hflag : SieveArgumentList.flagUnparsedAsBad al s = Some (tt, s)).
  { unfold SieveArgumentList.flagUnparsedAsBad.
    run (arguments_run _ _ _ _ Hal Hdl). now rewrite Hargs. }
  cbn [SieveCommand.parse]. unfold SieveCommand.identifier.
  run (getCommand_run _ _ _ _ Hp Hd).
  repeat (apply elem_of_cons in Hi as [->|Hi]);
    [| | |now apply elem_of_nil in Hi].
  all: rets; eval_eqb; rets; run Harguments; run Hflag;
    run (getCommand_run _ _ _ _ Hp Hd); run (tests_run _ _ _ _ Hal Hdl);
    rewrite Hb; destruct (args_t dl); reflexivity.
Qed.

(** X20: for a test without [:comparator], [findComparator] does what
    [require] of the comparator i;ascii-casemap does. *)
Theorem findComparator_defaults_to_casemap (s : state) (this al : ptr)
    (nd ndl : node) (d : SieveTestData) (dl : SieveArgumentListData) :
  heap s !! this = Some nd -> prod nd = TestP d ->
  test_arguments d = Some al ->
  heap s !! al = Some ndl -> prod ndl = ArgumentListP dl ->
  lacks (heap s) ":comparator" (args_a dl) ->
  SieveTest.findComparator this s
  = SieveProduction.require this "comparator-i;ascii-casemap" s.
Proof.
  intros Hp Hd Ha Hal Hdl Hl. unfold SieveTest.findComparator.
  assert (Ht : testAt (heap s) this = Some d)
    by (apply testAt_lookup; eauto).
  run (test_arguments_run _ _ _ _ Ht Ha).
  now run (takeTaggedString_absent _ _ _ _ _ Hal Hdl Hl).
Qed.

End Commands.

(** ** Envelope parts *)

Lemma modifyArgument_run (s : state) (p : ptr) (nd : node)
    (d : SieveArgumentData) (f : SieveArgumentData -> SieveArgumentData) :
  heap s !! p = Some nd -> prod nd = ArgumentP d ->
  modifyArgument p f s
  = Some (tt, mkState (<[p := mkNode (base nd) (ArgumentP (f d))]> (heap s))
                (bad s) (extensions s)).
Proof.
  intros Hp Hd. unfold modifyArgument. run (getNode_run _ _ _ Hp).
  now rewrite Hd.
Qed.

(** X21: the envelope loop replaces a part that is 'from' or 'to' in any
    case by its lower-cased form and changes nothing else; for any other
    part the list stays as it is and the test gets the error
    'Unsupported envelope part'. *)
Theorem envelope_parts_are_from_or_to (s : state) (this a : ptr)
    (nda : node) (da : SieveArgumentData) (l : list string) (k : nat)
    (i : string) :
  heap s !! a = Some nda -> prod nda = ArgumentP da ->
  arg_list da = Some l -> l !! k = Some i ->
  (lower i = "from" \/ lower i = "to" ->
   SieveTest.envelopePart this a k s
   = Some (tt, mkState
                 (<[a := mkNode (base nda)
                           (ArgumentP
                              (SieveArgument.withList
                                 (Some (<[k := lower i]> l)) da))]> (heap s))
                 (bad s) (extensions s)))
  /\ (lower i <> "from" -> lower i <> "to" ->
      forall nd, heap s !! this = Some nd -> errorOf s this = "" ->
      unsuppressed s this ->
      exists s',
        SieveTest.envelopePart this a k s = Some (tt, s')
        /\ errorOf s' this = "Unsupported envelope part: " +:+ i
        /\ argumentAt (heap s') a = Some da).
Proof.
  intros Ha Hda Hl Hk.
  assert (Haa : argumentAt (heap s) a = Some da)
    by (apply argumentAt_lookup; eauto).
  unfold SieveTest.envelopePart. split.
  - intros Hi. run (getArgument_run _ _ _ Haa). rewrite Hl. simpl.
    rewrite Hk.
    assert (Hc : (lower i =? "from")%string || (lower i =? "to")%string
                 = true).
    { destruct Hi as [-> | ->]; reflexivity. }
    rewrite Hc. rewrite (modifyArgument_run _ _ _ _ _ Ha Hda).
    now rewrite Hl.
  - intros Hf%String.eqb_neq Ht%String.eqb_neq nd Hp Herr Hu.
    destruct (setError_fresh s this nd ("Unsupported envelope part: " +:+ i)
                eq_refl Hp Herr Hu) as (s' & Hrun & He & _ & Harg & _).
    exists s'. run (getArgument_run _ _ _ Haa). rewrite Hl. simpl.
    rewrite Hk, Hf, Ht. simpl. split; [exact Hrun|]. split; [exact He|].
    now rewrite Harg.
Qed.

(** ** Errors that the analysis of a command or test begins with *)

#[local] Hint Resolve Keeps_test_identifier Keeps_test_arguments
  Keeps_strings Keeps_command_identifier Keeps_command_arguments
  Keeps_test_parse Keeps_command_parse : keeps.

#[local] Hint Extern 1 (Keeps (SieveCommand.parseEach _ _ _)) =>
  apply Keeps_parseEach; intros : keeps.

#[local] Hint Extern 1 (Keeps (modifyTest _ _)) =>
  apply Keeps_modifyTest : keeps.

Lemma keeps_errorOf (s s' : state) (p : ptr) :
  keeps s s' -> errorOf s p <> "" -> errorOf s' p = errorOf s p.
Proof.
  intros Hk Hne. unfold errorOf in *.
  destruct (heap s !! p) as [nd|] eqn:Hp; [|contradiction].
  destruct (Hk p nd Hp) as (nd' & -> & He). apply He.
  now destruct (prod_error (base nd)).
Qed.

(** From [i ∉ [c1; c2; ...]] to the outcome of every comparison of [i]
    with one of the [c]. *)
Ltac unknown Hnot :=
  rewrite ?not_elem_of_cons in Hnot;
  repeat match type of Hnot with
    | ?i <> ?c /\ _ =>
        let Hc := fresh "Hc" in
        destruct Hnot as [Hc Hnot];
        try rewrite (proj2 (String.eqb_neq i c) Hc)
    end;
  cbn [orb andb negb].

Section FirstErrors.

Context `{Collaborators}.

#[local] Hint Resolve Keeps_new Keeps_setFrom Keeps_setMessage
  Keeps_findComparator Keeps_findMatchType Keeps_findAddressPart
  Keeps_headerField Keeps_takeHeaderFieldList Keeps_envelopePart
  Keeps_parseAsAddress Keeps_parseVacation Keeps_parseNotify
  Keeps_parseFileinto Keeps_parseRequire : keeps.

#[local] Hint Extern 1 (Keeps (SieveTest.setMatchType _ _)) =>
  apply Keeps_modifyTest : keeps.
#[local] Hint Extern 1 (Keeps (SieveTest.setHeaders _ _)) =>
  apply Keeps_modifyTest : keeps.
#[local] Hint Extern 1 (Keeps (SieveTest.setEnvelopeParts _ _)) =>
  apply Keeps_modifyTest : keeps.
#[local] Hint Extern 1 (Keeps (SieveTest.setKeys _ _)) =>
  apply Keeps_modifyTest : keeps.
#[local] Hint Extern 1 (Keeps (SieveTest.setContentTypes _ _)) =>
  apply Keeps_modifyTest : keeps.
#[local] Hint Extern 1 (Keeps (SieveTest.setDatePart _ _)) =>
  apply Keeps_modifyTest : keeps.
#[local] Hint Extern 1 (Keeps (SieveTest.setZone _ _)) =>
  apply Keeps_modifyTest : keeps.
#[local] Hint Extern 1 (Keeps (SieveTest.setSize _ _ _)) =>
  apply Keeps_modifyTest : keeps.
#[local] Hint Extern 1 (Keeps (SieveTest.setBodyMatchType _ _)) =>
  apply Keeps_modifyTest : keeps.

(** X22: an [else] or [elsif] whose previous sibling is neither [if] nor
    [elsif] ends its analysis with the error '.. is only permitted after
    if/elsif', when it had no error before and lies in no ihave-failed
    scope. *)
Theorem else_needs_if_before (s s' : state) (this : ptr) (nd : node)
    (d : SieveCommandData) (fuel : nat) (previous : string) :
  heap s !! this = Some nd -> prod nd = CommandP d ->
  cmd_identifier d = "else" \/ cmd_identifier d = "elsif" ->
  previous <> "if" -> previous <> "elsif" ->
  errorOf s this = "" -> unsuppressed s this ->
  SieveCommand.parse fuel this previous s = Some (tt, s') ->
  errorOf s' this = cmd_identifier d +:+ " is only permitted after if/elsif".
Proof.
  intros Hp Hd Hi Hprev1%String.eqb_neq Hprev2%String.eqb_neq Herr Hu Hrun.
  destruct fuel as [|k]; [discriminate|].
  assert (Hstep : exists m s1,
             SieveCommand.parse (S k) this previous s = m s1 /\ Keeps m
             /\ errorOf s1 this
                = cmd_identifier d +:+ " is only permitted after if/elsif").
  { destruct Hi as [Hi|Hi]; rewrite Hi.
    - destruct (setError_fresh s this nd
                  "else is only permitted after if/elsif" eq_refl Hp Herr Hu)
        as (s1 & Hrun1 & He1 & _).
      eexists _, s1. split; [|split; [|exact He1]].
      + cbn [SieveCommand.parse]. unfold SieveCommand.identifier.
        run (getCommand_run _ _ _ _ Hp Hd). rewrite Hi. rets. eval_eqb.
        rewrite Hprev1, Hprev2. cbn [negb andb]. rets. run Hrun1. rets.
        reflexivity.
      + keeps_more.
    - destruct (setError_fresh s this nd
                  "elsif is only permitted after if/elsif" eq_refl Hp Herr Hu)
        as (s1 & Hrun1 & He1 & _).
      eexists _, s1. split; [|split; [|exact He1]].
      + cbn [SieveCommand.parse]. unfold SieveCommand.identifier.
        run (getCommand_run _ _ _ _ Hp Hd). rewrite Hi. rets. eval_eqb.
        rewrite Hprev1, Hprev2. cbn [negb andb]. rets. run Hrun1. rets.
        reflexivity.
      + keeps_more. }
  destruct Hstep as (m & s1 & Hm & K & He1). rewrite Hm in Hrun.
  rewrite <- He1. apply keeps_errorOf; [exact (K _ _ _ Hrun)|].
  rewrite He1. now destruct Hi as [-> | ->].
Qed.

Lemma isEmpty_true (x : string) : isEmpty x = true -> x = "".
Proof. now destruct x. Qed.

(** X23: a command whose identifier is none of the known ones ends its
    analysis with the error 'Command unknown', or 'Command name is
    empty' for the empty identifier, when it had no error before and lies
    in no ihave-failed scope. *)
Theorem unknown_command_is_an_error (s s' : state) (this : ptr) (nd : node)
    (d : SieveCommandData) (fuel : nat) (previous : string) :
  heap s !! this = Some nd -> prod nd = CommandP d ->
  cmd_identifier d
    ∉ ["if"; "elsif"; "else"; "require"; "stop"; "reject"; "ereject";
       "fileinto"; "redirect"; "keep"; "discard"; "vacation"; "setflag";
       "addflag"; "removeflag"; "notify"] ->
  errorOf s this = "" -> unsuppressed s this ->
  SieveCommand.parse fuel this previous s = Some (tt, s') ->
  errorOf s' this
  = if isEmpty (cmd_identifier d) then "Command name is empty"
    else "Command unknown: " +:+ cmd_identifier d.
Proof.
  intros Hp Hd Hnot Herr Hu Hrun.
  destruct fuel as [|k]; [discriminate|].
  assert (Hstep : exists m s1,
             SieveCommand.parse (S k) this previous s = m s1 /\ Keeps m
             /\ errorOf s1 this
                = (if isEmpty (cmd_identifier d) then "Command name is empty"
                   else "Command unknown: " +:+ cmd_identifier d)
             /\ errorOf s1 this <> "").
  { destruct (isEmpty (cmd_identifier d)) eqn:He.
    - apply isEmpty_true in He.
      destruct (setError_fresh s this nd "Command name is empty" eq_refl
                  Hp Herr Hu) as (s1 & Hrun1 & He1 & _).
      eexists _, s1. split; [|split; [|split; [exact He1|now rewrite He1]]].
      + cbn [SieveCommand.parse]. unfold SieveCommand.identifier.
        run (getCommand_run _ _ _ _ Hp Hd). rewrite He. rets.
        cbn [isEmpty]. run Hrun1. eval_eqb. reflexivity.
      + keeps_more.
    - destruct (setError_fresh s this nd
                  ("Command unknown: " +:+ cmd_identifier d) eq_refl
                  Hp Herr Hu) as (s1 & Hrun1 & He1 & _).
      eexists _, s1. split; [|split; [|split; [exact He1|now rewrite He1]]].
      + cbn [SieveCommand.parse]. unfold SieveCommand.identifier.
        run (getCommand_run _ _ _ _ Hp Hd). rets. rewrite He. rets.
        unknown Hnot. rets. run Hrun1. rets. reflexivity.
      + keeps_more. }
  destruct Hstep as (m & s1 & Hm & K & He1 & Hne). rewrite Hm in Hrun.
  rewrite <- He1. apply keeps_errorOf; [exact (K _ _ _ Hrun) | exact Hne].
Qed.

(** X24: a test whose identifier is none of the known ones ends its
    analysis with the error 'Unknown test', when it had no error before
    and lies in no ihave-failed scope. *)
Theorem unknown_test_is_an_error (s s' : state) (this : ptr) (nd : node)
    (d : SieveTestData) (fuel : nat) :
  heap s !! this = Some nd -> prod nd = TestP d ->
  test_identifier d
    ∉ ["address"; "allof"; "anyof"; "envelope"; "exists"; "false"; "header";
       "date"; "currentdate"; "not"; "size"; "true"; "body"; "ihave";
       "valid_notify_method"; "notify_method_capability"] ->
  errorOf s this = "" -> unsuppressed s this ->
  SieveTest.parse fuel this s = Some (tt, s') ->
  errorOf s' this = "Unknown test: " +:+ test_identifier d.
Proof.
  intros Hp Hd Hnot Herr Hu Hrun.
  destruct fuel as [|k]; [discriminate|].
  destruct (setError_fresh s this nd
              ("Unknown test: " +:+ test_identifier d) eq_refl
              Hp Herr Hu) as (s1 & Hrun1 & He1 & _).
  assert (Hstep : exists m,
             SieveTest.parse (S k) this s = m s1 /\ Keeps m).
  { eexists. split.
    - cbn [SieveTest.parse]. unfold SieveTest.identifier.
      run (getTest_run' _ _ _ _ Hp Hd). rets.
      unknown Hnot. rets. run Hrun1. reflexivity.
    - keeps_more. }
  destruct Hstep as (m & Hm & K). rewrite Hm in Hrun.
  rewrite <- He1. apply keeps_errorOf; [exact (K _ _ _ Hrun)|].
  now rewrite He1.
Qed.

End FirstErrors.

Lemma commands_without_test_ignore_tests_witness :
  SieveCommand.parse (H := server) 1 1 "" keepWithTest
  = Some (tt, keepWithTest).
Proof.
  apply (commands_without_test_ignore_tests (H := server) keepWithTest 1 2
           (nodeAt keepWithTest 1) (nodeAt keepWithTest 2)
           (commandOf keepWithTest 1) (argumentsOf keepWithTest 2) 0 "").
  - vm_compute. reflexivity.
  - vm_compute. reflexivity.
  - apply elem_of_cons. right. apply elem_of_cons. left.
    vm_compute. reflexivity.
  - vm_compute. reflexivity.
  - vm_compute. reflexivity.
  - vm_compute. reflexivity.
  - vm_compute. reflexivity.
  - vm_compute. reflexivity.
Defined.

Lemma else_needs_if_before_witness :
  errorOf elseAloneAnalysed 1
  = cmd_identifier (commandOf elseAlone 1)
    +:+ " is only permitted after if/elsif".
Proof.
  apply (else_needs_if_before (H := server) elseAlone elseAloneAnalysed 1
           (nodeAt elseAlone 1) (commandOf elseAlone 1) 3 "").
  - vm_compute. reflexivity.
  - vm_compute. reflexivity.
  - left. vm_compute. reflexivity.
  - discriminate.
  - discriminate.
  - vm_compute. reflexivity.
  - vm_compute. reflexivity.
  - vm_compute. reflexivity.
Defined.

Lemma unknown_command_is_an_error_witness :
  errorOf unknownCommandAnalysed 1
  = if isEmpty (cmd_identifier (commandOf unknownCommand 1))
    then "Command name is empty"
    else "Command unknown: " +:+ cmd_identifier (commandOf unknownCommand 1).
Proof.
  apply (unknown_command_is_an_error (H := server) unknownCommand
           unknownCommandAnalysed 1 (nodeAt unknownCommand 1)
           (commandOf unknownCommand 1) 2 "").
  - vm_compute. reflexivity.
  - vm_compute. reflexivity.
  - rewrite !not_elem_of_cons. repeat (split; [discriminate|]).
    apply not_elem_of_nil.
  - vm_compute. reflexivity.
  - vm_compute. reflexivity.
  - vm_compute. reflexivity.
Defined.

Lemma unknown_test_is_an_error_witness :
  errorOf unknownTestAnalysed 0
  = "Unknown test: " +:+ test_identifier (testOf unknownTest 0).
Proof.
  apply (unknown_test_is_an_error (H := server) unknownTest
           unknownTestAnalysed 0 (nodeAt unknownTest 0)
           (testOf unknownTest 0) 1).
  - vm_compute. reflexivity.
  - vm_compute. reflexivity.
  - rewrite !not_elem_of_cons. repeat (split; [discriminate|]).
    apply not_elem_of_nil.
  - vm_compute. reflexivity.
  - vm_compute. reflexivity.
  - vm_compute. reflexivity.
Defined.

Lemma findComparator_defaults_to_casemap_witness :
  SieveTest.findComparator (H := server) 0 envelopeTest
  = SieveProduction.require 0 "comparator-i;ascii-casemap" envelopeTest.
Proof.
  apply (findComparator_defaults_to_casemap (H := server) envelopeTest 0 1
           (nodeAt envelopeTest 0) (nodeAt envelopeTest 1)
           (testOf envelopeTest 0) (argumentsOf envelopeTest 1)).
  - vm_compute. reflexivity.
  - vm_compute. reflexivity.
  - vm_compute. reflexivity.
  - vm_compute. reflexivity.
  - vm_compute. reflexivity.
  - repeat constructor; eexists; (split; vm_compute; reflexivity).
Defined.

Lemma envelope_parts_are_from_or_to_witness :
  (lower "From" = "from" \/ lower "From" = "to" ->
   SieveTest.envelopePart 0 2 0 envelopeTest
   = Some (tt, mkState
                 (<[2 := mkNode (base (nodeAt envelopeTest 2))
                           (ArgumentP
                              (SieveArgument.withList
                                 (Some (<[0 := lower "From"]> ["From"]))
                                 (argumentOf envelopeTest 2)))]>
                    (heap envelopeTest))
                 (bad envelopeTest) (extensions envelopeTest)))
  /\ (lower "From" <> "from" -> lower "From" <> "to" ->
      forall nd, heap envelopeTest !! 0 = Some nd ->
      errorOf envelopeTest 0 = "" -> unsuppressed envelopeTest 0 ->
      exists s',
        SieveTest.envelopePart 0 2 0 envelopeTest = Some (tt, s')
        /\ errorOf s' 0 = "Unsupported envelope part: " +:+ "From"
        /\ argumentAt (heap s') 2 = Some (argumentOf envelopeTest 2)).
Proof.
  apply (envelope_parts_are_from_or_to envelopeTest 0 2
           (nodeAt envelopeTest 2) (argumentOf envelopeTest 2) ["From"] 0
           "From").
  - vm_compute. reflexivity.
  - vm_compute. reflexivity.
  - vm_compute. reflexivity.
  - reflexivity.
Defined.

(** ** What every step of the analysis maintains

    The analyser changes the state through eight operations only.  A
    reflexive and transitive relation that each of them maintains is
    maintained by the analysis of every test and command. *)

Section Maintained.

Variable R : state -> state -> Prop.

Hypothesis R_refl : forall s, R s s.
Hypothesis R_trans : forall s1 s2 s3, R s1 s2 -> R s2 s3 -> R s1 s3.

Lemma Along_ret {A : Type} (a : A) : Along R (ret a).
Proof. intros s b s' [= _ <-]. apply R_refl. Qed.

Lemma Along_fail {A : Type} : Along R (@fail A).
Proof. intros s b s' [=]. Qed.

Lemma Along_bind {A B : Type} (m : M A) (f : A -> M B) :
  Along R m -> (forall a, Along R (f a)) -> Along R (bind m f).
Proof.
  intros Hm Hf s b s' (a & s1 & H1 & H2)%bind_Some.
  eapply R_trans; [eapply Hm | eapply Hf]; eassumption.
Qed.

Lemma Along_same {A : Type} (m : M A) :
  (forall s a s', m s = Some (a, s') -> s' = s) -> Along R m.
Proof. intros Hm s a s' ->%Hm. apply R_refl. Qed.

Lemma Along_forEach {A : Type} (l : list A) (body : A -> M unit) :
  (forall x, Along R (body x)) -> Along R (forEach l body).
Proof.
  intros Hb. induction l as [|x l IH]; simpl.
  - apply Along_ret.
  - apply Along_bind; [apply Hb | intros; exact IH].
Qed.

Lemma Along_gets {A : Type} (f : state -> A) : Along R (gets f).
Proof. intros s b s' [= _ <-]. apply R_refl. Qed.

Lemma Along_deref (p : option ptr) : Along R (deref p).
Proof. destruct p; [apply Along_ret | apply Along_fail]. Qed.

Lemma Along_getNode (p : ptr) : Along R (getNode p).
Proof. intros s nd s' [-> _]%getNode_Some. apply R_refl. Qed.

Create HintDb along.

Hint Resolve Along_ret Along_fail Along_gets Along_deref Along_getNode
  : along.

Ltac along_step :=
  lazymatch goal with
  | |- Along _ (bind _ _) => apply Along_bind; [|intros]
  | |- Along _ (forEach _ _) => apply Along_forEach; intros
  | |- Along _ (if ?b then _ else _) => destruct b eqn:?
  | |- Along _ (match ?x with _ => _ end) => destruct x eqn:?
  | |- Along _ _ => solve [eauto with along]
  end.

Ltac along := repeat along_step.

Lemma Along_getBase (p : ptr) : Along R (getBase p).
Proof. unfold getBase. along. Qed.

Lemma Along_getArgument (p : ptr) : Along R (getArgument p).
Proof. unfold getArgument. along. Qed.

Lemma Along_getArgumentList (p : ptr) : Along R (getArgumentList p).
Proof. unfold getArgumentList. along. Qed.

Lemma Along_getBlock (p : ptr) : Along R (getBlock p).
Proof. unfold getBlock. along. Qed.

Lemma Along_getCommand (p : ptr) : Along R (getCommand p).
Proof. unfold getCommand. along. Qed.

Lemma Along_getTest (p : ptr) : Along R (getTest p).
Proof. unfold getTest. along. Qed.

Lemma Along_walkFuel : Along R walkFuel.
Proof. apply Along_gets. Qed.

Hint Resolve Along_getBase Along_getArgument Along_getArgumentList
  Along_getBlock Along_getCommand Along_getTest Along_walkFuel : along.

Lemma Along_findIhaveFailed (fuel : nat) (p : option ptr) :
  Along R (SieveProduction.findIhaveFailed fuel p).
Proof. revert p. induction fuel as [|k IH]; intros [q|]; simpl; along. Qed.

Lemma Along_declared (fuel : nat) (p : option ptr) (x : string) :
  Along R (SieveProduction.declared fuel p x).
Proof. revert p. induction fuel as [|k IH]; intros [q|]; simpl; along. Qed.

Lemma Along_already (fuel : nat) (p : option ptr) :
  Along R (SieveProduction.already fuel p).
Proof. revert p. induction fuel as [|k IH]; intros [q|]; simpl; along. Qed.

Hint Resolve Along_findIhaveFailed Along_declared Along_already : along.

(** The eight operations. *)
Hypothesis R_setError :
  forall this e, Along R (SieveProduction.setError this e).
Hypothesis R_setIhaveFailed :
  forall this, Along R (SieveProduction.setIhaveFailed this).
Hypothesis R_addExtension :
  forall this i,
    Along R (modifyBase this (fun d =>
               SieveProduction.withAddedExtensions
                 (Some (default [] (prod_addedExtensions d) ++ [i])) d)).
Hypothesis R_rememberNeededExtension :
  forall x, Along R (SieveParser.rememberNeededExtension x).
Hypothesis R_setParsed :
  forall p, Along R (SieveArgument.setParsed p true).
Hypothesis R_setString :
  forall a k v,
    Along R (modifyArgument a (fun d =>
               SieveArgument.withList
                 (Some (<[k := v]> (default [] (arg_list d)))) d)).
Hypothesis R_numberRemainingArguments :
  forall this, Along R (SieveArgumentList.numberRemainingArguments this).
Hypothesis R_annotate :
  forall this f, annotation f -> Along R (modifyTest this f).

Hint Resolve R_setError R_setIhaveFailed R_addExtension
  R_rememberNeededExtension R_setParsed R_setString
  R_numberRemainingArguments : along.

Hint Extern 1 (Along _ (modifyTest _ _)) =>
  apply R_annotate; intros ?; repeat split : along.

Lemma Along_require (this : ptr) (x : string) :
  Along R (SieveProduction.require this x).
Proof. unfold SieveProduction.require. along. Qed.

Lemma Along_addExtensions (this : ptr) (l : option (list string)) :
  Along R (SieveProduction.addExtensions this l).
Proof. unfold SieveProduction.addExtensions. along. Qed.

Hint Resolve Along_require Along_addExtensions : along.

Lemma Along_assertNumber (p : ptr) : Along R (SieveArgument.assertNumber p).
Proof. unfold SieveArgument.assertNumber. along. Qed.

Lemma Along_assertString (p : ptr) : Along R (SieveArgument.assertString p).
Proof. unfold SieveArgument.assertString. along. Qed.

Lemma Along_assertStringList (p : ptr) :
  Along R (SieveArgument.assertStringList p).
Proof. unfold SieveArgument.assertStringList. along. Qed.

Lemma Along_stringList (q : ptr) : Along R (SieveArgument.stringList q).
Proof. unfold SieveArgument.stringList. along. Qed.

Lemma Along_arguments (this : ptr) :
  Along R (SieveArgumentList.arguments this).
Proof. unfold SieveArgumentList.arguments. along. Qed.

Lemma Along_tests (this : ptr) : Along R (SieveArgumentList.tests this).
Proof. unfold SieveArgumentList.tests. along. Qed.

Lemma Along_firstElement (l : list string) :
  Along R (SieveArgumentList.firstElement l).
Proof. unfold SieveArgumentList.firstElement. along. Qed.

Hint Resolve Along_assertNumber Along_assertString Along_assertStringList
  Along_stringList Along_arguments Along_tests Along_firstElement : along.

Lemma Along_argumentFollowingTagLoop (l : list ptr) (tag : string)
    (firstTag result : option ptr) :
  Along R (SieveArgumentList.argumentFollowingTagLoop l tag firstTag result).
Proof.
  revert firstTag result. induction l as [|i rest IH]; intros; simpl; along.
Qed.

Hint Resolve Along_argumentFollowingTagLoop : along.

Lemma Along_argumentFollowingTag (this : ptr) (tag : string) :
  Along R (SieveArgumentList.argumentFollowingTag this tag).
Proof. unfold SieveArgumentList.argumentFollowingTag. along. Qed.

Hint Resolve Along_argumentFollowingTag : along.

Lemma Along_takeTaggedString (this : ptr) (tag : string) :
  Along R (SieveArgumentList.takeTaggedString this tag).
Proof. unfold SieveArgumentList.takeTaggedString. along. Qed.

Lemma Along_takeTaggedStringList (this : ptr) (tag : string) :
  Along R (SieveArgumentList.takeTaggedStringList this tag).
Proof. unfold SieveArgumentList.takeTaggedStringList. along. Qed.

Lemma Along_takeTaggedNumber (this : ptr) (tag : string) :
  Along R (SieveArgumentList.takeTaggedNumber this tag).
Proof. unfold SieveArgumentList.takeTaggedNumber. along. Qed.

Lemma Along_findTagSeek (l : list ptr) (tag : string) :
  Along R (SieveArgumentList.findTagSeek l tag).
Proof. induction l as [|a rest IH]; simpl; along. Qed.

Hint Resolve Along_findTagSeek : along.

Lemma Along_findTag (this : ptr) (tag : string) :
  Along R (SieveArgumentList.findTag this tag).
Proof. unfold SieveArgumentList.findTag. along. Qed.

Lemma Along_allowOneTagCollect (l : list ptr) (ts : list string) :
  Along R (SieveArgumentList.allowOneTagCollect l ts).
Proof. induction l as [|a rest IH]; simpl; along. Qed.

Hint Resolve Along_allowOneTagCollect : along.

Lemma Along_allowOneTag (this : ptr) (ts : list string) :
  Along R (SieveArgumentList.allowOneTag this ts).
Proof. unfold SieveArgumentList.allowOneTag. along. Qed.

Lemma Along_flagUnparsedAsBad (this : ptr) :
  Along R (SieveArgumentList.flagUnparsedAsBad this).
Proof. unfold SieveArgumentList.flagUnparsedAsBad. along. Qed.

Lemma Along_takeStringList (this : ptr) (n : nat) :
  Along R (SieveArgumentList.takeStringList this n).
Proof. unfold SieveArgumentList.takeStringList. along. Qed.

Lemma Along_takeString (this : ptr) (n : nat) :
  Along R (SieveArgumentList.takeString this n).
Proof. unfold SieveArgumentList.takeString. along. Qed.

Lemma Along_takeNumber (this : ptr) (n : nat) :
  Along R (SieveArgumentList.takeNumber this n).
Proof. unfold SieveArgumentList.takeNumber. along. Qed.

Lemma Along_takeArgument (this : ptr) (n : nat) :
  Along R (SieveArgumentList.takeArgument this n).
Proof. unfold SieveArgumentList.takeArgument. along. Qed.

Hint Resolve Along_takeTaggedString Along_takeTaggedStringList
  Along_takeTaggedNumber Along_findTag Along_allowOneTag
  Along_flagUnparsedAsBad Along_takeStringList Along_takeString
  Along_takeNumber Along_takeArgument : along.

Lemma Along_tagError (this : ptr) (tag e : string) :
  Along R (SieveArgumentList.tagError this tag e).
Proof. unfold SieveArgumentList.tagError. along. Qed.

Lemma Along_report (arg : option ptr) (owner : ptr) (e : string) :
  Along R (SieveNotifyMethod.report arg owner e).
Proof. unfold SieveNotifyMethod.report. along. Qed.

Hint Resolve Along_tagError Along_report : along.

Context `{Collaborators}.

Lemma Along_new (url : string) (arg : option ptr) (owner : ptr) :
  Along R (SieveNotifyMethod.new url arg owner).
Proof. unfold SieveNotifyMethod.new. along. Qed.

Lemma Along_setFrom (owner : ptr) (from : string) (arg : option ptr) :
  Along R (SieveNotifyMethod.setFrom owner from arg).
Proof. unfold SieveNotifyMethod.setFrom. along. Qed.

Lemma Along_setMessage (owner : ptr) (m : string) (arg : option ptr) :
  Along R (SieveNotifyMethod.setMessage owner m arg).
Proof. unfold SieveNotifyMethod.setMessage. along. Qed.

Lemma Along_test_identifier (this : ptr) :
  Along R (SieveTest.identifier this).
Proof. unfold SieveTest.identifier. along. Qed.

Lemma Along_test_arguments (this : ptr) : Along R (SieveTest.arguments this).
Proof. unfold SieveTest.arguments. along. Qed.

Lemma Along_strings (l : option ptr) : Along R (SieveTest.strings l).
Proof. unfold SieveTest.strings. along. Qed.

Hint Resolve Along_new Along_setFrom Along_setMessage Along_test_identifier
  Along_test_arguments Along_strings : along.

Lemma Along_setter (this : ptr) (f : SieveTestData -> SieveTestData) :
  annotation f -> Along R (modifyTest this f).
Proof. apply R_annotate. Qed.

Hint Extern 1 (Along _ (SieveTest.setMatchType _ _)) =>
  apply Along_setter; intros ?; repeat split : along.
Hint Extern 1 (Along _ (SieveTest.setMatchOperator _ _)) =>
  apply Along_setter; intros ?; repeat split : along.
Hint Extern 1 (Along _ (SieveTest.setAddressPart _ _)) =>
  apply Along_setter; intros ?; repeat split : along.
Hint Extern 1 (Along _ (SieveTest.setComparator _ _)) =>
  apply Along_setter; intros ?; repeat split : along.
Hint Extern 1 (Along _ (SieveTest.setBodyMatchType _ _)) =>
  apply Along_setter; intros ?; repeat split : along.
Hint Extern 1 (Along _ (SieveTest.setHeaders _ _)) =>
  apply Along_setter; intros ?; repeat split : along.
Hint Extern 1 (Along _ (SieveTest.setEnvelopeParts _ _)) =>
  apply Along_setter; intros ?; repeat split : along.
Hint Extern 1 (Along _ (SieveTest.setKeys _ _)) =>
  apply Along_setter; intros ?; repeat split : along.
Hint Extern 1 (Along _ (SieveTest.setContentTypes _ _)) =>
  apply Along_setter; intros ?; repeat split : along.
Hint Extern 1 (Along _ (SieveTest.setDatePart _ _)) =>
  apply Along_setter; intros ?; repeat split : along.
Hint Extern 1 (Along _ (SieveTest.setZone _ _)) =>
  apply Along_setter; intros ?; repeat split : along.
Hint Extern 1 (Along _ (SieveTest.setSize _ _ _)) =>
  apply Along_setter; intros ?; repeat split : along.

Lemma Along_findComparator (this : ptr) :
  Along R (SieveTest.findComparator this).
Proof. unfold SieveTest.findComparator. along. Qed.

Lemma Along_findMatchType (this : ptr) :
  Along R (SieveTest.findMatchType this).
Proof. unfold SieveTest.findMatchType. along. Qed.

Lemma Along_findAddressPart (this : ptr) :
  Along R (SieveTest.findAddressPart this).
Proof. unfold SieveTest.findAddressPart. along. Qed.

Lemma Along_headerField (this a : ptr) (k : nat) :
  Along R (SieveTest.headerField this a k).
Proof. unfold SieveTest.headerField. along. Qed.

Hint Resolve Along_findComparator Along_findMatchType Along_findAddressPart
  Along_headerField : along.

Lemma Along_takeHeaderFieldList (this : ptr) (n : nat) :
  Along R (SieveTest.takeHeaderFieldList this n).
Proof. unfold SieveTest.takeHeaderFieldList. along. Qed.

Lemma Along_envelopePart (this a : ptr) (k : nat) :
  Along R (SieveTest.envelopePart this a k).
Proof. unfold SieveTest.envelopePart. along. Qed.

Hint Resolve Along_takeHeaderFieldList Along_envelopePart : along.

Lemma Along_test_parse (fuel : nat) (this : ptr) :
  Along R (SieveTest.parse fuel this).
Proof.
  revert this. induction fuel as [|k IH]; intros this;
    cbn [SieveTest.parse]; along.
Qed.

Hint Resolve Along_test_parse : along.

Lemma Along_command_identifier (this : ptr) :
  Along R (SieveCommand.identifier this).
Proof. unfold SieveCommand.identifier. along. Qed.

Lemma Along_command_arguments (this : ptr) :
  Along R (SieveCommand.arguments this).
Proof. unfold SieveCommand.arguments. along. Qed.

Hint Resolve Along_command_identifier Along_command_arguments : along.

Lemma Along_parseAsAddress (this : ptr) (s t : string) :
  Along R (SieveCommand.parseAsAddress this s t).
Proof. unfold SieveCommand.parseAsAddress. along. Qed.

Hint Resolve Along_parseAsAddress : along.

Lemma Along_parseVacation (this : ptr) :
  Along R (SieveCommand.parseVacation this).
Proof. unfold SieveCommand.parseVacation. along. Qed.

Lemma Along_parseNotify (this : ptr) :
  Along R (SieveCommand.parseNotify this).
Proof. unfold SieveCommand.parseNotify. along. Qed.

Lemma Along_parseFileinto (this : ptr) :
  Along R (SieveCommand.parseFileinto this).
Proof. unfold SieveCommand.parseFileinto. along. Qed.

Lemma Along_parseRequire (this : ptr) :
  Along R (SieveCommand.parseRequire this).
Proof. unfold SieveCommand.parseRequire. along. Qed.

Hint Resolve Along_parseVacation Along_parseNotify Along_parseFileinto
  Along_parseRequire : along.

Lemma Along_parseEach (f : ptr -> string -> M unit) (l : list ptr)
    (prev : string) :
  (forall x p, Along R (f x p)) -> Along R (SieveCommand.parseEach f l prev).
Proof.
  intros Hf. revert prev. induction l as [|x rest IH]; intros; simpl; along.
Qed.

Lemma Along_command_parse (fuel : nat) (this : ptr) (previous : string) :
  Along R (SieveCommand.parse fuel this previous).
Proof.
  revert this previous. induction fuel as [|k IH]; intros this previous;
    cbn [SieveCommand.parse]; along.
  all: now apply Along_parseEach.
Qed.

Lemma Along_analyse (fuel : nat) (cs : list ptr) :
  Along R (SieveScript.analyse fuel cs).
Proof. apply Along_parseEach. apply Along_command_parse. Qed.

End Maintained.

(** ** The state after a primitive *)

Lemma modifyBase_Some (s s' : state) (p : ptr)
    (f : SieveProductionData -> SieveProductionData) :
  modifyBase p f s = Some (tt, s') ->
  exists nd, heap s !! p = Some nd
             /\ s' = mkState (<[p := mkNode (f (base nd)) (prod nd)]> (heap s))
                       (bad s) (extensions s).
Proof.
  intros (nd & s1 & [-> Hp]%getNode_Some & [= <-])%bind_Some. eauto.
Qed.

Lemma modifyArgument_Some (s s' : state) (p : ptr)
    (f : SieveArgumentData -> SieveArgumentData) :
  modifyArgument p f s = Some (tt, s') ->
  exists nd d, heap s !! p = Some nd /\ prod nd = ArgumentP d
               /\ s' = mkState
                         (<[p := mkNode (base nd) (ArgumentP (f d))]> (heap s))
                         (bad s) (extensions s).
Proof.
  intros (nd & s1 & [-> Hp]%getNode_Some & H)%bind_Some.
  destruct (prod nd) eqn:Hd; try discriminate. injection H as <-. eauto.
Qed.

Lemma modifyArgumentList_Some (s s' : state) (p : ptr)
    (f : SieveArgumentListData -> SieveArgumentListData) :
  modifyArgumentList p f s = Some (tt, s') ->
  exists nd d, heap s !! p = Some nd /\ prod nd = ArgumentListP d
               /\ s' = mkState
                         (<[p := mkNode (base nd) (ArgumentListP (f d))]>
                            (heap s))
                         (bad s) (extensions s).
Proof.
  intros (nd & s1 & [-> Hp]%getNode_Some & H)%bind_Some.
  destruct (prod nd) eqn:Hd; try discriminate. injection H as <-. eauto.
Qed.

Lemma modifyTest_Some (s s' : state) (p : ptr)
    (f : SieveTestData -> SieveTestData) :
  modifyTest p f s = Some (tt, s') ->
  exists nd d, heap s !! p = Some nd /\ prod nd = TestP d
               /\ s' = mkState
                         (<[p := mkNode (base nd) (TestP (f d))]> (heap s))
                         (bad s) (extensions s).
Proof.
  intros (nd & s1 & [-> Hp]%getNode_Some & H)%bind_Some.
  destruct (prod nd) eqn:Hd; try discriminate. injection H as <-. eauto.
Qed.

Lemma unparsed_state (l r : list ptr) (s s' : state) :
  SieveArgumentList.unparsed l s = Some (r, s') -> s' = s.
Proof.
  revert r s'. induction l as [|a l IH]; intros r s';
    cbn [SieveArgumentList.unparsed].
  - now intros [= _ <-].
  - intros (d & s1 & (nd & s2 & [-> _]%getNode_Some & Hd)%bind_Some
            & H)%bind_Some.
    destruct (prod nd); try discriminate. injection Hd as _ <-.
    apply bind_Some in H as (r0 & s3 & Hrec & H).
    apply IH in Hrec as ->.
    destruct (negb _); now injection H as _ <-.
Qed.

Lemma numberRemainingArguments_Some (s s' : state) (this : ptr) :
  SieveArgumentList.numberRemainingArguments this s = Some (tt, s') ->
  exists nd d n,
    heap s !! this = Some nd /\ prod nd = ArgumentListP d
    /\ s' = mkState
              (<[this := mkNode (base nd)
                           (ArgumentListP
                              (mkArgumentList (args_a d) (args_t d) n))]>
                 (heap s))
              (bad s) (extensions s).
Proof.
  unfold SieveArgumentList.numberRemainingArguments,
    SieveArgumentList.arguments.
  rewrite bind_assoc.
  intros (d0 & s1 & Hg & H)%bind_Some.
  assert (s1 = s) as ->.
  { apply bind_Some in Hg as (nd & s2 & [-> _]%getNode_Some & Hd).
    destruct (prod nd); try discriminate. now injection Hd as _ <-. }
  cbn beta iota in H. rewrite bind_ret in H.
  apply bind_Some in H as (n & s2 & ->%unparsed_state & H).
  apply modifyArgumentList_Some in H as (nd & d & Hp & Hd & ->).
  exists nd, d, n. auto.
Qed.

(** ** The outline is kept *)

Lemma sameOutline_refl (s : state) : sameOutline s s.
Proof. intros p. reflexivity. Qed.

Lemma sameOutline_trans (s1 s2 s3 : state) :
  sameOutline s1 s2 -> sameOutline s2 s3 -> sameOutline s1 s3.
Proof. intros H12 H23 p. now rewrite H23, H12. Qed.

Lemma sameOutline_insert (s : state) (p : ptr) (nd nd' : node)
    (b : list ptr) (x : list string) :
  heap s !! p = Some nd -> outline nd' = outline nd ->
  sameOutline s (mkState (<[p := nd']> (heap s)) b x).
Proof.
  intros Hp Ho q. simpl. destruct (decide (p = q)) as [<-|Hne].
  - rewrite lookup_insert_eq, Hp. simpl. now rewrite Ho.
  - now rewrite lookup_insert_ne.
Qed.

Lemma blank_insert (l : list string) (k : nat) (v : string) :
  map (fun _ => "") (<[k := v]> l) = map (fun _ : string => "") l.
Proof.
  revert k. induction l as [|x l IH]; intros [|k]; simpl; try reflexivity.
  now rewrite IH.
Qed.

Lemma sameOutline_setError (this : ptr) (e : string) :
  Along sameOutline (SieveProduction.setError this e).
Proof.
  intros s [] s' (nd & Hp & Hh & _)%setError_effect p.
  rewrite Hh. destruct (decide (this = p)) as [<-|Hne].
  - now rewrite lookup_insert_eq, Hp.
  - now rewrite lookup_insert_ne.
Qed.

Lemma sameOutline_analysis `{Collaborators} :
  (forall fuel this previous,
     Along sameOutline (SieveCommand.parse fuel this previous))
  /\ (forall fuel this, Along sameOutline (SieveTest.parse fuel this)).
Proof.
  assert (H1 : forall this, Along sameOutline
                              (SieveProduction.setIhaveFailed this)).
  { intros this s [] s' (nd & Hp & ->)%modifyBase_Some.
    now apply sameOutline_insert with nd. }
  assert (H2 : forall this i,
             Along sameOutline
               (modifyBase this (fun d =>
                  SieveProduction.withAddedExtensions
                    (Some (default [] (prod_addedExtensions d) ++ [i])) d))).
  { intros this i s [] s' (nd & Hp & ->)%modifyBase_Some.
    now apply sameOutline_insert with nd. }
  assert (H3 : forall x, Along sameOutline
                           (SieveParser.rememberNeededExtension x)).
  { intros x s [] s' [= <-] p. reflexivity. }
  assert (H4 : forall p, Along sameOutline (SieveArgument.setParsed p true)).
  { intros p s [] s' (nd & d & Hp & Hd & ->)%modifyArgument_Some.
    apply sameOutline_insert with nd; [exact Hp|].
    unfold outline. simpl. now rewrite Hd. }
  assert (H5 : forall a k v,
             Along sameOutline
               (modifyArgument a (fun d =>
                  SieveArgument.withList
                    (Some (<[k := v]> (default [] (arg_list d)))) d))).
  { intros a k v s [] s' (nd & d & Hp & Hd & ->)%modifyArgument_Some.
    apply sameOutline_insert with nd; [exact Hp|].
    unfold outline. simpl. rewrite Hd. simpl. now rewrite blank_insert. }
  assert (H6 : forall this,
             Along sameOutline
               (SieveArgumentList.numberRemainingArguments this)).
  { intros this s [] s'
      (nd & d & n & Hp & Hd & ->)%numberRemainingArguments_Some.
    apply sameOutline_insert with nd; [exact Hp|].
    unfold outline. simpl. now rewrite Hd. }
  assert (H7 : forall this f, annotation f ->
                              Along sameOutline (modifyTest this f)).
  { intros this f Hf s [] s' (nd & d & Hp & Hd & ->)%modifyTest_Some.
    apply sameOutline_insert with nd; [exact Hp|].
    unfold outline. simpl. rewrite Hd.
    destruct (Hf d) as (-> & -> & ->). reflexivity. }
  split; intros.
  - apply (Along_command_parse sameOutline sameOutline_refl
             sameOutline_trans sameOutline_setError H1 H2 H3 H4 H5 H6 H7).
  - apply (Along_test_parse sameOutline sameOutline_refl
             sameOutline_trans sameOutline_setError H1 H2 H3 H4 H5 H6 H7).
Qed.

(** X25: the analysis of a command or of a test never changes the shape of
    the tree: the productions are the same, and each has the outline it
    had. *)
Theorem analysis_keeps_the_outline `{Collaborators} :
  (forall fuel this previous s s',
     SieveCommand.parse fuel this previous s = Some (tt, s') ->
     forall p, outline <$> heap s' !! p = outline <$> heap s !! p)
  /\ (forall fuel this s s',
        SieveTest.parse fuel this s = Some (tt, s') ->
        forall p, outline <$> heap s' !! p = outline <$> heap s !! p).
Proof.
  destruct sameOutline_analysis as [Hc Ht]. split.
  - intros fuel this previous s s' Hrun. exact (Hc _ _ _ _ _ _ Hrun).
  - intros fuel this s s' Hrun. exact (Ht _ _ _ _ _ Hrun).
Qed.

(** ** Marks and registries grow *)

Lemma grows_refl (s : state) : grows s s.
Proof.
  split; [reflexivity|]. split; [reflexivity|]. intros p nd Hp.
  exists nd. split; [exact Hp|]. split; [auto|]. split; [reflexivity|].
  intros d Hd. eauto.
Qed.

Lemma grows_trans (s1 s2 s3 : state) : grows s1 s2 -> grows s2 s3 -> grows s1 s3.
Proof.
  intros (Hb1 & Hx1 & Hh1) (Hb2 & Hx2 & Hh2).
  split; [now transitivity (bad s2)|].
  split; [now transitivity (extensions s2)|].
  intros p nd Hp.
  destruct (Hh1 p nd Hp) as (nd2 & Hp2 & Hi2 & Ha2 & Hd2).
  destruct (Hh2 p nd2 Hp2) as (nd3 & Hp3 & Hi3 & Ha3 & Hd3).
  exists nd3. split; [exact Hp3|]. split; [auto|].
  split; [now transitivity (default [] (prod_addedExtensions (base nd2)))|].
  intros d Hd. destruct (Hd2 d Hd) as (d2 & Hd2' & Hparsed2).
  destruct (Hd3 d2 Hd2') as (d3 & Hd3' & Hparsed3). eauto.
Qed.

Lemma grows_insert (s : state) (p : ptr) (nd nd' : node) (b : list ptr)
    (x : list string) :
  heap s !! p = Some nd ->
  bad s `prefix_of` b -> extensions s `prefix_of` x ->
  (prod_ihaveFailed (base nd) = true -> prod_ihaveFailed (base nd') = true) ->
  default [] (prod_addedExtensions (base nd))
    `prefix_of` default [] (prod_addedExtensions (base nd')) ->
  (forall d, prod nd = ArgumentP d ->
     exists d', prod nd' = ArgumentP d'
                /\ (arg_parsed d = true -> arg_parsed d' = true)) ->
  grows s (mkState (<[p := nd']> (heap s)) b x).
Proof.
  intros Hp Hb Hx Hi Ha Hd. split; [exact Hb|]. split; [exact Hx|].
  intros q ndq Hq. simpl. destruct (decide (p = q)) as [<-|Hne].
  - rewrite lookup_insert_eq. rewrite Hp in Hq. injection Hq as <-.
    exists nd'. auto.
  - rewrite lookup_insert_ne by exact Hne.
    exists ndq. split; [exact Hq|]. split; [auto|]. split; [reflexivity|].
    intros d Hdq. eauto.
Qed.

Lemma grows_setError (this : ptr) (e : string) :
  Along grows (SieveProduction.setError this e).
Proof.
  intros s [] s' (nd & Hp & Hh & Hx & Hb)%setError_effect.
  rewrite <- (state_eta s'), Hh, Hx, Hb.
  apply grows_insert with nd; simpl; auto; try reflexivity.
  - destruct (_ && _); [now apply prefix_app_r | reflexivity].
  - intros d Hd. eauto.
Qed.

Lemma grows_analysis `{Collaborators} :
  (forall fuel this previous,
     Along grows (SieveCommand.parse fuel this previous))
  /\ (forall fuel this, Along grows (SieveTest.parse fuel this)).
Proof.
  assert (H1 : forall this, Along grows (SieveProduction.setIhaveFailed this)).
  { intros this s [] s' (nd & Hp & ->)%modifyBase_Some.
    apply grows_insert with nd; simpl; auto; try reflexivity.
    intros d Hd. eauto. }
  assert (H2 : forall this i,
             Along grows
               (modifyBase this (fun d =>
                  SieveProduction.withAddedExtensions
                    (Some (default [] (prod_addedExtensions d) ++ [i])) d))).
  { intros this i s [] s' (nd & Hp & ->)%modifyBase_Some.
    apply grows_insert with nd; simpl; auto; try reflexivity.
    - now apply prefix_app_r.
    - intros d Hd. eauto. }
  assert (H3 : forall x, Along grows (SieveParser.rememberNeededExtension x)).
  { intros x s [] s' [= <-]. split; [reflexivity|].
    split; [simpl; now apply prefix_app_r|].
    destruct (grows_refl s) as (_ & _ & Hh). exact Hh. }
  assert (H4 : forall p, Along grows (SieveArgument.setParsed p true)).
  { intros p s [] s' (nd & d & Hp & Hd & ->)%modifyArgument_Some.
    apply grows_insert with nd; simpl; auto; try reflexivity.
    intros d0 Hd0. eauto. }
  assert (H5 : forall a k v,
             Along grows
               (modifyArgument a (fun d =>
                  SieveArgument.withList
                    (Some (<[k := v]> (default [] (arg_list d)))) d))).
  { intros a k v s [] s' (nd & d & Hp & Hd & ->)%modifyArgument_Some.
    apply grows_insert with nd; simpl; auto; try reflexivity.
    intros d0 Hd0. rewrite Hd in Hd0. injection Hd0 as <-. eauto. }
  assert (H6 : forall this,
             Along grows (SieveArgumentList.numberRemainingArguments this)).
  { intros this s [] s'
      (nd & d & n & Hp & Hd & ->)%numberRemainingArguments_Some.
    apply grows_insert with nd; simpl; auto; try reflexivity.
    intros d0 Hd0. congruence. }
  assert (H7 : forall this f, annotation f -> Along grows (modifyTest this f)).
  { intros this f Hf s [] s' (nd & d & Hp & Hd & ->)%modifyTest_Some.
    apply grows_insert with nd; simpl; auto; try reflexivity.
    intros d0 Hd0. congruence. }
  split; intros.
  - apply (Along_command_parse grows grows_refl grows_trans grows_setError
             H1 H2 H3 H4 H5 H6 H7).
  - apply (Along_test_parse grows grows_refl grows_trans grows_setError
             H1 H2 H3 H4 H5 H6 H7).
Qed.

(** X26: the analysis of a command or of a test only adds to what is
    registered and marked: the two registries of the parser are extended
    at the end, and ihave-failed marks, added extensions and parsed marks
    stay. *)
Theorem analysis_only_adds_marks `{Collaborators} :
  (forall fuel this previous s s',
     SieveCommand.parse fuel this previous s = Some (tt, s') -> grows s s')
  /\ (forall fuel this s s',
        SieveTest.parse fuel this s = Some (tt, s') -> grows s s').
Proof.
  destruct grows_analysis as [Hc Ht]. split.
  - intros fuel this previous s s' Hrun. exact (Hc _ _ _ _ _ _ Hrun).
  - intros fuel this s s' Hrun. exact (Ht _ _ _ _ _ Hrun).
Qed.

(** ** Every error is registered with the parser *)

Lemma registered_insert (s : state) (p : ptr) (nd nd' : node) (b : list ptr)
    (x : list string) :
  heap s !! p = Some nd ->
  prod_parser (base nd') = prod_parser (base nd) ->
  prod_error (base nd') = prod_error (base nd) ->
  (forall q, q ∈ bad s -> q ∈ b) ->
  registered s -> registered (mkState (<[p := nd']> (heap s)) b x).
Proof.
  intros Hp Hpar Herr Hb Hreg q ndq Hq Hparser Hne. simpl in *.
  apply Hb. destruct (decide (p = q)) as [<-|Hneq].
  - rewrite lookup_insert_eq in Hq. injection Hq as <-.
    apply (Hreg p nd Hp); congruence.
  - rewrite lookup_insert_ne in Hq by exact Hneq. now apply (Hreg q ndq).
Qed.

Lemma registered_setError (this : ptr) (e : string) :
  Along (fun s s' => registered s -> registered s')
    (SieveProduction.setError this e).
Proof.
  intros s [] s' (nd & Hp & Hh & Hx & Hb)%setError_effect Hreg q ndq Hq
    Hparser Hne.
  rewrite Hh in Hq. destruct (decide (this = q)) as [<-|Hneq].
  - rewrite lookup_insert_eq in Hq. injection Hq as <-. simpl in *.
    rewrite Hb, Hparser.
    destruct (errorOf s' this); [contradiction|]. simpl.
    apply elem_of_app. right. now apply list_elem_of_singleton.
  - rewrite lookup_insert_ne in Hq by exact Hneq. rewrite Hb.
    pose proof (Hreg q ndq Hq Hparser Hne) as Hin.
    destruct (_ && _); [apply elem_of_app; now left | exact Hin].
Qed.

Lemma registered_analysis `{Collaborators} :
  (forall fuel this previous,
     Along (fun s s' => registered s -> registered s')
       (SieveCommand.parse fuel this previous))
  /\ (forall fuel this,
        Along (fun s s' => registered s -> registered s')
          (SieveTest.parse fuel this)).
Proof.
  set (R := fun s s' => registered s -> registered s').
  assert (R_refl : forall s, R s s) by (intros s Hs; exact Hs).
  assert (R_trans : forall s1 s2 s3, R s1 s2 -> R s2 s3 -> R s1 s3)
    by (intros s1 s2 s3 H12 H23 Hs; auto).
  assert (H1 : forall this, Along R (SieveProduction.setIhaveFailed this)).
  { intros this s [] s' (nd & Hp & ->)%modifyBase_Some.
    intros Hreg. now apply registered_insert with nd. }
  assert (H2 : forall this i,
             Along R
               (modifyBase this (fun d =>
                  SieveProduction.withAddedExtensions
                    (Some (default [] (prod_addedExtensions d) ++ [i])) d))).
  { intros this i s [] s' (nd & Hp & ->)%modifyBase_Some.
    intros Hreg. now apply registered_insert with nd. }
  assert (H3 : forall x, Along R (SieveParser.rememberNeededExtension x)).
  { intros x s [] s' [= <-] Hreg. exact Hreg. }
  assert (H4 : forall p, Along R (SieveArgument.setParsed p true)).
  { intros p s [] s' (nd & d & Hp & Hd & ->)%modifyArgument_Some.
    intros Hreg. now apply registered_insert with nd. }
  assert (H5 : forall a k v,
             Along R
               (modifyArgument a (fun d =>
                  SieveArgument.withList
                    (Some (<[k := v]> (default [] (arg_list d)))) d))).
  { intros a k v s [] s' (nd & d & Hp & Hd & ->)%modifyArgument_Some.
    intros Hreg. now apply registered_insert with nd. }
  assert (H6 : forall this,
             Along R (SieveArgumentList.numberRemainingArguments this)).
  { intros this s [] s'
      (nd & d & n & Hp & Hd & ->)%numberRemainingArguments_Some.
    intros Hreg. now apply registered_insert with nd. }
  assert (H7 : forall this f, annotation f -> Along R (modifyTest this f)).
  { intros this f Hf s [] s' (nd & d & Hp & Hd & ->)%modifyTest_Some.
    intros Hreg. now apply registered_insert with nd. }
  split; intros.
  - apply (Along_command_parse R R_refl R_trans (registered_setError)
             H1 H2 H3 H4 H5 H6 H7).
  - apply (Along_test_parse R R_refl R_trans (registered_setError)
             H1 H2 H3 H4 H5 H6 H7).
Qed.

(** X27: if every production that has the parser and holds an error is
    among the bad productions, so it is after the analysis of a command
    or of a test. *)
Theorem analysis_registers_every_error `{Collaborators} :
  (forall fuel this previous s s',
     registered s ->
     SieveCommand.parse fuel this previous s = Some (tt, s') ->
     registered s')
  /\ (forall fuel this s s',
        registered s ->
        SieveTest.parse fuel this s = Some (tt, s') -> registered s').
Proof.
  destruct registered_analysis as [Hc Ht]. split.
  - intros fuel this previous s s' Hreg Hrun.
    exact (Hc _ _ _ _ _ _ Hrun Hreg).
  - intros fuel this s s' Hreg Hrun. exact (Ht _ _ _ _ _ Hrun Hreg).
Qed.

Lemma errors_nil_registered (s : state) : errors s = [] -> registered s.
Proof.
  intros He p nd Hp _ Hne.
  assert (Hin : (p, prod_error (base nd)) ∈ errors s).
  { apply elem_of_errors. exists nd. split; [exact Hp|].
    split; [reflexivity|]. now destruct (prod_error (base nd)). }
  rewrite He in Hin. now apply elem_of_nil in Hin.
Qed.

Lemma analysis_keeps_the_outline_witness :
  sameOutline elseAlone elseAloneAnalysed.
Proof.
  refine (proj1 (analysis_keeps_the_outline (H := server)) 3 1 ""
            elseAlone elseAloneAnalysed _).
  vm_compute. reflexivity.
Defined.

Lemma analysis_only_adds_marks_witness : grows elseAlone elseAloneAnalysed.
Proof.
  refine (proj1 (analysis_only_adds_marks (H := server)) 3 1 ""
            elseAlone elseAloneAnalysed _).
  vm_compute. reflexivity.
Defined.

Lemma analysis_registers_every_error_witness : registered elseAloneAnalysed.
Proof.
  refine (proj1 (analysis_registers_every_error (H := server)) 3 1 ""
            elseAlone elseAloneAnalysed _ _).
  - apply errors_nil_registered. vm_compute. reflexivity.
  - vm_compute. reflexivity.
Defined.

(** ** Well-formedness and the outline *)

Lemma kindOf_outline (nd : node) : kindOf (outline nd) = kindOf nd.
Proof. unfold kindOf, outline. simpl. now destruct (prod nd). Qed.

Lemma sameOutline_kind (s s' : state) (k : kind) (p : ptr) :
  sameOutline s s' -> hasKind (heap s') k p <-> hasKind (heap s) k p.
Proof.
  intros Ho. unfold hasKind. specialize (Ho p).
  assert (He : kindOf <$> heap s' !! p = kindOf <$> heap s !! p).
  { destruct (heap s' !! p) as [n'|], (heap s !! p) as [n|]; simpl in *;
      try discriminate; [|reflexivity].
    assert (Hn : outline n' = outline n) by congruence. f_equal.
    now rewrite <- (kindOf_outline n'), Hn, kindOf_outline. }
  now rewrite He.
Qed.

Lemma sameOutline_size (s s' : state) :
  sameOutline s s' -> size (heap s') = size (heap s).
Proof.
  intros Hb. rewrite <- !size_dom. f_equal. apply set_eq. intros p.
  rewrite !elem_of_dom. specialize (Hb p).
  destruct (heap s' !! p), (heap s !! p); simpl in Hb; try discriminate;
    split; intros [? ?]; eauto; discriminate.
Qed.

Lemma wfNode_ext (h h' : gmap ptr node) (p : ptr) (nd : node) :
  (forall k q, hasKind h k q -> hasKind h' k q) ->
  wfNode h p nd -> wfNode h' p nd.
Proof.
  intros Hk [Hpar Hprod]. split.
  - intros q Hq. destruct (Hpar q Hq) as (Hlt & k & Hkq). eauto.
  - destruct (prod nd) as [|d|d|c|d|d]; auto.
    + destruct Hprod as (Ha & Ht & Hn). split; [|split].
      * eapply Forall_impl; [exact Ha|]. auto.
      * eapply Forall_impl; [exact Ht|]. intros t [? ?]. auto.
      * eapply Forall_impl; [exact Hn|]. auto.
    + eapply Forall_impl; [exact Hprod|]. intros t [? ?]. auto.
    + destruct Hprod as ((al & Hal & Hkal & Hlt) & Hb). split.
      * eauto 6.
      * intros b Hbb. destruct (Hb b Hbb). auto.
    + destruct Hprod as (al & Hal & Hkal & Hlt). eauto 6.
Qed.

Lemma kindIs_sound (h : gmap ptr node) (k : kind) (p : ptr) :
  kindIs h k p = true -> hasKind h k p.
Proof.
  unfold kindIs, hasKind. destruct (h !! p) as [nd|]; [|discriminate].
  simpl. now destruct (kindOf nd), k.
Qed.

Lemma wfNodeb_sound (h : gmap ptr node) (p : ptr) (nd : node) :
  wfNodeb h p nd = true -> wfNode h p nd.
Proof.
  unfold wfNodeb, wfNode. intros [Hpar Hprod]%andb_prop. split.
  - intros q Hq. rewrite Hq in Hpar.
    apply andb_prop in Hpar as [Hlt Hsome].
    apply Nat.ltb_lt in Hlt. apply bool_decide_eq_true in Hsome.
    split; [exact Hlt|]. destruct Hsome as [ndq Hndq].
    exists (kindOf ndq). unfold hasKind. now rewrite Hndq.
  - destruct (prod nd) as [|d|d|c|d|d].
    + exact I.
    + apply negb_true_iff, bool_decide_eq_false in Hprod. exact Hprod.
    + apply andb_prop in Hprod as [Hprod Hn].
      apply andb_prop in Hprod as [Ha Ht].
      rewrite forallb_forall in Ha, Ht, Hn. rewrite !Forall_forall.
      split; [|split].
      * intros x Hx%list_elem_of_In. now apply kindIs_sound, Ha.
      * intros x Hx%list_elem_of_In. apply Ht in Hx.
        apply andb_prop in Hx as [Hk Hlt]. apply Nat.ltb_lt in Hlt.
        split; [now apply kindIs_sound | exact Hlt].
      * intros x Hx%list_elem_of_In. now apply kindIs_sound, Hn.
    + rewrite forallb_forall in Hprod. rewrite Forall_forall.
      intros x Hx%list_elem_of_In. apply Hprod in Hx.
      apply andb_prop in Hx as [Hk Hlt]. apply Nat.ltb_lt in Hlt.
      split; [now apply kindIs_sound | exact Hlt].
    + apply andb_prop in Hprod as [Hal Hb]. split.
      * destruct (cmd_arguments d) as [al|]; [|discriminate].
        apply andb_prop in Hal as [Hk Hlt]. apply Nat.ltb_lt in Hlt.
        exists al. split; [reflexivity|].
        split; [now apply kindIs_sound | exact Hlt].
      * intros b Hbb. rewrite Hbb in Hb.
        apply andb_prop in Hb as [Hk Hlt]. apply Nat.ltb_lt in Hlt.
        split; [now apply kindIs_sound | exact Hlt].
    + destruct (test_arguments d) as [al|]; [|discriminate].
      apply andb_prop in Hprod as [Hk Hlt]. apply Nat.ltb_lt in Hlt.
      exists al. split; [reflexivity|].
      split; [now apply kindIs_sound | exact Hlt].
Qed.

Lemma wfb_sound (s : state) : wfb s = true -> wf s.
Proof.
  unfold wfb, wf. rewrite forallb_forall. intros Hall p nd Hp.
  apply elem_of_map_to_list, list_elem_of_In, Hall in Hp. simpl in Hp.
  apply andb_prop in Hp as [Hlt Hnode]. apply Nat.ltb_lt in Hlt.
  split; [exact Hlt | now apply wfNodeb_sound].
Qed.

Section Totality.

Variable s0 : state.
Hypothesis wf0 : wf s0.

Local Notation "'K'" := (hasKind (heap s0)).

Lemma Inv_start : Inv s0 s0.
Proof. split; [exact wf0 | apply sameOutline_refl]. Qed.

Lemma Inv_node (s : state) (k : kind) (p : ptr) :
  Inv s0 s -> K k p ->
  exists nd nd0,
    heap s !! p = Some nd /\ heap s0 !! p = Some nd0
    /\ outline nd = outline nd0 /\ kindOf nd = k
    /\ wfNode (heap s0) p nd /\ (p < size (heap s0))%nat.
Proof.
  intros [Hwf Ho] Hk. pose proof (Ho p) as Hop.
  apply (sameOutline_kind _ _ _ _ Ho) in Hk. unfold hasKind in Hk.
  destruct (heap s !! p) as [nd|] eqn:Hp; [|discriminate].
  destruct (heap s0 !! p) as [nd0|] eqn:Hp0; [|discriminate].
  injection Hk as Hk. exists nd, nd0.
  split; [reflexivity|]. split; [reflexivity|].
  split; [simpl in Hop; congruence|]. split; [exact Hk|].
  destruct (Hwf p nd Hp) as [Hlt Hnode].
  split; [|now rewrite <- (sameOutline_size _ _ Ho)].
  eapply wfNode_ext; [|exact Hnode].
  intros k' q. apply (sameOutline_kind _ _ _ _ Ho).
Qed.

Lemma Inv_heap (s s' : state) : heap s' = heap s -> Inv s0 s -> Inv s0 s'.
Proof.
  intros He [Hwf Ho]. split.
  - intros p nd. rewrite He. apply Hwf.
  - intros p. rewrite He. apply Ho.
Qed.

(** A production replaced by one with the same outline. *)
Lemma Inv_insert (s : state) (p : ptr) (nd nd' : node) (b : list ptr)
    (x : list string) :
  Inv s0 s -> heap s !! p = Some nd -> outline nd' = outline nd ->
  wfNode (heap s0) p nd' ->
  Inv s0 (mkState (<[p := nd']> (heap s)) b x).
Proof.
  intros [Hwf Ho] Hp Hout Hnode.
  assert (Ho' : sameOutline s0 (mkState (<[p := nd']> (heap s)) b x)).
  { apply sameOutline_trans with s; [exact Ho|].
    now apply sameOutline_insert with nd. }
  split; [|exact Ho'].
  intros q ndq Hq. simpl in Hq |- *.
  assert (Hsize : size (<[p := nd']> (heap s)) = size (heap s)).
  { change (size (heap (mkState (<[p := nd']> (heap s)) b x)) = size (heap s)).
    now rewrite (sameOutline_size _ _ Ho'), (sameOutline_size _ _ Ho). }
  assert (Hback : forall k r, K k r ->
                    hasKind (<[p := nd']> (heap s)) k r).
  { intros k r. apply (sameOutline_kind _ _ k r Ho'). }
  assert (Hforth : forall k r, hasKind (heap s) k r -> K k r).
  { intros k r. apply (sameOutline_kind _ _ k r Ho). }
  rewrite Hsize. destruct (decide (p = q)) as [<-|Hne].
  - rewrite lookup_insert_eq in Hq. injection Hq as <-.
    split; [exact (proj1 (Hwf p nd Hp))|].
    eapply wfNode_ext; [exact Hback | exact Hnode].
  - rewrite lookup_insert_ne in Hq by exact Hne.
    destruct (Hwf q ndq Hq) as [Hlt Hn]. split; [exact Hlt|].
    eapply wfNode_ext; [|exact Hn]. intros k r Hk. auto.
Qed.

(** ** The rules *)

Lemma Total_ret {A : Type} (a : A) (Q : A -> Prop) :
  Q a -> Total s0 (ret a) Q.
Proof. intros Ha s Hs. exists a, s. auto. Qed.

Lemma Total_bind {A B : Type} (m : M A) (f : A -> M B) (Q : A -> Prop)
    (Q' : B -> Prop) :
  Total s0 m Q -> (forall a, Q a -> Total s0 (f a) Q') ->
  Total s0 (bind m f) Q'.
Proof.
  intros Hm Hf s Hs. destruct (Hm s Hs) as (a & s1 & Hrun & Hs1 & Ha).
  destruct (Hf a Ha s1 Hs1) as (b & s2 & Hrun2 & Hs2 & Hb).
  exists b, s2. split; [|auto]. unfold bind. now rewrite Hrun.
Qed.

Lemma Total_weaken {A : Type} (m : M A) (Q Q' : A -> Prop) :
  Total s0 m Q -> (forall a, Q a -> Q' a) -> Total s0 m Q'.
Proof.
  intros Hm HQ s Hs. destruct (Hm s Hs) as (a & s1 & Hrun & Hs1 & Ha).
  eauto 6.
Qed.

Lemma Total_forEach {A : Type} (l : list A) (body : A -> M unit)
    (P : A -> Prop) :
  Forall P l -> (forall x, P x -> Total s0 (body x) (fun _ => True)) ->
  Total s0 (forEach l body) (fun _ => True).
Proof.
  intros Hl Hb. induction Hl as [|x l Hx _ IH]; simpl.
  - now apply Total_ret.
  - eapply Total_bind; [apply Hb; exact Hx | intros; exact IH].
Qed.

(** ** Reading a production *)

Ltac node Hs Hk :=
  let nd := fresh "nd" in
  let nd0 := fresh "nd0" in
  destruct (Inv_node _ _ _ Hs Hk)
    as (nd & nd0 & ?Hp & ?Hp0 & ?Hout & ?Hkind & [?Hpar ?Hprod] & ?Hlt).

Lemma Total_getBase (p : ptr) (k : kind) :
  K k p ->
  Total s0 (getBase p)
    (fun d => forall q, prod_parent d = Some q ->
                (q < p)%nat /\ exists k', K k' q).
Proof.
  intros Hk s Hs. node Hs Hk. exists (base nd), s.
  split; [|auto]. unfold getBase, bind, getNode. now rewrite Hp.
Qed.

Lemma Total_getArgument (p : ptr) :
  K KArgument p ->
  Total s0 (getArgument p)
    (fun d => arg_list d <> Some []
              /\ length (default [] (arg_list d)) = stringsOf (heap s0) p).
Proof.
  intros Hk s Hs. node Hs Hk. unfold kindOf in Hkind.
  destruct (prod nd) as [|d|d|c|d|d] eqn:Hd; try discriminate.
  exists d, s. split; [|split; [exact Hs|]].
  - unfold getArgument, bind, getNode. now rewrite Hp, Hd.
  - split; [exact Hprod|]. unfold stringsOf, argumentAt. rewrite Hp0.
    unfold outline in Hout. rewrite Hd in Hout.
    destruct (prod nd0) as [|d0|d0|c0|d0|d0]; try discriminate.
    injection Hout as _ _ _ _ _ _ _ Hl _.
    apply (f_equal length) in Hl. now rewrite !length_map in Hl.
Qed.

Lemma Total_getArgumentList (p : ptr) :
  K KArgumentList p ->
  Total s0 (getArgumentList p)
    (fun d => Forall (K KArgument) (args_a d)
              /\ Forall (fun t => K KTest t /\ (p < t)%nat) (args_t d)
              /\ Forall (K KArgument) (args_n d)).
Proof.
  intros Hk s Hs. node Hs Hk. unfold kindOf in Hkind.
  destruct (prod nd) as [|d|d|c|d|d] eqn:Hd; try discriminate.
  exists d, s. split; [|auto].
  unfold getArgumentList, bind, getNode. now rewrite Hp, Hd.
Qed.

Lemma Total_getBlock (p : ptr) :
  K KBlock p ->
  Total s0 (getBlock p) (Forall (fun x => K KCommand x /\ (p < x)%nat)).
Proof.
  intros Hk s Hs. node Hs Hk. unfold kindOf in Hkind.
  destruct (prod nd) as [|d|d|c|d|d] eqn:Hd; try discriminate.
  exists c, s. split; [|auto].
  unfold getBlock, bind, getNode. now rewrite Hp, Hd.
Qed.

Lemma Total_getCommand (p : ptr) :
  K KCommand p ->
  Total s0 (getCommand p)
    (fun d => (exists al, cmd_arguments d = Some al
                          /\ K KArgumentList al /\ (p < al)%nat)
              /\ (forall b, cmd_block d = Some b ->
                    K KBlock b /\ (p < b)%nat)).
Proof.
  intros Hk s Hs. node Hs Hk. unfold kindOf in Hkind.
  destruct (prod nd) as [|d|d|c|d|d] eqn:Hd; try discriminate.
  exists d, s. split; [|auto].
  unfold getCommand, bind, getNode. now rewrite Hp, Hd.
Qed.

Lemma Total_getTest (p : ptr) :
  K KTest p ->
  Total s0 (getTest p)
    (fun d => exists al, test_arguments d = Some al
                         /\ K KArgumentList al /\ (p < al)%nat).
Proof.
  intros Hk s Hs. node Hs Hk. unfold kindOf in Hkind.
  destruct (prod nd) as [|d|d|c|d|d] eqn:Hd; try discriminate.
  exists d, s. split; [|auto].
  unfold getTest, bind, getNode. now rewrite Hp, Hd.
Qed.

Lemma Total_walkFuel :
  Total s0 walkFuel (fun n => n = S (size (heap s0))).
Proof.
  intros s Hs. exists (S (size (heap s))), s. split; [reflexivity|].
  split; [exact Hs|]. f_equal. apply sameOutline_size, Hs.
Qed.

(** ** Writing a production *)

Lemma Total_modifyBase (p : ptr) (k : kind)
    (f : SieveProductionData -> SieveProductionData) :
  marking f -> K k p -> Total s0 (modifyBase p f) (fun _ => True).
Proof.
  intros Hf Hk s Hs. node Hs Hk.
  destruct (Hf (base nd)) as (H1 & H2 & H3 & H4 & H5).
  exists tt, (mkState (<[p := mkNode (f (base nd)) (prod nd)]> (heap s))
                (bad s) (extensions s)).
  split; [|split; [|exact I]].
  - unfold modifyBase, bind, getNode. now rewrite Hp.
  - apply Inv_insert with nd; [exact Hs | exact Hp | |].
    + unfold outline. simpl. now rewrite H1, H2, H3, H4, H5.
    + split; simpl; [now rewrite H1 | exact Hprod].
Qed.

Lemma blank_length (l l' : list string) :
  length l = length l' ->
  map (fun _ : string => "") l = map (fun _ : string => "") l'.
Proof.
  revert l'. induction l as [|x l IH]; intros [|y l']; simpl;
    try discriminate; [reflexivity|].
  intros [= Hl]. f_equal. now apply IH.
Qed.

Lemma Total_modifyArgument (p : ptr)
    (f : SieveArgumentData -> SieveArgumentData) :
  (forall d, arg_list d <> Some [] ->
     length (default [] (arg_list d)) = stringsOf (heap s0) p ->
     arg_tag (f d) = arg_tag d /\ arg_number (f d) = arg_number d
     /\ arg_calls (f d) = arg_calls d
     /\ length (default [] (arg_list (f d))) = length (default [] (arg_list d))
     /\ arg_list (f d) <> Some []) ->
  K KArgument p -> Total s0 (modifyArgument p f) (fun _ => True).
Proof.
  intros Hf Hk s Hs.
  destruct (Total_getArgument p Hk s Hs) as (d & s1 & Hrun & _ & Hne & Hlen).
  node Hs Hk. unfold getArgument, bind, getNode in Hrun. rewrite Hp in Hrun.
  destruct (prod nd) as [|d'|d'|c|d'|d'] eqn:Hd; try discriminate.
  injection Hrun as -> _.
  destruct (Hf d Hne Hlen) as (H1 & H2 & H3 & H4 & H5).
  exists tt, (mkState (<[p := mkNode (base nd) (ArgumentP (f d))]> (heap s))
                (bad s) (extensions s)).
  split; [|split; [|exact I]].
  - unfold modifyArgument, bind, getNode. now rewrite Hp, Hd.
  - apply Inv_insert with nd; [exact Hs | exact Hp | |].
    + unfold outline. simpl. now rewrite Hd, H1, H2, H3, (blank_length _ _ H4).
    + split; simpl; [exact Hpar | exact H5].
Qed.

Lemma Total_setParsed (p : ptr) (b : bool) :
  K KArgument p -> Total s0 (SieveArgument.setParsed p b) (fun _ => True).
Proof.
  intros Hk. apply Total_modifyArgument; [|exact Hk].
  intros d Hne _. simpl. auto.
Qed.

Lemma Total_setString (a : ptr) (k : nat) (v : string) :
  K KArgument a -> (0 < stringsOf (heap s0) a)%nat ->
  Total s0
    (modifyArgument a (fun d =>
       SieveArgument.withList
         (Some (<[k := v]> (default [] (arg_list d)))) d))
    (fun _ => True).
Proof.
  intros Hk Hpos. apply Total_modifyArgument; [|exact Hk].
  intros d Hne Hlen. simpl. rewrite length_insert.
  repeat split; try reflexivity.
  intros [= He]. apply (f_equal length) in He.
  rewrite length_insert in He. simpl in He. lia.
Qed.

Lemma Total_renumber (this : ptr) (n : list ptr) :
  K KArgumentList this -> Forall (K KArgument) n ->
  Total s0
    (modifyArgumentList this (fun d =>
       mkArgumentList (args_a d) (args_t d) n))
    (fun _ => True).
Proof.
  intros Hk Hn s Hs. node Hs Hk. unfold kindOf in Hkind.
  destruct (prod nd) as [|d|d|c|d|d] eqn:Hd; try discriminate.
  exists tt,
    (mkState (<[this := mkNode (base nd)
                          (ArgumentListP
                             (mkArgumentList (args_a d) (args_t d) n))]>
                (heap s)) (bad s) (extensions s)).
  split; [|split; [|exact I]].
  - unfold modifyArgumentList, bind, getNode. now rewrite Hp, Hd.
  - apply Inv_insert with nd; [exact Hs | exact Hp | |].
    + unfold outline. simpl. now rewrite Hd.
    + split; simpl; [exact Hpar|].
      destruct Hprod as (Ha & Ht & _). auto.
Qed.

Lemma Total_annotate (this : ptr) (f : SieveTestData -> SieveTestData) :
  annotation f -> K KTest this -> Total s0 (modifyTest this f) (fun _ => True).
Proof.
  intros Hf Hk s Hs. node Hs Hk. unfold kindOf in Hkind.
  destruct (prod nd) as [|d|d|c|d|d] eqn:Hd; try discriminate.
  destruct (Hf d) as (H1 & H2 & H3).
  exists tt, (mkState (<[this := mkNode (base nd) (TestP (f d))]> (heap s))
                (bad s) (extensions s)).
  split; [|split; [|exact I]].
  - unfold modifyTest, bind, getNode. now rewrite Hp, Hd.
  - apply Inv_insert with nd; [exact Hs | exact Hp | |].
    + unfold outline. simpl. now rewrite Hd, H1, H2, H3.
    + split; simpl; [exact Hpar|]. now rewrite H2.
Qed.

Lemma Total_rememberBadProduction (p : ptr) :
  Total s0 (SieveParser.rememberBadProduction p) (fun _ => True).
Proof.
  intros s Hs. eexists tt, _. split; [reflexivity|].
  split; [|exact I]. now apply Inv_heap with s.
Qed.

Lemma Total_rememberNeededExtension (x : string) :
  Total s0 (SieveParser.rememberNeededExtension x) (fun _ => True).
Proof.
  intros s Hs. eexists tt, _. split; [reflexivity|].
  split; [|exact I]. now apply Inv_heap with s.
Qed.

(** ** Walks up the tree *)

Create HintDb total.

Hint Resolve Total_getBase Total_getArgument Total_getArgumentList
  Total_getBlock Total_getCommand Total_getTest Total_walkFuel
  Total_setParsed Total_rememberBadProduction Total_rememberNeededExtension
  : total.

Hint Extern 2 (hasKind _ _ _) =>
  match goal with
  | E : Some _ = Some _ |- _ => injection E as <-; assumption
  end : total.

Ltac unpack :=
  cbv beta in *;
  repeat match goal with
    | H : _ /\ _ |- _ => destruct H
    | H : exists _, _ |- _ => destruct H
    | H : Forall _ (_ :: _) |- _ => apply Forall_cons in H
    | H : Some _ = Some _ |- _ => injection H as H
    | H : forall q, ?x = Some q -> _, E : ?x = Some ?y |- _ =>
        specialize (H y E)
    | H : forall q, Some ?y = Some q -> _ |- _ => specialize (H y eq_refl)
    end.

Ltac fin := cbv beta; intros; unpack; subst; try discriminate; eauto.

Ltac total_leaf :=
  first
    [ solve [eauto with total]
    | solve [eapply Total_weaken; [eauto with total | fin]]
    | solve [subst; eauto with total] ].

Ltac total_step :=
  unpack;
  lazymatch goal with
  | |- Total _ (bind ?m _) _ =>
      lazymatch m with
      | (if _ then _ else _) =>
          apply Total_bind with (Q := fun _ => True); [|intros ? _]
      | (match _ with _ => _ end) =>
          apply Total_bind with (Q := fun _ => True); [|intros ? _]
      | _ => eapply Total_bind; [|intros ? ?]
      end
  | |- Total _ (forEach _ _) _ =>
      first
        [ eapply Total_forEach; [eassumption|]
        | eapply Total_forEach;
          [apply Forall_cons_2; [|eassumption]; eassumption|]
        | apply Total_forEach with (P := fun _ => True);
          [apply Forall_true; exact (fun _ => I)|] ];
      intros ? ?
  | |- Total _ (if ?b then _ else _) _ => destruct b eqn:?
  | |- Total _ (match ?x with _ => _ end) _ => destruct x eqn:?
  | |- Total _ (ret _) ?Q =>
      tryif is_evar Q then apply Total_ret with (Q := fun _ => True); exact I
      else (apply Total_ret; solve [fin])
  | |- Total _ _ _ => total_leaf
  end.

Ltac total := repeat total_step.

Lemma Total_findIhaveFailed (fuel : nat) (p : option ptr) :
  (forall q, p = Some q -> (q < fuel)%nat /\ exists k, K k q) ->
  Total s0 (SieveProduction.findIhaveFailed fuel p) (fun _ => True).
Proof.
  revert p. induction fuel as [|n IH]; intros [q|] Hq; simpl;
    try (now apply Total_ret).
  - destruct (Hq q eq_refl). lia.
  - destruct (Hq q eq_refl) as (Hlt & k & Hk).
    eapply Total_bind; [exact (Total_getBase q k Hk)|].
    intros d Hd. destruct (prod_ihaveFailed d); [now apply Total_ret|].
    apply IH. intros r Hr. destruct (Hd r Hr). split; [lia|assumption].
Qed.

Lemma Total_declared (fuel : nat) (p : option ptr) (x : string) :
  (forall q, p = Some q -> (q < fuel)%nat /\ exists k, K k q) ->
  Total s0 (SieveProduction.declared fuel p x) (fun _ => True).
Proof.
  revert p. induction fuel as [|n IH]; intros [q|] Hq; simpl;
    try (now apply Total_ret).
  - destruct (Hq q eq_refl). lia.
  - destruct (Hq q eq_refl) as (Hlt & k & Hk).
    eapply Total_bind; [exact (Total_getBase q k Hk)|].
    intros d Hd.
    assert (Hup : Total s0 (SieveProduction.declared n (prod_parent d) x)
                    (fun _ => True)).
    { apply IH. intros r Hr. destruct (Hd r Hr). split; [lia|assumption]. }
    destruct (prod_addedExtensions d) as [l|]; [|exact Hup].
    destruct (contains l x); [now apply Total_ret | exact Hup].
Qed.

Lemma Total_already (fuel : nat) (p : option ptr) :
  (forall q, p = Some q -> (q < fuel)%nat /\ exists k, K k q) ->
  Total s0 (SieveProduction.already fuel p) (fun _ => True).
Proof.
  revert p. induction fuel as [|n IH]; intros [q|] Hq; simpl;
    try (now apply Total_ret).
  - destruct (Hq q eq_refl). lia.
  - destruct (Hq q eq_refl) as (Hlt & k & Hk).
    eapply Total_bind; [exact (Total_getBase q k Hk)|].
    intros d Hd. eapply Total_bind; [|intros; now apply Total_ret].
    apply IH. intros r Hr. destruct (Hd r Hr). split; [lia|assumption].
Qed.

(** A production of the tree is below the fuel of a walk. *)
Lemma walk_start (k : kind) (p : ptr) (n : nat) :
  K k p -> n = S (size (heap s0)) ->
  forall q, Some p = Some q -> (q < n)%nat /\ exists k', K k' q.
Proof.
  intros Hk -> q [= <-]. split; [|eauto].
  unfold hasKind in Hk. destruct (heap s0 !! p) as [nd|] eqn:Hp;
    [|discriminate].
  destruct (wf0 p nd Hp). lia.
Qed.

(** ** SieveProduction *)

Lemma marking_withError (e : string) : marking (SieveProduction.withError e).
Proof. intros d. repeat split. Qed.

Lemma marking_withIhaveFailed (b : bool) :
  marking (SieveProduction.withIhaveFailed b).
Proof. intros d. repeat split. Qed.

Lemma marking_withAddedExtensions (g : SieveProductionData -> option (list string)) :
  marking (fun d => SieveProduction.withAddedExtensions (g d) d).
Proof. intros d. repeat split. Qed.

Lemma Total_setError (this : ptr) (e : string) (k : kind) :
  K k this -> Total s0 (SieveProduction.setError this e) (fun _ => True).
Proof.
  intros Hk. unfold SieveProduction.setError.
  pose proof (Total_modifyBase this k _ (marking_withError e) Hk) as Hm.
  total.
  apply Total_findIhaveFailed. now apply walk_start with k.
Qed.

Lemma Total_setIhaveFailed (this : ptr) (k : kind) :
  K k this -> Total s0 (SieveProduction.setIhaveFailed this) (fun _ => True).
Proof.
  intros Hk. apply Total_modifyBase with k; [|exact Hk].
  apply marking_withIhaveFailed.
Qed.

Lemma Total_require (this : ptr) (x : string) (k : kind) :
  K k this -> Total s0 (SieveProduction.require this x) (fun _ => True).
Proof.
  intros Hk. unfold SieveProduction.require.
  eapply Total_bind; [apply Total_walkFuel|]. intros n Hn.
  eapply Total_bind;
    [apply Total_declared; now apply walk_start with k|].
  intros found _. total.
Qed.

Lemma Total_addExtensions (this : ptr) (l : option (list string)) (k : kind) :
  K k this -> Total s0 (SieveProduction.addExtensions this l) (fun _ => True).
Proof.
  intros Hk. unfold SieveProduction.addExtensions.
  destruct l as [[|x l]|]; try (now apply Total_ret).
  eapply Total_bind; [apply Total_walkFuel|]. intros n Hn.
  eapply Total_bind;
    [apply Total_already; now apply walk_start with k|].
  intros al _. apply Total_forEach with (P := fun _ => True).
  { apply Forall_true. auto. }
  intros i _. destruct (negb (contains al i)); [|now apply Total_ret].
  apply Total_modifyBase with k; [|exact Hk].
  apply (marking_withAddedExtensions
           (fun d => Some (default [] (prod_addedExtensions d) ++ [i]))).
Qed.

Hint Resolve Total_setError Total_setIhaveFailed Total_require
  Total_addExtensions : total.

(** ** SieveArgument *)

Local Notation "'argOpt'" :=
  (fun r : option ptr => forall x, r = Some x -> K KArgument x).

Lemma Total_assertNumber (p : ptr) :
  K KArgument p -> Total s0 (SieveArgument.assertNumber p) (fun _ => True).
Proof. intros Hk. unfold SieveArgument.assertNumber. total. Qed.

Lemma Total_assertString (p : ptr) :
  K KArgument p -> Total s0 (SieveArgument.assertString p) (fun _ => True).
Proof. intros Hk. unfold SieveArgument.assertString. total. Qed.

Lemma Total_assertStringList (p : ptr) :
  K KArgument p ->
  Total s0 (SieveArgument.assertStringList p) (fun _ => True).
Proof. intros Hk. unfold SieveArgument.assertStringList. total. Qed.

Lemma Total_assertTag (p : ptr) :
  K KArgument p -> Total s0 (SieveArgument.assertTag p) (fun _ => True).
Proof. intros Hk. unfold SieveArgument.assertTag. total. Qed.

Lemma Total_stringList (p : ptr) :
  K KArgument p -> Total s0 (SieveArgument.stringList p) argOpt.
Proof.
  intros Hk. unfold SieveArgument.stringList.
  eapply Total_bind; [now apply Total_getArgument|]. intros d _.
  apply Total_ret. destruct (bool_decide _); intros x [= <-]. exact Hk.
Qed.

Hint Resolve Total_assertNumber Total_assertString Total_assertStringList
  Total_assertTag Total_stringList : total.

(** ** SieveArgumentList *)

Lemma Total_arguments (this : ptr) :
  K KArgumentList this ->
  Total s0 (SieveArgumentList.arguments this) (Forall (K KArgument)).
Proof. intros Hk. unfold SieveArgumentList.arguments. total. Qed.

Lemma Total_tests (this : ptr) :
  K KArgumentList this ->
  Total s0 (SieveArgumentList.tests this)
    (Forall (fun t => K KTest t /\ (this < t)%nat)).
Proof. intros Hk. unfold SieveArgumentList.tests. total. Qed.

Hint Resolve Total_arguments Total_tests : total.

Lemma Total_argumentFollowingTagLoop (l : list ptr) (tag : string)
    (firstTag result : option ptr) :
  Forall (K KArgument) l -> argOpt firstTag -> argOpt result ->
  Total s0 (SieveArgumentList.argumentFollowingTagLoop l tag firstTag result)
    argOpt.
Proof.
  revert firstTag result.
  induction l as [|i rest IH]; intros firstTag result Hl Hf Hr; simpl.
  - now apply Total_ret.
  - apply Forall_cons in Hl. destruct Hl as [Hi Hrest].
    eapply Total_bind; [now apply Total_getArgument|]. intros a _.
    apply Total_bind with (Q := argOpt).
    { destruct (arg_tag a =? tag)%string; [|now apply Total_ret].
      destruct firstTag as [f|].
      - pose proof (Hf f eq_refl). total.
      - total. }
    intros firstTag' Hf'.
    apply Total_bind with (Q := argOpt).
    { destruct firstTag' as [f|]; [|now apply Total_ret].
      destruct result as [r|]; [now apply Total_ret|].
      pose proof (Hf' f eq_refl).
      destruct rest as [|j rest']; total. }
    intros result' Hr'. now apply IH.
Qed.

Lemma Total_argumentFollowingTag (this : ptr) (tag : string) :
  K KArgumentList this ->
  Total s0 (SieveArgumentList.argumentFollowingTag this tag) argOpt.
Proof.
  intros Hk. unfold SieveArgumentList.argumentFollowingTag.
  eapply Total_bind; [now apply Total_arguments|]. intros l Hl.
  apply Total_argumentFollowingTagLoop; [exact Hl | |]; intros ? [=].
Qed.

Lemma Total_firstElement (l : list string) :
  l <> [] -> Total s0 (SieveArgumentList.firstElement l) (fun _ => True).
Proof. destruct l; [congruence|]. intros _. now apply Total_ret. Qed.

Hint Resolve Total_argumentFollowingTag : total.

Hint Extern 1 (Total _ (SieveArgumentList.firstElement _) _) =>
  apply Total_firstElement; congruence : total.

Lemma Total_takeTaggedString (this : ptr) (tag : string) :
  K KArgumentList this ->
  Total s0 (SieveArgumentList.takeTaggedString this tag) (fun _ => True).
Proof. intros Hk. unfold SieveArgumentList.takeTaggedString. total. Qed.

Lemma Total_takeTaggedStringList (this : ptr) (tag : string) :
  K KArgumentList this ->
  Total s0 (SieveArgumentList.takeTaggedStringList this tag) argOpt.
Proof. intros Hk. unfold SieveArgumentList.takeTaggedStringList. total. Qed.

Lemma Total_takeTaggedNumber (this : ptr) (tag : string) :
  K KArgumentList this ->
  Total s0 (SieveArgumentList.takeTaggedNumber this tag) (fun _ => True).
Proof. intros Hk. unfold SieveArgumentList.takeTaggedNumber. total. Qed.

Hint Resolve Total_takeTaggedString Total_takeTaggedStringList
  Total_takeTaggedNumber : total.

Lemma Total_findTagSeek (l : list ptr) (tag : string) :
  Forall (K KArgument) l ->
  Total s0 (SieveArgumentList.findTagSeek l tag) (Forall (K KArgument)).
Proof.
  induction l as [|a rest IH]; intros Hl; simpl.
  - now apply Total_ret.
  - pose proof Hl as Hl'. apply Forall_cons in Hl'. destruct Hl' as [Ha Hr].
    eapply Total_bind; [now apply Total_getArgument|]. intros d _.
    destruct (negb (arg_tag d =? tag)%string); [now apply IH|].
    now apply Total_ret.
Qed.

Lemma Total_findTag (this : ptr) (tag : string) :
  K KArgumentList this ->
  Total s0 (SieveArgumentList.findTag this tag) argOpt.
Proof.
  intros Hk. unfold SieveArgumentList.findTag.
  eapply Total_bind; [now apply Total_arguments|]. intros l Hl.
  eapply Total_bind; [now apply Total_findTagSeek|]. intros pos Hpos.
  total.
Qed.

Lemma Total_allowOneTagCollect (l : list ptr) (ts : list string) :
  Forall (K KArgument) l ->
  Total s0 (SieveArgumentList.allowOneTagCollect l ts) (Forall (K KArgument)).
Proof.
  induction l as [|a rest IH]; intros Hl; simpl.
  - now apply Total_ret.
  - apply Forall_cons in Hl. destruct Hl as [Ha Hr].
    eapply Total_bind; [now apply Total_getArgument|]. intros d _.
    eapply Total_bind; [now apply IH|]. intros r Hrr.
    destruct (_ && _); apply Total_ret; auto.
Qed.

Lemma Total_allowOneTag (this : ptr) (ts : list string) :
  K KArgumentList this ->
  Total s0 (SieveArgumentList.allowOneTag this ts) (fun _ => True).
Proof.
  intros Hk. unfold SieveArgumentList.allowOneTag.
  eapply Total_bind; [now apply Total_arguments|]. intros l Hl.
  eapply Total_bind; [now apply Total_allowOneTagCollect|]. intros r Hr.
  total.
Qed.

Lemma Total_unparsed (l : list ptr) :
  Forall (K KArgument) l ->
  Total s0 (SieveArgumentList.unparsed l) (Forall (K KArgument)).
Proof.
  induction l as [|a rest IH]; intros Hl; simpl.
  - now apply Total_ret.
  - apply Forall_cons in Hl. destruct Hl as [Ha Hr].
    eapply Total_bind; [now apply Total_getArgument|]. intros d _.
    eapply Total_bind; [now apply IH|]. intros r Hrr.
    destruct (negb _); apply Total_ret; auto.
Qed.

Lemma Total_numberRemainingArguments (this : ptr) :
  K KArgumentList this ->
  Total s0 (SieveArgumentList.numberRemainingArguments this) (fun _ => True).
Proof.
  intros Hk. unfold SieveArgumentList.numberRemainingArguments.
  eapply Total_bind; [now apply Total_arguments|]. intros l Hl.
  eapply Total_bind; [now apply Total_unparsed|]. intros n Hn.
  now apply Total_renumber.
Qed.

Lemma Total_flagUnparsedAsBad (this : ptr) :
  K KArgumentList this ->
  Total s0 (SieveArgumentList.flagUnparsedAsBad this) (fun _ => True).
Proof. intros Hk. unfold SieveArgumentList.flagUnparsedAsBad. total. Qed.

Lemma advance_Forall (P : ptr -> Prop) (l : list ptr) (n : nat) :
  Forall P l -> Forall P (SieveArgumentList.advance l n).
Proof.
  revert n. induction l as [|x l IH]; intros n Hl; simpl; [constructor|].
  destruct (1 <? n)%nat; [|exact Hl].
  apply IH. now apply Forall_cons in Hl.
Qed.

Lemma advanceSame_Forall (P : ptr -> Prop) (l : list ptr) (n : nat) :
  Forall P l -> Forall P (SieveArgumentList.advanceSame l n).
Proof.
  induction l as [|x l IH]; intros Hl; simpl; [constructor|].
  destruct (1 <? n)%nat; [|exact Hl].
  apply IH. now apply Forall_cons in Hl.
Qed.

Lemma Total_takeStringList (this : ptr) (n : nat) :
  K KArgumentList this ->
  Total s0 (SieveArgumentList.takeStringList this n) argOpt.
Proof.
  intros Hk. unfold SieveArgumentList.takeStringList.
  eapply Total_bind; [now apply Total_getArgumentList|].
  intros d (_ & _ & Hn). apply (advance_Forall _ _ n) in Hn.
  total.
Qed.

Lemma Total_takeString (this : ptr) (n : nat) :
  K KArgumentList this ->
  Total s0 (SieveArgumentList.takeString this n) (fun _ => True).
Proof.
  intros Hk. unfold SieveArgumentList.takeString.
  eapply Total_bind; [now apply Total_getArgumentList|].
  intros d (_ & _ & Hn). apply (advance_Forall _ _ n) in Hn.
  total.
Qed.

Lemma Total_takeNumber (this : ptr) (n : nat) :
  K KArgumentList this ->
  Total s0 (SieveArgumentList.takeNumber this n) (fun _ => True).
Proof.
  intros Hk. unfold SieveArgumentList.takeNumber.
  eapply Total_bind; [now apply Total_getArgumentList|].
  intros d (_ & _ & Hn). apply (advance_Forall _ _ n) in Hn.
  total.
Qed.

Lemma Total_takeArgument (this : ptr) (n : nat) :
  K KArgumentList this ->
  Total s0 (SieveArgumentList.takeArgument this n) argOpt.
Proof.
  intros Hk. unfold SieveArgumentList.takeArgument.
  eapply Total_bind; [now apply Total_getArgumentList|].
  intros d (_ & _ & Hn). apply (advanceSame_Forall _ _ n) in Hn.
  apply Total_ret. intros x Hx.
  destruct (SieveArgumentList.advanceSame (args_n d) n) as [|y r];
    [discriminate|].
  injection Hx as <-. now apply Forall_cons in Hn.
Qed.

Hint Resolve Total_findTag Total_allowOneTag Total_numberRemainingArguments
  Total_flagUnparsedAsBad Total_takeStringList Total_takeString
  Total_takeNumber Total_takeArgument : total.

Lemma Total_tagError (this : ptr) (tag e : string) :
  K KArgumentList this ->
  Total s0 (SieveArgumentList.tagError this tag e) (fun _ => True).
Proof.
  intros Hk. unfold SieveArgumentList.tagError.
  eapply Total_bind; [now apply Total_argumentFollowingTag|]. intros t Ht.
  apply Total_bind with (Q := argOpt).
  { destruct t; [now apply Total_ret | now apply Total_findTag]. }
  intros t' Ht'. total.
Qed.

Hint Resolve Total_tagError : total.

(** ** SieveNotifyMethod *)

Context `{Collaborators}.

Lemma Total_report (arg : option ptr) (owner : ptr) (e : string) (k : kind) :
  K k owner -> argOpt arg ->
  Total s0 (SieveNotifyMethod.report arg owner e) (fun _ => True).
Proof.
  intros Hk Ha. unfold SieveNotifyMethod.report.
  destruct (isEmpty e); [now apply Total_ret|].
  destruct arg as [q|]; simpl.
  - apply Total_setError with KArgument. now apply Ha.
  - now apply Total_setError with k.
Qed.

Lemma Total_new (url : string) (arg : option ptr) (owner : ptr) (k : kind) :
  K k owner -> argOpt arg ->
  Total s0 (SieveNotifyMethod.new url arg owner) (fun _ => True).
Proof.
  intros Hk Ha. unfold SieveNotifyMethod.new.
  eapply Total_bind; [now apply Total_report with k|].
  intros. now apply Total_ret.
Qed.

Lemma Total_setFrom (owner : ptr) (from : string) (arg : option ptr)
    (k : kind) :
  K k owner -> argOpt arg ->
  Total s0 (SieveNotifyMethod.setFrom owner from arg) (fun _ => True).
Proof. intros Hk Ha. now apply Total_report with k. Qed.

Lemma Total_setMessage (owner : ptr) (m : string) (arg : option ptr)
    (k : kind) :
  K k owner -> argOpt arg ->
  Total s0 (SieveNotifyMethod.setMessage owner m arg) (fun _ => True).
Proof. intros Hk Ha. now apply Total_report with k. Qed.

Hint Resolve Total_new Total_setFrom Total_setMessage : total.

(** ** SieveTest *)

Lemma Total_test_identifier (this : ptr) :
  K KTest this -> Total s0 (SieveTest.identifier this) (fun _ => True).
Proof. intros Hk. unfold SieveTest.identifier. total. Qed.

Lemma Total_test_arguments (this : ptr) :
  K KTest this ->
  Total s0 (SieveTest.arguments this)
    (fun al => K KArgumentList al /\ (this < al)%nat).
Proof.
  intros Hk. unfold SieveTest.arguments.
  eapply Total_bind; [now apply Total_getTest|].
  intros d (al & -> & Hal & Hlt). now apply Total_ret.
Qed.

Lemma Total_strings (l : option ptr) :
  argOpt l -> Total s0 (SieveTest.strings l) (fun _ => True).
Proof. intros Hl. unfold SieveTest.strings. total. Qed.

Hint Resolve Total_test_identifier Total_test_arguments Total_strings : total.

Hint Extern 1 (Total _ (SieveTest.setMatchType _ _) _) =>
  apply Total_annotate; [intros ?; repeat split | assumption] : total.
Hint Extern 1 (Total _ (SieveTest.setMatchOperator _ _) _) =>
  apply Total_annotate; [intros ?; repeat split | assumption] : total.
Hint Extern 1 (Total _ (SieveTest.setAddressPart _ _) _) =>
  apply Total_annotate; [intros ?; repeat split | assumption] : total.
Hint Extern 1 (Total _ (SieveTest.setComparator _ _) _) =>
  apply Total_annotate; [intros ?; repeat split | assumption] : total.
Hint Extern 1 (Total _ (SieveTest.setBodyMatchType _ _) _) =>
  apply Total_annotate; [intros ?; repeat split | assumption] : total.
Hint Extern 1 (Total _ (SieveTest.setHeaders _ _) _) =>
  apply Total_annotate; [intros ?; repeat split | assumption] : total.
Hint Extern 1 (Total _ (SieveTest.setEnvelopeParts _ _) _) =>
  apply Total_annotate; [intros ?; repeat split | assumption] : total.
Hint Extern 1 (Total _ (SieveTest.setKeys _ _) _) =>
  apply Total_annotate; [intros ?; repeat split | assumption] : total.
Hint Extern 1 (Total _ (SieveTest.setContentTypes _ _) _) =>
  apply Total_annotate; [intros ?; repeat split | assumption] : total.
Hint Extern 1 (Total _ (SieveTest.setDatePart _ _) _) =>
  apply Total_annotate; [intros ?; repeat split | assumption] : total.
Hint Extern 1 (Total _ (SieveTest.setZone _ _) _) =>
  apply Total_annotate; [intros ?; repeat split | assumption] : total.
Hint Extern 1 (Total _ (SieveTest.setSize _ _ _) _) =>
  apply Total_annotate; [intros ?; repeat split | assumption] : total.

Lemma Total_findComparator (this : ptr) :
  K KTest this -> Total s0 (SieveTest.findComparator this) (fun _ => True).
Proof. intros Hk. unfold SieveTest.findComparator. total. Qed.

Lemma Total_findMatchType (this : ptr) :
  K KTest this -> Total s0 (SieveTest.findMatchType this) (fun _ => True).
Proof. intros Hk. unfold SieveTest.findMatchType. total. Qed.

Lemma Total_findAddressPart (this : ptr) :
  K KTest this -> Total s0 (SieveTest.findAddressPart this) (fun _ => True).
Proof. intros Hk. unfold SieveTest.findAddressPart. total. Qed.

Lemma Total_headerField (this a : ptr) (k : nat) :
  K KTest this -> K KArgument a ->
  Total s0 (SieveTest.headerField this a k) (fun _ => True).
Proof.
  intros Hk Ha. unfold SieveTest.headerField.
  eapply Total_bind; [now apply Total_getArgument|]. intros d [_ Hlen].
  destruct (default [] (arg_list d) !! k) as [s|] eqn:Hs;
    [|now apply Total_ret].
  apply lookup_lt_Some in Hs. rewrite Hlen in Hs.
  assert (Hset : forall v,
            Total s0
              (modifyArgument a (fun d' =>
                 SieveArgument.withList
                   (Some (<[k := v]> (default [] (arg_list d')))) d'))
              (fun _ => True)).
  { intros v. apply Total_setString; [exact Ha | lia]. }
  total.
Qed.

Lemma Total_envelopePart (this a : ptr) (k : nat) :
  K KTest this -> K KArgument a ->
  Total s0 (SieveTest.envelopePart this a k) (fun _ => True).
Proof.
  intros Hk Ha. unfold SieveTest.envelopePart.
  eapply Total_bind; [now apply Total_getArgument|]. intros d [_ Hlen].
  destruct (default [] (arg_list d) !! k) as [s|] eqn:Hs;
    [|now apply Total_ret].
  apply lookup_lt_Some in Hs. rewrite Hlen in Hs.
  destruct (_ || _); [|total].
  apply Total_setString; [exact Ha | lia].
Qed.

Hint Resolve Total_findComparator Total_findMatchType Total_findAddressPart
  Total_headerField Total_envelopePart : total.

Lemma Total_takeHeaderFieldList (this : ptr) (n : nat) :
  K KTest this ->
  Total s0 (SieveTest.takeHeaderFieldList this n) argOpt.
Proof. intros Hk. unfold SieveTest.takeHeaderFieldList. total. Qed.

Hint Resolve Total_takeHeaderFieldList : total.

(** A test of the tree is below the number of productions. *)
Lemma below (k : kind) (p : ptr) : K k p -> (p < size (heap s0))%nat.
Proof.
  unfold hasKind. destruct (heap s0 !! p) as [nd|] eqn:Hp; [|discriminate].
  intros _. now destruct (wf0 p nd Hp).
Qed.

Lemma Total_test_parse (fuel : nat) (this : ptr) :
  K KTest this -> (size (heap s0) <= fuel + this)%nat ->
  Total s0 (SieveTest.parse fuel this) (fun _ => True).
Proof.
  revert this. induction fuel as [|n IH]; intros this Hk Hfuel.
  { apply below in Hk. simpl in Hfuel. lia. }
  assert (Hsub : forall al t,
            (this < al)%nat -> K KTest t /\ (al < t)%nat ->
            Total s0 (SieveTest.parse n t) (fun _ => True)).
  { intros al t Hal [Ht Hlt]. apply IH; [exact Ht | lia]. }
  cbn [SieveTest.parse]. total.
Qed.

(** ** SieveCommand *)

Lemma Total_command_identifier (this : ptr) :
  K KCommand this -> Total s0 (SieveCommand.identifier this) (fun _ => True).
Proof. intros Hk. unfold SieveCommand.identifier. total. Qed.

Lemma Total_command_arguments (this : ptr) :
  K KCommand this ->
  Total s0 (SieveCommand.arguments this)
    (fun al => K KArgumentList al /\ (this < al)%nat).
Proof.
  intros Hk. unfold SieveCommand.arguments.
  eapply Total_bind; [now apply Total_getCommand|].
  intros d ((al & -> & Hal & Hlt) & _). now apply Total_ret.
Qed.

Lemma Total_commands (this : ptr) :
  K KBlock this ->
  Total s0 (SieveBlock.commands this)
    (Forall (fun x => K KCommand x /\ (this < x)%nat)).
Proof. apply Total_getBlock. Qed.

Hint Resolve Total_command_identifier Total_command_arguments Total_commands
  : total.

Lemma Total_parseAsAddress (this : ptr) (s t : string) :
  K KCommand this ->
  Total s0 (SieveCommand.parseAsAddress this s t) (fun _ => True).
Proof. intros Hk. unfold SieveCommand.parseAsAddress. total. Qed.

Hint Resolve Total_parseAsAddress : total.

Lemma Total_parseVacation (this : ptr) :
  K KCommand this -> Total s0 (SieveCommand.parseVacation this) (fun _ => True).
Proof. intros Hk. unfold SieveCommand.parseVacation. total. Qed.

Lemma Total_parseNotify (this : ptr) :
  K KCommand this -> Total s0 (SieveCommand.parseNotify this) (fun _ => True).
Proof. intros Hk. unfold SieveCommand.parseNotify. total. Qed.

Lemma Total_parseFileinto (this : ptr) :
  K KCommand this -> Total s0 (SieveCommand.parseFileinto this) (fun _ => True).
Proof. intros Hk. unfold SieveCommand.parseFileinto. total. Qed.

Lemma Total_parseRequire (this : ptr) :
  K KCommand this -> Total s0 (SieveCommand.parseRequire this) (fun _ => True).
Proof. intros Hk. unfold SieveCommand.parseRequire. total. Qed.

Hint Resolve Total_parseVacation Total_parseNotify Total_parseFileinto
  Total_parseRequire : total.

Lemma Total_parseEach (f : ptr -> string -> M unit) (P : ptr -> Prop)
    (l : list ptr) (prev : string) :
  Forall P l -> (forall x, P x -> K KCommand x) ->
  (forall x p, P x -> Total s0 (f x p) (fun _ => True)) ->
  Total s0 (SieveCommand.parseEach f l prev) (fun _ => True).
Proof.
  intros Hl Hk Hf. revert prev.
  induction Hl as [|x l Hx _ IH]; intros prev; simpl.
  - now apply Total_ret.
  - eapply Total_bind; [now apply Hf|]. intros _ _.
    eapply Total_bind; [apply Total_command_identifier; now apply Hk|].
    intros p _. apply IH.
Qed.

Lemma Total_command_parse (fuel : nat) (this : ptr) (previous : string) :
  K KCommand this -> (size (heap s0) <= fuel + this)%nat ->
  Total s0 (SieveCommand.parse fuel this previous) (fun _ => True).
Proof.
  revert this previous.
  induction fuel as [|n IH]; intros this previous Hk Hfuel.
  { apply below in Hk. simpl in Hfuel. lia. }
  assert (Hsub : forall al t,
            (this < al)%nat -> K KTest t /\ (al < t)%nat ->
            Total s0 (SieveTest.parse n t) (fun _ => True)).
  { intros al t Hal [Ht Hlt]. apply Total_test_parse; [exact Ht | lia]. }
  assert (Hblock : forall b c prev,
            (this < b)%nat ->
            Forall (fun x => K KCommand x /\ (b < x)%nat) c ->
            Total s0 (SieveCommand.parseEach (SieveCommand.parse n) c prev)
              (fun _ => True)).
  { intros b c prev Hb Hc.
    apply Total_parseEach with (P := fun x => K KCommand x /\ (b < x)%nat);
      [exact Hc | now intros x [? ?] |].
    intros x p [Hx Hlt]. apply IH; [exact Hx | lia]. }
  cbn [SieveCommand.parse]. total.
Qed.

(** ** SieveScript *)

Lemma Total_analyse (fuel : nat) (cs : list ptr) :
  Forall (K KCommand) cs -> (size (heap s0) <= fuel)%nat ->
  Total s0 (SieveScript.analyse fuel cs) (fun _ => True).
Proof.
  intros Hcs Hfuel. unfold SieveScript.analyse, SieveCommand.parseCommands.
  apply Total_parseEach with (P := K KCommand); [exact Hcs | auto |].
  intros x p Hx. apply Total_command_parse; [exact Hx | lia].
Qed.
End Totality.

(** X28: on a well-formed tree the analysis of a command returns, with
    fuel at least the number of productions less the address of the
    command, and the tree is well-formed afterwards: no null pointer is
    followed, and the walks up the tree end. *)
Theorem command_analysis_returns `{Collaborators} (fuel : nat) (this : ptr)
    (previous : string) (s : state) :
  wf s -> hasKind (heap s) KCommand this ->
  (size (heap s) <= fuel + this)%nat ->
  exists s', SieveCommand.parse fuel this previous s = Some (tt, s') /\ wf s'.
Proof.
  intros Hwf Hk Hfuel.
  destruct (Total_command_parse s Hwf fuel this previous Hk Hfuel s
              (Inv_start s Hwf)) as ([] & s' & Hrun & [Hwf' _] & _).
  eauto.
Qed.

(** X29: on a well-formed tree the analysis of a test returns, with fuel at
    least the number of productions less the address of the test, and the
    tree is well-formed afterwards. *)
Theorem test_analysis_returns `{Collaborators} (fuel : nat) (this : ptr)
    (s : state) :
  wf s -> hasKind (heap s) KTest this ->
  (size (heap s) <= fuel + this)%nat ->
  exists s', SieveTest.parse fuel this s = Some (tt, s') /\ wf s'.
Proof.
  intros Hwf Hk Hfuel.
  destruct (Total_test_parse s Hwf fuel this Hk Hfuel s (Inv_start s Hwf))
    as ([] & s' & Hrun & [Hwf' _] & _).
  eauto.
Qed.

Lemma command_analysis_returns_witness :
  exists s', SieveCommand.parse (H := server) 5 1 "" elseAlone = Some (tt, s')
             /\ wf s'.
Proof.
  apply (command_analysis_returns (H := server) 5 1 "" elseAlone).
  - apply wfb_sound. vm_compute. reflexivity.
  - vm_compute. reflexivity.
  - vm_compute. lia.
Defined.

Lemma test_analysis_returns_witness :
  exists s', SieveTest.parse (H := server) 4 0 envelopeTest = Some (tt, s')
             /\ wf s'.
Proof.
  apply (test_analysis_returns (H := server) 4 0 envelopeTest).
  - apply wfb_sound. vm_compute. reflexivity.
  - vm_compute. reflexivity.
  - vm_compute. lia.
Defined.

Section HeaderFields.

Context `{Collaborators}.

(** The loop over the characters of a header field name. *)
Lemma characters_legal (a : ptr) (f : string) (cs : list nat) (s : state) :
  Forall (fun n => illegal n = false) cs ->
  forEach cs (fun n =>
    if (n <? 33)%nat || (n =? 58)%nat || (126 <? n)%nat then
      SieveProduction.setError a
        ("Illegal character (ASCII " +:+ fn n +:+ ") "
         +:+ "seen in header field name: " +:+ f)
    else ret tt) s
  = Some (tt, s).
Proof.
  induction 1 as [|c cs Hc _ IH]; simpl; [reflexivity|].
  unfold illegal in Hc. rewrite Hc.
  rewrite bind_ret. exact IH.
Qed.

Lemma characters_kept (a : ptr) (f : string) (cs : list nat) (s : state)
    (nd : node) :
  heap s !! a = Some nd -> isEmpty (prod_error (base nd)) = false ->
  exists s',
    forEach cs (fun n =>
      if (n <? 33)%nat || (n =? 58)%nat || (126 <? n)%nat then
        SieveProduction.setError a
          ("Illegal character (ASCII " +:+ fn n +:+ ") "
           +:+ "seen in header field name: " +:+ f)
      else ret tt) s
    = Some (tt, s')
    /\ heap s' = heap s.
Proof.
  revert s. induction cs as [|c cs IH]; intros s Hp Herr; simpl.
  - exists s. split; reflexivity.
  - destruct ((c <? 33)%nat || (c =? 58)%nat || (126 <? c)%nat).
    + destruct (setError_kept s a nd
                  ("Illegal character (ASCII " +:+ fn c
                   +:+ ") " +:+ "seen in header field name: " +:+ f)
                  Hp eq_refl Herr) as (s1 & Hrun & Hh).
      destruct (IH s1) as (s2 & Hrun2 & Hh2);
        [now rewrite Hh | exact Herr |].
      exists s2. split; [|congruence]. run Hrun. exact Hrun2.
    + rewrite bind_ret. now apply IH.
Qed.

Lemma withList_same (da : SieveArgumentData) (l : list string) (k : nat)
    (f : string) :
  arg_list da = Some l -> l !! k = Some f ->
  SieveArgument.withList (Some (<[k := f]> l)) da = da.
Proof.
  intros Hl Hk. rewrite list_insert_id by exact Hk.
  unfold SieveArgument.withList. rewrite <- Hl. now destruct da.
Qed.

(** The end of the loop body: the address check and the casing, for a
    name that passes the address check or an argument that holds an
    error already. *)
Lemma headerField_end (s : state) (this a : ptr) (nd nda : node)
    (d : SieveTestData) (da : SieveArgumentData) (l : list string)
    (k : nat) (f : string) :
  heap s !! this = Some nd -> prod nd = TestP d ->
  heap s !! a = Some nda -> prod nda = ArgumentP da ->
  arg_list da = Some l -> l !! k = Some f ->
  ((test_identifier d =? "address")%string = true ->
   (HeaderField_fieldType (UString_ascii f) =? 0)%nat
   || (HeaderField_LastAddressField
       <? HeaderField_fieldType (UString_ascii f))%nat = false)
  \/ isEmpty (prod_error (base nda)) = false ->
  exists s',
    (i ← SieveTest.identifier this;
     (if (i =? "address")%string then
        let t := HeaderField_fieldType (UString_ascii f) in
        if (t =? 0)%nat || (HeaderField_LastAddressField <? t)%nat then
          SieveProduction.setError a
            ("Not an address field: " +:+ UString_ascii f)
        else ret tt
      else ret tt);;
     if negb (headerCased (UString_ascii f) =? f)%string then
       modifyArgument a (fun d' =>
         SieveArgument.withList
           (Some (<[k := headerCased (UString_ascii f)]>
                    (default [] (arg_list d')))) d')
     else ret tt) s
    = Some (tt, s')
    /\ heap s'
       = (if (headerCased (UString_ascii f) =? f)%string then heap s
          else <[a := mkNode (base nda)
                        (ArgumentP
                           (SieveArgument.withList
                              (Some (<[k := headerCased (UString_ascii f)]> l))
                              da))]>
                 (heap s))
    /\ (((test_identifier d =? "address")%string = true ->
         (HeaderField_fieldType (UString_ascii f) =? 0)%nat
         || (HeaderField_LastAddressField
             <? HeaderField_fieldType (UString_ascii f))%nat
         = false) ->
        bad s' = bad s /\ extensions s' = extensions s).
Proof.
  intros Hp Hd Ha Hda Hl Hk Hok.
  assert (Hcheck : exists s1,
            (if (test_identifier d =? "address")%string then
               let t := HeaderField_fieldType (UString_ascii f) in
               if (t =? 0)%nat || (HeaderField_LastAddressField <? t)%nat then
                 SieveProduction.setError a
                   ("Not an address field: " +:+ UString_ascii f)
               else ret tt
             else ret tt) s = Some (tt, s1)
            /\ heap s1 = heap s
            /\ (((test_identifier d =? "address")%string = true ->
                 (HeaderField_fieldType (UString_ascii f) =? 0)%nat
                 || (HeaderField_LastAddressField
                     <? HeaderField_fieldType (UString_ascii f))%nat
                 = false) -> s1 = s)).
  { destruct (test_identifier d =? "address")%string;
      [|exists s; repeat split; reflexivity].
    cbv zeta.
    destruct ((HeaderField_fieldType (UString_ascii f) =? 0)%nat
              || (HeaderField_LastAddressField
                  <? HeaderField_fieldType (UString_ascii f))%nat)
      eqn:Ht; [|exists s; repeat split; reflexivity].
    destruct Hok as [Hok|Herr]; [now specialize (Hok eq_refl)|].
    destruct (setError_kept s a nda
                ("Not an address field: " +:+ UString_ascii f)
                Ha eq_refl Herr) as (s1 & Hrun & Hh).
    exists s1. split; [exact Hrun|]. split; [exact Hh|].
    intros Hno. now specialize (Hno eq_refl). }
  destruct Hcheck as (s1 & Hrun1 & Hh1 & Hsame).
  unfold SieveTest.identifier. run (getTest_run' _ _ _ _ Hp Hd).
  rewrite bind_ret. run Hrun1.
  destruct (headerCased (UString_ascii f) =? f)%string eqn:Hc; simpl.
  - exists s1. split; [reflexivity|]. split; [exact Hh1|].
    intros Hno. now rewrite (Hsame Hno).
  - rewrite <- Hh1 in Ha.
    rewrite (modifyArgument_run s1 a nda da _ Ha Hda). rewrite Hl. simpl.
    eexists. split; [reflexivity|]. simpl. rewrite Hh1.
    split; [reflexivity|]. intros Hno. now rewrite (Hsame Hno).
Qed.

(** X30: the loop body of [takeHeaderFieldList] on a non-empty name [f]
    with the characters [UString_characters f] and the ASCII form
    [UString_ascii f].  If all characters are legal and, in an address
    test, the ASCII form is an address field, no error is set and the
    only change is that the name is replaced by its header-cased ASCII
    form.  If the name has an illegal character, the argument gets the
    'Illegal character' error with the number of the first such
    character, and the name is replaced all the same. *)
Theorem header_field_names_are_checked (s : state) (this a : ptr)
    (nd nda : node) (d : SieveTestData) (da : SieveArgumentData)
    (l : list string) (k : nat) (f : string) :
  heap s !! this = Some nd -> prod nd = TestP d ->
  heap s !! a = Some nda -> prod nda = ArgumentP da ->
  arg_list da = Some l -> l !! k = Some f -> isEmpty f = false ->
  (Forall (fun n => illegal n = false) (UString_characters f) ->
   ((test_identifier d =? "address")%string = true ->
    (HeaderField_fieldType (UString_ascii f) =? 0)%nat
    || (HeaderField_LastAddressField
        <? HeaderField_fieldType (UString_ascii f))%nat
    = false) ->
   SieveTest.headerField this a k s
   = Some (tt,
           if (headerCased (UString_ascii f) =? f)%string then s
           else mkState
                  (<[a := mkNode (base nda)
                            (ArgumentP
                               (SieveArgument.withList
                                  (Some (<[k := headerCased (UString_ascii f)]>
                                           l)) da))]>
                     (heap s))
                  (bad s) (extensions s)))
  /\ (forall pre c post,
        UString_characters f = pre ++ c :: post ->
        Forall (fun n => illegal n = false) pre -> illegal c = true ->
        errorOf s a = "" -> unsuppressed s a ->
        exists s',
          SieveTest.headerField this a k s = Some (tt, s')
          /\ errorOf s' a
             = "Illegal character (ASCII " +:+ fn c +:+ ") "
               +:+ "seen in header field name: " +:+ f
          /\ argumentAt (heap s') a
             = Some (SieveArgument.withList
                       (Some (<[k := headerCased (UString_ascii f)]> l)) da)).
Proof.
  intros Hp Hd Ha Hda Hl Hk Hne.
  assert (Hget : getArgument a s = Some (da, s)).
  { apply getArgument_run, argumentAt_lookup. eauto. }
  split.
  - intros Hlegal Hok.
    destruct (headerField_end s this a nd nda d da l k f Hp Hd Ha Hda Hl Hk
                (or_introl Hok)) as (s' & Hrun & Hh & Hrest).
    destruct (Hrest Hok) as [Hb Hx].
    unfold SieveTest.headerField. run Hget. rewrite Hl. simpl.
    rewrite Hk, Hne. rewrite bind_ret.
    erewrite bind_run by (apply characters_legal; exact Hlegal).
    cbn beta iota. etransitivity; [exact Hrun|]. do 2 f_equal.
    destruct s' as [h' b' x']. simpl in *. subst.
    destruct (headerCased (UString_ascii f) =? f)%string;
      [now destruct s | reflexivity].
  - intros pre c post Hf Hpre Hc Herr Hu.
    set (msg := "Illegal character (ASCII " +:+ fn c +:+ ") "
                +:+ "seen in header field name: " +:+ f).
    destruct (setError_fresh s a nda msg eq_refl Ha Herr Hu)
      as (s1 & Hrun1 & He1 & Hh1 & _).
    assert (Ha1 : heap s1 !! a
                  = Some (mkNode (SieveProduction.withError msg (base nda))
                            (prod nda))).
    { rewrite Hh1. apply lookup_insert_eq. }
    destruct (characters_kept a f post s1 _ Ha1 eq_refl)
      as (s2 & Hrun2 & Hh2).
    assert (Hne_a : this <> a).
    { intros ->. rewrite Ha in Hp. injection Hp as ->. congruence. }
    assert (Hp2 : heap s2 !! this = Some nd).
    { rewrite Hh2, Hh1. now rewrite lookup_insert_ne by congruence. }
    rewrite <- Hh2 in Ha1.
    destruct (headerField_end s2 this a nd _ d da l k f Hp2 Hd Ha1 Hda Hl Hk
                (or_intror eq_refl)) as (s3 & Hrun3 & Hh3 & _).
    exists s3. split; [|split].
    + unfold SieveTest.headerField. run Hget. rewrite Hl. simpl.
      rewrite Hk, Hne. rewrite bind_ret. rewrite Hf.
      rewrite forEach_app_bind.
      erewrite bind_run by (apply characters_legal; exact Hpre).
      cbn beta iota. cbn [forEach].
      unfold illegal in Hc. rewrite Hc.
      fold msg. run Hrun1. run Hrun2. exact Hrun3.
    + unfold errorOf. rewrite Hh3.
      destruct (headerCased (UString_ascii f) =? f)%string.
      * now rewrite Ha1.
      * now rewrite lookup_insert_eq.
    + unfold argumentAt. rewrite Hh3.
      destruct (headerCased (UString_ascii f) =? f)%string eqn:Hcase.
      * rewrite Ha1. simpl. rewrite Hda. f_equal.
        apply String.eqb_eq in Hcase. rewrite Hcase.
        symmetry. now apply withList_same.
      * now rewrite lookup_insert_eq.
Qed.

End HeaderFields.

Lemma header_field_names_are_checked_witness :
  exists s',
    SieveTest.headerField (H := server) 0 2 0 existsColon = Some (tt, s')
    /\ errorOf s' 2
       = "Illegal character (ASCII " +:+ fn (Collaborators := server) 58
         +:+ ") " +:+ "seen in header field name: " +:+ "a:b"
    /\ argumentAt (heap s') 2
       = Some (SieveArgument.withList
                 (Some (<[0 := headerCased (Collaborators := server)
                                 (UString_ascii (Collaborators := server)
                                    "a:b")]>
                          ["a:b"]))
                 (argumentOf existsColon 2)).
Proof.
  refine (proj2 (header_field_names_are_checked (H := server) existsColon 0 2
                   (nodeAt existsColon 0) (nodeAt existsColon 2)
                   (testOf existsColon 0) (argumentOf existsColon 2)
                   ["a:b"] 0 "a:b" _ _ _ _ _ _ _)
            [97] 58 [98] _ _ _ _ _).
  all: try (vm_compute; reflexivity).
  repeat constructor.
Defined.
